(** * vtkPolyDataBooleanFilter: strips, cutting and region selection

    A shallow embedding of the parts of
    [src/CombineModels/Logic/vtkPolyDataBooleanFilter.cxx] that decide how
    contact lines are grouped, cleaned, cut and combined, together with the
    properties proved about them.

    Conventions.
    - [vtkIdType] is [Z]; a [std::vector] or [std::deque] is a [list].
    - A [std::map] keyed by [vtkIdType] is a [gmap Z _] and a
      [std::set<vtkIdType>] a [gset Z]; where the source walks one with an
      iterator, the model walks [entries] or [sorted_elements], the same
      sequence by increasing key.
    - A [double] is a binary64 [float].
    - Declarations that live in headers outside this translation unit
      ([Capt], [Side], [Loc], the operator modes, [Point3d]'s comparison
      operators) are either modelled from the specification or taken as
      section variables; each place says which. *)

From Stdlib Require Import ZArith List Bool Lia Floats String.
From stdpp Require Import base option list sorting gmap.
Import ListNotations.

Local Open Scope Z_scope.

(** ** Basic data *)

Definition vtkIdType := Z.

(** [NOTSET] marks an unset vertex reference (the source compares against
    it in [GetStripPoints]). *)
Definition NOTSET : vtkIdType := -1.

(** Three [double] coordinates, as stored in a [vtkPoints] array and in the
    [pt], [captPt], [cutPt] members of [StripPt]. *)
Record Point3d := mkPoint3d { px : float; py : float; pz : float }.

(** Modelled from the spec: the capture classes of section 3 (the [Capt]
    enumeration is declared in the header). [Capt_Boundary c] is the test
    [c & Capt::Boundary], true for the captures on the polygon's boundary:
    a vertex ([A], [B]) or the interior of an edge ([Edge]). *)
Inductive Capt := Capt_Not | Capt_Edge | Capt_A | Capt_B | Capt_Branched.

Definition Capt_Boundary (c : Capt) : bool :=
  match c with
  | Capt_Edge | Capt_A | Capt_B => true
  | Capt_Not | Capt_Branched => false
  end.

Definition Capt_eqb (c d : Capt) : bool :=
  match c, d with
  | Capt_Not, Capt_Not | Capt_Edge, Capt_Edge | Capt_A, Capt_A
  | Capt_B, Capt_B | Capt_Branched, Capt_Branched => true
  | _, _ => false
  end.

(** Modelled from the spec: [side] of a strip element (section 3). *)
Inductive Side := Side_None | Side_Start | Side_End.

(** One endpoint of a contact line, localised against a polygon. *)
Record StripPt := mkStripPt {
  sp_ind : vtkIdType;
  sp_polyId : vtkIdType;
  sp_pt : Point3d;
  sp_captPt : Point3d;
  sp_cutPt : Point3d;
  sp_t : float;
  sp_capt : Capt;
  sp_edge : vtkIdType * vtkIdType;
  sp_catched : bool
}.

(** A reference to a [StripPt] inside a strip. *)
Record StripPtR := mkStripPtR {
  r_ind : vtkIdType;
  r_strip : nat;
  r_ref : vtkIdType;
  r_side : Side;
  r_desc : vtkIdType * vtkIdType
}.

Definition StripType := list StripPtR.
Definition StripsType := list StripType.
Definition IdsType := list vtkIdType.

(** [StripPtsType] is [std::map<vtkIdType, StripPt>]. *)
Abbreviation StripPtsType := (gmap Z StripPt).

(** The polygon-local bundle: ring, strip points and strips (the normal and
    the planar base are only used by geometry that is not modelled). *)
Record PStrips := mkPStrips {
  ps_poly : IdsType;
  ps_pts : StripPtsType;
  ps_strips : StripsType
}.

(** [PolyStripsType] is [std::map<vtkIdType, PStrips>]. *)
Abbreviation PolyStripsType := (gmap Z PStrips).

(** The entries of a [std::map<vtkIdType, _>] in the order an iterator
    visits them: by increasing key. *)
Definition key_le {V} (a b : Z * V) : Prop := a.1 <= b.1.

#[global] Instance key_le_dec {V} (a b : Z * V) : Decision (key_le a b) :=
  Z_le_dec a.1 b.1.

Definition entries {V} (m : gmap Z V) : list (Z * V) :=
  merge_sort key_le (map_to_list m).

(** The elements of a [std::set<vtkIdType>] in iteration order. *)
Definition sorted_elements (s : gset Z) : list Z :=
  merge_sort Z.le (elements s).

(** ** A small model of vtkPolyData *)

Inductive CellType := VTK_EMPTY_CELL | VTK_LINE | VTK_POLYGON.

Definition CellType_eqb (a b : CellType) : bool :=
  match a, b with
  | VTK_EMPTY_CELL, VTK_EMPTY_CELL | VTK_LINE, VTK_LINE
  | VTK_POLYGON, VTK_POLYGON => true
  | _, _ => false
  end.

Record Cell := mkCell { cellType : CellType; cellPts : list vtkIdType }.

(** Points, cells and the [OrigCellIds] cell array. Ids are positions. *)
Record vtkPolyData := mkPolyData {
  Points : list Point3d;
  Cells : list Cell;
  OrigCellIds : list vtkIdType
}.

Definition origin : Point3d := mkPoint3d 0 0 0.

Definition GetPoint (pd : vtkPolyData) (id : vtkIdType) : Point3d :=
  nth (Z.to_nat id) (Points pd) origin.

Definition GetNumberOfPoints (pd : vtkPolyData) : Z := Z.of_nat (length (Points pd)).
Definition GetNumberOfCells (pd : vtkPolyData) : Z := Z.of_nat (length (Cells pd)).

Definition GetCell (pd : vtkPolyData) (id : vtkIdType) : Cell :=
  nth (Z.to_nat id) (Cells pd) (mkCell VTK_EMPTY_CELL []).

Definition GetCellType (pd : vtkPolyData) (id : vtkIdType) : CellType :=
  cellType (GetCell pd id).

Definition GetCellPoints (pd : vtkPolyData) (id : vtkIdType) : list vtkIdType :=
  cellPts (GetCell pd id).

(** [vtkIdList::GetId]. *)
Definition GetId (l : list vtkIdType) (i : nat) : vtkIdType := nth i l NOTSET.

Definition uses_point (p : vtkIdType) (c : Cell) : bool :=
  existsb (Z.eqb p) (cellPts c).

(** [GetPointCells]: the cells that use a point, in increasing id order.
    The links are built over every cell of the array and [DeleteCell] does
    not touch them, so a deleted cell is still listed. *)
Definition GetPointCells (pd : vtkPolyData) (p : vtkIdType) : list vtkIdType :=
  map (fun ic => Z.of_nat (fst ic))
      (List.filter (fun ic => uses_point p (snd ic))
                   (combine (seq 0 (length (Cells pd))) (Cells pd))).

Definition deleted (c : Cell) : Cell := mkCell VTK_EMPTY_CELL (cellPts c).

(** [DeleteCell] marks the cell as [VTK_EMPTY_CELL]; its slot stays. *)
Definition DeleteCell (pd : vtkPolyData) (id : vtkIdType) : vtkPolyData :=
  mkPolyData (Points pd)
             (if 0 <=? id then alter deleted (Z.to_nat id) (Cells pd) else Cells pd)
             (OrigCellIds pd).

(** ** RemoveDuplicates *)

Section RemoveDuplicates.

Variable contLines : vtkPolyData.

Definition LineType := (vtkIdType * vtkIdType * vtkIdType)%type.

Definition lineA (id : vtkIdType) : vtkIdType := GetId (GetCellPoints contLines id) 0.
Definition lineB (id : vtkIdType) : vtkIdType := GetId (GetCellPoints contLines id) 1.

(** The predicate of the [find_if]: [_line] joins [a] and [b]. *)
Definition joins (a b : vtkIdType) (_line : LineType) : bool :=
  let '(_, a', b') := _line in
  (a' =? a) && (b' =? b) || (a' =? b) && (b' =? a).

Fixpoint RemoveDuplicates_collect (lines : IdsType) (_lines : list LineType)
  : list LineType :=
  match lines with
  | [] => _lines
  | id :: rest =>
      let a := lineA id in
      let b := lineB id in
      if existsb (joins a b) _lines
      then RemoveDuplicates_collect rest _lines
      else RemoveDuplicates_collect rest (_lines ++ [(id, a, b)])
  end.

Definition RemoveDuplicates (lines : IdsType) : IdsType :=
  let _lines := RemoveDuplicates_collect lines [] in
  if negb (length _lines =? length lines)%nat
  then map (fun l : LineType => l.1.1) _lines
  else lines.

(** Two contact lines join the same unordered pair of points. *)
Definition same_ends (i j : vtkIdType) : bool :=
  (lineA i =? lineA j) && (lineB i =? lineB j)
  || (lineA i =? lineB j) && (lineB i =? lineA j).

(** The intended result, as a definition of its own: a line is kept
    exactly when no line listed before it joins the same two points. *)
Fixpoint keep_first (before lines : IdsType) : IdsType :=
  match lines with
  | [] => []
  | id :: rest =>
      if existsb (same_ends id) before
      then keep_first (before ++ [id]) rest
      else id :: keep_first (before ++ [id]) rest
  end.

(** The deque [_lines] of endpoint pairs that strip assembly consumes
    (filled from the polygon's line list in [GetPolyStrips]). *)
Definition assembly_lines (lines : IdsType) : list (vtkIdType * vtkIdType) :=
  map (fun i => (lineA i, lineB i)) lines.

(** The unordered pair of endpoints, smaller id first. *)
Definition ends_key (id : vtkIdType) : Z * Z :=
  (Z.min (lineA id) (lineB id), Z.max (lineA id) (lineB id)).

(** Every collected entry carries the endpoints of its own line. *)
Definition own_ends (l : LineType) : Prop :=
  l.1.2 = lineA l.1.1 /\ l.2 = lineB l.1.1.

(** The lines kept so far stand for every line seen so far. *)
Definition stands_for (kept seen : IdsType) : Prop :=
  forall id, existsb (same_ends id) seen = existsb (same_ends id) kept.

End RemoveDuplicates.

(** [polyLines]: the contact lines of each polygon, in increasing line id,
    as [GetPolyStrips] collects them from the [cA] / [cB] array. *)
Definition polyLines_add (m : gmap Z IdsType) (ip : nat * vtkIdType) : gmap Z IdsType :=
  <[ ip.2 := default [] (m !! ip.2) ++ [Z.of_nat ip.1] ]> m.

Definition polyLines (conts : list vtkIdType) : gmap Z IdsType :=
  fold_left polyLines_add (combine (seq 0 (length conts)) conts) ∅.

(** The line list of every contacted polygon after [RemoveDuplicates], which
    is what both [GetStripPoints] and strip assembly receive. *)
Definition GetPolyStrips_lines (contLines : vtkPolyData) (conts : list vtkIdType)
  : gmap Z IdsType :=
  RemoveDuplicates contLines <$> polyLines conts.

(** ** HasArea *)

Definition ind_at (strip : StripType) (i : nat) : vtkIdType :=
  match strip !! i with
  | Some p => r_ind p
  | None => NOTSET
  end.

(** The loop assigns [area] on every round. *)
Definition HasArea (strip : StripType) : bool :=
  let n := length strip in
  if (n mod 2 =? 1)%nat
  then fold_left
         (fun (area : bool) (i : nat) =>
            negb (ind_at strip i =? ind_at strip (n - i - 1)))
         (seq 0 ((n - 1) / 2)) true
  else true.

(** A strip over the given contact points, as [GetPolyStrips] builds its
    elements: [StripPtR (ind, strip)], nothing else set. *)
Definition strip_of (id : nat) (inds : list vtkIdType) : StripType :=
  map (fun ind => mkStripPtR ind id NOTSET Side_None (NOTSET, NOTSET)) inds.

(** The specification's wording: the index sequence reads the same both
    ways. *)
Definition palindrome (strip : StripType) : Prop :=
  forall i : nat, (i < length strip)%nat ->
    ind_at strip i = ind_at strip (length strip - 1 - i).

(** ** Containers ordered by Point3d

    [Point3d::operator<] is declared in a header outside this translation
    unit; the containers keyed by coordinates take it as a variable. A
    [std::map<Point3d, V>] is the list of its entries in key order, a
    [std::set<Point3d>] the list of its elements. *)

Section Point3dContainers.

Variable Point3d_lt : Point3d -> Point3d -> bool.

Section Map.
Context {V : Type}.
Variable dflt : V.

(** [m[k]]: the value stored under a key equivalent to [k], after
    inserting the default value when there is none. *)
Fixpoint pmap_index (k : Point3d) (m : list (Point3d * V))
  : V * list (Point3d * V) :=
  match m with
  | [] => (dflt, [(k, dflt)])
  | (k', v) :: rest =>
      if Point3d_lt k k' then (dflt, (k, dflt) :: m)
      else if Point3d_lt k' k then
        let '(v', rest') := pmap_index k rest in (v', (k', v) :: rest')
      else (v, m)
  end.

(** [f] applied in place to [m[k]]. *)
Fixpoint pmap_modify (f : V -> V) (k : Point3d) (m : list (Point3d * V))
  : list (Point3d * V) :=
  match m with
  | [] => [(k, f dflt)]
  | (k', v) :: rest =>
      if Point3d_lt k k' then (k, f dflt) :: m
      else if Point3d_lt k' k then (k', v) :: pmap_modify f k rest
      else (k', f v) :: rest
  end.
End Map.

Fixpoint pset_insert (p : Point3d) (s : list Point3d) : list Point3d :=
  match s with
  | [] => [p]
  | q :: rest =>
      if Point3d_lt p q then p :: s
      else if Point3d_lt q p then q :: pset_insert p rest
      else s
  end.

Definition pset_of_list (l : list Point3d) : list Point3d :=
  fold_left (fun s p => pset_insert p s) l [].

End Point3dContainers.

(** ** GetPolyStrips: the search for equal capture points *)

Section GetPolyStrips.

Variable Point3d_lt : Point3d -> Point3d -> bool.

(** One round of the inner loop. [auto inds = collapsed[...]] declares a
    set, not a reference to one: [inds] is a copy of the mapped set, the
    [emplace] goes into the copy, and the map keeps the (default, empty)
    set. The result pairs [inds.size() > 1] with the map afterwards. *)
Definition collapsed_visit (collapsed : list (Point3d * gset Z)) (sp : StripPt)
  : bool * list (Point3d * gset Z) :=
  if Capt_Boundary (sp_capt sp) then
    let '(mapped, collapsed') := pmap_index Point3d_lt ∅ (sp_cutPt sp) collapsed in
    let inds : gset Z := {[ sp_ind sp ]} ∪ mapped in
    (bool_decide (1 < size inds)%nat, collapsed')
  else (false, collapsed).

Fixpoint collapsed_scan (collapsed : list (Point3d * gset Z)) (sps : list StripPt)
  : bool :=
  match sps with
  | [] => false
  | sp :: rest =>
      let '(hit, collapsed') := collapsed_visit collapsed sp in
      if hit then true else collapsed_scan collapsed' rest
  end.

(** Every strip point in the order the two nested loops reach it. *)
Definition all_strip_points (polyStrips : PolyStripsType) : list StripPt :=
  concat (map (fun e : Z * PStrips => map snd (entries (ps_pts e.2)))
              (entries polyStrips)).

(** The block headed "sucht nach gleichen captPts": [true] stands for
    its [return true]. *)
Definition collapsed_captPts (polyStrips : PolyStripsType) : bool :=
  collapsed_scan [] (all_strip_points polyStrips).

(** The stages of [GetPolyStrips] that are geometry or strip assembly:
    - [BuildStripPoints] is [GetStripPoints] on every polygon's
      deduplicated lines followed by the [notCatched] fall-back;
    - [BuildStrips] chains the lines into strips and completes them;
    - [StripsCross] is the search for crossings in the BSP tree. *)
Variable BuildStripPoints :
  vtkPolyData -> vtkPolyData -> list (vtkIdType * vtkIdType) -> gmap Z IdsType -> PolyStripsType.
Variable BuildStrips : vtkPolyData -> gmap Z IdsType -> PolyStripsType -> PolyStripsType.
Variable StripsCross : PolyStripsType -> bool.

Definition GetPolyStrips (contLines pd : vtkPolyData) (conts : list vtkIdType)
           (sources : list (vtkIdType * vtkIdType)) : bool * PolyStripsType :=
  let lines := GetPolyStrips_lines contLines conts in
  let polyStrips := BuildStripPoints contLines pd sources lines in
  if collapsed_captPts polyStrips then (true, polyStrips)
  else
    let polyStrips' := BuildStrips contLines lines polyStrips in
    (StripsCross polyStrips', polyStrips').

End GetPolyStrips.

(** ** The filter's state *)

(** Modelled from the spec: the operator modes of section 6 (the
    [OPER_...] constants are declared in the header). *)
Inductive OperModeType :=
  OPER_NONE | OPER_UNION | OPER_INTERSECTION | OPER_DIFFERENCE | OPER_DIFFERENCE2.

(** The members of [vtkPolyDataBooleanFilter] that the stages share. *)
Record Filter := mkFilter {
  modPdA : vtkPolyData;
  modPdB : vtkPolyData;
  contLines : vtkPolyData;
  polyStripsA : PolyStripsType;
  polyStripsB : PolyStripsType;
  OperMode : OperModeType
}.

(** ** CleanStrips *)

(** The predicate of [FindHoles]; [None] when [pts.at] throws (or the
    strip has no element to take [front] and [back] of). *)
Definition is_hole (pts : StripPtsType) (strip : StripType) : option bool :=
  front ← head strip;
  spF ← pts !! r_ind front;
  if Capt_eqb (sp_capt spF) Capt_Not then
    back ← last strip;
    spB ← pts !! r_ind back;
    Some (Capt_eqb (sp_capt spB) Capt_Not && negb (HasArea strip))
  else Some false.

Definition strip_inds (strip : StripType) : gset Z :=
  list_to_set (map r_ind strip).

(** [remove_if] over the strips of one polygon: the holes go, their
    points enter [inds]. *)
Fixpoint FindHoles_strips (pts : StripPtsType) (strips : StripsType) (inds : gset Z)
  : option (StripsType * gset Z) :=
  match strips with
  | [] => Some ([], inds)
  | strip :: rest =>
      hole ← is_hole pts strip;
      if hole : bool then FindHoles_strips pts rest (inds ∪ strip_inds strip)
      else
        r ← FindHoles_strips pts rest inds;
        Some (strip :: r.1, r.2)
  end.

Fixpoint FindHoles_polys (polys : list (Z * PStrips)) (inds : gset Z)
  : option (list (Z * PStrips) * gset Z) :=
  match polys with
  | [] => Some ([], inds)
  | (id, pStrips) :: rest =>
      r ← FindHoles_strips (ps_pts pStrips) (ps_strips pStrips) inds;
      r' ← FindHoles_polys rest r.2;
      Some ((id, mkPStrips (ps_poly pStrips) (ps_pts pStrips) r.1) :: r'.1, r'.2)
  end.

Definition FindHoles (polyStrips : PolyStripsType) (inds : gset Z)
  : option (PolyStripsType * gset Z) :=
  r ← FindHoles_polys (entries polyStrips) inds;
  Some (list_to_map r.1, r.2).

(** A strip that contains a dropped point. *)
Definition touches (inds : gset Z) (strip : StripType) : bool :=
  existsb (fun p => bool_decide (r_ind p ∈ inds)) strip.

Definition CleanOther (inds : gset Z) (polyStrips : PolyStripsType) : PolyStripsType :=
  (fun pStrips =>
     mkPStrips (ps_poly pStrips) (ps_pts pStrips)
               (List.filter (fun s => negb (touches inds s)) (ps_strips pStrips)))
  <$> polyStrips.

(** The loop over [inds]: every cell linked to a dropped point is deleted. *)
Definition DeleteCells (pd : vtkPolyData) (ids : list vtkIdType) : vtkPolyData :=
  fold_left DeleteCell ids pd.

Definition delete_at (pd : vtkPolyData) (ind : vtkIdType) : vtkPolyData :=
  DeleteCells pd (GetPointCells pd ind).

Definition delete_dropped (pd : vtkPolyData) (inds : gset Z) : vtkPolyData :=
  fold_left delete_at (sorted_elements inds) pd.

Definition is_empty_cell (c : Cell) : bool := CellType_eqb (cellType c) VTK_EMPTY_CELL.

(** The counter [j] after the last loop. *)
Definition count_empty (pd : vtkPolyData) : Z :=
  Z.of_nat (length (List.filter is_empty_cell (Cells pd))).

(** [CleanStrips]: the returned flag and the filter afterwards; [None]
    when a lookup with [at] throws. *)
Definition CleanStrips (f : Filter) : option (bool * Filter) :=
  rA ← FindHoles (polyStripsA f) ∅;
  rB ← FindHoles (polyStripsB f) rA.2;
  let inds := rB.2 in
  let psA := CleanOther inds rA.1 in
  let psB := CleanOther inds rB.1 in
  let lines := delete_dropped (contLines f) inds in
  let j := count_empty lines in
  let numLines := GetNumberOfCells lines in
  Some (j =? numLines,
        mkFilter (modPdA f) (modPdB f) lines psA psB (OperMode f)).

(** The set [inds] that [CleanStrips] drops. *)
Definition dropped_inds (f : Filter) : option (gset Z) :=
  rA ← FindHoles (polyStripsA f) ∅;
  rB ← FindHoles (polyStripsB f) rA.2;
  Some rB.2.

(** ** CutCells *)

Definition InsertNextPoint (pd : vtkPolyData) (p : Point3d) : vtkIdType * vtkPolyData :=
  (GetNumberOfPoints pd, mkPolyData (Points pd ++ [p]) (Cells pd) (OrigCellIds pd)).

Definition InsertNextCell (pd : vtkPolyData) (ty : CellType) (cell : list vtkIdType)
  : vtkIdType * vtkPolyData :=
  (GetNumberOfCells pd, mkPolyData (Points pd) (Cells pd ++ [mkCell ty cell]) (OrigCellIds pd)).

(** [origCellIds->InsertNextValue] and [origCellIds->GetValue]. *)
Definition InsertNextOrigCellId (pd : vtkPolyData) (v : vtkIdType) : vtkPolyData :=
  mkPolyData (Points pd) (Cells pd) (OrigCellIds pd ++ [v]).

Definition GetOrigCellId (pd : vtkPolyData) (id : vtkIdType) : vtkIdType :=
  nth (Z.to_nat id) (OrigCellIds pd) NOTSET.

(** [RemoveDeletedCells]: the empty cells go, with their cell data. *)
Definition RemoveDeletedCells (pd : vtkPolyData) : vtkPolyData :=
  let kept :=
    List.filter (fun ic : nat * Cell => negb (is_empty_cell ic.2))
                (combine (seq 0 (length (Cells pd))) (Cells pd)) in
  mkPolyData (Points pd) (map snd kept)
             (omap (fun ic : nat * Cell => OrigCellIds pd !! ic.1) kept).

(** Modelled from the spec: [capt & Capt::A || capt & Capt::B], the test
    "boundary-captured (A or B)" of the shortcut in section 4.3. *)
Definition Capt_A_or_B (c : Capt) : bool :=
  match c with
  | Capt_A | Capt_B => true
  | _ => false
  end.

Section CutCells.

(** [Point3d]'s [operator<] and [operator==] (header). *)
Variable Point3d_lt : Point3d -> Point3d -> bool.
Variable Point3d_eq : Point3d -> Point3d -> bool.

(** The capture class of a default-constructed [StripPt] (its
    constructor is in the header); [pts[ind]] yields it for a missing
    [ind]. *)
Variable default_capt : Capt.

(** Everything [CutCells] does with one polygon after the validity test
    of the strips: holes set aside, initialisation, the sand-glass,
    weaving, insertion of the pieces and the hole merger. The flag is
    [true] when the merger throws. *)
Variable weave : vtkPolyData -> vtkIdType -> PStrips -> bool * vtkPolyData * PStrips.

(** [ptsA == ptsB] on two [std::set<Point3d>]. *)
Fixpoint pset_equal (a b : list Point3d) : bool :=
  match a, b with
  | [], [] => true
  | p :: a', q :: b' => Point3d_eq p q && pset_equal a' b'
  | _, _ => false
  end.

Definition all_on_vertices (pts : StripPtsType) : bool :=
  forallb (fun e : Z * StripPt => Capt_A_or_B (sp_capt e.2)) (entries pts).

Definition ring_coords (pd : vtkPolyData) (poly : IdsType) : list Point3d :=
  map (GetPoint pd) poly.

Definition cut_coords (pts : StripPtsType) : list Point3d :=
  map (fun e : Z * StripPt => sp_cutPt e.2) (entries pts).

(** The condition of the shortcut. *)
Definition coincident (pd : vtkPolyData) (pStrips : PStrips) : bool :=
  all_on_vertices (ps_pts pStrips)
  && pset_equal (pset_of_list Point3d_lt (ring_coords pd (ps_poly pStrips)))
                (pset_of_list Point3d_lt (cut_coords (ps_pts pStrips))).

(** The loop that fills [cell] with one new point per ring coordinate. *)
Definition insert_ring (pd : vtkPolyData) (_poly : list Point3d)
  : list vtkIdType * vtkPolyData :=
  fold_left
    (fun (acc : list vtkIdType * vtkPolyData) p =>
       let '(id, pd') := InsertNextPoint acc.2 p in (acc.1 ++ [id], pd'))
    _poly ([], pd).

(** The body of the shortcut. *)
Definition reemit (pd : vtkPolyData) (polyInd origId : vtkIdType) (_poly : list Point3d)
  : vtkPolyData :=
  let '(cell, pd1) := insert_ring pd _poly in
  let pd2 := (InsertNextCell pd1 VTK_POLYGON cell).2 in
  let pd3 := InsertNextOrigCellId pd2 origId in
  DeleteCell pd3 polyInd.

Definition capt_of (pts : StripPtsType) (ind : vtkIdType) : Capt :=
  match pts !! ind with
  | Some sp => sp_capt sp
  | None => default_capt
  end.

(** The predicate of "alle strips gültig?". *)
Definition both_branched (pts : StripPtsType) (s : StripType) : bool :=
  match head s, last s with
  | Some front, Some back =>
      Capt_eqb (capt_of pts (r_ind front)) Capt_Branched
      && Capt_eqb (capt_of pts (r_ind back)) Capt_Branched
  | _, _ => false
  end.

(** One round of the loop over [polyStrips]; the flag is [true] where
    the source returns [true]. *)
Definition CutCells_poly (pd : vtkPolyData) (polyInd : vtkIdType) (pStrips : PStrips)
  : bool * vtkPolyData * PStrips :=
  let origId := GetOrigCellId pd polyInd in
  if coincident pd pStrips then
    (false, reemit pd polyInd origId (ring_coords pd (ps_poly pStrips)), pStrips)
  else if existsb (both_branched (ps_pts pStrips)) (ps_strips pStrips) then
    (true, pd, pStrips)
  else weave pd polyInd pStrips.

Fixpoint CutCells_loop (pd : vtkPolyData) (polys : list (Z * PStrips))
  : bool * vtkPolyData * list (Z * PStrips) :=
  match polys with
  | [] => (false, pd, [])
  | (polyInd, pStrips) :: rest =>
      let '(failed, pd', pStrips') := CutCells_poly pd polyInd pStrips in
      if failed : bool then (true, pd', (polyInd, pStrips') :: rest)
      else
        let '(failed', pd'', rest') := CutCells_loop pd' rest in
        (failed', pd'', (polyInd, pStrips') :: rest')
  end.

Definition CutCells (pd : vtkPolyData) (polyStrips : PolyStripsType)
  : bool * vtkPolyData * PolyStripsType :=
  let '(failed, pd', polys) := CutCells_loop pd (entries polyStrips) in
  if failed : bool then (true, pd', list_to_map polys)
  else (false, RemoveDeletedCells pd', list_to_map polys).

End CutCells.

(** *** Notions for the statement on the shortcut *)

(** [pd'] holds what [pd] holds: every point, every value of the cell
    array and every cell at its place, but for the cells in [own]; it has
    at least as many cells, and a cell array with one value per cell
    stays one. *)
Definition grown (own : vtkIdType -> Prop) (pd pd' : vtkPolyData) : Prop :=
  (forall (i : nat) p, Points pd !! i = Some p -> Points pd' !! i = Some p)
  /\ (forall (i : nat) c, ~ own (Z.of_nat i) ->
        Cells pd !! i = Some c -> Cells pd' !! i = Some c)
  /\ (forall (i : nat) v, OrigCellIds pd !! i = Some v -> OrigCellIds pd' !! i = Some v)
  /\ (length (Cells pd) <= length (Cells pd'))%nat
  /\ (length (OrigCellIds pd) = length (Cells pd) ->
      length (OrigCellIds pd') = length (Cells pd')).

(** What the shortcut does to the mesh: one point per coordinate and one
    cell over the new points are appended, with a value of the cell
    array, and the polygon's own cell is marked deleted. *)
Definition reemitted (pd pd' : vtkPolyData) (polyInd origId : vtkIdType)
           (coords : list Point3d) : Prop :=
  Points pd' = Points pd ++ coords
  /\ Cells pd'
     = alter deleted (Z.to_nat polyInd) (Cells pd)
       ++ [mkCell VTK_POLYGON (map Z.of_nat (seq (length (Points pd)) (length coords)))]
  /\ OrigCellIds pd' = OrigCellIds pd ++ [origId].

(** ** MergePoints *)

(** [Pair] holds a polygon id [f] and a point id [g]; two pairs are equal
    when both members are. *)
Definition Pair := (vtkIdType * vtkIdType)%type.

Definition Pair_eqb (a b : Pair) : bool := (a.1 =? b.1) && (a.2 =? b.2).

Fixpoint replace_first (old new : vtkIdType) (l : list vtkIdType) : list vtkIdType :=
  match l with
  | [] => []
  | x :: rest => if x =? old then new :: rest else x :: replace_first old new rest
  end.

(** [vtkPolyData::ReplaceCellPoint] rewrites the first occurrence of the
    old point in the cell. *)
Definition ReplaceCellPoint (pd : vtkPolyData) (cellId old new : vtkIdType) : vtkPolyData :=
  mkPolyData (Points pd)
             (if 0 <=? cellId
              then alter (fun c => mkCell (cellType c) (replace_first old new (cellPts c)))
                         (Z.to_nat cellId) (Cells pd)
              else Cells pd)
             (OrigCellIds pd).

(** The position [j] at which the search loop stops. *)
Fixpoint index_of (ind : vtkIdType) (poly : list vtkIdType) : nat :=
  match poly with
  | [] => 0
  | x :: rest => if x =? ind then 0 else S (index_of ind rest)
  end.

(** [before] and [after]: the ring neighbours of [ind] in [poly]. When
    [ind] is not in [poly] the source reads past the end of the list;
    the model yields [NOTSET] there. *)
Definition ring_neighbours (poly : list vtkIdType) (ind : vtkIdType)
  : vtkIdType * vtkIdType :=
  let _numPts := length poly in
  let j := index_of ind poly in
  (GetId poly (if (j =? 0)%nat then _numPts - 1 else j - 1)%nat,
   GetId poly (if (j + 1 =? _numPts)%nat then 0 else j + 1)%nat).

(** One scan of [Pairs] from its begin: the first [next] that shares a
    pair with an end of [group] is spliced onto that end and erased. *)
Fixpoint link (group : list Pair) (Pairs : list (Pair * Pair))
  : option (list Pair * list (Pair * Pair)) :=
  match Pairs with
  | [] => None
  | next :: rest =>
      match head group, last group with
      | Some gfront, Some gback =>
          if Pair_eqb next.1 gfront then Some (next.2 :: group, rest)
          else if Pair_eqb next.1 gback then Some (group ++ [next.2], rest)
          else if Pair_eqb next.2 gfront then Some (next.1 :: group, rest)
          else if Pair_eqb next.2 gback then Some (group ++ [next.1], rest)
          else
            match link group rest with
            | Some (group', rest') => Some (group', next :: rest')
            | None => None
            end
      | _, _ => None
      end
  end.

(** The inner [while]: scans restart after every splice and stop when a
    whole scan finds nothing. Every splice erases one element, so
    [length Pairs] rounds are enough ([grow_complete]). *)
Fixpoint grow (rounds : nat) (group : list Pair) (Pairs : list (Pair * Pair))
  : list Pair * list (Pair * Pair) :=
  match rounds with
  | O => (group, Pairs)
  | S rounds' =>
      match link group Pairs with
      | Some (group', Pairs') => grow rounds' group' Pairs'
      | None => (group, Pairs)
      end
  end.

(** The outer [while]: a group starts from the front of [Pairs], grows,
    and is handed over when nothing links to it any more. *)
Fixpoint groups_of (rounds : nat) (Pairs : list (Pair * Pair)) : list (list Pair) :=
  match rounds with
  | O => []
  | S rounds' =>
      match Pairs with
      | [] => []
      | first :: rest =>
          let '(group, rest') := grow (length rest) [first.1; first.2] rest in
          group :: groups_of rounds' rest'
      end
  end.

Definition MergeGroups (Pairs : list (Pair * Pair)) : list (list Pair) :=
  groups_of (length Pairs) Pairs.

(** The loop over [group.begin()+1 .. group.end()]. *)
Definition collapse_group (pd : vtkPolyData) (group : list Pair) : vtkPolyData :=
  match group with
  | [] => pd
  | rep :: members =>
      fold_left (fun pd' (m : Pair) => ReplaceCellPoint pd' m.1 m.2 rep.2) members pd
  end.

(** The entries of [pairs] that hold exactly two pairs. *)
Definition two_pair_entries (pairs : list (Point3d * list Pair)) : list (Pair * Pair) :=
  omap (fun e : Point3d * list Pair =>
          match e.2 with
          | [a; b] => Some (a, b)
          | _ => None
          end) pairs.

Section MergePoints.

Variable Point3d_lt : Point3d -> Point3d -> bool.

(** [FindPoints] asks the k-d tree of the mesh for the ids of the points
    at a coordinate (within the tolerance); it is declared elsewhere. *)
Variable FindPoints : list Point3d -> Point3d -> list vtkIdType.

Definition file_pair (pd : vtkPolyData) (inds : gset Z) (polyId ind neigh : vtkIdType)
           (pairs : list (Point3d * list Pair)) : list (Point3d * list Pair) :=
  if bool_decide (neigh ∈ inds) then pairs
  else pmap_modify Point3d_lt [] (fun v => v ++ [(polyId, ind)]) (GetPoint pd neigh) pairs.

(** The loop over the points found at the strip end: each is filed
    under the coordinates of its ring neighbours that are not on the
    strip. [linked] is the mesh as it was when [BuildLinks] ran, at the
    start of [MergePoints]: [ReplaceCellPoint] does not update the links,
    so [GetPointCells] keeps answering from that state, while
    [GetCellPoints] reads the cells as they are now. *)
Definition file_pairs (linked pd : vtkPolyData) (inds : gset Z) (found : list vtkIdType)
  : list (Point3d * list Pair) :=
  fold_left
    (fun pairs ind =>
       match GetPointCells linked ind with
       | [] => pairs
       | polyId :: _ =>
           let '(before, after) := ring_neighbours (GetCellPoints pd polyId) ind in
           file_pair pd inds polyId ind after
                     (file_pair pd inds polyId ind before pairs)
       end)
    found [].

(** One round of the loop over [neighPts]. *)
Definition MergePoints_at (linked contLines pd : vtkPolyData) (ind : vtkIdType)
           (inds : gset Z) : vtkPolyData :=
  let found := FindPoints (Points pd) (GetPoint contLines ind) in
  let pairs := file_pairs linked pd inds found in
  fold_left collapse_group (MergeGroups (two_pair_entries pairs)) pd.

(** [neighPts]: for both ends of every strip, the mesh points at the
    strip's next-to-last point on that side. *)
Definition add_neigh (pd : vtkPolyData) (pts : StripPtsType) (ind : vtkIdType)
           (inner : option StripPtR) (neighPts : gmap Z (gset Z)) : gmap Z (gset Z) :=
  match inner ≫= (fun p => pts !! r_ind p) with
  | Some sp =>
      fold_left
        (fun (m : gmap Z (gset Z)) id => <[ ind := {[ id ]} ∪ default ∅ (m !! ind) ]> m)
        (FindPoints (Points pd) (sp_pt sp)) neighPts
  | None => neighPts
  end.

Definition neigh_of_strip (pd : vtkPolyData) (pts : StripPtsType)
           (neighPts : gmap Z (gset Z)) (strip : StripType) : gmap Z (gset Z) :=
  match head strip, last strip with
  | Some spA, Some spB =>
      add_neigh pd pts (r_ind spB) (strip !! (length strip - 2)%nat)
                (add_neigh pd pts (r_ind spA) (strip !! 1%nat) neighPts)
  | _, _ => neighPts
  end.

Definition neighPts_of (pd : vtkPolyData) (polyStrips : PolyStripsType) : gmap Z (gset Z) :=
  fold_left
    (fun neighPts (e : Z * PStrips) =>
       fold_left (neigh_of_strip pd (ps_pts e.2)) (ps_strips e.2) neighPts)
    (entries polyStrips) ∅.

Definition MergePoints (contLines pd : vtkPolyData) (polyStrips : PolyStripsType)
  : vtkPolyData :=
  fold_left
    (fun pd' (e : Z * gset Z) => MergePoints_at pd contLines pd' e.1 e.2)
    (entries (neighPts_of pd polyStrips)) pd.

End MergePoints.

(** ** The dihedral classifier *)

(** Modelled from the spec: the label of a region (section 4.9); [Loc] is
    declared in the header, [Loc_None] is the value a [PolyAtEdge] starts
    with. *)
Inductive Loc := Loc_None | Loc_Inside | Loc_Outside.

Definition Loc_eqb (a b : Loc) : bool :=
  match a, b with
  | Loc_None, Loc_None | Loc_Inside, Loc_Inside | Loc_Outside, Loc_Outside => true
  | _, _ => false
  end.

Inductive Congr := Congr_Equal | Congr_Opposite | Congr_Not.

(** [vtkMath::Dot] on two [double[3]]. *)
Definition Dot (a b : Point3d) : float :=
  (px a * px b + py a * py b + pz a * pz b)%float.

Record PolyAtEdge := mkPolyAtEdge {
  polyId : vtkIdType;
  ptIdA : vtkIdType;
  ptIdB : vtkIdType;
  pn : Point3d;
  pe : Point3d;
  pr : Point3d;
  loc : Loc
}.

Definition set_loc (p : PolyAtEdge) (l : Loc) : PolyAtEdge :=
  mkPolyAtEdge (polyId p) (ptIdA p) (ptIdB p) (pn p) (pe p) (pr p) l.

(** [eps]: the double nearest to .99999999. *)
Definition eps : float := 0x1.ffffffaa19c47p-1%float.

Definition IsCongruent (p q : PolyAtEdge) : Congr :=
  let cong := Dot (pn p) (pn q) in
  if (eps <? cong)%float || (cong <? - eps)%float then
    let ang := Dot (pr p) (pr q) in
    if (eps <? ang)%float then
      if (eps <? cong)%float then Congr_Equal else Congr_Opposite
    else Congr_Not
  else Congr_Not.

Record PolyPair := mkPolyPair { pA : PolyAtEdge; pB : PolyAtEdge }.

Definition is_congruent (c : Congr) : bool :=
  match c with
  | Congr_Equal | Congr_Opposite => true
  | Congr_Not => false
  end.

Section GetLoc.

(** [GetAngle a b n]: the angle from [a] to [b] about [n] (declared
    elsewhere). *)
Variable GetAngle : Point3d -> Point3d -> Point3d -> float.

(** [GetLoc] writes [pT.loc] and, for a congruent pair, the [loc] of the
    reference polygon; the result is the pair and [pT] afterwards. *)
Definition GetLoc (pp : PolyPair) (pT : PolyAtEdge) (mode : OperModeType)
  : PolyPair * PolyAtEdge :=
  let cA := IsCongruent (pA pp) pT in
  let cB := IsCongruent (pB pp) pT in
  if is_congruent cA then
    match cA, mode with
    | Congr_Opposite, OPER_INTERSECTION =>
        (mkPolyPair (set_loc (pA pp) Loc_Outside) (pB pp), set_loc pT Loc_Outside)
    | Congr_Opposite, _ =>
        (mkPolyPair (set_loc (pA pp) Loc_Inside) (pB pp), set_loc pT Loc_Inside)
    | _, (OPER_UNION | OPER_INTERSECTION) =>
        (mkPolyPair (set_loc (pA pp) Loc_Inside) (pB pp), set_loc pT Loc_Outside)
    | _, _ => (pp, pT)
    end
  else if is_congruent cB then
    match cB, mode with
    | Congr_Opposite, OPER_INTERSECTION =>
        (mkPolyPair (pA pp) (set_loc (pB pp) Loc_Outside), set_loc pT Loc_Outside)
    | Congr_Opposite, _ =>
        (mkPolyPair (pA pp) (set_loc (pB pp) Loc_Inside), set_loc pT Loc_Inside)
    | _, (OPER_UNION | OPER_INTERSECTION) =>
        (mkPolyPair (pA pp) (set_loc (pB pp) Loc_Inside), set_loc pT Loc_Outside)
    | _, _ => (pp, pT)
    end
  else
    let alpha := GetAngle (pr (pA pp)) (pr (pB pp)) (pe (pA pp)) in
    let beta := GetAngle (pr (pA pp)) (pr pT) (pe (pA pp)) in
    if (alpha <? beta)%float then (pp, set_loc pT Loc_Inside)
    else (pp, set_loc pT Loc_Outside).

End GetLoc.

(** ** CombineRegions: the selection of regions *)

(** [comb]: the label wanted in A and the label wanted in B. *)
Definition comb (mode : OperModeType) : Loc * Loc :=
  match mode with
  | OPER_INTERSECTION => (Loc_Inside, Loc_Inside)
  | OPER_DIFFERENCE => (Loc_Outside, Loc_Inside)
  | OPER_DIFFERENCE2 => (Loc_Inside, Loc_Outside)
  | _ => (Loc_Outside, Loc_Outside)
  end.

(** The regions of [locs] with the wanted label, as the loop over the map
    hands them to [AddSpecifiedRegion]. *)
Definition located_regions (want : Loc) (locs : gmap Z Loc) : list vtkIdType :=
  map fst (List.filter (fun e : Z * Loc => Loc_eqb e.2 want) (entries locs)).

(** "nicht beteiligte regionen": the region ids below [num] that [locs]
    does not hold. *)
Definition unseen_regions (num : vtkIdType) (locs : gmap Z Loc) : list vtkIdType :=
  List.filter (fun i => bool_decide (locs !! i = None)) (seqZ 0 num).

(** The ids passed to [cfA->AddSpecifiedRegion] and to
    [cfB->AddSpecifiedRegion], in call order. *)
Definition SpecifiedRegions (mode : OperModeType) (locsA locsB : gmap Z Loc)
           (numA numB : vtkIdType) : list vtkIdType * list vtkIdType :=
  let regsA := located_regions (comb mode).1 locsA in
  let regsB := located_regions (comb mode).2 locsB in
  let regsA' :=
    match mode with
    | OPER_UNION | OPER_DIFFERENCE => regsA ++ unseen_regions numA locsA
    | _ => regsA
    end in
  let regsB' :=
    match mode with
    | OPER_UNION | OPER_DIFFERENCE2 => regsB ++ unseen_regions numB locsB
    | _ => regsB
    end in
  (regsA', regsB').

(** ** RequestData: from the contact lines to the cut meshes *)

(** How a stage leaves the invocation: [vtkErrorMacro] followed by
    [return], an exception nobody catches, or on to the next stage. *)
Inductive Outcome :=
| vtkError (msg : string)
| Uncaught
| Proceed (f : Filter).

Definition and_then (o : Outcome) (next : Filter -> Outcome) : Outcome :=
  match o with
  | Proceed f => next f
  | _ => o
  end.

(** The two tests on the fresh contact lines. *)
Definition lonely_end (contLines : vtkPolyData) : bool :=
  existsb (fun i => (length (GetPointCells contLines i) =? 1)%nat)
          (seqZ 0 (GetNumberOfPoints contLines)).

Definition check_contact (f : Filter) : Outcome :=
  if GetNumberOfCells (contLines f) =? 0 then vtkError "There is no contact."
  else if lonely_end (contLines f)
       then vtkError "At least one line-end has only one neighbor."
       else Proceed f.

Definition stage_CleanStrips (f : Filter) : Outcome :=
  match CleanStrips f with
  | None => Uncaught
  | Some (true, _) => vtkError "There is no contact."
  | Some (false, f') => Proceed f'
  end.

Section RequestData.

Variable Point3d_lt : Point3d -> Point3d -> bool.
Variable Point3d_eq : Point3d -> Point3d -> bool.
Variable default_capt : Capt.
Variable weave : vtkPolyData -> vtkIdType -> PStrips -> bool * vtkPolyData * PStrips.
Variable BuildStripPoints :
  vtkPolyData -> vtkPolyData -> list (vtkIdType * vtkIdType) -> gmap Z IdsType -> PolyStripsType.
Variable BuildStrips : vtkPolyData -> gmap Z IdsType -> PolyStripsType -> PolyStripsType.
Variable StripsCross : PolyStripsType -> bool.

(** [contsA], [contsB], [sourcesA], [sourcesB] are the cell arrays
    "cA", "cB", "sourcesA", "sourcesB" of the contact lines. *)
Definition stage_GetPolyStrips (contsA contsB : list vtkIdType)
           (sourcesA sourcesB : list (vtkIdType * vtkIdType)) (f : Filter) : Outcome :=
  let get := GetPolyStrips Point3d_lt BuildStripPoints BuildStrips StripsCross (contLines f) in
  let '(failedA, psA) := get (modPdA f) contsA sourcesA in
  if failedA : bool then vtkError "Strips are invalid."
  else
    let '(failedB, psB) := get (modPdB f) contsB sourcesB in
    if failedB : bool then vtkError "Strips are invalid."
    else Proceed (mkFilter (modPdA f) (modPdB f) (contLines f) psA psB (OperMode f)).

Definition stage_CutCells (f : Filter) : Outcome :=
  let cut := CutCells Point3d_lt Point3d_eq default_capt weave in
  let '(failedA, pdA, psA) := cut (modPdA f) (polyStripsA f) in
  if failedA : bool then vtkError "CutCells failed."
  else
    let '(failedB, pdB, psB) := cut (modPdB f) (polyStripsB f) in
    if failedB : bool then vtkError "CutCells failed."
    else Proceed (mkFilter pdA pdB (contLines f) psA psB (OperMode f)).

(** [RequestData] from the first look at the contact lines up to the
    cut of both meshes. *)
Definition RequestData_cut (contsA contsB : list vtkIdType)
           (sourcesA sourcesB : list (vtkIdType * vtkIdType)) (f : Filter) : Outcome :=
  and_then (check_contact f) (fun f0 =>
  and_then (stage_GetPolyStrips contsA contsB sourcesA sourcesB f0) (fun f1 =>
  and_then (stage_CleanStrips f1) stage_CutCells)).

End RequestData.

(** ** Notions used in the statements *)

(** What the map holds at any time: default-constructed sets. *)
Definition all_empty (collapsed : list (Point3d * gset Z)) : Prop :=
  Forall (fun e : Point3d * gset Z => e.2 = ∅) collapsed.

(** A cell with an endpoint among the dropped points. *)
Definition touched (inds : gset Z) (c : Cell) : bool :=
  existsb (fun p => bool_decide (p ∈ inds)) (cellPts c).

(** The cell, deleted when the test holds. *)
Definition drop_if (test : Cell -> bool) (c : Cell) : Cell :=
  if test c then deleted c else c.

(** A hole: a strip that [FindHoles] removes. *)
Definition holeb (pts : StripPtsType) (strip : StripType) : bool :=
  default false (is_hole pts strip).

(** The points of the holes of one polygon, and of a list of polygons. *)
Definition hole_inds (pts : StripPtsType) (strips : StripsType) : gset Z :=
  ⋃ (map strip_inds (List.filter (holeb pts) strips)).

(** A bundle with its holes removed. *)
Definition without_holes (pStrips : PStrips) : PStrips :=
  mkPStrips (ps_poly pStrips) (ps_pts pStrips)
            (List.filter (fun s => negb (holeb (ps_pts pStrips) s)) (ps_strips pStrips)).

Definition poly_hole_inds (polys : list (Z * PStrips)) : gset Z :=
  ⋃ (map (fun e : Z * PStrips => hole_inds (ps_pts e.2) (ps_strips e.2)) polys).

(** The strip is not empty and both of its ends have their strip point,
    so that [pts.at] finds them. *)
Definition located (pts : StripPtsType) (strip : StripType) : bool :=
  match head strip, last strip with
  | Some front, Some back =>
      bool_decide (is_Some (pts !! r_ind front))
      && bool_decide (is_Some (pts !! r_ind back))
  | _, _ => false
  end.

(** Every strip of every polygon is located. *)
Definition all_located (polyStrips : PolyStripsType) : bool :=
  forallb (fun e : Z * PStrips => forallb (located (ps_pts e.2)) (ps_strips e.2))
          (entries polyStrips).



(** A strip of the bundle whose two ends are strip points of capture
    class [Branched]. *)
Definition has_both_branched (polyStrips : PolyStripsType) : Prop :=
  exists poly pStrips strip front back spF spB,
    polyStrips !! poly = Some pStrips
    /\ In strip (ps_strips pStrips)
    /\ head strip = Some front /\ last strip = Some back
    /\ ps_pts pStrips !! r_ind front = Some spF /\ sp_capt spF = Capt_Branched
    /\ ps_pts pStrips !! r_ind back = Some spB /\ sp_capt spB = Capt_Branched.



Definition occurs (x : Pair) (l : list Pair) : nat :=
  length (List.filter (Pair_eqb x) l).






(** ** Sample inputs *)

(** Three lines of polygon 5: line 1 joins the points of line 0 the other
    way round and is dropped. *)
Definition sample_lines : vtkPolyData :=
  mkPolyData [origin; origin; origin; origin]
             [mkCell VTK_LINE [1; 2]; mkCell VTK_LINE [2; 1]; mkCell VTK_LINE [2; 3]]
             [].

(** Polygon 7, the triangle 0, 1, 2, with the contact points 1 and 2 both
    captured on its vertex 0: two boundary captures, one snapped
    coordinate. *)
Definition sample_capture (ind : vtkIdType) : StripPt :=
  mkStripPt ind 7 origin origin origin 0 Capt_A (0, 1) true.

Definition sample_collapsed : PolyStripsType :=
  {[ 7 := mkPStrips [0; 1; 2]
                    (<[ 1 := sample_capture 1 ]> {[ 2 := sample_capture 2 ]})
                    [] ]}.

(** Strip points that carry an index and a capture class only. *)
Definition sample_pt (poly ind : vtkIdType) (capt : Capt) : StripPt :=
  mkStripPt ind poly origin origin origin 0 capt (NOTSET, NOTSET) true.

Definition sample_pts (poly : vtkIdType) (l : list (vtkIdType * Capt)) : StripPtsType :=
  list_to_map (map (fun ic : vtkIdType * Capt => (ic.1, sample_pt poly ic.1 ic.2)) l).

(** *** A contact loop with a dangling piece

    Six contact points 0 .. 5 joined in a ring by the lines 0 .. 5
    (line i joins i and i+1, line 5 closes the ring). In mesh A the line
    between 4 and 5 lies alone in polygon 10 with both ends free, so its
    strip was doubled to 5, 4, 5; the other lines cross the polygons 11,
    12 and 13 from edge to edge. In mesh B the whole ring lies inside
    polygon 20. *)
Definition sample_ring : vtkPolyData :=
  mkPolyData [origin; origin; origin; origin; origin; origin]
             [mkCell VTK_LINE [0; 1]; mkCell VTK_LINE [1; 2]; mkCell VTK_LINE [2; 3];
              mkCell VTK_LINE [3; 4]; mkCell VTK_LINE [4; 5]; mkCell VTK_LINE [5; 0]]
             [].

Definition sample_empty_mesh : vtkPolyData := mkPolyData [] [] [].

Definition sample_dangling : Filter :=
  mkFilter sample_empty_mesh sample_empty_mesh sample_ring
    (list_to_map
       [(10, mkPStrips [] (sample_pts 10 [(4, Capt_Not); (5, Capt_Not)])
                       [strip_of 0 [5; 4; 5]]);
        (11, mkPStrips [] (sample_pts 11 [(0, Capt_Edge); (1, Capt_Not);
                                          (2, Capt_Not); (3, Capt_Edge)])
                       [strip_of 0 [0; 1; 2; 3]]);
        (12, mkPStrips [] (sample_pts 12 [(3, Capt_Edge); (4, Capt_Edge)])
                       [strip_of 0 [3; 4]]);
        (13, mkPStrips [] (sample_pts 13 [(5, Capt_Edge); (0, Capt_Edge)])
                       [strip_of 0 [5; 0]])])
    (list_to_map
       [(20, mkPStrips [] (sample_pts 20 [(0, Capt_Not); (1, Capt_Not); (2, Capt_Not);
                                          (3, Capt_Not); (4, Capt_Not); (5, Capt_Not)])
                       [strip_of 0 [0; 1; 2; 3; 4; 5; 0]])])
    OPER_UNION.

(** The lines 3, 4 and 5 are deleted, the strips through 4 or 5 are gone. *)
Definition sample_dangling_cleaned : Filter :=
  mkFilter sample_empty_mesh sample_empty_mesh
    (mkPolyData [origin; origin; origin; origin; origin; origin]
                [mkCell VTK_LINE [0; 1]; mkCell VTK_LINE [1; 2]; mkCell VTK_LINE [2; 3];
                 mkCell VTK_EMPTY_CELL [3; 4]; mkCell VTK_EMPTY_CELL [4; 5];
                 mkCell VTK_EMPTY_CELL [5; 0]]
                [])
    (list_to_map
       [(10, mkPStrips [] (sample_pts 10 [(4, Capt_Not); (5, Capt_Not)]) []);
        (11, mkPStrips [] (sample_pts 11 [(0, Capt_Edge); (1, Capt_Not);
                                          (2, Capt_Not); (3, Capt_Edge)])
                       [strip_of 0 [0; 1; 2; 3]]);
        (12, mkPStrips [] (sample_pts 12 [(3, Capt_Edge); (4, Capt_Edge)]) []);
        (13, mkPStrips [] (sample_pts 13 [(5, Capt_Edge); (0, Capt_Edge)]) [])])
    (list_to_map
       [(20, mkPStrips [] (sample_pts 20 [(0, Capt_Not); (1, Capt_Not); (2, Capt_Not);
                                          (3, Capt_Not); (4, Capt_Not); (5, Capt_Not)])
                       [])])
    OPER_UNION.

(** *** Sample instances of the parameters

    An exact lexicographic order and exact equality on coordinates stand
    in for [Point3d]'s operators, and a [weave] that reports failure
    without touching anything shows where it is not consulted. *)
Definition sample_lt (p q : Point3d) : bool :=
  (px p <? px q)%float
  || (px p =? px q)%float
     && ((py p <? py q)%float || (py p =? py q)%float && (pz p <? pz q)%float).

Definition sample_eq (p q : Point3d) : bool :=
  (px p =? px q)%float && (py p =? py q)%float && (pz p =? pz q)%float.

Definition sample_failing_weave (pd : vtkPolyData) (polyInd : vtkIdType) (pStrips : PStrips)
  : bool * vtkPolyData * PStrips := (true, pd, pStrips).

Definition sample_passing_weave (pd : vtkPolyData) (polyInd : vtkIdType) (pStrips : PStrips)
  : bool * vtkPolyData * PStrips := (false, pd, pStrips).

(** A mesh of one triangle whose three vertices are all contact points:
    the contact lines run along its three edges. *)
Definition sample_triangle : vtkPolyData :=
  mkPolyData [mkPoint3d 0 0 0; mkPoint3d 1 0 0; mkPoint3d 0 1 0]
             [mkCell VTK_POLYGON [0; 1; 2]]
             [0].

Definition sample_vertex_capture (ind a b : vtkIdType) : StripPt :=
  let p := GetPoint sample_triangle a in
  mkStripPt ind 0 p p p 0 Capt_A (a, b) true.

Definition sample_triangle_strips : PStrips :=
  mkPStrips [0; 1; 2]
            (list_to_map [(100, sample_vertex_capture 100 0 1);
                          (101, sample_vertex_capture 101 1 2);
                          (102, sample_vertex_capture 102 2 0)])
            [strip_of 0 [100; 101]; strip_of 1 [101; 102]; strip_of 2 [102; 100]].

(** Polygon 3 of mesh A with one strip from the branch point 7 to the
    branch point 8. *)
Definition sample_branched : Filter :=
  mkFilter sample_triangle sample_empty_mesh sample_ring
           {[ 3 := mkPStrips [0; 1; 2]
                             (sample_pts 3 [(7, Capt_Branched); (8, Capt_Branched)])
                             [strip_of 0 [7; 8]] ]}
           ∅
           OPER_UNION.

(** A stand-in for [GetAngle] in examples: it grows with the angle
    from [a] to [b] up to a half turn. *)
Definition sample_angle (a b n : Point3d) : float := (1 - Dot a b)%float.

Definition sample_pA : PolyAtEdge :=
  mkPolyAtEdge 0 0 1 (mkPoint3d 0 0 1) (mkPoint3d 0 1 0) (mkPoint3d 1 0 0) Loc_None.

Definition sample_pB : PolyAtEdge :=
  mkPolyAtEdge 1 1 0 (mkPoint3d 1 0 0) (mkPoint3d 0 (-1) 0) (mkPoint3d 0 0 1) Loc_None.

Definition sample_pT : PolyAtEdge :=
  mkPolyAtEdge 2 0 1 (mkPoint3d 0.5 0 (-0.5)) (mkPoint3d 0 1 0) (mkPoint3d (-0.5) 0 (-0.5))
               Loc_None.

(** *** Two and three polygons around a strip end

    A strip runs from the contact point 0 at [C] to the contact point 1
    at [N]. In the mesh every polygon has its own copy of the points at
    [C] and at [N], and a third vertex at [Q] that is not on the strip.
    [sample_find] is an exact look-up by coordinate. *)
Definition sample_C : Point3d := mkPoint3d 0 0 0.
Definition sample_Q : Point3d := mkPoint3d 1 0 0.
Definition sample_N : Point3d := mkPoint3d 0 1 0.

Definition sample_find (pts : list Point3d) (p : Point3d) : list vtkIdType :=
  map (fun ip : nat * Point3d => Z.of_nat ip.1)
      (List.filter (fun ip : nat * Point3d => sample_eq ip.2 p)
                   (combine (seq 0 (length pts)) pts)).

Definition sample_contact : vtkPolyData :=
  mkPolyData [sample_C; sample_N] [mkCell VTK_LINE [0; 1]] [].

Definition sample_end (ind : vtkIdType) (p : Point3d) : StripPt :=
  mkStripPt ind 0 p p p 0 Capt_A (NOTSET, NOTSET) true.

Definition sample_fan_strips : PolyStripsType :=
  {[ 0 := mkPStrips []
                    (list_to_map [(0, sample_end 0 sample_C); (1, sample_end 1 sample_N)])
                    [strip_of 0 [0; 1]] ]}.

(** Two polygons: the points 0, 1 at [C], 2, 3 at [Q], 4, 5 at [N]. *)
Definition sample_fan2 : vtkPolyData :=
  mkPolyData [sample_C; sample_C; sample_Q; sample_Q; sample_N; sample_N]
             [mkCell VTK_POLYGON [0; 2; 4]; mkCell VTK_POLYGON [1; 3; 5]]
             [0; 1].


(** Three polygons in a row: the points 0, 1, 2 at [C]; polygon 0 and
    polygon 1 have a neighbour at [N] (5 and 6), polygon 1 and polygon 2
    one at (-1, 0, 0) (7 and 8); the points 3 and 4 lie alone. *)
Definition sample_fan_chain : vtkPolyData :=
  mkPolyData [sample_C; sample_C; sample_C; sample_Q; mkPoint3d 0 0 1;
              sample_N; sample_N; mkPoint3d (-1) 0 0; mkPoint3d (-1) 0 0]
             [mkCell VTK_POLYGON [0; 3; 5]; mkCell VTK_POLYGON [1; 6; 7];
              mkCell VTK_POLYGON [2; 8; 4]]
             [0; 1; 2].

(** ** GetPolyStrips: chaining the lines of a polygon into strips *)

(** [StripPtR (ind, strip)]: the other members keep their initial values. *)
Definition StripPtR_of (ind : vtkIdType) (id : nat) : StripPtR :=
  mkStripPtR ind id NOTSET Side_None (NOTSET, NOTSET).

(** The scan of the deque in [FindRight] and [FindLeft]: the first line
    with an end at [ind] is erased; the result is its other end and the
    deque afterwards. *)
Fixpoint take_line (ind : vtkIdType) (_lines : list Pair) : option (vtkIdType * list Pair) :=
  match _lines with
  | [] => None
  | (f, g) :: rest =>
      if f =? ind then Some (g, rest)
      else if g =? ind then Some (f, rest)
      else r ← take_line ind rest; Some (r.1, (f, g) :: r.2)
  end.

Section StripAssembly.

Variable pts : StripPtsType.

(** [FindRight] and [FindLeft]: whether a line was attached, the strip and
    the deque afterwards; [None] when [pts.at] throws. *)
Definition FindRight (strip : StripType) (id : nat) (_lines : list Pair)
  : option (bool * StripType * list Pair) :=
  right ← last strip;
  sp ← pts !! r_ind right;
  if Capt_eqb (sp_capt sp) Capt_Not then
    match take_line (r_ind right) _lines with
    | Some (other, rest) => Some (true, strip ++ [StripPtR_of other id], rest)
    | None => Some (false, strip, _lines)
    end
  else Some (false, strip, _lines).

Definition FindLeft (strip : StripType) (id : nat) (_lines : list Pair)
  : option (bool * StripType * list Pair) :=
  left ← head strip;
  sp ← pts !! r_ind left;
  if Capt_eqb (sp_capt sp) Capt_Not then
    match take_line (r_ind left) _lines with
    | Some (other, rest) => Some (true, StripPtR_of other id :: strip, rest)
    | None => Some (false, strip, _lines)
    end
  else Some (false, strip, _lines).

(** [while (FindRight(strip, stripId)) {}]: every successful call erases a
    line, so [length _lines] rounds and one more call end the loop. *)
Fixpoint extend_right (rounds : nat) (strip : StripType) (id : nat) (_lines : list Pair)
  : option (StripType * list Pair) :=
  match FindRight strip id _lines with
  | None => None
  | Some (true, strip', _lines') =>
      match rounds with
      | O => Some (strip', _lines')
      | S k => extend_right k strip' id _lines'
      end
  | Some (false, _, _) => Some (strip, _lines)
  end.

Fixpoint extend_left (rounds : nat) (strip : StripType) (id : nat) (_lines : list Pair)
  : option (StripType * list Pair) :=
  match FindLeft strip id _lines with
  | None => None
  | Some (true, strip', _lines') =>
      match rounds with
      | O => Some (strip', _lines')
      | S k => extend_left k strip' id _lines'
      end
  | Some (false, _, _) => Some (strip, _lines)
  end.

(** The outer [while (!_lines.empty())]: a strip is started from the last
    line of the deque, grown to the right, then to the left, and stored. *)
Fixpoint assemble (rounds : nat) (_lines : list Pair) (stripId : nat) : option StripsType :=
  match rounds, last _lines with
  | S k, Some (f, g) =>
      let strip := [StripPtR_of f stripId; StripPtR_of g stripId] in
      let rest := removelast _lines in
      r ← extend_right (length rest) strip stripId rest;
      l ← extend_left (length r.2) r.1 stripId r.2;
      strips ← assemble k l.2 (S stripId);
      Some (l.1 :: strips)
  | _, _ => Some []
  end.

End StripAssembly.

(** The strips of one polygon before [CompleteStrips], from its
    deduplicated line list. *)
Definition AssembleStrips (contLines : vtkPolyData) (pts : StripPtsType) (lines : IdsType)
  : option StripsType :=
  let _lines := assembly_lines contLines lines in
  assemble pts (length _lines) _lines 0.

(** ** CompleteStrips *)

Section CompleteStrips.

(** What [operator[]] stores under a key that is not in the map: a
    [StripPt] built by the default constructor of the header. *)
Variable StripPt_new : StripPt.

(** [pts[ind]] on the mutable map. *)
Definition pts_index (pts : StripPtsType) (ind : vtkIdType) : StripPt * StripPtsType :=
  match pts !! ind with
  | Some sp => (sp, pts)
  | None => (StripPt_new, <[ ind := StripPt_new ]> pts)
  end.

(** One round of the loop. [s(rbegin, rend-1)] is the strip backwards
    without its first element, [s(rbegin+1, rend)] the strip backwards
    without its last. *)
Definition complete_strip (pts : StripPtsType) (strip : StripType)
  : StripType * StripPtsType :=
  match head strip, last strip with
  | Some front, Some back =>
      let '(start, pts1) := pts_index pts (r_ind front) in
      let '(end_, pts2) := pts_index pts1 (r_ind back) in
      (if negb (sp_ind start =? sp_ind end_) then
         if Capt_eqb (sp_capt start) Capt_Not then rev (tail strip) ++ strip
         else if Capt_eqb (sp_capt end_) Capt_Not then strip ++ rev (removelast strip)
         else strip
       else strip,
       pts2)
  | _, _ => (strip, pts)
  end.

Fixpoint complete_strips (pts : StripPtsType) (strips : StripsType)
  : StripsType * StripPtsType :=
  match strips with
  | [] => ([], pts)
  | strip :: rest =>
      let '(strip', pts') := complete_strip pts strip in
      let '(rest', pts'') := complete_strips pts' rest in
      (strip' :: rest', pts'')
  end.

Definition CompleteStrips (pStrips : PStrips) : PStrips :=
  let '(strips, pts) := complete_strips (ps_pts pStrips) (ps_strips pStrips) in
  mkPStrips (ps_poly pStrips) pts strips.

(** The strips of one polygon as [GetPolyStrips] leaves them: assembled,
    then completed. *)
Definition BuildStrips_poly (contLines : vtkPolyData) (lines : IdsType) (pStrips : PStrips)
  : option PStrips :=
  strips ← AssembleStrips contLines (ps_pts pStrips) lines;
  Some (CompleteStrips (mkPStrips (ps_poly pStrips) (ps_pts pStrips) strips)).

End CompleteStrips.

(** ** CleanPoly *)

Section CleanPoly.

(** [Point3d::operator==], declared in the header. *)
Variable Point3d_eq : Point3d -> Point3d -> bool.

(** The loop from [itrA] on: [itrB] is the next element, or the first
    one of the whole ring after the last. *)
Fixpoint CleanPoly_from (pd : vtkPolyData) (first : vtkIdType) (poly : IdsType) : IdsType :=
  match poly with
  | [] => []
  | a :: rest =>
      let b := match rest with [] => first | b :: _ => b end in
      if Point3d_eq (GetPoint pd a) (GetPoint pd b)
      then CleanPoly_from pd first rest
      else a :: CleanPoly_from pd first rest
  end.

Definition CleanPoly (pd : vtkPolyData) (poly : IdsType) : IdsType :=
  match poly with
  | [] => []
  | first :: _ => CleanPoly_from pd first poly
  end.

End CleanPoly.

(** ** GetStripPoints *)

(** [vtkMath] on [double[3]]. *)
Definition Subtract (a b : Point3d) : Point3d :=
  mkPoint3d (px a - px b) (py a - py b) (pz a - pz b).

Definition Add (a b : Point3d) : Point3d :=
  mkPoint3d (px a + px b) (py a + py b) (pz a + pz b).

Definition MultiplyScalar (a : Point3d) (s : float) : Point3d :=
  mkPoint3d (px a * s) (py a * s) (pz a * s).

Definition Norm (x : Point3d) : float :=
  PrimFloat.sqrt (px x * px x + py x * py x + pz x * pz x).

Definition Cross (a b : Point3d) : Point3d :=
  mkPoint3d (py a * pz b - pz a * py b)
            (pz a * px b - px a * pz b)
            (px a * py b - py a * px b).

(** [std::max] and [std::min] on two [double]. *)
Definition fmax (a b : float) : float := if (a <? b)%float then b else a.
Definition fmin (a b : float) : float := if (b <? a)%float then b else a.

(** [tol]: the double nearest to 1e-5. *)
Definition tol : float := 0x1.4f8b588e368f1p-17%float.

(** [map.emplace (k, v)]: an entry that is there stays. *)
Definition emplace {V} (k : Z) (v : V) (m : gmap Z V) : gmap Z V :=
  match m !! k with
  | Some _ => m
  | None => <[ k := v ]> m
  end.

(** [links[k]++]. *)
Definition count_up (k : Z) (links : gmap Z Z) : gmap Z Z :=
  <[ k := default 0 (links !! k) + 1 ]> links.

(** The directed edges of a ring: every vertex with the one after it,
    the first one after the last. *)
Definition ring_edges (poly : IdsType) : list (vtkIdType * vtkIdType) :=
  match poly with
  | [] => []
  | first :: rest => combine poly (rest ++ [first])
  end.

(** The vertex after the first occurrence of [id] in the ring. When [id]
    is not in the ring the source steps past the end of the vector; the
    model yields [NOTSET] there. *)
Definition next_in_ring (poly : IdsType) (id : vtkIdType) : vtkIdType :=
  let j := index_of id poly in
  GetId poly (if (j + 1 =? length poly)%nat then 0 else j + 1)%nat.

(** The four members an accepted edge sets. *)
Definition captured (sp : StripPt) (edge : vtkIdType * vtkIdType) (t : float)
           (captPt : Point3d) (capt : Capt) : StripPt :=
  mkStripPt (sp_ind sp) (sp_polyId sp) (sp_pt sp) captPt (sp_cutPt sp) t capt edge
            (sp_catched sp).

Definition set_catched (sp : StripPt) (catched : bool) : StripPt :=
  mkStripPt (sp_ind sp) (sp_polyId sp) (sp_pt sp) (sp_captPt sp) (sp_cutPt sp) (sp_t sp)
            (sp_capt sp) (sp_edge sp) catched.

Definition set_capt (sp : StripPt) (capt : Capt) : StripPt :=
  mkStripPt (sp_ind sp) (sp_polyId sp) (sp_pt sp) (sp_captPt sp) (sp_cutPt sp) (sp_t sp)
            capt (sp_edge sp) (sp_catched sp).

Definition set_cutPt (sp : StripPt) (cutPt : Point3d) : StripPt :=
  mkStripPt (sp_ind sp) (sp_polyId sp) (sp_pt sp) (sp_captPt sp) cutPt (sp_t sp)
            (sp_capt sp) (sp_edge sp) (sp_catched sp).

(** The accepting test of one edge, and the body of the inner loop: the
    strip point after the edge from [e.1] to [e.2] has been tried. *)
Definition accepts (pd : vtkPolyData) (pt : Point3d) (e : vtkIdType * vtkIdType) : bool :=
  let a := GetPoint pd e.1 in
  let b := GetPoint pd e.2 in
  let u := Subtract b a in
  let n := Norm u in
  let v := Subtract pt a in
  let t := (Dot v u / (n * n))%float in
  let w := Cross v u in
  let d := (Norm w / n)%float in
  ((d <? tol) && (- tol <? t) && (t <? 1 + tol))%float.

Definition try_edge (pd : vtkPolyData) (source : vtkIdType) (sp : StripPt)
           (e : vtkIdType * vtkIdType) : StripPt :=
  if negb (source =? NOTSET) && negb (e.1 =? source) then sp
  else
    let a := GetPoint pd e.1 in
    let b := GetPoint pd e.2 in
    let sA := Subtract a (sp_pt sp) in
    let sB := Subtract b (sp_pt sp) in
    let u := Subtract b a in
    let n := Norm u in
    let v := Subtract (sp_pt sp) a in
    let t := (Dot v u / (n * n))%float in
    if accepts pd (sp_pt sp) e then
      let t' := fmin 1 (fmax 0 t) in
      if (Norm sA <? tol)%float then captured sp e t' a Capt_A
      else if (Norm sB <? tol)%float then captured sp e t' b Capt_B
      else captured sp e t' (Add a (MultiplyScalar u t)) Capt_Edge
    else sp.

(** The second loop: a capture on the end of an edge becomes a capture
    on the start of the next edge, and [cutPt] is set. *)
Definition snap (poly : IdsType) (sp : StripPt) : StripPt :=
  if Capt_Boundary (sp_capt sp) then
    let sp' :=
      if Capt_eqb (sp_capt sp) Capt_B then
        let edge0 := (sp_edge sp).2 in
        mkStripPt (sp_ind sp) (sp_polyId sp) (sp_pt sp) (sp_captPt sp) (sp_cutPt sp) 0
                  Capt_A (edge0, next_in_ring poly edge0) (sp_catched sp)
      else sp in
    set_cutPt sp' (sp_captPt sp')
  else set_cutPt sp (sp_pt sp).

Section GetStripPoints.

(** A [StripPt] as its default constructor (header) leaves it. *)
Variable StripPt_new : StripPt.

Variable contLines : vtkPolyData.

(** [sources]: for every line, the tags of its two ends. A line id
    outside of the array reads [NOTSET] in the model. *)
Definition GetTypedComponent (sources : list (vtkIdType * vtkIdType)) (lineId : vtkIdType)
  : vtkIdType * vtkIdType :=
  nth (Z.to_nat lineId) sources (NOTSET, NOTSET).

(** The first loop: [allPts] and [links]. *)
Definition collect_ends (sources : list (vtkIdType * vtkIdType)) (lines : IdsType)
  : gmap Z vtkIdType * gmap Z Z :=
  fold_left
    (fun (acc : gmap Z vtkIdType * gmap Z Z) lineId =>
       let a := lineA contLines lineId in
       let b := lineB contLines lineId in
       let src := GetTypedComponent sources lineId in
       (emplace b src.2 (emplace a src.1 acc.1), count_up b (count_up a acc.2)))
    lines (∅, ∅).

(** One round of the loop over [allPts]: the strip point of the contact
    point [ind] with the tag [source]. *)
Definition locate (pd : vtkPolyData) (poly : IdsType) (links : gmap Z Z)
           (ind source : vtkIdType) : StripPt :=
  let sp0 :=
    mkStripPt ind (sp_polyId StripPt_new) (GetPoint contLines ind)
              (sp_captPt StripPt_new) (sp_cutPt StripPt_new) (sp_t StripPt_new)
              (sp_capt StripPt_new) (sp_edge StripPt_new) (sp_catched StripPt_new) in
  let sp1 := fold_left (try_edge pd source) (ring_edges poly) sp0 in
  let sp2 :=
    if negb (source =? NOTSET) && ((sp_edge sp1).1 =? NOTSET)
    then set_catched sp1 false else sp1 in
  if Capt_eqb (sp_capt sp2) Capt_Not && (2 <? default 0 (links !! ind))
  then set_capt sp2 Capt_Branched else sp2.

Definition GetStripPoints (pd : vtkPolyData) (sources : list (vtkIdType * vtkIdType))
           (pStrips : PStrips) (lines : IdsType) : PStrips :=
  let poly := ps_poly pStrips in
  let '(allPts, links) := collect_ends sources lines in
  let pts :=
    fold_left
      (fun (pts : StripPtsType) (e : Z * vtkIdType) =>
         emplace e.1 (locate pd poly links e.1 e.2) pts)
      (entries allPts) (ps_pts pStrips) in
  mkPStrips poly (snap poly <$> pts) (ps_strips pStrips).

End GetStripPoints.

(** ** GetPolyStrips: the strip points of all polygons *)

Definition set_polyId (sp : StripPt) (polyId : vtkIdType) : StripPt :=
  mkStripPt (sp_ind sp) polyId (sp_pt sp) (sp_captPt sp) (sp_cutPt sp) (sp_t sp)
            (sp_capt sp) (sp_edge sp) (sp_catched sp).

(** Modelled from the spec: the bundle of a polygon starts with the ring
    of the polygon and nothing else (section 3; the constructor of
    [PStrips] is in the header). *)
Definition PStrips_new (pd : vtkPolyData) (poly : vtkIdType) : PStrips :=
  mkPStrips (GetCellPoints pd poly) ∅ [].

(** What the fall-back copies from [corr], the strip point another
    polygon holds for the same contact point. *)
Definition rescued_by (ring : IdsType) (sp corr : StripPt) : StripPt :=
  if Capt_eqb (sp_capt corr) Capt_A then
    mkStripPt (sp_ind sp) (sp_polyId sp) (sp_pt sp) (sp_captPt corr) (sp_captPt corr) 0
              Capt_A ((sp_edge corr).1, next_in_ring ring (sp_edge corr).1) true
  else sp.

(** The loop over the polygons for one strip point of the polygon
    [pid]: [pts.at] throws for a polygon without the contact point, which
    is passed over, and so is the polygon of the strip point itself. *)
Definition rescue_sp (polyStrips : PolyStripsType) (pid : vtkIdType) (ring : IdsType)
           (sp : StripPt) : StripPt :=
  fold_left
    (fun sp' (e : Z * PStrips) =>
       if e.1 =? pid then sp'
       else match ps_pts e.2 !! sp_ind sp' with
            | Some corr => rescued_by ring sp' corr
            | None => sp'
            end)
    (entries polyStrips) sp.

(** One round of the loop over [notCatched]; a reference is the polygon
    and the key of the strip point. *)
Definition rescue (polyStrips : PolyStripsType) (key : vtkIdType * vtkIdType)
  : PolyStripsType :=
  match polyStrips !! key.1 with
  | Some pStrips =>
      match ps_pts pStrips !! key.2 with
      | Some sp =>
          let sp' := rescue_sp polyStrips key.1 (ps_poly pStrips) sp in
          <[ key.1 := mkPStrips (ps_poly pStrips) (<[ key.2 := sp' ]> (ps_pts pStrips))
                                (ps_strips pStrips) ]> polyStrips
      | None => polyStrips
      end
  | None => polyStrips
  end.

(** [notCatched]: the strip points that are not caught, polygon by
    polygon. *)
Definition not_catched (polyStrips : PolyStripsType) : list (vtkIdType * vtkIdType) :=
  flat_map (fun e : Z * PStrips =>
              map (fun x : Z * StripPt => (e.1, x.1))
                  (List.filter (fun x : Z * StripPt => negb (sp_catched x.2))
                               (entries (ps_pts e.2))))
           (entries polyStrips).

Definition rescue_all (polyStrips : PolyStripsType) : PolyStripsType :=
  fold_left rescue (not_catched polyStrips) polyStrips.

Section BuildStripPoints.

Variable StripPt_new : StripPt.

(** The first loop of [GetPolyStrips] for one polygon, on its
    deduplicated lines. *)
Definition locate_poly (contLines pd : vtkPolyData) (sources : list (vtkIdType * vtkIdType))
           (poly : vtkIdType) (lines : IdsType) : PStrips :=
  let pStrips := GetStripPoints StripPt_new contLines pd sources (PStrips_new pd poly) lines in
  mkPStrips (ps_poly pStrips) ((fun sp => set_polyId sp poly) <$> ps_pts pStrips)
            (ps_strips pStrips).

(** The strip points of all polygons: located, then rescued. *)
Definition BuildStripPoints_all (contLines pd : vtkPolyData)
           (sources : list (vtkIdType * vtkIdType)) (lines : gmap Z IdsType) : PolyStripsType :=
  rescue_all (map_imap (fun poly l => Some (locate_poly contLines pd sources poly l)) lines).

End BuildStripPoints.

(** ** DisjoinPolys and RestoreOrigPoints *)

Section Locator.

(** [FindPoints] asks the k-d tree of the mesh for the ids of the points
    at a coordinate; it is declared elsewhere. The tree is handed the mesh
    at the start of the stage and the points change while the stage
    runs, so the model passes both, the points at the start and the
    points at the time of the call. *)
Variable FindPoints : list Point3d -> list Point3d -> Point3d -> list vtkIdType.

(** [ends]: the strip points of capture [A], one for each index, by
    increasing index. *)
Definition disjoin_ends (polyStrips : PolyStripsType) : list StripPt :=
  map snd
      (entries
         (fold_left
            (fun (ends : gmap Z StripPt) sp =>
               if Capt_eqb (sp_capt sp) Capt_A then emplace (sp_ind sp) sp ends else ends)
            (all_strip_points polyStrips) ∅)).

(** One call of [ReplaceCellPoint] with a point inserted for it. *)
Definition disjoin_cell (p : vtkIdType) (pt : Point3d) (pd : vtkPolyData) (cell : vtkIdType)
  : vtkPolyData :=
  let '(id, pd') := InsertNextPoint pd pt in
  ReplaceCellPoint pd' cell p id.

(** The body of the loop over the points found: [linked] is the mesh as
    [BuildLinks] saw it, which is what [GetPointCells] answers from. *)
Definition disjoin_point (linked : vtkPolyData) (pt : Point3d) (pd : vtkPolyData)
           (p : vtkIdType) : vtkPolyData :=
  let cells := GetPointCells linked p in
  if (1 <? length cells)%nat then fold_left (disjoin_cell p pt) cells pd else pd.

Definition DisjoinPolys (pd : vtkPolyData) (polyStrips : PolyStripsType) : vtkPolyData :=
  fold_left
    (fun pd' sp =>
       fold_left (disjoin_point pd (sp_pt sp))
                 (FindPoints (Points pd) (Points pd') (sp_pt sp)) pd')
    (disjoin_ends polyStrips) pd.

(** [vtkPoints::SetPoint]; an id outside of the array is written out of
    bounds in the source and changes nothing in the model. *)
Definition SetPoint (pd : vtkPolyData) (id : vtkIdType) (p : Point3d) : vtkPolyData :=
  mkPolyData (if 0 <=? id then <[ Z.to_nat id := p ]> (Points pd) else Points pd)
             (Cells pd) (OrigCellIds pd).

(** One round of the inner loop of [RestoreOrigPoints]. *)
Definition restore_at (start : list Point3d) (pd : vtkPolyData) (sp : StripPt) : vtkPolyData :=
  if Capt_Boundary (sp_capt sp) then
    fold_left (fun pd' id => SetPoint pd' id (sp_pt sp))
              (FindPoints start (Points pd) (sp_cutPt sp)) pd
  else pd.

Definition RestoreOrigPoints (pd : vtkPolyData) (polyStrips : PolyStripsType) : vtkPolyData :=
  fold_left (restore_at (Points pd)) (all_strip_points polyStrips) pd.

End Locator.

(** ** PolyAtEdge and GetEdgePolys *)

(** [vtkMath::Normalize]. *)
Definition Normalize (v : Point3d) : Point3d :=
  let den := Norm v in
  if (den =? 0)%float then v
  else mkPoint3d (px v / den) (py v / den) (pz v / den).

Section GetEdgePolys.

(** The normal of a polygon of the mesh, [ComputeNormal] on a
    [vtkPoints] array (declared elsewhere). *)
Variable ComputeNormal_poly : vtkPolyData -> list vtkIdType -> Point3d.

(** The constructor of [PolyAtEdge]. *)
Definition PolyAtEdge_new (pd : vtkPolyData) (_polyId _ptIdA _ptIdB : vtkIdType) : PolyAtEdge :=
  let e := Normalize (Subtract (GetPoint pd _ptIdB) (GetPoint pd _ptIdA)) in
  let n := ComputeNormal_poly pd (GetCellPoints pd _polyId) in
  mkPolyAtEdge _polyId _ptIdA _ptIdB n e (Cross e n) Loc_None.

(** [p]: every given point with every cell linked to it. *)
Definition point_cells (pd : vtkPolyData) (pts : list vtkIdType) : list Pair :=
  flat_map (fun pt => map (fun cell => (pt, cell)) (GetPointCells pd pt)) pts.

(** [pEdges]: for every cell the given points linked to it. *)
Definition pEdges_of (p : list Pair) : gmap Z IdsType :=
  fold_left (fun (m : gmap Z IdsType) (pr : Pair) =>
               <[ pr.2 := default [] (m !! pr.2) ++ [pr.1] ]> m) p ∅.

(** The edges of one cell between two of its points in [pts]. *)
Definition edges_between (pd : vtkPolyData) (cell : vtkIdType) (pts : IdsType)
  : list PolyAtEdge :=
  if (1 <? length pts)%nat then
    flat_map (fun e : vtkIdType * vtkIdType =>
                if existsb (Z.eqb e.1) pts && existsb (Z.eqb e.2) pts
                then [PolyAtEdge_new pd cell e.1 e.2] else [])
             (ring_edges (GetCellPoints pd cell))
  else [].

(** [GetEdgePolys]; [None] stands for the null pointer. The links are
    those of the mesh as it is passed. *)
Definition GetEdgePolys (pd : vtkPolyData) (ptsA ptsB : list vtkIdType) : option PolyPair :=
  let p := point_cells pd ptsA ++ point_cells pd ptsB in
  let opp :=
    flat_map (fun e : Z * IdsType => edges_between pd e.1 e.2) (entries (pEdges_of p)) in
  match opp with
  | [a; b] => Some (mkPolyPair a b)
  | _ => None
  end.

End GetEdgePolys.

(** ** CombineRegions: the labels of the regions *)

Section LocateRegions.

Variable GetAngle : Point3d -> Point3d -> Point3d -> float.
Variable ComputeNormal_poly : vtkPolyData -> list vtkIdType -> Point3d.

(** [FindPoints] on the k-d trees of [pdA] and [pdB], which are built
    once and whose meshes do not change here. *)
Variable FindPoints : list Point3d -> Point3d -> list vtkIdType.

(** The two meshes with their regions: [scalars] holds the region of
    every point. An id outside of the array reads [NOTSET] in the
    model. *)
Variable pdA pdB : vtkPolyData.
Variable scalarsA scalarsB : list vtkIdType.

Definition GetValue (scalars : list vtkIdType) (id : vtkIdType) : vtkIdType :=
  nth (Z.to_nat id) scalars NOTSET.

(** [notLocated == 0] for one of the two lists of points. *)
Definition all_known (scalars : list vtkIdType) (locs : gmap Z Loc) (pts : list vtkIdType)
  : bool :=
  forallb (fun p => bool_decide (is_Some (locs !! GetValue scalars p))) pts.

(** The four calls of [GetLoc]: each polygon of one pair is located
    against the other pair, which may be written to as well. *)
Definition locate_pairs (ppA ppB : PolyPair) (mode : OperModeType) : PolyPair * PolyPair :=
  let '(ppB1, a1) := GetLoc GetAngle ppB (pA ppA) mode in
  let '(ppB2, a2) := GetLoc GetAngle ppB1 (pB ppA) mode in
  let ppA1 := mkPolyPair a1 a2 in
  let '(ppA2, b1) := GetLoc GetAngle ppA1 (pA ppB2) mode in
  let ppB3 := mkPolyPair b1 (pB ppB2) in
  let '(ppA3, b2) := GetLoc GetAngle ppA2 (pB ppB3) mode in
  (ppA3, mkPolyPair (pA ppB3) b2).

(** [locsA], [locsB] and [_failed]. *)
Definition Labels := (gmap Z Loc * gmap Z Loc * list vtkIdType)%type.

(** One round of the loop over the contact lines (the build without
    [DEBUG], where regions that are located already are passed over). *)
Definition locate_line (contLines : vtkPolyData) (mode : OperModeType) (st : Labels)
           (i : vtkIdType) : Labels :=
  let '(locsA, locsB, _failed) := st in
  if is_empty_cell (GetCell contLines i) then st
  else
    let line := GetCellPoints contLines i in
    let ptA := GetPoint contLines (GetId line 0) in
    let ptB := GetPoint contLines (GetId line 1) in
    let fptsA := FindPoints (Points pdA) ptA in
    let fptsB := FindPoints (Points pdB) ptA in
    if all_known scalarsA locsA fptsA && all_known scalarsB locsB fptsB then st
    else
      let lptsA := FindPoints (Points pdA) ptB in
      let lptsB := FindPoints (Points pdB) ptB in
      match GetEdgePolys ComputeNormal_poly pdA fptsA lptsA,
            GetEdgePolys ComputeNormal_poly pdB fptsB lptsB with
      | Some ppA, Some ppB =>
          let '(ppA', ppB') := locate_pairs ppA ppB mode in
          let fsA := GetValue scalarsA (ptIdA (pA ppA')) in
          let lsA := GetValue scalarsA (ptIdA (pB ppA')) in
          let fsB := GetValue scalarsB (ptIdA (pA ppB')) in
          let lsB := GetValue scalarsB (ptIdA (pB ppB')) in
          (emplace lsA (loc (pB ppA')) (emplace fsA (loc (pA ppA')) locsA),
           emplace lsB (loc (pB ppB')) (emplace fsB (loc (pA ppB')) locsB),
           _failed)
      | _, _ => (locsA, locsB, _failed ++ [i])
      end.

(** The loop; [CombineRegions] returns [true] after it when [_failed]
    is not empty. *)
Definition locate_regions (contLines : vtkPolyData) (mode : OperModeType) : Labels :=
  fold_left (locate_line contLines mode) (seqZ 0 (GetNumberOfCells contLines)) (∅, ∅, []).

End LocateRegions.

(** ** Notions used in the further statements *)

(** The lines a strip runs along, as pairs of consecutive contact points. *)
Definition segments (strip : StripType) : list Pair :=
  combine (map r_ind strip) (tail (map r_ind strip)).

(** An unordered pair of point ids, smaller first. *)
Definition unordered (p : Pair) : Pair := (Z.min p.1 p.2, Z.max p.1 p.2).

(** The capture of a strip element, looked up in the strip points. *)
Definition capture_at (pts : StripPtsType) (p : StripPtR) : option Capt :=
  sp_capt <$> pts !! r_ind p.

(** Every strip point is stored under its own index. *)
Definition keyed (pts : StripPtsType) : Prop :=
  forall k sp, pts !! k = Some sp -> sp_ind sp = k.

(** Every element of the strip but its two ends has the capture [Not]. *)
Definition inner_free (pts : StripPtsType) (strip : list StripPtR) : Prop :=
  forall (i : nat) p, strip !! i = Some p -> (0 < i)%nat -> (S i < length strip)%nat ->
    capture_at pts p = Some Capt_Not.

(** The line has an end at the point. *)
Definition ends_at (ind : vtkIdType) (l : Pair) : Prop := l.1 = ind \/ l.2 = ind.

(** A strip end where growing stops: it has its strip point, and it is
    captured or no line of the deque ends there. *)
Definition stops (pts : StripPtsType) (e : StripPtR) (lines : list Pair) : Prop :=
  is_Some (pts !! r_ind e)
  /\ (capture_at pts e <> Some Capt_Not \/ Forall (fun l => ~ ends_at (r_ind e) l) lines).

(** What both inner loops keep: the lines of the strip and of the deque
    together are the same lines [K], the inner elements are free, every
    element carries the strip's number, and there are at least two. *)
Definition growing (pts : StripPtsType) (K : list Pair) (id : nat)
           (strip : list StripPtR) (lines : list Pair) : Prop :=
  map unordered (segments strip) ++ map unordered lines ≡ₚ K
  /\ inner_free pts strip
  /\ Forall (fun p => r_strip p = id) strip
  /\ (2 <= length strip)%nat.

(** Every element of the strip, and every end of the lines, has its strip
    point, so that [pts.at] finds it. *)
Definition strip_in (pts : StripPtsType) (strip : list StripPtR) : Prop :=
  Forall (fun p => is_Some (pts !! r_ind p)) strip.

Definition lines_in (pts : StripPtsType) (lines : list Pair) : Prop :=
  Forall (fun l : Pair => is_Some (pts !! l.1) /\ is_Some (pts !! l.2)) lines.

(** The strip after one round of [CompleteStrips], read off the map
    without the insertions of [operator[]]. *)
Definition completed (dflt : StripPt) (pts : StripPtsType) (strip : list StripPtR)
  : list StripPtR :=
  match head strip, last strip with
  | Some front, Some back =>
      let start := default dflt (pts !! r_ind front) in
      let end_ := default dflt (pts !! r_ind back) in
      if negb (sp_ind start =? sp_ind end_) then
        if Capt_eqb (sp_capt start) Capt_Not then rev (tail strip) ++ strip
        else if Capt_eqb (sp_capt end_) Capt_Not then strip ++ rev (removelast strip)
        else strip
      else strip
  | _, _ => strip
  end.

(** [pts'] is [pts] with the default strip point under some new keys. *)
Definition padded (dflt : StripPt) (pts pts' : StripPtsType) : Prop :=
  forall k, pts' !! k = pts !! k \/ (pts !! k = None /\ pts' !! k = Some dflt).

(** Both ends of the strip, if it has any, have their strip point. *)
Definition ends_in (pts : StripPtsType) (strip : list StripPtR) : Prop :=
  forall e, head strip = Some e \/ last strip = Some e -> is_Some (pts !! r_ind e).

(** The strip reads the same in both directions. *)
Definition mirrored (strip : list StripPtR) : Prop := rev strip = strip.

(** *** A chain and a loose line

    Lines 0, 1 and 3 of [sample_ring] in one polygon: the chain 0, 1, 2
    runs from edge to edge, the line from 3 to 4 has both ends free. *)
Definition sample_chain_pts : StripPtsType :=
  sample_pts 30 [(0, Capt_Edge); (1, Capt_Not); (2, Capt_Edge); (3, Capt_Not); (4, Capt_Not)].

Definition sample_chain : PStrips :=
  mkPStrips [] sample_chain_pts [strip_of 0 [3; 4]; strip_of 1 [0; 1; 2]].

(** [keyed], as a test. *)
Definition keyedb (pts : StripPtsType) : bool :=
  forallb (fun e : Z * StripPt => sp_ind e.2 =? e.1) (map_to_list pts).

(** The polygon of [sample_chain] before its strips are built, and after
    [GetPolyStrips] has built them: the loose line is doubled. *)
Definition sample_chain_start : PStrips := mkPStrips [] sample_chain_pts [].

Definition sample_chain_completed : PStrips :=
  mkPStrips [] sample_chain_pts [strip_of 0 [4; 3; 4]; strip_of 1 [0; 1; 2]].

(** No id of the list has the coordinates of the one after it, where
    [first] comes after the last. *)
Fixpoint no_equal_neighbours (Point3d_eq : Point3d -> Point3d -> bool) (pd : vtkPolyData)
         (first : vtkIdType) (l : IdsType) : Prop :=
  match l with
  | [] => True
  | a :: rest =>
      Point3d_eq (GetPoint pd a)
                 (GetPoint pd (match rest with [] => first | b :: _ => b end)) = false
      /\ no_equal_neighbours Point3d_eq pd first rest
  end.

(** Exact equality of coordinates: two points are equal when their
    coordinates have the same sign, mantissa and exponent. *)
Definition sample_code (x : float) : Z * Z * Z :=
  match Prim2SF x with
  | S754_zero s => (0, if s then 1 else 0, 0)
  | S754_infinity s => (1, if s then 1 else 0, 0)
  | S754_nan => (2, 0, 0)
  | S754_finite s m e => (if s then 4 else 3, Z.pos m, e)
  end.

Definition sample_code_eqb (a b : Z * Z * Z) : bool :=
  (a.1.1 =? b.1.1) && (a.1.2 =? b.1.2) && (a.2 =? b.2).

Definition sample_same (p q : Point3d) : bool :=
  sample_code_eqb (sample_code (px p)) (sample_code (px q))
  && sample_code_eqb (sample_code (py p)) (sample_code (py q))
  && sample_code_eqb (sample_code (pz p)) (sample_code (pz q)).

(** A square whose corner at [Q] is stored three times over: the points
    1, 2 and 3. *)
Definition sample_square : vtkPolyData :=
  mkPolyData [sample_C; sample_Q; sample_Q; sample_Q; mkPoint3d 1 1 0; sample_N]
             [mkCell VTK_POLYGON [0; 1; 2; 3; 4; 5]]
             [0].

(** ** Notions for the stages that edit a mesh *)

(** Two cells of the same type and length. *)
Definition same_cell_shape (c c' : Cell) : Prop :=
  cellType c' = cellType c /\ length (cellPts c') = length (cellPts c).

(** Some cell of the mesh refers to the point. *)
Definition used (pd : vtkPolyData) (p : vtkIdType) : Prop :=
  exists c, In c (Cells pd) /\ In p (cellPts c).

(** [pd'] is [pd] with point references renamed: the same points, the
    same cell data, the same cells by type and length, and no reference
    to a point that no cell of [pd] refers to. *)
Definition renamed (pd pd' : vtkPolyData) : Prop :=
  Points pd' = Points pd
  /\ OrigCellIds pd' = OrigCellIds pd
  /\ Forall2 same_cell_shape (Cells pd) (Cells pd')
  /\ (forall p, used pd' p -> used pd p).

(** The pair files the point under a cell that the links list first for
    it. *)
Definition first_linked (linked : vtkPolyData) (m : Pair) : Prop :=
  exists rest, GetPointCells linked m.2 = m.1 :: rest.

(** ** Notions for the further statements on cleaning and grouping *)

(** The contact point lies on a hole of the bundle. *)
Definition on_hole (polyStrips : PolyStripsType) (p : vtkIdType) : Prop :=
  exists poly pStrips strip,
    polyStrips !! poly = Some pStrips
    /\ In strip (ps_strips pStrips)
    /\ is_hole (ps_pts pStrips) strip = Some true
    /\ In p (map r_ind strip).

(** [pStrips'] is what cleaning leaves of [pStrips]: the ring and the
    strip points, and the strips that are no holes and pass through no
    point of a hole of either mesh. *)
Definition cleaned_bundle (f : Filter) (pStrips pStrips' : PStrips) : Prop :=
  ps_poly pStrips' = ps_poly pStrips
  /\ ps_pts pStrips' = ps_pts pStrips
  /\ forall strip,
       In strip (ps_strips pStrips')
       <-> In strip (ps_strips pStrips)
           /\ is_hole (ps_pts pStrips) strip <> Some true
           /\ forall p, In p (map r_ind strip) ->
                ~ (on_hole (polyStripsA f) p \/ on_hole (polyStripsB f) p).

(** The lines of polygon [p]: the positions of [p] in the array, in
    increasing order. *)
Definition lines_of (conts : list vtkIdType) (p : vtkIdType) : IdsType :=
  map (fun ip : nat * vtkIdType => Z.of_nat ip.1)
      (List.filter (fun ip : nat * vtkIdType => ip.2 =? p)
                   (combine (seq 0 (length conts)) conts)).

(** ** Notions for the statements on GetStripPoints *)

(** The ends of the lines, in the order of the first loop. *)
Definition line_ends (cl : vtkPolyData) (lines : IdsType) : list vtkIdType :=
  flat_map (fun i => [lineA cl i; lineB cl i]) lines.

(** The tag under which the contact point is located: the one that
    [allPts] holds for it. *)
Definition tag_of (cl : vtkPolyData) (sources : list (vtkIdType * vtkIdType))
           (lines : IdsType) (ind : vtkIdType) : option vtkIdType :=
  (collect_ends cl sources lines).1 !! ind.

(** The edge is tried for a point with this tag, and it is tried and
    accepted. *)
Definition eligible (source : vtkIdType) (e : vtkIdType * vtkIdType) : bool :=
  (source =? NOTSET) || (e.1 =? source).

Definition hit (pd : vtkPolyData) (source : vtkIdType) (pt : Point3d)
           (e : vtkIdType * vtkIdType) : bool :=
  eligible source e && accepts pd pt e.

(** The number of line ends at a contact point. *)
Definition ends_at_point (cl : vtkPolyData) (lines : IdsType) (ind : vtkIdType) : Z :=
  Z.of_nat (count_occ Z.eq_dec (line_ends cl lines) ind).

(** A default strip point as the statements assume it: nothing captured,
    no edge, [catched] set. *)
Definition sample_new : StripPt :=
  mkStripPt NOTSET NOTSET origin origin origin 0 Capt_Not (NOTSET, NOTSET) true.

(** The triangle of [sample_triangle] as a fresh bundle; the contact line
    of [sample_contact] runs along its edge from vertex 0 to vertex 2. *)
Definition sample_fresh : PStrips := mkPStrips [0; 1; 2] ∅ [].

Definition sample_located : PStrips :=
  GetStripPoints sample_new sample_contact sample_triangle [(NOTSET, NOTSET)] sample_fresh [0].

(** The strip point of the contact point 0 when the first end of the
    contact line carries the tag 1: no edge that starts at vertex 1
    passes through it. *)
Definition sample_missed : StripPt :=
  mkStripPt 0 NOTSET sample_C origin sample_C 0 Capt_Not (NOTSET, NOTSET) false.

(** ** Notions for the statements on DisjoinPolys *)

(** How often the cell refers to the point. *)
Definition refs (c : Cell) (v : vtkIdType) : nat := count_occ Z.eq_dec (cellPts c) v.

(** Every cell refers to points of the mesh only, and to none twice. *)
Definition well_formed (pd : vtkPolyData) : Prop :=
  Forall (fun c => NoDup (cellPts c)
                   /\ Forall (fun v => 0 <= v < GetNumberOfPoints pd) (cellPts c))
         (Cells pd).

(** No cell of [pd'] refers to [v] more often than the cell in its place
    in [pd] does; and exactly as often. *)
Definition kept_refs (pd pd' : vtkPolyData) (v : vtkIdType) : Prop :=
  Forall2 (fun c c' => refs c' v = refs c v) (Cells pd) (Cells pd').

(** No cell refers to the point. *)
Definition unused (pd : vtkPolyData) (v : vtkIdType) : Prop :=
  Forall (fun c => refs c v = 0%nat) (Cells pd).

(** At most one cell refers to the point, and at most once. *)
Definition private (pd : vtkPolyData) (v : vtkIdType) : Prop :=
  exists (i : nat), forall (j : nat) c, Cells pd !! j = Some c ->
    (refs c v <= 1)%nat /\ (j <> i -> refs c v = 0%nat).

(** What one [disjoin_cell] for the point [p], with the new point [id],
    does to a cell. *)
Definition disjoin_step (p id : vtkIdType) (c c' : Cell) : Prop :=
  same_cell_shape c c'
  /\ (forall v, v <> p -> v <> id -> refs c' v = refs c v)
  /\ (refs c' p <= refs c p)%nat
  /\ (refs c' id <= refs c id + 1)%nat.

(** What every state of [DisjoinPolys] keeps with respect to the mesh
    [pd0] it started from; [Q] holds of the coordinates added. *)
Definition disjoin_inv (Q : Point3d -> Prop) (pd0 pd : vtkPolyData) : Prop :=
  (exists extra, Points pd = Points pd0 ++ extra /\ Forall Q extra)
  /\ OrigCellIds pd = OrigCellIds pd0
  /\ Forall2 (fun c0 c =>
                same_cell_shape c0 c
                /\ forall v, 0 <= v < GetNumberOfPoints pd0 -> (refs c v <= refs c0 v)%nat)
             (Cells pd0) (Cells pd)
  /\ (forall v, GetNumberOfPoints pd0 <= v -> private pd v)
  /\ (forall v, GetNumberOfPoints pd <= v -> unused pd v).

(** The old points but [p0] are as they were or are not referred to. *)
Definition all_or_nothing (pd0 pd : vtkPolyData) (skip : vtkIdType -> Prop) : Prop :=
  forall v, 0 <= v < GetNumberOfPoints pd0 -> ~ skip v -> kept_refs pd0 pd v \/ unused pd v.

(** The coordinate is the [pt] of a strip point of capture [A]. *)
Definition end_coordinate (polyStrips : PolyStripsType) (q : Point3d) : Prop :=
  exists sp, In sp (all_strip_points polyStrips) /\ sp_capt sp = Capt_A /\ q = sp_pt sp.

(** *** Two triangles that share a corner

    The triangles 0, 1, 2 and 0, 2, 3 meet at the points 0 and 2; a strip
    ends on the corner at [C], the point 0, with capture [A]. The locator
    of the examples looks the coordinate up among the points it was
    handed at the start. *)
Definition sample_shared : vtkPolyData :=
  mkPolyData [sample_C; sample_Q; sample_N; mkPoint3d (-1) 0 0]
             [mkCell VTK_POLYGON [0; 1; 2]; mkCell VTK_POLYGON [0; 2; 3]]
             [0; 1].

Definition sample_shared_strips : PolyStripsType :=
  {[ 0 := mkPStrips [0; 1; 2]
                    (list_to_map [(0, sample_end 0 sample_C)])
                    [] ]}.

Definition sample_find_start (start now : list Point3d) (p : Point3d) : list vtkIdType :=
  sample_find start p.

(** *** Two polygons to cut

    The triangles of [sample_shared]. Polygon 0 holds a strip between
    two points captured on its edges and goes through the weave of the
    examples, which leaves the mesh alone; the three strip points of
    polygon 1 sit on its three corners. *)
Definition sample_corner (ind v next : vtkIdType) : StripPt :=
  let p := GetPoint sample_shared v in
  mkStripPt ind 1 p p p 0 Capt_A (v, next) true.

Definition sample_pair_strips : PolyStripsType :=
  {[ 0 := mkPStrips [0; 1; 2]
                    (sample_pts 0 [(7, Capt_Edge); (8, Capt_Edge)])
                    [strip_of 0 [7; 8]];
     1 := mkPStrips [0; 2; 3]
                    (list_to_map [(100, sample_corner 100 0 2);
                                  (101, sample_corner 101 2 3);
                                  (102, sample_corner 102 3 0)])
                    [strip_of 0 [100; 101]; strip_of 1 [101; 102]; strip_of 2 [102; 100]] ]}.

Definition sample_pair_cut : bool * vtkPolyData * PolyStripsType :=
  CutCells sample_lt sample_eq Capt_Not sample_passing_weave sample_shared sample_pair_strips.

(** [pd'] is [pd] with some points moved to coordinates for which [Q]
    holds; nothing else has changed. *)
Definition moved (Q : Point3d -> Prop) (pd pd' : vtkPolyData) : Prop :=
  Cells pd' = Cells pd
  /\ OrigCellIds pd' = OrigCellIds pd
  /\ Forall2 (fun q q' => q' = q \/ Q q') (Points pd) (Points pd').

(** The coordinate is the [pt] of a strip point captured on the
    boundary. *)
Definition contact_coordinate (polyStrips : PolyStripsType) (q : Point3d) : Prop :=
  exists sp, In sp (all_strip_points polyStrips)
             /\ Capt_Boundary (sp_capt sp) = true /\ q = sp_pt sp.

(** The polygon has an edge from [ptIdA] to [ptIdB], both of them among
    the given points and linked to the polygon, and it is not located
    yet. *)
Definition edge_between (pd : vtkPolyData) (pts : list vtkIdType) (x : PolyAtEdge) : Prop :=
  In (ptIdA x, ptIdB x) (ring_edges (GetCellPoints pd (polyId x)))
  /\ In (ptIdA x) pts /\ In (ptIdB x) pts
  /\ In (polyId x) (GetPointCells pd (ptIdA x))
  /\ In (polyId x) (GetPointCells pd (ptIdB x))
  /\ loc x = Loc_None.

(** [opp]: the edges that [GetEdgePolys] collects. *)
Definition opp_of (ComputeNormal_poly : vtkPolyData -> list vtkIdType -> Point3d)
           (pd : vtkPolyData) (ptsA ptsB : list vtkIdType) : list PolyAtEdge :=
  flat_map (fun e : Z * IdsType => edges_between ComputeNormal_poly pd e.1 e.2)
           (entries (pEdges_of (point_cells pd ptsA ++ point_cells pd ptsB))).

(** An edge between two different given points, with the members the
    constructor of [PolyAtEdge] computes for it. *)
Definition contact_edge (ComputeNormal_poly : vtkPolyData -> list vtkIdType -> Point3d)
           (pd : vtkPolyData) (pts : list vtkIdType) (x : PolyAtEdge) : Prop :=
  x = PolyAtEdge_new ComputeNormal_poly pd (polyId x) (ptIdA x) (ptIdB x)
  /\ ptIdA x <> ptIdB x
  /\ edge_between pd pts x.

(** A label that says inside or outside. *)
Definition definite (l : Loc) : Prop := l = Loc_Inside \/ l = Loc_Outside.

(** A stand-in for [ComputeNormal] in examples: every polygon faces up. *)
Definition sample_up (pd : vtkPolyData) (poly : list vtkIdType) : Point3d := mkPoint3d 0 0 1.

(** *** Two fans along one contact line

    In mesh A the triangles of [sample_shared] meet along the edge from
    [C] to [N]; in mesh B two triangles meet along the same edge, one on
    either side of the plane of A. The contact line of [sample_contact]
    runs along that edge, and each mesh is a single region. *)
Definition sample_wings : vtkPolyData :=
  mkPolyData [sample_C; sample_N; mkPoint3d 0 0 1; mkPoint3d 0 0 (-1)]
             [mkCell VTK_POLYGON [0; 1; 2]; mkCell VTK_POLYGON [1; 0; 3]]
             [0; 1].

Definition sample_labels (mode : OperModeType) : Labels :=
  locate_regions sample_angle sample_up sample_find sample_shared sample_wings
                 [0; 0; 0; 0] [0; 0; 0; 0] sample_contact mode.

(** ** Notions for the statements on the fall-back *)

(** [sp'] is [sp] after the fall-back has rescued it in a polygon with
    the given ring. *)
Definition rescued (ring : IdsType) (sp sp' : StripPt) : Prop :=
  sp_ind sp' = sp_ind sp /\ sp_polyId sp' = sp_polyId sp /\ sp_pt sp' = sp_pt sp
  /\ sp_catched sp' = true /\ sp_capt sp' = Capt_A
  /\ sp_cutPt sp' = sp_captPt sp'
  /\ (sp_edge sp').2 = next_in_ring ring (sp_edge sp').1.

(** The strip point is left alone, or it was not caught and is
    rescued. *)
Definition kept_or_rescued (ring : IdsType) (sp sp' : StripPt) : Prop :=
  sp' = sp \/ (sp_catched sp = false /\ rescued ring sp sp').

(** The bundle keeps its ring and its strips, and every strip point is
    kept or rescued. *)
Definition bundle_rescued (pStrips pStrips' : PStrips) : Prop :=
  ps_poly pStrips' = ps_poly pStrips
  /\ ps_strips pStrips' = ps_strips pStrips
  /\ forall ind, option_Forall2 (kept_or_rescued (ps_poly pStrips))
                                (ps_pts pStrips !! ind) (ps_pts pStrips' !! ind).

(** The ends of the lines with their tags, in the order of the first
    loop of [GetStripPoints]. *)
Definition end_tags (cl : vtkPolyData) (sources : list (vtkIdType * vtkIdType))
           (lines : IdsType) : list (vtkIdType * vtkIdType) :=
  flat_map (fun i => [(lineA cl i, (GetTypedComponent sources i).1);
                      (lineB cl i, (GetTypedComponent sources i).2)]) lines.

(** The bundle of the triangle of [sample_triangle], polygon 0, when the
    contact line of [sample_contact] is its only line. *)
Definition sample_prepared : PStrips :=
  locate_poly sample_new sample_contact sample_triangle [(NOTSET, NOTSET)] 0 [0].

(** * Properties *)

(** ** Small facts used throughout *)

Lemma Capt_eqb_eq c d : Capt_eqb c d = true <-> c = d.
Proof. destruct c, d; simpl; split; intros H; congruence. Qed.

Lemma elem_of_entries {V} (m : gmap Z V) k v :
  (k, v) ∈ entries m <-> m !! k = Some v.
Proof.
  unfold entries. rewrite merge_sort_Permutation.
  apply elem_of_map_to_list.
Qed.

Lemma elem_of_sorted_elements (s : gset Z) x : x ∈ sorted_elements s <-> x ∈ s.
Proof.
  unfold sorted_elements. rewrite merge_sort_Permutation.
  apply elem_of_elements.
Qed.

Lemma NoDup_fst_entries {V} (m : gmap Z V) : NoDup (map fst (entries m)).
Proof.
  unfold entries.
  assert (H : map fst (merge_sort key_le (map_to_list m)) ≡ₚ map fst (map_to_list m)).
  { apply Permutation_map, merge_sort_Permutation. }
  rewrite H. apply (NoDup_fst_map_to_list m).
Qed.

(** ** RemoveDuplicates keeps the first line of every endpoint pair *)

Section RemoveDuplicatesFacts.

Variable cl : vtkPolyData.

Lemma same_ends_key i j :
  same_ends cl i j = true <-> ends_key cl i = ends_key cl j.
Proof.
  unfold same_ends, ends_key.
  rewrite orb_true_iff, !andb_true_iff, !Z.eqb_eq.
  split.
  - intros [[-> ->] | [-> ->]]; [reflexivity | f_equal; lia].
  - intros H. injection H as H1 H2. lia.
Qed.

Lemma same_ends_sym i j : same_ends cl i j = same_ends cl j i.
Proof.
  apply eq_true_iff_eq. rewrite !same_ends_key. split; congruence.
Qed.

Lemma joins_same_ends id id' :
  joins (lineA cl id) (lineB cl id) (id', lineA cl id', lineB cl id')
  = same_ends cl id id'.
Proof.
  unfold joins. rewrite same_ends_sym. reflexivity.
Qed.

Lemma existsb_joins (acc : list LineType) id :
  Forall (own_ends cl) acc ->
  existsb (joins (lineA cl id) (lineB cl id)) acc
  = existsb (same_ends cl id) (map (fun l : LineType => l.1.1) acc).
Proof.
  induction 1 as [| [[i a] b] acc [Ha Hb] _ IH]; simpl; [reflexivity |].
  simpl in Ha, Hb. subst a b. rewrite IH. f_equal.
  rewrite <- joins_same_ends. reflexivity.
Qed.

Lemma stands_for_drop kept seen id :
  stands_for cl kept seen ->
  existsb (same_ends cl id) seen = true ->
  stands_for cl kept (seen ++ [id]).
Proof.
  intros Hs Hid x. rewrite existsb_app. simpl. rewrite orb_false_r.
  rewrite Hs. destruct (same_ends cl x id) eqn:Hx; [| apply orb_false_r].
  rewrite orb_true_r. symmetry.
  rewrite Hs in Hid. apply existsb_exists in Hid as [k [Hk Hik]].
  apply existsb_exists. exists k. split; [exact Hk |].
  apply same_ends_key. apply same_ends_key in Hx, Hik. congruence.
Qed.

Lemma stands_for_keep kept seen id :
  stands_for cl kept seen -> stands_for cl (kept ++ [id]) (seen ++ [id]).
Proof.
  intros Hs x. rewrite !existsb_app, Hs. reflexivity.
Qed.

Lemma collect_keep_first lines : forall seen acc,
  Forall (own_ends cl) acc ->
  stands_for cl (map (fun l : LineType => l.1.1) acc) seen ->
  map (fun l : LineType => l.1.1) (RemoveDuplicates_collect cl lines acc)
  = map (fun l : LineType => l.1.1) acc ++ keep_first cl seen lines.
Proof.
  induction lines as [| id rest IH]; intros seen acc Hwf Hs; simpl.
  - rewrite app_nil_r. reflexivity.
  - rewrite (existsb_joins acc id Hwf), <- (Hs id).
    destruct (existsb (same_ends cl id) seen) eqn:Hseen.
    + apply IH; [exact Hwf |]. apply stands_for_drop; assumption.
    + rewrite (IH (seen ++ [id]) (acc ++ [(id, lineA cl id, lineB cl id)])).
      * rewrite map_app. simpl. rewrite <- app_assoc. reflexivity.
      * apply Forall_app. split; [exact Hwf |].
        constructor; [| constructor]. split; reflexivity.
      * rewrite map_app. simpl. apply stands_for_keep. exact Hs.
Qed.

Lemma keep_first_length seen lines :
  (length (keep_first cl seen lines) <= length lines)%nat.
Proof.
  revert seen. induction lines as [| id rest IH]; intros seen; simpl; [lia |].
  destruct (existsb (same_ends cl id) seen); simpl; specialize (IH (seen ++ [id])); lia.
Qed.

Lemma keep_first_full seen lines :
  length (keep_first cl seen lines) = length lines ->
  keep_first cl seen lines = lines.
Proof.
  revert seen. induction lines as [| id rest IH]; intros seen; simpl; [reflexivity |].
  destruct (existsb (same_ends cl id) seen); simpl; intros H.
  - pose proof (keep_first_length (seen ++ [id]) rest). lia.
  - f_equal. apply IH. lia.
Qed.

(** The rewrite of [lines] only when a line was dropped is no special
    case: either way the ids left are those of [_lines]. *)
Lemma RemoveDuplicates_keep_first lines :
  RemoveDuplicates cl lines = keep_first cl [] lines.
Proof.
  unfold RemoveDuplicates.
  pose proof (collect_keep_first lines [] []) as H. simpl in H.
  specialize (H (List.Forall_nil _) (fun _ => eq_refl)).
  destruct (length (RemoveDuplicates_collect cl lines []) =? length lines)%nat eqn:Hlen;
    simpl.
  - apply Nat.eqb_eq in Hlen. symmetry. apply keep_first_full.
    rewrite <- H, length_map. exact Hlen.
  - exact H.
Qed.

Lemma keep_first_sublist seen lines : keep_first cl seen lines `sublist_of` lines.
Proof.
  revert seen. induction lines as [| id rest IH]; intros seen; simpl; [constructor |].
  destruct (existsb (same_ends cl id) seen).
  - apply sublist_cons, IH.
  - apply sublist_skip, IH.
Qed.

(** A kept line has no line with the same endpoints before it. *)
Lemma keep_first_fresh seen lines id :
  In id (keep_first cl seen lines) -> existsb (same_ends cl id) seen = false.
Proof.
  revert seen. induction lines as [| x rest IH]; intros seen; simpl; [tauto |].
  destruct (existsb (same_ends cl x) seen) eqn:Hx; simpl.
  - intros H. apply IH in H. rewrite existsb_app in H.
    apply orb_false_iff in H. tauto.
  - intros [<- | H]; [exact Hx |]. apply IH in H. rewrite existsb_app in H.
    apply orb_false_iff in H. tauto.
Qed.

Lemma keep_first_distinct seen lines :
  NoDup (map (ends_key cl) (keep_first cl seen lines)).
Proof.
  revert seen. induction lines as [| x rest IH]; intros seen; simpl; [constructor |].
  destruct (existsb (same_ends cl x) seen) eqn:Hx; [apply IH |].
  simpl. apply NoDup_cons. split; [| apply IH].
  rewrite list_elem_of_In, in_map_iff. intros [y [Hk Hy]].
  apply keep_first_fresh in Hy. rewrite existsb_app in Hy. simpl in Hy.
  apply orb_false_iff in Hy as [_ Hy]. rewrite orb_false_r in Hy.
  apply same_ends_key in Hk. congruence.
Qed.

(** Every line of the polygon is still represented after the pass. *)
Lemma keep_first_covers seen lines id :
  In id lines ->
  existsb (same_ends cl id) (seen ++ keep_first cl seen lines) = true.
Proof.
  revert seen. induction lines as [| x rest IH]; intros seen; simpl; [tauto |].
  intros [<- | Hin].
  - destruct (existsb (same_ends cl x) seen) eqn:Hx.
    + rewrite existsb_app, Hx. reflexivity.
    + rewrite existsb_app. simpl.
      assert (Hr : same_ends cl x x = true) by (apply same_ends_key; reflexivity).
      rewrite Hr. simpl. apply orb_true_r.
  - specialize (IH (seen ++ [x]) Hin).
    rewrite !existsb_app in IH. simpl in IH. rewrite orb_false_r in IH.
    destruct (existsb (same_ends cl x) seen) eqn:Hx.
    + rewrite existsb_app.
      destruct (existsb (same_ends cl id) seen) eqn:Hs; [reflexivity |].
      destruct (same_ends cl id x) eqn:Hix; simpl in IH; [| exact IH].
      exfalso. apply existsb_exists in Hx as [k [Hk Hxk]].
      assert (Hik : same_ends cl id k = true).
      { apply same_ends_key. apply same_ends_key in Hix, Hxk. congruence. }
      assert (existsb (same_ends cl id) seen = true)
        by (apply existsb_exists; eauto).
      congruence.
    + rewrite existsb_app. simpl.
      destruct (existsb (same_ends cl id) seen); [reflexivity |].
      simpl in IH. exact IH.
Qed.

End RemoveDuplicatesFacts.

Lemma swapped_ends_key cl i j :
  (lineA cl i, lineB cl i) = (lineA cl j, lineB cl j)
  \/ (lineA cl i, lineB cl i) = (lineB cl j, lineA cl j) ->
  ends_key cl i = ends_key cl j.
Proof.
  unfold ends_key. intros [H | H]; injection H as -> ->; [reflexivity | f_equal; lia].
Qed.

(** C10. The contact lines of a polygon are deduplicated by unordered
    endpoint pair before anything is built from them: the list handed on
    by [GetPolyStrips] is [RemoveDuplicates] of the polygon's lines, it
    keeps a line exactly when no line listed before it joins the same two
    points ([keep_first]), it keeps the order, every line of the polygon
    still has a kept line with its endpoints, and the deque of endpoint
    pairs that strip assembly consumes never holds the same two points
    twice, in either order. *)
Theorem RemoveDuplicates_first_of_each_pair
  (contLines : vtkPolyData) (conts : list vtkIdType) (poly : vtkIdType) (lines : IdsType) :
  polyLines conts !! poly = Some lines ->
  let kept := RemoveDuplicates contLines lines in
  GetPolyStrips_lines contLines conts !! poly = Some kept
  /\ kept = keep_first contLines [] lines
  /\ kept `sublist_of` lines
  /\ (forall id, In id lines -> existsb (same_ends contLines id) kept = true)
  /\ (forall (i j : nat) p q,
        assembly_lines contLines kept !! i = Some p ->
        assembly_lines contLines kept !! j = Some q ->
        i <> j -> p <> q /\ p <> (q.2, q.1)).
Proof.
  intros Hpoly kept. subst kept.
  split.
  { unfold GetPolyStrips_lines. rewrite lookup_fmap, Hpoly. reflexivity. }
  rewrite RemoveDuplicates_keep_first.
  split; [reflexivity |].
  split; [apply keep_first_sublist |].
  split.
  { intros id Hin. apply (keep_first_covers contLines [] lines id Hin). }
  intros i j p q Hi Hj Hij.
  pose proof (keep_first_distinct contLines [] lines) as Hnd.
  unfold assembly_lines in Hi, Hj.
  change (map ?f ?l) with (f <$> l) in Hi, Hj, Hnd.
  rewrite list_lookup_fmap in Hi, Hj.
  apply fmap_Some in Hi as [a [Ha ->]].
  apply fmap_Some in Hj as [b [Hb ->]].
  assert (Hne : ends_key contLines a <> ends_key contLines b).
  { intros Hk. apply Hij.
    apply (NoDup_lookup _ i j (ends_key contLines a) Hnd);
      rewrite list_lookup_fmap; apply fmap_Some; eauto. }
  split; intros Heq; apply Hne, swapped_ends_key; [left | right]; exact Heq.
Qed.

Lemma RemoveDuplicates_first_of_each_pair_witness :
  polyLines [5; 5; 5] !! 5 = Some [0; 1; 2]
  /\ GetPolyStrips_lines sample_lines [5; 5; 5] !! 5 = Some [0; 2].
Proof.
  split; [vm_compute; reflexivity |].
  apply (RemoveDuplicates_first_of_each_pair sample_lines [5; 5; 5] 5 [0; 1; 2]).
  vm_compute. reflexivity.
Defined.

(** ** HasArea looks at one pair only *)

Lemma fold_left_last_round {A} (g : nat -> A) (l : list nat) (i : nat) (a : A) :
  fold_left (fun (_ : A) i => g i) (l ++ [i]) a = g i.
Proof. rewrite fold_left_app. reflexivity. Qed.

(** On an odd strip of three or more elements only the last round of the
    loop counts: the result compares the two neighbours of the centre. *)
Lemma HasArea_odd (strip : StripType) (k : nat) :
  length strip = (2 * k + 3)%nat ->
  HasArea strip = negb (ind_at strip k =? ind_at strip (k + 2)).
Proof.
  intros Hn. unfold HasArea. rewrite Hn.
  replace ((2 * k + 3) mod 2 =? 1)%nat with true.
  2: { symmetry. apply Nat.eqb_eq.
       replace (2 * k + 3)%nat with (1 + (k + 1) * 2)%nat by lia.
       rewrite Nat.Div0.mod_add. reflexivity. }
  replace ((2 * k + 3 - 1) / 2)%nat with (S k).
  2: { replace (2 * k + 3 - 1)%nat with ((k + 1) * 2)%nat by lia.
       rewrite Nat.div_mul by lia. lia. }
  replace (seq 0 (S k)) with (seq 0 k ++ [k]) by (rewrite seq_S; reflexivity).
  rewrite fold_left_last_round.
  replace (2 * k + 3 - k - 1)%nat with (k + 2)%nat by lia.
  reflexivity.
Qed.

(** A strip of one element is reported to have area: the loop body never
    runs. *)
Lemma HasArea_single (p : StripPtR) : HasArea [p] = true.
Proof. reflexivity. Qed.

Lemma HasArea_even (strip : StripType) (k : nat) :
  length strip = (2 * k)%nat -> HasArea strip = true.
Proof.
  intros Hn. unfold HasArea. rewrite Hn.
  replace (2 * k)%nat with (k * 2)%nat by lia.
  rewrite Nat.Div0.mod_mul. reflexivity.
Qed.

(** One direction of the palindrome reading holds from three elements on:
    a palindrome has no area. *)
Lemma palindrome_no_area (strip : StripType) (k : nat) :
  length strip = (2 * k + 3)%nat -> palindrome strip -> HasArea strip = false.
Proof.
  intros Hn Hp. rewrite (HasArea_odd strip k Hn).
  specialize (Hp k). rewrite Hn in Hp.
  replace (2 * k + 3 - 1 - k)%nat with (k + 2)%nat in Hp by lia.
  rewrite Hp by lia. rewrite Z.eqb_refl. reflexivity.
Qed.

(** The loop on a sequence that is not taken from a polygon: 1, 2, 3, 2, 9
    has odd length and is no palindrome of indices (it starts with 1 and
    ends with 9), yet [HasArea] answers [false]: every round of the loop
    overwrites [area], so only the last round, which compares the second
    and the fourth element, decides. The sequence runs along the line
    between 2 and 3 twice, which no strip of a polygon does unless it is
    a doubled chain. *)
Remark HasArea_inner_pair_only :
  let strip := strip_of 0 [1; 2; 3; 2; 9] in
  length strip = 5%nat
  /\ HasArea strip = false
  /\ ~ palindrome strip.
Proof.
  simpl. split; [reflexivity |]. split; [reflexivity |].
  intros Hp. specialize (Hp 0%nat). simpl in Hp.
  assert (H : (0 < 5)%nat) by lia. specialize (Hp H).
  vm_compute in Hp. discriminate.
Qed.

(** ** The search for equal capture points never reports one *)

Section CollapsedFacts.

Variable Point3d_lt : Point3d -> Point3d -> bool.

Lemma pmap_index_empty k collapsed :
  all_empty collapsed ->
  (pmap_index Point3d_lt ∅ k collapsed).1 = ∅
  /\ all_empty (pmap_index Point3d_lt ∅ k collapsed).2.
Proof.
  unfold all_empty.
  induction collapsed as [| [k' v] rest IH]; intros Hall; simpl.
  - split; [reflexivity |]. repeat constructor.
  - apply Forall_cons in Hall as [Hv Hrest]. simpl in Hv. subst v.
    destruct (Point3d_lt k k').
    + split; [reflexivity |]. repeat constructor. exact Hrest.
    + destruct (Point3d_lt k' k).
      * destruct (IH Hrest) as [H1 H2].
        destruct (pmap_index Point3d_lt ∅ k rest) as [v' rest']. simpl in *.
        split; [exact H1 |]. constructor; [reflexivity | exact H2].
      * split; [reflexivity |]. constructor; [reflexivity | exact Hrest].
Qed.

Lemma collapsed_visit_misses collapsed sp :
  all_empty collapsed ->
  (collapsed_visit Point3d_lt collapsed sp).1 = false
  /\ all_empty (collapsed_visit Point3d_lt collapsed sp).2.
Proof.
  intros Hall. unfold collapsed_visit.
  destruct (Capt_Boundary (sp_capt sp)); [| split; [reflexivity | exact Hall]].
  destruct (pmap_index_empty (sp_cutPt sp) collapsed Hall) as [H1 H2].
  destruct (pmap_index Point3d_lt ∅ (sp_cutPt sp) collapsed) as [mapped collapsed'].
  simpl in *. subst mapped. split; [| exact H2].
  rewrite (right_id_L ∅ (∪)), size_singleton.
  apply bool_decide_eq_false. lia.
Qed.

Lemma collapsed_scan_misses sps : forall collapsed,
  all_empty collapsed -> collapsed_scan Point3d_lt collapsed sps = false.
Proof.
  induction sps as [| sp rest IH]; intros collapsed Hall; simpl; [reflexivity |].
  destruct (collapsed_visit_misses collapsed sp Hall) as [H1 H2].
  destruct (collapsed_visit Point3d_lt collapsed sp) as [hit collapsed'].
  simpl in *. subst hit. apply IH, H2.
Qed.

(** Whatever the strip points are, the block falls through. *)
Lemma collapsed_captPts_misses (polyStrips : PolyStripsType) :
  collapsed_captPts Point3d_lt polyStrips = false.
Proof.
  unfold collapsed_captPts. apply collapsed_scan_misses. constructor.
Qed.

(** So [GetPolyStrips] answers what the search for crossings answers. *)
Lemma GetPolyStrips_is_StripsCross BuildStripPoints BuildStrips StripsCross
      contLines pd conts sources :
  (GetPolyStrips Point3d_lt BuildStripPoints BuildStrips StripsCross
                 contLines pd conts sources).1
  = StripsCross
      (BuildStrips contLines (GetPolyStrips_lines contLines conts)
         (BuildStripPoints contLines pd sources (GetPolyStrips_lines contLines conts))).
Proof.
  unfold GetPolyStrips. rewrite collapsed_captPts_misses. reflexivity.
Qed.

End CollapsedFacts.

(** C1. Polygon 7 of [sample_collapsed] has two distinct boundary-captured
    strip points with the same [cutPt]. The search for equal capture
    points still falls through, for any ordering of the coordinates: the
    set it inspects is a copy that holds the current point alone. With
    strips that do not cross, [GetPolyStrips] returns [false] for both
    meshes and the invocation goes on to [CleanStrips] instead of
    stopping with "Strips are invalid.". *)
Theorem equal_capture_points_pass :
  (exists pStrips sp1 sp2,
      sample_collapsed !! 7 = Some pStrips
      /\ ps_pts pStrips !! 1 = Some sp1 /\ ps_pts pStrips !! 2 = Some sp2
      /\ Capt_Boundary (sp_capt sp1) = true /\ Capt_Boundary (sp_capt sp2) = true
      /\ sp_ind sp1 <> sp_ind sp2
      /\ sp_cutPt sp1 = sp_cutPt sp2)
  /\ (forall Point3d_lt, collapsed_captPts Point3d_lt sample_collapsed = false)
  /\ (forall Point3d_lt BuildStrips contsA contsB sourcesA sourcesB f,
        stage_GetPolyStrips Point3d_lt
          (fun _ _ _ _ => sample_collapsed) BuildStrips (fun _ => false)
          contsA contsB sourcesA sourcesB f
        <> vtkError "Strips are invalid.").
Proof.
  split.
  { eexists _, _, _. repeat split; try (vm_compute; reflexivity).
    vm_compute. discriminate. }
  split.
  { intros lt. apply collapsed_captPts_misses. }
  intros lt BuildStrips contsA contsB sourcesA sourcesB f.
  unfold stage_GetPolyStrips, GetPolyStrips.
  rewrite !collapsed_captPts_misses. discriminate.
Qed.

(** ** CleanStrips and the contact lines *)

Lemma Cells_DeleteCell pd id :
  Cells (DeleteCell pd id)
  = if 0 <=? id then alter deleted (Z.to_nat id) (Cells pd) else Cells pd.
Proof. reflexivity. Qed.

Lemma deleted_idem c : deleted (deleted c) = deleted c.
Proof. reflexivity. Qed.

Lemma lookup_DeleteCells ids : forall pd (i : nat),
  Cells (DeleteCells pd ids) !! i
  = drop_if (fun _ => bool_decide (Z.of_nat i ∈ ids)) <$> Cells pd !! i.
Proof.
  unfold DeleteCells, drop_if.
  induction ids as [| id ids IH]; intros pd i; simpl.
  - destruct (Cells pd !! i); reflexivity.
  - rewrite IH, Cells_DeleteCell.
    destruct (Z.leb_spec 0 id) as [Hid | Hid].
    + destruct (decide (i = Z.to_nat id)) as [-> | Hne].
      * rewrite list_lookup_alter_eq.
        rewrite (bool_decide_eq_true_2 (Z.of_nat (Z.to_nat id) ∈ id :: ids))
          by (rewrite Z2Nat.id by lia; apply elem_of_cons; left; reflexivity).
        destruct (Cells pd !! Z.to_nat id) as [c |]; simpl; [| reflexivity].
        destruct (bool_decide _); reflexivity.
      * rewrite list_lookup_alter_ne by congruence.
        destruct (Cells pd !! i) as [c |]; simpl; [| reflexivity].
        rewrite (bool_decide_ext (Z.of_nat i ∈ id :: ids) (Z.of_nat i ∈ ids));
          [reflexivity |].
        rewrite elem_of_cons. split; [intros [H | H]; [lia | exact H] | tauto].
    + destruct (Cells pd !! i) as [c |]; simpl; [| reflexivity].
      rewrite (bool_decide_ext (Z.of_nat i ∈ id :: ids) (Z.of_nat i ∈ ids));
        [reflexivity |].
      rewrite elem_of_cons. split; [intros [H | H]; [lia | exact H] | tauto].
Qed.

Lemma elem_of_GetPointCells pd p (i : nat) c :
  Cells pd !! i = Some c ->
  (Z.of_nat i ∈ GetPointCells pd p <-> uses_point p c = true).
Proof.
  intros Hc. unfold GetPointCells.
  rewrite list_elem_of_In, in_map_iff. split.
  - intros [[j c'] [Hj Hin]]. simpl in Hj. apply Nat2Z.inj in Hj. subst j.
    apply filter_In in Hin as [Hin Hu]. simpl in Hu.
    apply list_elem_of_In, list_elem_of_lookup in Hin as [k Hk].
    change (combine ?a ?b) with (zip a b) in Hk.
    apply lookup_zip_with_Some in Hk as (x & y & Hxy & Hx & Hy).
    injection Hxy as <- <-.
    apply lookup_seq in Hx as [-> _]. simpl in Hc. congruence.
  - intros Hu. exists (i, c). split; [reflexivity |].
    apply filter_In. split; [| exact Hu].
    apply list_elem_of_In, list_elem_of_lookup. exists i.
    change (combine ?a ?b) with (zip a b).
    apply lookup_zip_with_Some. exists i, c. split; [reflexivity |].
    split; [| exact Hc].
    apply lookup_seq. split; [reflexivity |]. apply lookup_lt_Some in Hc. exact Hc.
Qed.

Lemma Cells_delete_at pd ind :
  Cells (delete_at pd ind) = map (drop_if (uses_point ind)) (Cells pd).
Proof.
  apply list_eq. intros i. unfold delete_at.
  rewrite lookup_DeleteCells.
  change (map ?f ?l) with (f <$> l). rewrite list_lookup_fmap.
  destruct (Cells pd !! i) as [c |] eqn:Hc; simpl; [| reflexivity].
  f_equal. unfold drop_if.
  rewrite (bool_decide_ext _ _ (elem_of_GetPointCells pd ind i c Hc)).
  destruct (uses_point ind c); reflexivity.
Qed.

Lemma drop_if_twice (P Q : Cell -> bool) c :
  (forall c', P (deleted c') = P c') ->
  drop_if P (drop_if Q c) = drop_if (fun c' => Q c' || P c') c.
Proof.
  intros HP. unfold drop_if.
  destruct (Q c); simpl; [rewrite HP; destruct (P c) |]; reflexivity.
Qed.

Lemma Cells_delete_over (l : list vtkIdType) : forall pd,
  Cells (fold_left delete_at l pd)
  = map (drop_if (fun c => existsb (fun ind => uses_point ind c) l)) (Cells pd).
Proof.
  induction l as [| ind l IH]; intros pd; simpl.
  - unfold drop_if. rewrite map_id. reflexivity.
  - rewrite IH, Cells_delete_at, map_map.
    apply map_ext. intros c. apply drop_if_twice. reflexivity.
Qed.

Lemma uses_point_touched (inds : gset Z) c :
  existsb (fun ind => uses_point ind c) (sorted_elements inds) = touched inds c.
Proof.
  apply eq_true_iff_eq. unfold touched, uses_point.
  rewrite !existsb_exists. split.
  - intros [ind [Hin Hex]]. apply existsb_exists in Hex as [p [Hp Heq]].
    apply Z.eqb_eq in Heq. subst p. exists ind. split; [exact Hp |].
    apply bool_decide_eq_true. apply elem_of_sorted_elements, list_elem_of_In, Hin.
  - intros [p [Hp Hin]]. apply bool_decide_eq_true in Hin.
    exists p. split.
    + apply list_elem_of_In, elem_of_sorted_elements, Hin.
    + apply existsb_exists. exists p. split; [exact Hp | apply Z.eqb_refl].
Qed.

(** The contact lines after the loop over [inds]: a line is deleted when
    one of its endpoints was dropped, and is left alone otherwise. *)
Lemma Cells_delete_dropped pd (inds : gset Z) :
  Cells (delete_dropped pd inds) = map (drop_if (touched inds)) (Cells pd).
Proof.
  unfold delete_dropped. rewrite Cells_delete_over.
  apply map_ext. intros c. unfold drop_if. rewrite uses_point_touched. reflexivity.
Qed.

Lemma filter_length_le {A} (p : A -> bool) l :
  (length (List.filter p l) <= length l)%nat.
Proof. induction l as [| x l IH]; simpl; [lia |]. destruct (p x); simpl; lia. Qed.

Lemma filter_all {A} (p : A -> bool) l :
  length (List.filter p l) = length l <-> Forall (fun x => p x = true) l.
Proof.
  induction l as [| x l IH]; simpl.
  - split; [constructor | reflexivity].
  - pose proof (filter_length_le p l). destruct (p x) eqn:Hx; simpl.
    + rewrite Forall_cons. split.
      * intros H0. split; [exact Hx | apply IH; lia].
      * intros [_ H0]. f_equal. apply IH, H0.
    + split; [lia |]. intros H0. apply Forall_cons in H0 as [H0 _]. congruence.
Qed.

Lemma is_empty_cell_spec c : is_empty_cell c = true <-> cellType c = VTK_EMPTY_CELL.
Proof. unfold is_empty_cell. destruct (cellType c); simpl; split; congruence. Qed.

(** [j == numLines] says that every cell is empty. *)
Lemma count_empty_all pd :
  (count_empty pd =? GetNumberOfCells pd) = true
  <-> Forall (fun c => cellType c = VTK_EMPTY_CELL) (Cells pd).
Proof.
  unfold count_empty, GetNumberOfCells.
  rewrite Z.eqb_eq, Nat2Z.inj_iff, filter_all.
  apply Forall_proper; [| reflexivity]. intros c. apply is_empty_cell_spec.
Qed.

(** *** FindHoles *)

Lemma FindHoles_strips_spec pts strips : forall inds kept inds',
  FindHoles_strips pts strips inds = Some (kept, inds') ->
  kept = List.filter (fun s => negb (holeb pts s)) strips
  /\ inds' = inds ∪ hole_inds pts strips.
Proof.
  unfold hole_inds, holeb.
  induction strips as [| s rest IH]; intros inds kept inds' H; simpl in H.
  - injection H as <- <-. split; [reflexivity |]. simpl.
    rewrite (right_id_L ∅ (∪)). reflexivity.
  - destruct (is_hole pts s) as [[|] |] eqn:Hs; simpl in H; [| | discriminate].
    + apply IH in H as [-> ->]. simpl. rewrite Hs. simpl.
      split; [reflexivity | rewrite (assoc_L (∪)); reflexivity].
    + destruct (FindHoles_strips pts rest inds) as [[kept0 inds0] |] eqn:Hrest;
        simpl in H; [| discriminate].
      injection H as <- <-. apply IH in Hrest as [-> ->].
      simpl. rewrite Hs. simpl. split; reflexivity.
Qed.

Lemma FindHoles_polys_spec polys : forall inds polys' inds',
  FindHoles_polys polys inds = Some (polys', inds') ->
  polys' = map (fun e : Z * PStrips => (e.1, without_holes e.2)) polys
  /\ inds' = inds ∪ poly_hole_inds polys.
Proof.
  unfold poly_hole_inds.
  induction polys as [| [id pStrips] rest IH]; intros inds polys' inds' H; simpl in H.
  - injection H as <- <-. split; [reflexivity |]. simpl.
    rewrite (right_id_L ∅ (∪)). reflexivity.
  - destruct (FindHoles_strips (ps_pts pStrips) (ps_strips pStrips) inds)
      as [[kept inds0] |] eqn:Hs; simpl in H; [| discriminate].
    destruct (FindHoles_polys rest inds0) as [[rest' inds1] |] eqn:Hr;
      simpl in H; [| discriminate].
    injection H as <- <-.
    apply FindHoles_strips_spec in Hs as [-> ->].
    apply IH in Hr as [-> ->].
    split; [reflexivity |]. simpl. rewrite (assoc_L (∪)). reflexivity.
Qed.

Lemma list_to_map_entries {V} (m : gmap Z V) : list_to_map (entries m) = m.
Proof.
  rewrite <- (list_to_map_to_list m) at 2.
  apply list_to_map_proper.
  - apply NoDup_fst_entries.
  - apply merge_sort_Permutation.
Qed.

Lemma FindHoles_spec (polyStrips : PolyStripsType) inds polyStrips' inds' :
  FindHoles polyStrips inds = Some (polyStrips', inds') ->
  polyStrips' = without_holes <$> polyStrips
  /\ inds' = inds ∪ poly_hole_inds (entries polyStrips).
Proof.
  unfold FindHoles. intros H.
  destruct (FindHoles_polys (entries polyStrips) inds) as [[l i] |] eqn:Hl;
    simpl in H; [| discriminate].
  injection H as <- <-.
  apply FindHoles_polys_spec in Hl as [-> ->].
  split; [| reflexivity].
  change (map ?f ?l) with (prod_map id without_holes <$> l).
  rewrite list_to_map_fmap, list_to_map_entries. reflexivity.
Qed.

(** The points [CleanStrips] drops are the points of the hole strips of
    both meshes. *)
Lemma dropped_inds_spec f inds :
  dropped_inds f = Some inds ->
  inds = poly_hole_inds (entries (polyStripsA f))
         ∪ poly_hole_inds (entries (polyStripsB f)).
Proof.
  unfold dropped_inds. intros H.
  destruct (FindHoles (polyStripsA f) ∅) as [[psA iA] |] eqn:HA; simpl in H; [| discriminate].
  destruct (FindHoles (polyStripsB f) iA) as [[psB iB] |] eqn:HB; simpl in H; [| discriminate].
  injection H as <-.
  apply FindHoles_spec in HA as [_ ->]. apply FindHoles_spec in HB as [_ ->].
  rewrite (left_id_L ∅ (∪)). reflexivity.
Qed.

Lemma elem_of_poly_hole_inds (polyStrips : PolyStripsType) p :
  p ∈ poly_hole_inds (entries polyStrips)
  <-> exists poly pStrips strip,
        polyStrips !! poly = Some pStrips
        /\ In strip (ps_strips pStrips)
        /\ is_hole (ps_pts pStrips) strip = Some true
        /\ In p (map r_ind strip).
Proof.
  unfold poly_hole_inds, hole_inds. rewrite elem_of_union_list. split.
  - intros [X [HX Hp]].
    apply list_elem_of_In, in_map_iff in HX as [[poly pStrips] [<- He]].
    apply list_elem_of_In, elem_of_entries in He. simpl in Hp.
    apply elem_of_union_list in Hp as [Y [HY Hp]].
    apply list_elem_of_In, in_map_iff in HY as [strip [<- Hs]].
    apply filter_In in Hs as [Hs Hh].
    exists poly, pStrips, strip. repeat split; try assumption.
    + unfold holeb in Hh. destruct (is_hole (ps_pts pStrips) strip) as [[|] |];
        simpl in Hh; congruence.
    + unfold strip_inds in Hp. apply elem_of_list_to_set, list_elem_of_In in Hp. exact Hp.
  - intros (poly & pStrips & strip & Hl & Hs & Hh & Hp).
    exists (hole_inds (ps_pts pStrips) (ps_strips pStrips)). split.
    + apply list_elem_of_In, in_map_iff. exists (poly, pStrips). split; [reflexivity |].
      apply list_elem_of_In, elem_of_entries, Hl.
    + unfold hole_inds. apply elem_of_union_list. exists (strip_inds strip). split.
      * apply list_elem_of_In, in_map_iff. exists strip. split; [reflexivity |].
        apply filter_In. split; [exact Hs |]. unfold holeb. rewrite Hh. reflexivity.
      * unfold strip_inds. apply elem_of_list_to_set, list_elem_of_In, Hp.
Qed.

Lemma CleanStrips_unfold f b f' :
  CleanStrips f = Some (b, f') ->
  exists inds,
    dropped_inds f = Some inds
    /\ f' = mkFilter (modPdA f) (modPdB f) (delete_dropped (contLines f) inds)
                     (CleanOther inds (without_holes <$> polyStripsA f))
                     (CleanOther inds (without_holes <$> polyStripsB f))
                     (OperMode f)
    /\ b = (count_empty (contLines f') =? GetNumberOfCells (contLines f')).
Proof.
  unfold CleanStrips, dropped_inds. intros H.
  destruct (FindHoles (polyStripsA f) ∅) as [[psA iA] |] eqn:HA; simpl in H |- *; [| discriminate].
  destruct (FindHoles (polyStripsB f) iA) as [[psB iB] |] eqn:HB; simpl in H |- *; [| discriminate].
  injection H as <- <-. simpl.
  exists iB. split; [reflexivity |].
  apply FindHoles_spec in HA as [-> _]. apply FindHoles_spec in HB as [-> _].
  split; reflexivity.
Qed.

(** What [CleanStrips] leaves behind when it returns. *)
Lemma CleanStrips_spec (f : Filter) (b : bool) (f' : Filter) :
  CleanStrips f = Some (b, f') ->
  exists inds : gset Z,
    inds = poly_hole_inds (entries (polyStripsA f))
           ∪ poly_hole_inds (entries (polyStripsB f))
    /\ polyStripsA f' = CleanOther inds (without_holes <$> polyStripsA f)
    /\ polyStripsB f' = CleanOther inds (without_holes <$> polyStripsB f)
    /\ Cells (contLines f') = map (drop_if (touched inds)) (Cells (contLines f))
    /\ (b = true <-> Forall (fun c => cellType c = VTK_EMPTY_CELL) (Cells (contLines f')))
    /\ (stage_CleanStrips f = vtkError "There is no contact." <-> b = true).
Proof.
  intros H. destruct (CleanStrips_unfold f b f' H) as (inds & Hi & Hf & Hb).
  exists inds. split; [apply dropped_inds_spec, Hi |].
  split; [rewrite Hf; reflexivity |].
  split; [rewrite Hf; reflexivity |].
  split; [rewrite Hf; apply Cells_delete_dropped |].
  split.
  - rewrite Hb. apply count_empty_all.
  - unfold stage_CleanStrips. rewrite H. destruct b; split; congruence.
Qed.

(** *** CleanStrips returns when the strips are located *)

Lemma is_hole_located pts strip : located pts strip = true -> is_Some (is_hole pts strip).
Proof.
  unfold located, is_hole.
  destruct (head strip) as [front |]; [| discriminate].
  destruct (last strip) as [back |]; [| discriminate].
  rewrite andb_true_iff, !bool_decide_eq_true. intros [[spF HF] [spB HB]].
  simpl. rewrite HF. simpl.
  destruct (Capt_eqb (sp_capt spF) Capt_Not); [| eauto].
  rewrite HB. simpl. eauto.
Qed.

Lemma FindHoles_strips_total pts strips : forall inds,
  forallb (located pts) strips = true -> is_Some (FindHoles_strips pts strips inds).
Proof.
  induction strips as [| s rest IH]; intros inds Hall; simpl; [eauto |].
  simpl in Hall. apply andb_true_iff in Hall as [Hs Hrest].
  destruct (is_hole_located pts s Hs) as [h Hh]. rewrite Hh. simpl.
  destruct h; [apply IH, Hrest |].
  destruct (IH inds Hrest) as [r Hr]. rewrite Hr. simpl. eauto.
Qed.

Lemma FindHoles_total (polyStrips : PolyStripsType) inds :
  all_located polyStrips = true -> is_Some (FindHoles polyStrips inds).
Proof.
  unfold all_located, FindHoles. revert inds.
  induction (entries polyStrips) as [| [id pStrips] rest IH]; intros inds Hall; simpl;
    [eauto |].
  simpl in Hall. apply andb_true_iff in Hall as [Hp Hrest].
  destruct (FindHoles_strips_total _ _ inds Hp) as [r Hr]. rewrite Hr. simpl.
  destruct (IH r.2 Hrest) as [r' Hr'].
  destruct (FindHoles_polys rest r.2) as [r'' |]; simpl in *; [eauto | discriminate].
Qed.

Lemma CleanStrips_total f :
  all_located (polyStripsA f) = true -> all_located (polyStripsB f) = true ->
  is_Some (CleanStrips f).
Proof.
  intros HA HB. unfold CleanStrips.
  destruct (FindHoles_total _ ∅ HA) as [rA HrA]. rewrite HrA. simpl.
  destruct (FindHoles_total _ rA.2 HB) as [rB HrB]. rewrite HrB. simpl.
  eauto.
Qed.

(** C7. On located strips [CleanStrips] returns, and it returns [true]
    exactly when every cell of the contact lines is deleted at its end,
    that is after the hole strips are removed (their points are the
    dropped ones), every strip with a dropped point is removed from both
    meshes, and every contact line with a dropped endpoint is deleted;
    the invocation stops with "There is no contact." exactly in that
    case. *)
Theorem CleanStrips_no_contact (f : Filter) :
  all_located (polyStripsA f) = true ->
  all_located (polyStripsB f) = true ->
  exists (b : bool) (f' : Filter) (inds : gset Z),
    CleanStrips f = Some (b, f')
    /\ inds = poly_hole_inds (entries (polyStripsA f))
              ∪ poly_hole_inds (entries (polyStripsB f))
    /\ polyStripsA f' = CleanOther inds (without_holes <$> polyStripsA f)
    /\ polyStripsB f' = CleanOther inds (without_holes <$> polyStripsB f)
    /\ Cells (contLines f') = map (drop_if (touched inds)) (Cells (contLines f))
    /\ (b = true <-> Forall (fun c => cellType c = VTK_EMPTY_CELL) (Cells (contLines f')))
    /\ (stage_CleanStrips f = vtkError "There is no contact." <-> b = true).
Proof.
  intros HA HB.
  destruct (CleanStrips_total f HA HB) as [[b f'] H].
  destruct (CleanStrips_spec f b f' H) as (inds & Hspec).
  exists b, f', inds. split; [exact H | exact Hspec].
Qed.


Lemma CleanStrips_no_contact_witness :
  exists (b : bool) (f' : Filter),
    CleanStrips sample_dangling = Some (b, f')
    /\ (b = true <->
        Forall (fun c => cellType c = VTK_EMPTY_CELL) (Cells (contLines f'))).
Proof.
  destruct (CleanStrips_no_contact sample_dangling)
    as (b & f' & inds & Hclean & _ & _ & _ & _ & Hb & _).
  - vm_compute. reflexivity.
  - vm_compute. reflexivity.
  - exists b, f'. split; [exact Hclean | exact Hb].
Defined.

(** ** The degree of line ends after CleanStrips *)


Lemma uses_point_In p c : uses_point p c = true <-> In p (cellPts c).
Proof.
  unfold uses_point. rewrite existsb_exists. split.
  - intros [x [Hx Heq]]. apply Z.eqb_eq in Heq. subst x. exact Hx.
  - intros H. exists p. split; [exact H | apply Z.eqb_refl].
Qed.





(** ** CutCells: strips branched at both ends *)

Section CutCellsFacts.

Variable Point3d_lt : Point3d -> Point3d -> bool.
Variable Point3d_eq : Point3d -> Point3d -> bool.
Variable default_capt : Capt.
Variable weave : vtkPolyData -> vtkIdType -> PStrips -> bool * vtkPolyData * PStrips.

Let cut_poly := CutCells_poly Point3d_lt Point3d_eq default_capt weave.
Let cut_loop := CutCells_loop Point3d_lt Point3d_eq default_capt weave.
Let cut := CutCells Point3d_lt Point3d_eq default_capt weave.

Lemma branched_not_on_vertices (pts : StripPtsType) ind sp :
  pts !! ind = Some sp -> sp_capt sp = Capt_Branched ->
  all_on_vertices pts = false.
Proof.
  intros Hl Hc. unfold all_on_vertices.
  destruct (forallb _ (entries pts)) eqn:Hall; [| reflexivity].
  rewrite forallb_forall in Hall.
  specialize (Hall (ind, sp)). simpl in Hall. rewrite Hc in Hall. simpl in Hall.
  symmetry. apply Hall, list_elem_of_In, elem_of_entries, Hl.
Qed.

Lemma CutCells_poly_branched pd polyInd pStrips strip front back spF spB :
  In strip (ps_strips pStrips) ->
  head strip = Some front -> last strip = Some back ->
  ps_pts pStrips !! r_ind front = Some spF -> sp_capt spF = Capt_Branched ->
  ps_pts pStrips !! r_ind back = Some spB -> sp_capt spB = Capt_Branched ->
  cut_poly pd polyInd pStrips = (true, pd, pStrips).
Proof.
  intros Hin Hf Hb HF HcF HB HcB.
  unfold cut_poly, CutCells_poly, coincident.
  rewrite (branched_not_on_vertices _ _ _ HF HcF). simpl.
  replace (existsb _ (ps_strips pStrips)) with true; [reflexivity |].
  symmetry. apply existsb_exists. exists strip. split; [exact Hin |].
  unfold both_branched, capt_of. rewrite Hf, Hb, HF, HB, HcF, HcB. reflexivity.
Qed.

Lemma CutCells_loop_branched polys : forall pd poly pStrips strip front back spF spB,
  In (poly, pStrips) polys ->
  In strip (ps_strips pStrips) ->
  head strip = Some front -> last strip = Some back ->
  ps_pts pStrips !! r_ind front = Some spF -> sp_capt spF = Capt_Branched ->
  ps_pts pStrips !! r_ind back = Some spB -> sp_capt spB = Capt_Branched ->
  (cut_loop pd polys).1.1 = true.
Proof.
  induction polys as [| [id ps] rest IH];
    intros pd poly pStrips strip front back spF spB Hin Hs Hf Hb HF HcF HB HcB;
    [destruct Hin |].
  unfold cut_loop. simpl. fold cut_poly. fold cut_loop.
  destruct Hin as [Heq | Hin].
  - injection Heq as -> ->.
    rewrite (CutCells_poly_branched pd poly pStrips strip front back spF spB) by assumption.
    reflexivity.
  - destruct (cut_poly pd id ps) as [[failed pd'] ps'].
    destruct failed; [reflexivity |].
    specialize (IH pd' poly pStrips strip front back spF spB Hin Hs Hf Hb HF HcF HB HcB).
    unfold cut_loop in *.
    destruct (CutCells_loop _ _ _ _ pd' rest) as [[failed' pd''] rest'].
    exact IH.
Qed.

(** One such strip anywhere in the bundle makes [CutCells] return
    [true]. *)
Lemma CutCells_both_branched pd polyStrips :
  has_both_branched polyStrips -> (cut pd polyStrips).1.1 = true.
Proof.
  intros (poly & pStrips & strip & front & back & spF & spB
          & Hl & Hs & Hf & Hb & HF & HcF & HB & HcB).
  assert (H : (cut_loop pd (entries polyStrips)).1.1 = true).
  { apply (CutCells_loop_branched _ pd poly pStrips strip front back spF spB);
      try assumption.
    apply list_elem_of_In, elem_of_entries, Hl. }
  unfold cut, CutCells. unfold cut_loop in H.
  destruct (CutCells_loop _ _ _ _ pd (entries polyStrips)) as [[failed pd'] polys].
  simpl in H. subst failed. reflexivity.
Qed.

End CutCellsFacts.

(** C6. If, when the meshes are cut, a strip of a contacted polygon of
    either mesh has both ends classified [Branched], the invocation stops
    with "CutCells failed.": [CutCells] returns [true] for that mesh, or
    already for mesh A. *)
Theorem both_branched_CutCells_failed
        (Point3d_lt Point3d_eq : Point3d -> Point3d -> bool) (default_capt : Capt)
        (weave : vtkPolyData -> vtkIdType -> PStrips -> bool * vtkPolyData * PStrips)
        (f : Filter) :
  has_both_branched (polyStripsA f) \/ has_both_branched (polyStripsB f) ->
  ((CutCells Point3d_lt Point3d_eq default_capt weave (modPdA f) (polyStripsA f)).1.1 = true
   \/ (CutCells Point3d_lt Point3d_eq default_capt weave (modPdB f) (polyStripsB f)).1.1 = true)
  /\ stage_CutCells Point3d_lt Point3d_eq default_capt weave f
     = vtkError "CutCells failed.".
Proof.
  intros H.
  pose proof (CutCells_both_branched Point3d_lt Point3d_eq default_capt weave
                (modPdA f) (polyStripsA f)) as HA.
  pose proof (CutCells_both_branched Point3d_lt Point3d_eq default_capt weave
                (modPdB f) (polyStripsB f)) as HB.
  unfold stage_CutCells.
  destruct (CutCells _ _ _ _ (modPdA f) (polyStripsA f)) as [[failedA pdA] psA].
  destruct (CutCells _ _ _ _ (modPdB f) (polyStripsB f)) as [[failedB pdB] psB].
  simpl in *.
  destruct H as [H | H].
  - rewrite (HA H). split; [left |]; reflexivity.
  - rewrite (HB H). destruct failedA; split; auto.
Qed.

Lemma both_branched_CutCells_failed_witness :
  stage_CutCells sample_lt sample_eq Capt_Not sample_passing_weave sample_branched
  = vtkError "CutCells failed.".
Proof.
  apply (both_branched_CutCells_failed
           sample_lt sample_eq Capt_Not sample_passing_weave sample_branched).
  left.
  exists 3,
         (mkPStrips [0; 1; 2]
                    (sample_pts 3 [(7, Capt_Branched); (8, Capt_Branched)])
                    [strip_of 0 [7; 8]]),
         (strip_of 0 [7; 8]),
         (mkStripPtR 7 0 NOTSET Side_None (NOTSET, NOTSET)),
         (mkStripPtR 8 0 NOTSET Side_None (NOTSET, NOTSET)),
         (sample_pt 3 7 Capt_Branched),
         (sample_pt 3 8 Capt_Branched).
  repeat split; try (vm_compute; reflexivity).
  left. reflexivity.
Defined.

(** ** CutCells: the shortcut for a coincident boundary *)

Lemma insert_ring_spec _poly : forall pd acc,
  fold_left
    (fun (acc : list vtkIdType * vtkPolyData) p =>
       let '(id, pd') := InsertNextPoint acc.2 p in (acc.1 ++ [id], pd'))
    _poly (acc, pd)
  = (acc ++ map Z.of_nat (seq (length (Points pd)) (length _poly)),
     mkPolyData (Points pd ++ _poly) (Cells pd) (OrigCellIds pd)).
Proof.
  induction _poly as [| p rest IH]; intros pd acc; simpl.
  - rewrite !app_nil_r. destruct pd; reflexivity.
  - rewrite IH. simpl. rewrite length_app. simpl.
    rewrite <- !app_assoc. simpl.
    replace (length (Points pd) + 1)%nat with (S (length (Points pd))) by lia.
    reflexivity.
Qed.

Lemma GetPoint_fresh (pts extra : list Point3d) cells orig :
  map (GetPoint (mkPolyData (pts ++ extra) cells orig))
      (map Z.of_nat (seq (length pts) (length extra)))
  = extra.
Proof.
  rewrite map_map. apply list_eq. intros i.
  change (map ?f ?l) with (f <$> l). rewrite list_lookup_fmap.
  destruct (extra !! i) as [p |] eqn:Hp.
  - assert (Hi : (i < length extra)%nat) by (apply lookup_lt_Some in Hp; exact Hp).
    rewrite (proj2 (lookup_seq _ _ i (length pts + i)%nat)) by (split; [reflexivity | exact Hi]).
    simpl. f_equal. unfold GetPoint. simpl. rewrite Nat2Z.id.
    rewrite nth_lookup, lookup_app_r by lia.
    replace (length pts + i - length pts)%nat with i by lia.
    rewrite Hp. reflexivity.
  - apply lookup_ge_None in Hp.
    rewrite (proj2 (lookup_ge_None _ i)); [reflexivity |].
    rewrite length_seq. exact Hp.
Qed.

(** The round of the shortcut. When every strip point of a polygon is
    captured on a vertex (the test "A or B" of the source) and the set of
    snapped coordinates equals the set of the polygon's vertex
    coordinates, the round of [CutCells] for this polygon does not fail,
    appends one point per ring vertex (fresh ids, the ring's coordinates
    in ring order), appends exactly one cell, a polygon over these new
    ids, records for it the [OrigCellId] of the polygon, marks the
    polygon's own cell deleted with its point list as it was, and changes
    nothing else: no strip is woven ([weave] is not consulted) and the
    bundle stays as it is. *)
Lemma CutCells_poly_coincident
        (Point3d_lt Point3d_eq : Point3d -> Point3d -> bool) (default_capt : Capt)
        (weave : vtkPolyData -> vtkIdType -> PStrips -> bool * vtkPolyData * PStrips)
        (pd : vtkPolyData) (polyInd : vtkIdType) (pStrips : PStrips) :
  all_on_vertices (ps_pts pStrips) = true ->
  pset_equal Point3d_eq
             (pset_of_list Point3d_lt (ring_coords pd (ps_poly pStrips)))
             (pset_of_list Point3d_lt (cut_coords (ps_pts pStrips))) = true ->
  0 <= polyInd < GetNumberOfCells pd ->
  exists (ring : list vtkIdType) (pd' : vtkPolyData),
    CutCells_poly Point3d_lt Point3d_eq default_capt weave pd polyInd pStrips
    = (false, pd', pStrips)
    /\ ring = map Z.of_nat (seq (length (Points pd)) (length (ps_poly pStrips)))
    /\ Forall (fun id => GetNumberOfPoints pd <= id) ring
    /\ Points pd' = Points pd ++ ring_coords pd (ps_poly pStrips)
    /\ map (GetPoint pd') ring = ring_coords pd (ps_poly pStrips)
    /\ Cells pd' = alter deleted (Z.to_nat polyInd) (Cells pd) ++ [mkCell VTK_POLYGON ring]
    /\ GetCellType pd' polyInd = VTK_EMPTY_CELL
    /\ GetCellPoints pd' polyInd = GetCellPoints pd polyInd
    /\ OrigCellIds pd' = OrigCellIds pd ++ [GetOrigCellId pd polyInd]
    /\ (length (OrigCellIds pd) = length (Cells pd) ->
        GetOrigCellId pd' (GetNumberOfCells pd) = GetOrigCellId pd polyInd).
Proof.
  intros Hall Hset Hrange.
  unfold GetNumberOfCells in Hrange.
  set (ring := map Z.of_nat (seq (length (Points pd)) (length (ps_poly pStrips)))).
  set (pd' := mkPolyData (Points pd ++ ring_coords pd (ps_poly pStrips))
                         (alter deleted (Z.to_nat polyInd) (Cells pd)
                          ++ [mkCell VTK_POLYGON ring])
                         (OrigCellIds pd ++ [GetOrigCellId pd polyInd])).
  assert (Hlt : (Z.to_nat polyInd < length (Cells pd))%nat) by lia.
  exists ring, pd'.
  split.
  { unfold CutCells_poly, coincident. rewrite Hall, Hset. simpl.
    unfold reemit, insert_ring. rewrite insert_ring_spec. simpl.
    unfold DeleteCell, pd'. simpl.
    replace (0 <=? polyInd) with true by (symmetry; apply Z.leb_le; lia).
    unfold ring_coords. rewrite length_map.
    f_equal. f_equal. f_equal.
    rewrite alter_app_l by exact Hlt. reflexivity. }
  split; [reflexivity |].
  split.
  { unfold ring, GetNumberOfPoints. apply Forall_forall. intros id Hin.
    apply list_elem_of_In, in_map_iff in Hin as [k [<- Hk]].
    apply in_seq in Hk. lia. }
  split; [reflexivity |].
  split.
  { unfold pd', ring.
    replace (length (ps_poly pStrips)) with (length (ring_coords pd (ps_poly pStrips)))
      by (unfold ring_coords; apply length_map).
    apply GetPoint_fresh. }
  split; [reflexivity |].
  assert (Hcell : GetCell pd' polyInd = deleted (GetCell pd polyInd)).
  { unfold GetCell, pd'. simpl. rewrite !nth_lookup.
    rewrite lookup_app_l by (rewrite length_alter; exact Hlt).
    rewrite list_lookup_alter_eq.
    destruct (Cells pd !! Z.to_nat polyInd) as [c |] eqn:Hc; [reflexivity |].
    apply lookup_ge_None in Hc. lia. }
  split; [unfold GetCellType; rewrite Hcell; reflexivity |].
  split; [unfold GetCellPoints; rewrite Hcell; reflexivity |].
  split; [reflexivity |].
  intros Hlen. unfold GetOrigCellId at 1, GetNumberOfCells, pd'. simpl.
  rewrite Nat2Z.id, nth_lookup, lookup_app_r by lia.
  rewrite Hlen, Nat.sub_diag. reflexivity.
Qed.

Lemma grown_refl own pd : grown own pd pd.
Proof. unfold grown. auto 10. Qed.

Lemma grown_trans (P Q R : vtkIdType -> Prop) a b c :
  (forall k, P k -> R k) -> (forall k, Q k -> R k) ->
  grown P a b -> grown Q b c -> grown R a c.
Proof.
  intros HP HQ (Hp1 & Hc1 & Ho1 & Hl1 & Ha1) (Hp2 & Hc2 & Ho2 & Hl2 & Ha2).
  unfold grown. split; [auto |]. split; [| split; [auto | split; [lia | auto]]].
  intros i x Hi Hx. apply Hc2; [intros H; apply Hi, HQ, H |].
  apply Hc1; [intros H; apply Hi, HP, H | exact Hx].
Qed.

Lemma lookup_app_Some_l {A} (l k : list A) i x : l !! i = Some x -> (l ++ k) !! i = Some x.
Proof. intros H. rewrite lookup_app_l; [exact H | apply lookup_lt_Some in H; exact H]. Qed.

Lemma reemitted_grown pd pd' polyInd origId coords :
  0 <= polyInd ->
  reemitted pd pd' polyInd origId coords -> grown (eq polyInd) pd pd'.
Proof.
  intros Hpos (Hp & Hc & Ho). unfold grown. rewrite Hp, Hc, Ho.
  split; [intros; apply lookup_app_Some_l; assumption |].
  split.
  { intros i c Hi Hx. apply lookup_app_Some_l.
    rewrite list_lookup_alter_ne; [exact Hx |]. intros E. apply Hi. lia. }
  split; [intros; apply lookup_app_Some_l; assumption |].
  rewrite !length_app, length_alter. simpl. lia.
Qed.

Lemma omap_length_total {A B} (g : A -> option B) (l : list A) :
  Forall (fun x => is_Some (g x)) l -> length (omap g l) = length l.
Proof.
  induction 1 as [| x l [y Hy] _ IH]; [reflexivity |].
  simpl. rewrite Hy. simpl. f_equal. exact IH.
Qed.

(** A cell that is not empty is found in the mesh after
    [RemoveDeletedCells], with its value of the cell array at the same
    place. *)
Lemma RemoveDeletedCells_keeps (pd : vtkPolyData) (k : nat) (c : Cell) (v : vtkIdType) :
  Cells pd !! k = Some c -> is_empty_cell c = false ->
  length (OrigCellIds pd) = length (Cells pd) ->
  OrigCellIds pd !! k = Some v ->
  exists j : nat,
    Cells (RemoveDeletedCells pd) !! j = Some c
    /\ OrigCellIds (RemoveDeletedCells pd) !! j = Some v.
Proof.
  intros Hc He Hlen Hv. unfold RemoveDeletedCells. simpl.
  set (f := fun ic : nat * Cell => negb (is_empty_cell ic.2)).
  set (all := combine (seq 0 (length (Cells pd))) (Cells pd)).
  assert (Hin : In (k, c) (List.filter f all)).
  { apply filter_In. split; [| unfold f; simpl; rewrite He; reflexivity].
    apply list_elem_of_In, list_elem_of_lookup. exists k. unfold all.
    change (combine ?a ?b) with (zip a b).
    apply lookup_zip_with_Some. exists k, c. split; [reflexivity |].
    split; [| exact Hc]. apply lookup_seq. split; [reflexivity |].
    apply lookup_lt_Some in Hc. exact Hc. }
  assert (Hall : Forall (fun ic : nat * Cell => is_Some (OrigCellIds pd !! ic.1))
                        (List.filter f all)).
  { apply List.Forall_forall. intros [i x] Hi. apply filter_In in Hi as [Hi _].
    unfold all in Hi. apply in_combine_l, in_seq in Hi. simpl.
    apply lookup_lt_is_Some. lia. }
  apply in_split in Hin as (l1 & l2 & Hsplit). rewrite Hsplit in *.
  apply Forall_app in Hall as [Hall1 _].
  exists (length l1). split.
  - rewrite map_app. simpl.
    rewrite lookup_app_r by (rewrite length_map; lia).
    rewrite length_map, Nat.sub_diag. reflexivity.
  - rewrite omap_app. simpl. rewrite Hv. simpl.
    pose proof (omap_length_total _ _ Hall1) as Hl.
    rewrite lookup_app_r by lia. rewrite Hl, Nat.sub_diag. reflexivity.
Qed.

Section CutCellsGrowth.

Variable Point3d_lt Point3d_eq : Point3d -> Point3d -> bool.
Variable default_capt : Capt.
Variable weave : vtkPolyData -> vtkIdType -> PStrips -> bool * vtkPolyData * PStrips.

(** What the rest of the loop body does to the mesh when it does not
    fail (lines 1113 to 1796): points and cells are appended, each cell
    with a value of the cell array, and of the cells that were there only
    the polygon's own is touched. The hole merger, whose body is not in
    this translation unit, is taken to do the same. *)
Hypothesis weave_grown : forall pd polyInd pStrips,
  (weave pd polyInd pStrips).1.1 = false ->
  grown (eq polyInd) pd (weave pd polyInd pStrips).1.2.

Let cut_poly := CutCells_poly Point3d_lt Point3d_eq default_capt weave.
Let cut_loop := CutCells_loop Point3d_lt Point3d_eq default_capt weave.

(** One round of the loop that does not fail. *)
Lemma CutCells_poly_grown pd polyInd pStrips :
  0 <= polyInd < GetNumberOfCells pd ->
  (cut_poly pd polyInd pStrips).1.1 = false ->
  grown (eq polyInd) pd (cut_poly pd polyInd pStrips).1.2.
Proof.
  intros Hrange. unfold cut_poly, CutCells_poly.
  destruct (coincident Point3d_lt Point3d_eq pd pStrips) eqn:Hco.
  - intros _. simpl.
    unfold coincident in Hco. apply andb_true_iff in Hco as [Hall Hset].
    destruct (CutCells_poly_coincident Point3d_lt Point3d_eq default_capt weave
                pd polyInd pStrips Hall Hset Hrange)
      as (ring & pd' & Hcut & Hring & _ & Hp & _ & Hc & _ & _ & Ho & _).
    unfold CutCells_poly, coincident in Hcut. rewrite Hall, Hset in Hcut. simpl in Hcut.
    injection Hcut as Hcut. rewrite Hcut.
    apply (reemitted_grown pd pd' polyInd (GetOrigCellId pd polyInd)
                           (ring_coords pd (ps_poly pStrips))); [lia |].
    unfold reemitted. rewrite Hp, Hc, Ho, Hring. unfold ring_coords. rewrite length_map.
    auto.
  - destruct (existsb _ _); [discriminate |]. apply weave_grown.
Qed.

Lemma cut_loop_grown polys : forall pd pd' polys',
  (forall k ps, In (k, ps) polys -> 0 <= k < GetNumberOfCells pd) ->
  cut_loop pd polys = (false, pd', polys') ->
  grown (fun k => In k (map fst polys)) pd pd' /\ map fst polys' = map fst polys.
Proof.
  induction polys as [| [polyInd pStrips] rest IH]; intros pd pd' polys' Hkeys H.
  { simpl in H. injection H as <- <-. split; [apply grown_refl | reflexivity]. }
  unfold cut_loop in H. simpl in H.
  pose proof (CutCells_poly_grown pd polyInd pStrips
                (Hkeys _ _ (or_introl eq_refl))) as Hround.
  unfold cut_poly in Hround.
  destruct (CutCells_poly Point3d_lt Point3d_eq default_capt weave pd polyInd pStrips)
    as [[failed pd1] pStrips1]. simpl in Hround.
  destruct failed; [discriminate |]. specialize (Hround eq_refl).
  destruct (CutCells_loop Point3d_lt Point3d_eq default_capt weave pd1 rest)
    as [[failed' pd2] rest'] eqn:Hl.
  injection H as -> <- <-.
  destruct (IH pd1 pd2 rest') as [Hg Hk].
  - intros k ps Hin. specialize (Hkeys k ps (or_intror Hin)).
    destruct Hround as (_ & _ & _ & Hlen & _). unfold GetNumberOfCells in *. lia.
  - exact Hl.
  - split; [| simpl; rewrite Hk; reflexivity].
    apply (grown_trans (eq polyInd) (fun k => In k (map fst rest)) _ pd pd1 pd2);
      [| | exact Hround | exact Hg]; simpl.
    + intros k <-. left. reflexivity.
    + intros k Hin. right. exact Hin.
Qed.

(** A loop that does not fail has run every round, one after the other. *)
Lemma cut_loop_app before : forall pd x after pd3 polys',
  cut_loop pd (before ++ x :: after) = (false, pd3, polys') ->
  exists pd1 before' pd2 ps2 after',
    cut_loop pd before = (false, pd1, before')
    /\ cut_poly pd1 x.1 x.2 = (false, pd2, ps2)
    /\ cut_loop pd2 after = (false, pd3, after')
    /\ polys' = before' ++ (x.1, ps2) :: after'.
Proof.
  unfold cut_loop, cut_poly.
  induction before as [| [k ps] before IH]; intros pd [polyInd pStrips] after pd3 polys' H.
  - simpl in H. simpl.
    destruct (CutCells_poly Point3d_lt Point3d_eq default_capt weave pd polyInd pStrips)
      as [[failed pd2] ps2] eqn:Hp.
    destruct failed; [discriminate |].
    destruct (CutCells_loop Point3d_lt Point3d_eq default_capt weave pd2 after)
      as [[failed' pd'] after'] eqn:Hl.
    injection H as -> <- <-.
    exists pd, [], pd2, ps2, after'.
    split; [reflexivity |]. split; [exact Hp |]. split; [exact Hl | reflexivity].
  - simpl in H. simpl.
    destruct (CutCells_poly Point3d_lt Point3d_eq default_capt weave pd k ps)
      as [[failed pdk] psk] eqn:Hp.
    destruct failed; [discriminate |].
    destruct (CutCells_loop Point3d_lt Point3d_eq default_capt weave pdk
                            (before ++ (polyInd, pStrips) :: after))
      as [[failed' pd'] rest'] eqn:Hl.
    injection H as -> <- <-.
    destruct (IH pdk (polyInd, pStrips) after pd' rest' Hl)
      as (pd1 & before' & pd2 & ps2 & after' & H1 & H2 & H3 & ->).
    rewrite H1. exists pd1, ((k, psk) :: before'), pd2, ps2, after'.
    split; [reflexivity |]. split; [exact H2 |]. split; [exact H3 | reflexivity].
Qed.

End CutCellsGrowth.

Lemma nth_lookup_Some {A} (l : list A) (i : nat) d x : l !! i = Some x -> nth i l d = x.
Proof. intros H. rewrite nth_lookup, H. reflexivity. Qed.

Lemma grown_GetPoint own pd pd' v :
  grown own pd pd' -> 0 <= v < GetNumberOfPoints pd -> GetPoint pd' v = GetPoint pd v.
Proof.
  intros (Hp & _) Hv. unfold GetNumberOfPoints in Hv. unfold GetPoint.
  destruct (lookup_lt_is_Some_2 (Points pd) (Z.to_nat v)) as [p Hl]; [lia |].
  rewrite (nth_lookup_Some _ _ _ _ Hl), (nth_lookup_Some _ _ _ _ (Hp _ _ Hl)). reflexivity.
Qed.

Lemma grown_GetOrigCellId own pd pd' c :
  grown own pd pd' -> (Z.to_nat c < length (OrigCellIds pd))%nat ->
  GetOrigCellId pd' c = GetOrigCellId pd c.
Proof.
  intros (_ & _ & Ho & _) Hc. unfold GetOrigCellId.
  destruct (lookup_lt_is_Some_2 (OrigCellIds pd) (Z.to_nat c)) as [v Hl]; [lia |].
  rewrite (nth_lookup_Some _ _ _ _ Hl), (nth_lookup_Some _ _ _ _ (Ho _ _ Hl)). reflexivity.
Qed.

Lemma grown_GetCell (own : vtkIdType -> Prop) pd pd' c :
  grown own pd pd' -> ~ own c -> 0 <= c < GetNumberOfCells pd ->
  GetCell pd' c = GetCell pd c.
Proof.
  intros (_ & Hc & _) Hown Hr. unfold GetNumberOfCells in Hr. unfold GetCell.
  destruct (lookup_lt_is_Some_2 (Cells pd) (Z.to_nat c)) as [x Hl]; [lia |].
  rewrite (nth_lookup_Some _ _ _ _ Hl).
  rewrite (nth_lookup_Some _ _ _ x); [reflexivity |].
  apply Hc; [rewrite Z2Nat.id by lia; exact Hown | exact Hl].
Qed.

Lemma grown_points_length own pd pd' :
  grown own pd pd' -> (length (Points pd) <= length (Points pd'))%nat.
Proof.
  intros (Hp & _). destruct (Points pd) as [| p l] eqn:E using rev_ind; [simpl; lia |].
  clear IHl.
  assert (H : (l ++ [p]) !! length l = Some p).
  { rewrite lookup_app_r, Nat.sub_diag by lia. reflexivity. }
  apply Hp, lookup_lt_Some in H. rewrite length_app. simpl. lia.
Qed.

(** C5. A polygon whose strip points are all captured on a vertex (the
    test "A or B" of the source) and whose snapped coordinates are, as a
    set, the coordinates of its vertices, in a run of [CutCells] that
    does not fail. The mesh has one value of the cell array per cell, the
    bundles belong to cells of the mesh, the ring of the polygon to
    points of it, and the rest of the loop body keeps what the mesh holds
    but for the polygon's own cell ([grown]). Then the loop reaches the
    polygon's round with a mesh [pd1]; the round does not fail, leaves
    the bundle as it is, appends one point per ring vertex and exactly
    one cell, a polygon over these new points, with the [OrigCellId] of
    the polygon, and marks the polygon's own cell deleted. In the mesh the
    loop ends with, the own cell is still marked deleted, with its point
    list as it was: it is not cut, and [RemoveDeletedCells] drops it. The
    mesh that [CutCells] returns holds the new cell: a polygon over point
    ids that the mesh handed in did not have, at the ring's coordinates
    in ring order, with the polygon's [OrigCellId] at its place in the
    cell array. *)
Theorem coincident_boundary_reemitted
        (Point3d_lt Point3d_eq : Point3d -> Point3d -> bool) (default_capt : Capt)
        (weave : vtkPolyData -> vtkIdType -> PStrips -> bool * vtkPolyData * PStrips)
        (pd : vtkPolyData) (polyStrips : PolyStripsType)
        (polyInd : vtkIdType) (pStrips : PStrips)
        (out : vtkPolyData) (polyStrips' : PolyStripsType) :
  (forall pd0 p ps, (weave pd0 p ps).1.1 = false -> grown (eq p) pd0 (weave pd0 p ps).1.2) ->
  length (OrigCellIds pd) = length (Cells pd) ->
  (forall k ps, polyStrips !! k = Some ps -> 0 <= k < GetNumberOfCells pd) ->
  polyStrips !! polyInd = Some pStrips ->
  Forall (fun v => 0 <= v < GetNumberOfPoints pd) (ps_poly pStrips) ->
  all_on_vertices (ps_pts pStrips) = true ->
  pset_equal Point3d_eq
             (pset_of_list Point3d_lt (ring_coords pd (ps_poly pStrips)))
             (pset_of_list Point3d_lt (cut_coords (ps_pts pStrips))) = true ->
  CutCells Point3d_lt Point3d_eq default_capt weave pd polyStrips = (false, out, polyStrips') ->
  exists (before after before' polys' : list (Z * PStrips)) (pd1 pd2 pd3 : vtkPolyData)
         (j : nat),
    let coords := ring_coords pd (ps_poly pStrips) in
    let ring := map Z.of_nat (seq (length (Points pd1)) (length (ps_poly pStrips))) in
    entries polyStrips = before ++ (polyInd, pStrips) :: after
    /\ CutCells_loop Point3d_lt Point3d_eq default_capt weave pd before = (false, pd1, before')
    /\ CutCells_poly Point3d_lt Point3d_eq default_capt weave pd1 polyInd pStrips
       = (false, pd2, pStrips)
    /\ reemitted pd1 pd2 polyInd (GetOrigCellId pd polyInd) coords
    /\ CutCells_loop Point3d_lt Point3d_eq default_capt weave pd (entries polyStrips)
       = (false, pd3, polys')
    /\ out = RemoveDeletedCells pd3
    /\ GetCellType pd3 polyInd = VTK_EMPTY_CELL
    /\ GetCellPoints pd3 polyInd = GetCellPoints pd polyInd
    /\ Forall (fun id => GetNumberOfPoints pd <= id) ring
    /\ Cells out !! j = Some (mkCell VTK_POLYGON ring)
    /\ OrigCellIds out !! j = Some (GetOrigCellId pd polyInd)
    /\ map (GetPoint out) ring = coords
    /\ polyStrips' !! polyInd = Some pStrips.
Proof.
  intros Hweave Halign Hkeys Hpoly Hring Hall Hset Hcut.
  unfold CutCells in Hcut.
  destruct (CutCells_loop Point3d_lt Point3d_eq default_capt weave pd (entries polyStrips))
    as [[failed pd3] polys'] eqn:Hloop.
  destruct failed; [discriminate |]. injection Hcut as <- <-.
  assert (Hin : In (polyInd, pStrips) (entries polyStrips))
    by (apply list_elem_of_In, elem_of_entries, Hpoly).
  apply in_split in Hin as (before & after & Hsplit).
  assert (Hrange : forall k ps, In (k, ps) (entries polyStrips) -> 0 <= k < GetNumberOfCells pd).
  { intros k ps H. apply list_elem_of_In, elem_of_entries in H. apply (Hkeys k ps H). }
  pose proof (NoDup_fst_entries polyStrips) as Hnd.
  destruct (cut_loop_grown Point3d_lt Point3d_eq default_capt weave Hweave
              (entries polyStrips) pd pd3 polys' Hrange Hloop) as [_ Hsame].
  rewrite Hsplit in Hloop, Hnd, Hrange.
  rewrite map_app in Hnd. simpl in Hnd.
  apply NoDup_app in Hnd as (_ & Hnb & Hna). apply NoDup_cons in Hna as [Hna _].
  assert (Hnb' : ~ In polyInd (map fst before)).
  { intros H. apply list_elem_of_In in H. apply (Hnb _ H). left. }
  assert (Hna' : ~ In polyInd (map fst after)).
  { intros H. apply Hna, list_elem_of_In, H. }
  destruct (cut_loop_app Point3d_lt Point3d_eq default_capt weave
              before pd (polyInd, pStrips) after pd3 polys' Hloop)
    as (pd1 & before' & pd2 & ps2 & after' & H1 & H2 & H3 & Hpolys).
  simpl in H2.
  (* the rounds before *)
  destruct (cut_loop_grown Point3d_lt Point3d_eq default_capt weave Hweave
              before pd pd1 before') as [G1 _]; [| exact H1 |].
  { intros k ps H. apply (Hrange k ps). apply in_app_iff. left. exact H. }
  assert (Hr : 0 <= polyInd < GetNumberOfCells pd).
  { apply (Hrange polyInd pStrips). apply in_app_iff. right. left. reflexivity. }
  assert (Hlen1 : (length (Cells pd) <= length (Cells pd1))%nat) by apply G1.
  assert (Halign1 : length (OrigCellIds pd1) = length (Cells pd1)) by (apply G1, Halign).
  assert (Hcoords1 : ring_coords pd1 (ps_poly pStrips) = ring_coords pd (ps_poly pStrips)).
  { unfold ring_coords. apply map_ext_in. intros v Hv.
    rewrite List.Forall_forall in Hring. apply (grown_GetPoint _ _ _ _ G1), Hring, Hv. }
  assert (Horig1 : GetOrigCellId pd1 polyInd = GetOrigCellId pd polyInd).
  { apply (grown_GetOrigCellId _ _ _ _ G1). unfold GetNumberOfCells in Hr. lia. }
  (* the round *)
  destruct (CutCells_poly_coincident Point3d_lt Point3d_eq default_capt weave
              pd1 polyInd pStrips Hall)
    as (ring & pd' & Hround & Hringeq & Hfresh & Hp & Hcoords & Hc & Htype & Hpts & Ho & _).
  { rewrite Hcoords1. exact Hset. }
  { unfold GetNumberOfCells in *. lia. }
  rewrite Hround in H2. injection H2 as <- <-.
  rewrite Hcoords1 in Hp, Hcoords. rewrite Horig1 in Ho.
  assert (Hre : reemitted pd1 pd' polyInd (GetOrigCellId pd polyInd)
                          (ring_coords pd (ps_poly pStrips))).
  { unfold reemitted. rewrite Hp, Hc, Ho, Hringeq. unfold ring_coords. rewrite length_map.
    auto. }
  pose proof (reemitted_grown _ _ _ _ _ (proj1 Hr) Hre) as Ground.
  assert (Halign2 : length (OrigCellIds pd') = length (Cells pd')) by (apply Ground, Halign1).
  (* the rounds after *)
  destruct (cut_loop_grown Point3d_lt Point3d_eq default_capt weave Hweave
              after pd' pd3 after') as [G2 _]; [| exact H3 |].
  { intros k ps H.
    assert (0 <= k < GetNumberOfCells pd).
    { apply (Hrange k ps). apply in_app_iff. right. right. exact H. }
    destruct Ground as (_ & _ & _ & Hl & _). unfold GetNumberOfCells in *. lia. }
  assert (Halign3 : length (OrigCellIds pd3) = length (Cells pd3)) by (apply G2, Halign2).
  assert (Hafter : forall k, In k (map fst after) -> 0 <= k < GetNumberOfCells pd).
  { intros k H. apply in_map_iff in H as ([k' ps] & <- & H).
    apply (Hrange k' ps). apply in_app_iff. right. right. exact H. }
  set (new := mkCell VTK_POLYGON ring) in *.
  assert (Hnew2 : Cells pd' !! length (Cells pd1) = Some new).
  { rewrite Hc, lookup_app_r by (rewrite length_alter; lia).
    rewrite length_alter, Nat.sub_diag. reflexivity. }
  assert (Hnew3 : Cells pd3 !! length (Cells pd1) = Some new).
  { destruct G2 as (_ & Hcells & _). apply Hcells; [| exact Hnew2].
    intros H. apply Hafter in H. unfold GetNumberOfCells in H. lia. }
  assert (Hval3 : OrigCellIds pd3 !! length (Cells pd1) = Some (GetOrigCellId pd polyInd)).
  { destruct G2 as (_ & _ & Hvals & _). apply Hvals.
    rewrite Ho, lookup_app_r by lia. rewrite Halign1, Nat.sub_diag. reflexivity. }
  destruct (RemoveDeletedCells_keeps pd3 _ new _ Hnew3 eq_refl Halign3 Hval3)
    as (j & Hj1 & Hj2).
  assert (Hown3 : GetCell pd3 polyInd = GetCell pd' polyInd).
  { apply (grown_GetCell _ _ _ _ G2 Hna').
    destruct Ground as (_ & _ & _ & Hl & _). unfold GetNumberOfCells in *. lia. }
  exists before, after, before', polys', pd1, pd', pd3, j.
  cbv zeta. rewrite <- Hringeq.
  split; [exact Hsplit |]. split; [exact H1 |]. split; [exact Hround |].
  split; [exact Hre |]. split; [reflexivity |]. split; [reflexivity |].
  split; [unfold GetCellType; rewrite Hown3; exact Htype |].
  split.
  { unfold GetCellPoints. rewrite Hown3.
    change (GetCellPoints pd' polyInd = GetCellPoints pd polyInd). rewrite Hpts.
    unfold GetCellPoints. f_equal. apply (grown_GetCell _ _ _ _ G1 Hnb' Hr). }
  split.
  { pose proof (grown_points_length _ _ _ G1) as Hlp.
    eapply Forall_impl; [exact Hfresh |]. simpl. intros id Hid.
    unfold GetNumberOfPoints in *. lia. }
  split; [exact Hj1 |]. split; [exact Hj2 |].
  split.
  { rewrite <- Hcoords. apply map_ext_in. intros id Hid.
    change (GetPoint pd3 id = GetPoint pd' id).
    apply (grown_GetPoint _ _ _ _ G2).
    rewrite Hringeq in Hid. apply in_map_iff in Hid as (i & <- & Hi). apply in_seq in Hi.
    unfold GetNumberOfPoints. rewrite Hp, length_app. unfold ring_coords.
    rewrite length_map. lia. }
  apply elem_of_list_to_map_1.
  - change (NoDup (map fst polys')). rewrite Hsame. apply NoDup_fst_entries.
  - rewrite Hpolys. apply list_elem_of_In, in_app_iff. right. left. reflexivity.
Qed.

(** Polygon 1 of [sample_pair_strips] is cut after polygon 0: its ring
    comes back over the new points 4, 5 and 6. *)
Lemma coincident_boundary_reemitted_witness :
  exists (pd1 : vtkPolyData) (j : nat),
    let ring := map Z.of_nat (seq (length (Points pd1)) 3) in
    Forall (fun id => 4 <= id) ring
    /\ Cells sample_pair_cut.1.2 !! j = Some (mkCell VTK_POLYGON ring)
    /\ OrigCellIds sample_pair_cut.1.2 !! j = Some 1
    /\ map (GetPoint sample_pair_cut.1.2) ring = [sample_C; sample_N; mkPoint3d (-1) 0 0].
Proof.
  destruct (coincident_boundary_reemitted sample_lt sample_eq Capt_Not sample_passing_weave
              sample_shared sample_pair_strips 1
              (mkPStrips [0; 2; 3]
                         (list_to_map [(100, sample_corner 100 0 2);
                                       (101, sample_corner 101 2 3);
                                       (102, sample_corner 102 3 0)])
                         [strip_of 0 [100; 101]; strip_of 1 [101; 102];
                          strip_of 2 [102; 100]])
              sample_pair_cut.1.2 sample_pair_cut.2)
    as (before & after & before' & polys' & pd1 & pd2 & pd3 & j & H).
  - intros pd0 p ps _. apply grown_refl.
  - reflexivity.
  - intros k ps Hk.
    destruct (decide (k = 0)) as [-> | H0]; [vm_compute; split; [discriminate | reflexivity] |].
    destruct (decide (k = 1)) as [-> | H1]; [vm_compute; split; [discriminate | reflexivity] |].
    unfold sample_pair_strips in Hk.
    rewrite lookup_insert_ne, lookup_singleton_ne in Hk by congruence. discriminate.
  - vm_compute. reflexivity.
  - repeat constructor; vm_compute; congruence.
  - vm_compute. reflexivity.
  - vm_compute. reflexivity.
  - vm_compute. reflexivity.
  - cbv zeta in H.
    destruct H as (_ & _ & _ & _ & _ & _ & _ & _ & Hfresh & Hcell & Hval & Hcoords & _).
    exists pd1, j. cbv zeta. change (length (ps_poly _)) with 3%nat in *.
    split; [exact Hfresh |]. split; [exact Hcell |]. split; [exact Hval | exact Hcoords].
Defined.

(** ** The dihedral classifier *)

(** C3. For a polygon [pT] that is congruent to neither polygon of the
    reference pair, [GetLoc] labels [pT] Inside exactly when the angle
    [beta] from [pA.r] to [pT.r] about [pA.e] is greater than the angle
    [alpha] from [pA.r] to [pB.r], and Outside otherwise; nothing else
    changes, for any operator mode. *)
Theorem GetLoc_dihedral
        (GetAngle : Point3d -> Point3d -> Point3d -> float)
        (pp : PolyPair) (pT : PolyAtEdge) (mode : OperModeType) :
  IsCongruent (pA pp) pT = Congr_Not ->
  IsCongruent (pB pp) pT = Congr_Not ->
  let alpha := GetAngle (pr (pA pp)) (pr (pB pp)) (pe (pA pp)) in
  let beta := GetAngle (pr (pA pp)) (pr pT) (pe (pA pp)) in
  let pT' := (GetLoc GetAngle pp pT mode).2 in
  (loc pT' = Loc_Inside <-> (alpha <? beta)%float = true)
  /\ (loc pT' = Loc_Outside <-> (alpha <? beta)%float = false)
  /\ pT' = set_loc pT (loc pT')
  /\ (GetLoc GetAngle pp pT mode).1 = pp.
Proof.
  intros HA HB. unfold GetLoc. rewrite HA, HB. simpl.
  destruct (GetAngle (pr (pA pp)) (pr (pB pp)) (pe (pA pp))
            <? GetAngle (pr (pA pp)) (pr pT) (pe (pA pp)))%float; simpl;
    repeat split; congruence.
Qed.

Lemma GetLoc_dihedral_witness :
  loc (GetLoc sample_angle (mkPolyPair sample_pA sample_pB) sample_pT OPER_UNION).2
  = Loc_Inside.
Proof.
  apply (GetLoc_dihedral sample_angle (mkPolyPair sample_pA sample_pB) sample_pT OPER_UNION).
  - vm_compute. reflexivity.
  - vm_compute. reflexivity.
  - vm_compute. reflexivity.
Defined.

(** ** CombineRegions: which regions are kept *)

Lemma Loc_eqb_eq a b : Loc_eqb a b = true <-> a = b.
Proof. destruct a, b; simpl; split; congruence. Qed.

Lemma In_located_regions want (locs : gmap Z Loc) r :
  In r (located_regions want locs) <-> locs !! r = Some want.
Proof.
  unfold located_regions. rewrite in_map_iff. split.
  - intros [[k l] [<- Hin]]. apply filter_In in Hin as [Hin Hl].
    simpl in *. apply Loc_eqb_eq in Hl. subst l.
    apply list_elem_of_In, elem_of_entries in Hin. exact Hin.
  - intros Hl. exists (r, want). split; [reflexivity |].
    apply filter_In. split.
    + apply list_elem_of_In, elem_of_entries, Hl.
    + apply Loc_eqb_eq. reflexivity.
Qed.

Lemma In_unseen_regions num (locs : gmap Z Loc) r :
  In r (unseen_regions num locs) <-> 0 <= r < num /\ locs !! r = None.
Proof.
  unfold unseen_regions. rewrite filter_In, <- list_elem_of_In, elem_of_seqZ.
  rewrite bool_decide_eq_true. split; intros [H1 H2]; (split; [lia | exact H2]).
Qed.

(** C4. The regions handed to the two connectivity filters, per
    operator: UNION keeps Outside in A and Outside in B, INTERSECTION
    Inside and Inside, DIFFERENCE Outside in A and Inside in B,
    DIFFERENCE2 Inside in A and Outside in B; a region that no contact
    edge located (an id below the region count that [locs] does not
    hold) is kept as well in both meshes under UNION, in A under
    DIFFERENCE and in B under DIFFERENCE2, and nowhere else. *)
Theorem SpecifiedRegions_per_operator
        (locsA locsB : gmap Z Loc) (numA numB : vtkIdType) (r : vtkIdType) :
  let keptA mode := In r (SpecifiedRegions mode locsA locsB numA numB).1 in
  let keptB mode := In r (SpecifiedRegions mode locsA locsB numA numB).2 in
  let unseenA := 0 <= r < numA /\ locsA !! r = None in
  let unseenB := 0 <= r < numB /\ locsB !! r = None in
  (keptA OPER_UNION <-> locsA !! r = Some Loc_Outside \/ unseenA)
  /\ (keptB OPER_UNION <-> locsB !! r = Some Loc_Outside \/ unseenB)
  /\ (keptA OPER_INTERSECTION <-> locsA !! r = Some Loc_Inside)
  /\ (keptB OPER_INTERSECTION <-> locsB !! r = Some Loc_Inside)
  /\ (keptA OPER_DIFFERENCE <-> locsA !! r = Some Loc_Outside \/ unseenA)
  /\ (keptB OPER_DIFFERENCE <-> locsB !! r = Some Loc_Inside)
  /\ (keptA OPER_DIFFERENCE2 <-> locsA !! r = Some Loc_Inside)
  /\ (keptB OPER_DIFFERENCE2 <-> locsB !! r = Some Loc_Outside \/ unseenB).
Proof.
  simpl.
  rewrite !in_app_iff, !In_located_regions, !In_unseen_regions.
  repeat split; intros H; exact H.
Qed.

(** ** MergePoints: which pairs are linked and grouped *)

Lemma Pair_eqb_eq (a b : Pair) : Pair_eqb a b = true <-> a = b.
Proof.
  unfold Pair_eqb. rewrite andb_true_iff, !Z.eqb_eq.
  destruct a, b; simpl. split; [intros [-> ->]; reflexivity | intros H; injection H; auto].
Qed.

Lemma head_In {A} (l : list A) x : head l = Some x -> In x l.
Proof. destruct l; simpl; [discriminate |]. intros H. injection H as ->. left. reflexivity. Qed.

Lemma last_In {A} (l : list A) x : last l = Some x -> In x l.
Proof.
  intros H. apply last_Some in H as [l' ->]. apply in_app_iff. right. left. reflexivity.
Qed.

(** What one splice does: one element leaves [Pairs], both of its pairs
    are in the group afterwards, and the group only grows. *)
Lemma link_Some Pairs : forall group group' Pairs',
  link group Pairs = Some (group', Pairs') ->
  exists next,
    Pairs ≡ₚ next :: Pairs'
    /\ In next.1 group' /\ In next.2 group'
    /\ (forall m, In m group -> In m group')
    /\ (forall m, In m group' -> In m group \/ m = next.1 \/ m = next.2).
Proof.
  induction Pairs as [| next rest IH]; intros group group' Pairs' H; simpl in H;
    [discriminate |].
  destruct (head group) as [gfront |] eqn:Hf; [| discriminate].
  destruct (last group) as [gback |] eqn:Hb; [| discriminate].
  apply head_In in Hf. apply last_In in Hb.
  destruct (Pair_eqb next.1 gfront) eqn:E1.
  { apply Pair_eqb_eq in E1. injection H as <- <-. exists next.
    split; [reflexivity |]. rewrite E1. simpl. intuition. }
  destruct (Pair_eqb next.1 gback) eqn:E2.
  { apply Pair_eqb_eq in E2. injection H as <- <-. exists next.
    split; [reflexivity |]. rewrite E2. setoid_rewrite in_app_iff. simpl. intuition. }
  destruct (Pair_eqb next.2 gfront) eqn:E3.
  { apply Pair_eqb_eq in E3. injection H as <- <-. exists next.
    split; [reflexivity |]. rewrite E3. simpl. intuition. }
  destruct (Pair_eqb next.2 gback) eqn:E4.
  { apply Pair_eqb_eq in E4. injection H as <- <-. exists next.
    split; [reflexivity |]. rewrite E4. setoid_rewrite in_app_iff. simpl. intuition. }
  destruct (link group rest) as [[g' r'] |] eqn:Hl; [| discriminate].
  injection H as <- <-.
  destruct (IH _ _ _ Hl) as (nx & Hperm & H1 & H2 & H3 & H4).
  exists nx. split; [| auto].
  rewrite Hperm. apply perm_swap.
Qed.

(** The inner loop: every element of [Pairs] is either still waiting or
    has both of its pairs in the group. *)
Lemma grow_spec rounds : forall group Pairs group' Pairs',
  grow rounds group Pairs = (group', Pairs') ->
  (forall m, In m group -> In m group')
  /\ (length Pairs' <= length Pairs)%nat
  /\ (forall p, In p Pairs' -> In p Pairs)
  /\ (forall p, In p Pairs -> In p Pairs' \/ (In p.1 group' /\ In p.2 group'))
  /\ (forall m, In m group' ->
        In m group \/ exists p, In p Pairs /\ (m = p.1 \/ m = p.2)).
Proof.
  induction rounds as [| rounds IH]; intros group Pairs group' Pairs' H; simpl in H.
  { injection H as <- <-. repeat split; auto. }
  destruct (link group Pairs) as [[g1 P1] |] eqn:Hl.
  - destruct (link_Some _ _ _ _ Hl) as (next & Hperm & Hn1 & Hn2 & Hsub & Hnew).
    destruct (IH _ _ _ _ H) as (Hg & Hlen & Hin & Hcov & Hold).
    assert (HinP : forall p, In p Pairs <-> p = next \/ In p P1).
    { intros p. rewrite <- !list_elem_of_In, Hperm, elem_of_cons. reflexivity. }
    repeat split.
    + auto.
    + apply Permutation_length in Hperm. simpl in Hperm. lia.
    + intros p Hp. apply HinP. right. auto.
    + intros p Hp. apply HinP in Hp as [-> | Hp]; [right; split; auto | auto].
    + intros m Hm. destruct (Hold m Hm) as [Hm1 | [p [Hp Hmp]]].
      * destruct (Hnew m Hm1) as [? | Hmn]; [left; assumption |].
        right. exists next. split; [apply HinP; left; reflexivity | exact Hmn].
      * right. exists p. split; [apply HinP; right; exact Hp | exact Hmp].
  - injection H as <- <-. repeat split; auto.
Qed.


(** The outer loop hands every element of [Pairs] to some group, with
    both of its pairs, and groups hold nothing but such pairs. *)
Lemma groups_of_spec rounds : forall Pairs,
  (length Pairs <= rounds)%nat ->
  (forall p, In p Pairs ->
     exists g, In g (groups_of rounds Pairs) /\ In p.1 g /\ In p.2 g)
  /\ (forall g m, In g (groups_of rounds Pairs) -> In m g ->
        exists p, In p Pairs /\ (m = p.1 \/ m = p.2)).
Proof.
  induction rounds as [| rounds IH]; intros Pairs Hlen.
  { destruct Pairs; [| simpl in Hlen; lia]. split; [intros p [] | intros g m []]. }
  destruct Pairs as [| first rest]; [split; [intros p [] | intros g m []] |].
  simpl in Hlen. simpl.
  destruct (grow (length rest) [first.1; first.2] rest) as [group rest'] eqn:Hg.
  destruct (grow_spec _ _ _ _ _ Hg) as (Hsub & Hl & Hin & Hcov & Hold).
  destruct (IH rest' ltac:(lia)) as [IH1 IH2].
  split.
  - intros p [<- | Hp].
    + exists group. split; [left; reflexivity |].
      split; apply Hsub; simpl; auto.
    + destruct (Hcov p Hp) as [Hp' | [H1 H2]].
      * destruct (IH1 p Hp') as (g & Hgin & H1 & H2).
        exists g. split; [right; exact Hgin | auto].
      * exists group. split; [left; reflexivity | auto].
  - intros g m [<- | Hgin] Hm.
    + destruct (Hold m Hm) as [Hm0 | [p [Hp Hmp]]].
      * exists first. split; [left; reflexivity |].
        simpl in Hm0. intuition.
      * exists p. split; [right; exact Hp | exact Hmp].
    + destruct (IH2 g m Hgin Hm) as [p [Hp Hmp]].
      exists p. split; [right; apply Hin, Hp | exact Hmp].
Qed.

Lemma In_two_pair_entries pairs a b :
  In (a, b) (two_pair_entries pairs) <-> exists key, In (key, [a; b]) pairs.
Proof.
  unfold two_pair_entries. rewrite <- list_elem_of_In, list_elem_of_omap. split.
  - intros [[key l] [Hin Hl]]. simpl in Hl.
    destruct l as [| x [| y [| z l]]]; try discriminate.
    injection Hl as -> ->. exists key. apply list_elem_of_In, Hin.
  - intros [key Hin]. exists (key, [a; b]). split; [apply list_elem_of_In, Hin | reflexivity].
Qed.





(** ** MergePoints: the groups are the chains of links *)


Lemma occurs_cons x y l :
  occurs x (y :: l) = ((if Pair_eqb x y then 1 else 0) + occurs x l)%nat.
Proof. unfold occurs. simpl. destruct (Pair_eqb x y); reflexivity. Qed.















Lemma occurs_0 x l : ~ In x l -> occurs x l = 0%nat.
Proof.
  induction l as [| y l IH]; intros H; [reflexivity |].
  rewrite occurs_cons, IH by (intros H'; apply H; right; exact H').
  destruct (Pair_eqb x y) eqn:E; [| reflexivity].
  apply Pair_eqb_eq in E. subst y. exfalso. apply H. left. reflexivity.
Qed.


(** ** Groups are chains *)








(** ** Every pair is an end of two links at most *)









(** With two polygons the two pairs under [Q] are merged. *)
Lemma two_pairs_merged :
  Cells (MergePoints sample_lt sample_find sample_contact sample_fan2 sample_fan_strips)
  = [mkCell VTK_POLYGON [0; 2; 4]; mkCell VTK_POLYGON [0; 3; 4]].
Proof. vm_compute. reflexivity. Qed.



Lemma chain_merged :
  Cells (MergePoints_at sample_lt sample_find sample_fan_chain sample_contact sample_fan_chain 0 ∅)
  = [mkCell VTK_POLYGON [0; 3; 5]; mkCell VTK_POLYGON [0; 6; 7]; mkCell VTK_POLYGON [0; 8; 4]].
Proof. vm_compute. reflexivity. Qed.

(** ** Strip assembly *)

Lemma unordered_swap a b : unordered (a, b) = unordered (b, a).
Proof. unfold unordered; simpl. f_equal; lia. Qed.

Lemma unordered_ends_at (l m : Pair) ind :
  unordered l = unordered m -> ends_at ind l -> ends_at ind m.
Proof.
  destruct l as [a b], m as [c d]. unfold unordered, ends_at; simpl.
  intros H. injection H as H1 H2. lia.
Qed.

Lemma take_line_Some ind lines other rest :
  take_line ind lines = Some (other, rest) ->
  exists l, lines ≡ₚ l :: rest
            /\ unordered l = unordered (ind, other)
            /\ length lines = S (length rest).
Proof.
  revert other rest. induction lines as [| [f g] lines IH]; intros other rest H.
  - discriminate.
  - simpl in H. destruct (Z.eqb_spec f ind) as [-> | Hf].
    { injection H as <- <-. exists (ind, g). auto. }
    destruct (Z.eqb_spec g ind) as [-> | Hg].
    { injection H as <- <-. exists (f, ind). split; [reflexivity |].
      split; [apply unordered_swap | reflexivity]. }
    destruct (take_line ind lines) as [[o r] |] eqn:E; simpl in H; [| discriminate].
    injection H as <- <-.
    destruct (IH o r eq_refl) as (l & Hp & Hu & Hn).
    exists l. split; [| split; [exact Hu | simpl; lia]].
    rewrite Hp. apply Permutation_swap.
Qed.

Lemma take_line_None ind lines :
  take_line ind lines = None -> Forall (fun l => ~ ends_at ind l) lines.
Proof.
  induction lines as [| [f g] lines IH]; intros H; [constructor |].
  simpl in H. destruct (Z.eqb_spec f ind) as [-> | Hf]; [discriminate |].
  destruct (Z.eqb_spec g ind) as [-> | Hg]; [discriminate |].
  destruct (take_line ind lines) as [[o r] |] eqn:E; simpl in H; [discriminate |].
  constructor; [| apply IH; reflexivity].
  unfold ends_at; simpl. tauto.
Qed.

Lemma segments_snoc strip r p :
  last strip = Some r ->
  segments (strip ++ [p]) = segments strip ++ [(r_ind r, r_ind p)].
Proof.
  intros H. apply last_Some in H as [s ->].
  induction s as [| a s IH]; [reflexivity |].
  destruct s as [| b s]; [reflexivity |].
  change (segments (((a :: b :: s) ++ [r]) ++ [p]))
    with ((r_ind a, r_ind b) :: segments (((b :: s) ++ [r]) ++ [p])).
  rewrite IH. reflexivity.
Qed.

Lemma segments_cons p strip l :
  head strip = Some l ->
  segments (p :: strip) = (r_ind p, r_ind l) :: segments strip.
Proof. destruct strip as [| q s]; intros H; [discriminate |]. injection H as ->. reflexivity. Qed.

Section StripAssemblyFacts.

Variable pts : StripPtsType.

Lemma inner_free_snoc strip r p :
  inner_free pts strip -> last strip = Some r -> capture_at pts r = Some Capt_Not ->
  inner_free pts (strip ++ [p]).
Proof.
  intros H Hr Hc i q Hq Hi Hn. rewrite length_app in Hn. simpl in Hn.
  destruct (decide (S i < length strip)%nat) as [Hlt | Hge].
  - rewrite lookup_app_l in Hq by lia. eauto.
  - rewrite lookup_app_l in Hq by lia.
    rewrite last_lookup in Hr.
    replace (pred (length strip)) with i in Hr by lia.
    congruence.
Qed.

Lemma inner_free_cons strip l p :
  inner_free pts strip -> head strip = Some l -> capture_at pts l = Some Capt_Not ->
  inner_free pts (p :: strip).
Proof.
  intros H Hl Hc i q Hq Hi Hn. simpl in Hn.
  destruct i as [| j]; [lia |]. simpl in Hq.
  destruct j as [| j].
  - destruct strip; simpl in *; congruence.
  - apply (H (S j) q Hq); lia.
Qed.

Lemma FindRight_true strip id lines strip' lines' :
  FindRight pts strip id lines = Some (true, strip', lines') ->
  exists right other l,
    last strip = Some right
    /\ capture_at pts right = Some Capt_Not
    /\ strip' = strip ++ [StripPtR_of other id]
    /\ lines ≡ₚ l :: lines'
    /\ unordered l = unordered (r_ind right, other)
    /\ length lines = S (length lines').
Proof.
  unfold FindRight, capture_at. intros H.
  destruct (last strip) as [right |]; simpl in H; [| discriminate].
  destruct (pts !! r_ind right) as [sp |] eqn:Hsp; simpl in H; [| discriminate].
  destruct (Capt_eqb (sp_capt sp) Capt_Not) eqn:Hc; [| discriminate].
  apply Capt_eqb_eq in Hc.
  destruct (take_line (r_ind right) lines) as [[o r] |] eqn:E; [| discriminate].
  injection H as <- <-.
  destruct (take_line_Some _ _ _ _ E) as (l & Hp & Hu & Hn).
  exists right, o, l. rewrite Hsp. simpl. rewrite Hc. auto 10.
Qed.

Lemma FindLeft_true strip id lines strip' lines' :
  FindLeft pts strip id lines = Some (true, strip', lines') ->
  exists left other l,
    head strip = Some left
    /\ capture_at pts left = Some Capt_Not
    /\ strip' = StripPtR_of other id :: strip
    /\ lines ≡ₚ l :: lines'
    /\ unordered l = unordered (other, r_ind left)
    /\ length lines = S (length lines').
Proof.
  unfold FindLeft, capture_at. intros H.
  destruct (head strip) as [left |]; simpl in H; [| discriminate].
  destruct (pts !! r_ind left) as [sp |] eqn:Hsp; simpl in H; [| discriminate].
  destruct (Capt_eqb (sp_capt sp) Capt_Not) eqn:Hc; [| discriminate].
  apply Capt_eqb_eq in Hc.
  destruct (take_line (r_ind left) lines) as [[o r] |] eqn:E; [| discriminate].
  injection H as <- <-.
  destruct (take_line_Some _ _ _ _ E) as (l & Hp & Hu & Hn).
  exists left, o, l. rewrite Hsp. simpl. rewrite Hc, Hu, unordered_swap. auto 10.
Qed.

Lemma FindRight_false strip id lines a b :
  FindRight pts strip id lines = Some (false, a, b) ->
  exists right, last strip = Some right /\ stops pts right lines.
Proof.
  unfold FindRight, stops, capture_at. intros H.
  destruct (last strip) as [right |]; simpl in H; [| discriminate].
  destruct (pts !! r_ind right) as [sp |] eqn:Hsp; simpl in H; [| discriminate].
  exists right. split; [reflexivity |]. split; [rewrite Hsp; eauto |]. rewrite Hsp. simpl.
  destruct (Capt_eqb (sp_capt sp) Capt_Not) eqn:Hc.
  - destruct (take_line (r_ind right) lines) as [[o r] |] eqn:E; [discriminate |].
    right. apply take_line_None, E.
  - left. intros Heq. injection Heq as Heq. rewrite Heq in Hc. discriminate.
Qed.

Lemma FindLeft_false strip id lines a b :
  FindLeft pts strip id lines = Some (false, a, b) ->
  exists left, head strip = Some left /\ stops pts left lines.
Proof.
  unfold FindLeft, stops, capture_at. intros H.
  destruct (head strip) as [left |]; simpl in H; [| discriminate].
  destruct (pts !! r_ind left) as [sp |] eqn:Hsp; simpl in H; [| discriminate].
  exists left. split; [reflexivity |]. split; [rewrite Hsp; eauto |]. rewrite Hsp. simpl.
  destruct (Capt_eqb (sp_capt sp) Capt_Not) eqn:Hc.
  - destruct (take_line (r_ind left) lines) as [[o r] |] eqn:E; [discriminate |].
    right. apply take_line_None, E.
  - left. intros Heq. injection Heq as Heq. rewrite Heq in Hc. discriminate.
Qed.

Lemma growing_right K id strip lines strip' lines' :
  FindRight pts strip id lines = Some (true, strip', lines') ->
  growing pts K id strip lines -> growing pts K id strip' lines'.
Proof.
  intros H (HK & Hf & Hid & Hn).
  destruct (FindRight_true _ _ _ _ _ H) as (r & o & l & Hr & Hc & -> & Hp & Hu & _).
  repeat split.
  - rewrite (segments_snoc _ _ _ Hr), map_app. simpl.
    rewrite <- HK, Hp. simpl. rewrite Hu.
    change (unordered (r_ind r, r_ind (StripPtR_of o id))) with (unordered (r_ind r, o)).
    rewrite <- app_assoc. simpl. reflexivity.
  - eapply inner_free_snoc; eauto.
  - apply Forall_app. split; [exact Hid | repeat constructor].
  - rewrite length_app. simpl. lia.
Qed.

Lemma growing_left K id strip lines strip' lines' :
  FindLeft pts strip id lines = Some (true, strip', lines') ->
  growing pts K id strip lines -> growing pts K id strip' lines'.
Proof.
  intros H (HK & Hf & Hid & Hn).
  destruct (FindLeft_true _ _ _ _ _ H) as (r & o & l & Hr & Hc & -> & Hp & Hu & _).
  repeat split.
  - rewrite (segments_cons _ _ _ Hr). simpl.
    rewrite <- HK, Hp. simpl. rewrite Hu.
    rewrite <- Permutation_middle. reflexivity.
  - eapply inner_free_cons; eauto.
  - constructor; [reflexivity | exact Hid].
  - simpl. lia.
Qed.

Lemma extend_right_spec K id rounds strip lines strip' lines' :
  extend_right pts rounds strip id lines = Some (strip', lines') ->
  (length lines <= rounds)%nat ->
  growing pts K id strip lines ->
  growing pts K id strip' lines'
  /\ (length lines' <= length lines)%nat
  /\ head strip' = head strip
  /\ (exists right, last strip' = Some right /\ stops pts right lines')
  /\ (forall e, stops pts e lines -> stops pts e lines').
Proof.
  revert strip lines. induction rounds as [| k IH]; intros strip lines H Hn Hg; simpl in H.
  - destruct (FindRight pts strip id lines) as [[[[|] a] b] |] eqn:E; [| | discriminate].
    + apply FindRight_true in E as (_ & _ & _ & _ & _ & _ & _ & _ & Hl). lia.
    + injection H as <- <-.
      split; [exact Hg | split; [lia | split; [reflexivity | split; [| auto]]]].
      eapply FindRight_false, E.
  - destruct (FindRight pts strip id lines) as [[[[|] a] b] |] eqn:E; [| | discriminate].
    + pose proof (growing_right K _ _ _ _ _ E Hg) as Hg'.
      destruct (FindRight_true _ _ _ _ _ E) as (r & o & l & Hr & Hc & -> & Hp & Hu & Hl).
      destruct (IH _ _ H ltac:(lia) Hg') as (H1 & H2 & H3 & H4 & H5).
      split; [exact H1 | split; [lia | split; [| split; [exact H4 |]]]].
      * rewrite H3. destruct strip; [discriminate | reflexivity].
      * intros e He. apply H5. destruct He as [Hin [He | He]]; (split; [exact Hin |]);
          [left; exact He | right].
        rewrite Hp in He. inversion He; assumption.
    + injection H as <- <-.
      split; [exact Hg | split; [lia | split; [reflexivity | split; [| auto]]]].
      eapply FindRight_false, E.
Qed.

Lemma extend_left_spec K id rounds strip lines strip' lines' :
  extend_left pts rounds strip id lines = Some (strip', lines') ->
  (length lines <= rounds)%nat ->
  growing pts K id strip lines ->
  growing pts K id strip' lines'
  /\ (length lines' <= length lines)%nat
  /\ last strip' = last strip
  /\ (exists left, head strip' = Some left /\ stops pts left lines')
  /\ (forall e, stops pts e lines -> stops pts e lines').
Proof.
  revert strip lines. induction rounds as [| k IH]; intros strip lines H Hn Hg; simpl in H.
  - destruct (FindLeft pts strip id lines) as [[[[|] a] b] |] eqn:E; [| | discriminate].
    + apply FindLeft_true in E as (_ & _ & _ & _ & _ & _ & _ & _ & Hl). lia.
    + injection H as <- <-.
      split; [exact Hg | split; [lia | split; [reflexivity | split; [| auto]]]].
      eapply FindLeft_false, E.
  - destruct (FindLeft pts strip id lines) as [[[[|] a] b] |] eqn:E; [| | discriminate].
    + pose proof (growing_left K _ _ _ _ _ E Hg) as Hg'.
      destruct (FindLeft_true _ _ _ _ _ E) as (r & o & l & Hr & Hc & -> & Hp & Hu & Hl).
      destruct (IH _ _ H ltac:(lia) Hg') as (H1 & H2 & H3 & H4 & H5).
      split; [exact H1 | split; [lia | split; [| split; [exact H4 |]]]].
      * rewrite H3. destruct strip; [discriminate | reflexivity].
      * intros e He. apply H5. destruct He as [Hin [He | He]]; (split; [exact Hin |]);
          [left; exact He | right].
        rewrite Hp in He. inversion He; assumption.
    + injection H as <- <-.
      split; [exact Hg | split; [lia | split; [reflexivity | split; [| auto]]]].
      eapply FindLeft_false, E.
Qed.

End StripAssemblyFacts.

Lemma segments_ends_elsewhere (lines : list Pair) (strip : StripType) ind :
  Forall (fun l => ~ ends_at ind l) lines ->
  (forall sg, In sg (segments strip) -> In (unordered sg) (map unordered lines)) ->
  Forall (fun l => ~ ends_at ind l) (segments strip).
Proof.
  intros Hl Hs. apply List.Forall_forall. intros sg Hsg Hends.
  apply Hs, in_map_iff in Hsg as (l & Hu & Hin).
  rewrite List.Forall_forall in Hl. apply (Hl l Hin).
  eapply unordered_ends_at; [symmetry; exact Hu | exact Hends].
Qed.

Lemma assemble_spec pts rounds lines id (strips : list (list StripPtR)) :
  assemble pts rounds lines id = Some strips ->
  (length lines <= rounds)%nat ->
  concat (map (fun s => map unordered (segments s)) strips) ≡ₚ map unordered lines
  /\ (forall (k : nat) strip, strips !! k = Some strip ->
        (2 <= length strip)%nat
        /\ Forall (fun p => r_strip p = (id + k)%nat) strip
        /\ inner_free pts strip)
  /\ (forall (k k' : nat) strip strip' e,
        strips !! k = Some strip -> strips !! k' = Some strip' -> (k < k')%nat ->
        head strip = Some e \/ last strip = Some e ->
        capture_at pts e = Some Capt_Not ->
        Forall (fun l => ~ ends_at (r_ind e) l) (segments strip'))
  /\ Forall (strip_in pts) strips.
Proof.
  revert lines id strips. induction rounds as [| n IH]; intros lines id strips H Hn.
  - assert (lines = []) as -> by (destruct lines; [reflexivity | simpl in Hn; lia]).
    simpl in H. injection H as <-. split; [reflexivity | split; [| split; [| constructor]]].
    + intros k strip Hk. rewrite lookup_nil in Hk. discriminate.
    + intros k k' strip strip' e Hk. rewrite lookup_nil in Hk. discriminate.
  - simpl in H. destruct (last lines) as [[f g] |] eqn:El.
    2: { apply last_None in El as ->. injection H as <-.
         split; [reflexivity | split; [| split; [| constructor]]].
         - intros k strip Hk. rewrite lookup_nil in Hk. discriminate.
         - intros k k' strip strip' e Hk. rewrite lookup_nil in Hk. discriminate. }
    apply last_Some in El as [rest ->]. rewrite removelast_last in H.
    rewrite length_app in Hn. simpl in Hn.
    set (strip0 := [StripPtR_of f id; StripPtR_of g id]) in H.
    destruct (extend_right pts (length rest) strip0 id rest) as [[s1 l1] |] eqn:E1;
      simpl in H; [| discriminate].
    destruct (extend_left pts (length l1) s1 id l1) as [[s2 l2] |] eqn:E2;
      simpl in H; [| discriminate].
    destruct (assemble pts n l2 (S id)) as [later |] eqn:E3; simpl in H; [| discriminate].
    injection H as <-.
    assert (Hg0 : growing pts (map unordered (rest ++ [(f, g)])) id strip0 rest).
    { repeat split.
      - rewrite map_app. simpl. apply Permutation_cons_append.
      - intros i p _ Hi Hlen. simpl in Hlen. lia.
      - repeat constructor.
      - simpl. lia. }
    destruct (extend_right_spec pts _ _ _ _ _ _ _ E1 (le_n _) Hg0)
      as (Hg1 & Hn1 & _ & (r & Hr & Hsr) & _).
    destruct (extend_left_spec pts _ _ _ _ _ _ _ E2 (le_n _) Hg1)
      as (Hg2 & Hn2 & Hlast & (l & Hl & Hsl) & Hmono).
    apply Hmono in Hsr. rewrite <- Hlast in Hr.
    destruct (IH l2 (S id) later E3 ltac:(lia)) as (IH1 & IH2 & IH3 & IH4).
    destruct Hg2 as (HK & Hfree & Hids & Hlen).
    destruct Hsl as [Hlin Hsl], Hsr as [Hrin Hsr].
    split; [| split; [| split]].
    + simpl. rewrite IH1. exact HK.
    + intros [| k] strip Hk; simpl in Hk.
      * injection Hk as <-. rewrite Nat.add_0_r. auto.
      * replace (id + S k)%nat with (S id + k)%nat by lia. apply IH2, Hk.
    + intros [| k] [| k'] strip strip' e Hk Hk' Hlt Hend Hc; try lia; simpl in Hk, Hk'.
      * injection Hk as <-.
        assert (Hstop : Forall (fun l => ~ ends_at (r_ind e) l) l2).
        { destruct Hend as [He | He].
          - rewrite Hl in He. injection He as <-. destruct Hsl as [Hs | Hs]; [contradiction | exact Hs].
          - rewrite Hr in He. injection He as <-. destruct Hsr as [Hs | Hs]; [contradiction | exact Hs]. }
        apply (segments_ends_elsewhere l2); [exact Hstop |].
        intros sg Hsg. apply (Permutation_in _ IH1).
        apply in_concat. exists (map unordered (segments strip')). split.
        -- apply in_map_iff. exists strip'. split; [reflexivity |].
           apply list_elem_of_In, list_elem_of_lookup. eauto.
        -- apply in_map, Hsg.
      * apply (IH3 k k' strip strip' e); auto. lia.
    + constructor; [| exact IH4].
      apply Forall_lookup. intros i p Hp.
      destruct (decide (i = 0%nat)) as [-> | Hi].
      { rewrite <- head_lookup, Hl in Hp. injection Hp as <-. exact Hlin. }
      destruct (decide (S i = length s2)) as [Hlast' | Hmid].
      { rewrite last_lookup in Hr. replace (pred (length s2)) with i in Hr by lia.
        rewrite Hr in Hp. injection Hp as <-. exact Hrin. }
      apply lookup_lt_Some in Hp as Hlt.
      assert (Hc : capture_at pts p = Some Capt_Not) by (apply (Hfree i p Hp); lia).
      unfold capture_at in Hc. apply fmap_Some in Hc as (sp & -> & _). eauto.
Qed.

Lemma take_line_in pts ind lines other rest :
  take_line ind lines = Some (other, rest) -> lines_in pts lines ->
  is_Some (pts !! other) /\ lines_in pts rest.
Proof.
  revert other rest. induction lines as [| [f g] lines IH]; intros other rest H Hin.
  - discriminate.
  - inversion Hin as [| ? ? [Hf Hg] Hrest]; subst. simpl in H, Hf, Hg.
    destruct (f =? ind). { injection H as <- <-. auto. }
    destruct (g =? ind). { injection H as <- <-. auto. }
    destruct (take_line ind lines) as [[o r] |] eqn:E; simpl in H; [| discriminate].
    injection H as <- <-. destruct (IH o r eq_refl Hrest) as [Ho Hr].
    split; [exact Ho |]. constructor; auto.
Qed.

Lemma FindRight_total pts strip id lines :
  strip <> [] -> strip_in pts strip -> lines_in pts lines ->
  exists found strip' lines',
    FindRight pts strip id lines = Some (found, strip', lines')
    /\ strip' <> [] /\ strip_in pts strip' /\ lines_in pts lines'.
Proof.
  intros Hne Hs Hl. unfold FindRight.
  destruct (last strip) as [r |] eqn:Er; [| apply last_None in Er; contradiction].
  assert (Hr : is_Some (pts !! r_ind r)).
  { apply last_Some in Er as [s ->]. apply Forall_app in Hs as [_ Hs].
    inversion Hs; assumption. }
  destruct Hr as [sp Hsp]. simpl. rewrite Hsp. simpl.
  destruct (Capt_eqb (sp_capt sp) Capt_Not); [| eauto 10].
  destruct (take_line (r_ind r) lines) as [[o rest] |] eqn:E; [| eauto 10].
  destruct (take_line_in pts _ _ _ _ E Hl) as [Ho Hrest].
  exists true, (strip ++ [StripPtR_of o id]), rest. split; [reflexivity |].
  split; [destruct strip; discriminate |]. split; [| exact Hrest].
  apply Forall_app. split; [exact Hs | repeat constructor; exact Ho].
Qed.

Lemma FindLeft_total pts strip id lines :
  strip <> [] -> strip_in pts strip -> lines_in pts lines ->
  exists found strip' lines',
    FindLeft pts strip id lines = Some (found, strip', lines')
    /\ strip' <> [] /\ strip_in pts strip' /\ lines_in pts lines'.
Proof.
  intros Hne Hs Hl. unfold FindLeft.
  destruct strip as [| l strip]; [contradiction |]. simpl.
  inversion Hs as [| ? ? [sp Hsp] Hrest']; subst.
  rewrite Hsp. simpl.
  destruct (Capt_eqb (sp_capt sp) Capt_Not); [| eauto 10].
  destruct (take_line (r_ind l) lines) as [[o rest] |] eqn:E; [| eauto 10].
  destruct (take_line_in pts _ _ _ _ E Hl) as [Ho Hrest].
  exists true, (StripPtR_of o id :: l :: strip), rest. split; [reflexivity |].
  split; [discriminate |]. split; [| exact Hrest].
  constructor; [exact Ho | exact Hs].
Qed.

Lemma extend_right_total pts rounds strip id lines :
  strip <> [] -> strip_in pts strip -> lines_in pts lines ->
  exists strip' lines',
    extend_right pts rounds strip id lines = Some (strip', lines')
    /\ strip' <> [] /\ strip_in pts strip' /\ lines_in pts lines'.
Proof.
  revert strip lines. induction rounds as [| k IH]; intros strip lines Hne Hs Hl; simpl;
    destruct (FindRight_total pts strip id lines Hne Hs Hl)
      as ([|] & s' & l' & -> & Hne' & Hs' & Hl'); eauto 10.
Qed.

Lemma extend_left_total pts rounds strip id lines :
  strip <> [] -> strip_in pts strip -> lines_in pts lines ->
  exists strip' lines',
    extend_left pts rounds strip id lines = Some (strip', lines')
    /\ strip' <> [] /\ strip_in pts strip' /\ lines_in pts lines'.
Proof.
  revert strip lines. induction rounds as [| k IH]; intros strip lines Hne Hs Hl; simpl;
    destruct (FindLeft_total pts strip id lines Hne Hs Hl)
      as ([|] & s' & l' & -> & Hne' & Hs' & Hl'); eauto 10.
Qed.

Lemma assemble_total pts rounds lines id :
  lines_in pts lines -> is_Some (assemble pts rounds lines id).
Proof.
  revert lines id. induction rounds as [| k IH]; intros lines id Hl; simpl; [eauto |].
  destruct (last lines) as [[f g] |] eqn:El; [| eauto].
  apply last_Some in El as [rest ->]. rewrite removelast_last.
  apply Forall_app in Hl as [Hrest Hfg].
  inversion Hfg as [| ? ? [Hf Hg] _]; subst. simpl in Hf, Hg.
  destruct (extend_right_total pts (length rest) [StripPtR_of f id; StripPtR_of g id] id rest)
    as (s1 & l1 & -> & Hne1 & Hs1 & Hl1); [discriminate | repeat constructor; assumption | exact Hrest |].
  simpl.
  destruct (extend_left_total pts (length l1) s1 id l1 Hne1 Hs1 Hl1)
    as (s2 & l2 & -> & Hne2 & Hs2 & Hl2).
  simpl. destruct (IH l2 (S id) Hl2) as [later ->]. simpl. eauto.
Qed.

Lemma segments_in pts (strip : StripType) :
  strip_in pts strip -> lines_in pts (segments strip).
Proof.
  intros Hs. apply List.Forall_forall. intros [a b] Hab. unfold segments in Hab.
  pose proof (in_combine_l _ _ _ _ Hab) as Ha.
  pose proof (in_combine_r _ _ _ _ Hab) as Hb.
  assert (Hb' : In b (map r_ind strip)) by (destruct strip; [destruct Hb | right; exact Hb]).
  unfold strip_in in Hs. rewrite List.Forall_forall in Hs.
  apply in_map_iff in Ha as (p & <- & Hp). apply in_map_iff in Hb' as (q & <- & Hq).
  simpl. auto.
Qed.

Lemma unordered_in (pts : StripPtsType) (l m : Pair) :
  unordered l = unordered m ->
  is_Some (pts !! l.1) /\ is_Some (pts !! l.2) ->
  is_Some (pts !! m.1) /\ is_Some (pts !! m.2).
Proof.
  destruct l as [a b], m as [c d]. unfold unordered. simpl.
  intros H [Ha Hb]. injection H as H1 H2.
  assert ((c = a /\ d = b) \/ (c = b /\ d = a)) as [[-> ->] | [-> ->]] by lia; auto.
Qed.

(** X1. Strip assembly uses every line of the polygon exactly once: read
    as unordered pairs of contact points, the consecutive pairs of all the
    strips together are a rearrangement of the lines handed in. *)
Theorem AssembleStrips_uses_every_line_once
  (cl : vtkPolyData) (pts : StripPtsType) (lines : IdsType) (strips : StripsType) :
  AssembleStrips cl pts lines = Some strips ->
  map unordered (concat (map segments strips)) ≡ₚ map unordered (assembly_lines cl lines).
Proof.
  unfold AssembleStrips. intros H.
  destruct (assemble_spec pts _ _ _ _ H (le_n _)) as (Hperm & _).
  rewrite <- Hperm. clear. induction strips as [| s strips IH]; [reflexivity |].
  simpl. rewrite map_app, IH. reflexivity.
Qed.

(** X2. Shape of the assembled strips: the k-th strip has at least two
    elements, each of them carries the strip number k, and every element
    between its two ends is a contact point whose capture is [Not]. *)
Theorem AssembleStrips_inner_points_free
  (cl : vtkPolyData) (pts : StripPtsType) (lines : IdsType) (strips : StripsType)
  (k : nat) (strip : StripType) :
  AssembleStrips cl pts lines = Some strips ->
  strips !! k = Some strip ->
  (2 <= length strip)%nat
  /\ Forall (fun p => r_strip p = k) strip
  /\ inner_free pts strip.
Proof.
  unfold AssembleStrips. intros H Hk.
  destruct (assemble_spec pts _ _ _ _ H (le_n _)) as (_ & Hshape & _).
  apply (Hshape k strip Hk).
Qed.

(** X3. A strip is grown as far as it can be: if one of its ends is a
    point with capture [Not], no line of a strip assembled after it ends
    at that point. *)
Theorem AssembleStrips_stops_only_when_stuck
  (cl : vtkPolyData) (pts : StripPtsType) (lines : IdsType) (strips : StripsType)
  (k k' : nat) (strip strip' : StripType) (e : StripPtR) :
  AssembleStrips cl pts lines = Some strips ->
  strips !! k = Some strip -> strips !! k' = Some strip' -> (k < k')%nat ->
  head strip = Some e \/ last strip = Some e ->
  capture_at pts e = Some Capt_Not ->
  Forall (fun l => ~ ends_at (r_ind e) l) (segments strip').
Proof.
  unfold AssembleStrips. intros H Hk Hk' Hlt Hend Hc.
  destruct (assemble_spec pts _ _ _ _ H (le_n _)) as (_ & _ & Hmax & _).
  apply (Hmax k k' strip strip' e); assumption.
Qed.

(** X4. Strip assembly ends without an exception exactly when both ends of
    every line have a strip point: each element of a strip is looked up
    with [pts.at] before the strip is stored. *)
Theorem AssembleStrips_returns_iff_located
  (cl : vtkPolyData) (pts : StripPtsType) (lines : IdsType) :
  is_Some (AssembleStrips cl pts lines) <-> lines_in pts (assembly_lines cl lines).
Proof.
  unfold AssembleStrips. split.
  - intros [strips H].
    destruct (assemble_spec pts _ _ _ _ H (le_n _)) as (Hperm & _ & _ & Hin).
    apply List.Forall_forall. intros l Hl.
    assert (Hu : In (unordered l) (map unordered (assembly_lines cl lines)))
      by (apply in_map, Hl).
    apply (Permutation_in _ (Permutation_sym Hperm)) in Hu.
    apply in_concat in Hu as (x & Hx & Hu).
    apply in_map_iff in Hx as (strip & <- & Hstrip).
    apply in_map_iff in Hu as (sg & Hsg & Hseg).
    rewrite List.Forall_forall in Hin.
    pose proof (segments_in pts strip (Hin strip Hstrip)) as Hsegs.
    unfold lines_in in Hsegs. rewrite List.Forall_forall in Hsegs.
    apply (unordered_in pts sg l Hsg), Hsegs, Hseg.
  - apply assemble_total.
Qed.

Lemma AssembleStrips_uses_every_line_once_witness :
  map unordered (concat (map segments (ps_strips sample_chain)))
  ≡ₚ map unordered (assembly_lines sample_ring [0; 1; 3]).
Proof.
  apply (AssembleStrips_uses_every_line_once sample_ring sample_chain_pts).
  vm_compute. reflexivity.
Defined.

Lemma AssembleStrips_inner_points_free_witness :
  le 2%nat (length (strip_of 1 [0; 1; 2]))
  /\ Forall (fun p => r_strip p = 1%nat) (strip_of 1 [0; 1; 2])
  /\ inner_free sample_chain_pts (strip_of 1 [0; 1; 2]).
Proof.
  apply (AssembleStrips_inner_points_free sample_ring sample_chain_pts [0; 1; 3]
           (ps_strips sample_chain) 1).
  - vm_compute. reflexivity.
  - reflexivity.
Defined.

Lemma AssembleStrips_stops_only_when_stuck_witness :
  Forall (fun l => ~ ends_at 3 l) (segments (strip_of 1 [0; 1; 2])).
Proof.
  apply (AssembleStrips_stops_only_when_stuck sample_ring sample_chain_pts [0; 1; 3]
           (ps_strips sample_chain) 0 1 (strip_of 0 [3; 4]) (strip_of 1 [0; 1; 2])
           (StripPtR_of 3 0)).
  - vm_compute. reflexivity.
  - reflexivity.
  - reflexivity.
  - lia.
  - left. reflexivity.
  - vm_compute. reflexivity.
Defined.

(** ** CompleteStrips *)

Section CompleteStripsFacts.

Variable dflt : StripPt.

Lemma padded_refl pts : padded dflt pts pts.
Proof. intros k. left. reflexivity. Qed.

Lemma padded_trans a b c : padded dflt a b -> padded dflt b c -> padded dflt a c.
Proof.
  intros H1 H2 k. destruct (H1 k) as [E1 | [E1 E1']], (H2 k) as [E2 | [E2 E2']].
  - left. congruence.
  - right. split; congruence.
  - right. split; congruence.
  - congruence.
Qed.

Lemma padded_default a b k :
  padded dflt a b -> default dflt (b !! k) = default dflt (a !! k).
Proof. intros H. destruct (H k) as [-> | [-> ->]]; reflexivity. Qed.

Lemma padded_is_Some a b k : padded dflt a b -> is_Some (a !! k) -> is_Some (b !! k).
Proof. intros H [x Hx]. destruct (H k) as [-> | [E _]]; [eauto | congruence]. Qed.

Lemma pts_index_spec pts k :
  exists pts',
    pts_index dflt pts k = (default dflt (pts !! k), pts')
    /\ padded dflt pts pts'
    /\ is_Some (pts' !! k)
    /\ (is_Some (pts !! k) -> pts' = pts).
Proof.
  unfold pts_index. destruct (pts !! k) as [sp |] eqn:E.
  - exists pts. repeat split; [apply padded_refl | eauto].
  - exists (<[ k := dflt ]> pts). repeat split.
    + intros j. destruct (decide (j = k)) as [-> | Hj].
      * right. rewrite lookup_insert_eq. auto.
      * left. apply lookup_insert_ne. congruence.
    + rewrite lookup_insert_eq. eauto.
    + intros [x Hx]. discriminate.
Qed.

Lemma completed_padded a b strip :
  padded dflt a b -> completed dflt b strip = completed dflt a strip.
Proof.
  intros H. unfold completed.
  destruct (head strip) as [f |]; [| reflexivity].
  destruct (last strip) as [l |]; [| reflexivity].
  rewrite !(padded_default a b _ H). reflexivity.
Qed.

Lemma complete_strip_spec pts strip :
  exists pts',
    complete_strip dflt pts strip = (completed dflt pts strip, pts')
    /\ padded dflt pts pts'
    /\ ends_in pts' strip
    /\ (ends_in pts strip -> pts' = pts).
Proof.
  unfold complete_strip, completed, ends_in.
  destruct (head strip) as [f |] eqn:Hf.
  2: { exists pts. repeat split; [apply padded_refl |].
       intros e [He | He]; [discriminate |].
       destruct strip; [discriminate | discriminate]. }
  destruct (last strip) as [l |] eqn:Hl.
  2: { apply last_None in Hl. subst. discriminate. }
  destruct (pts_index_spec pts (r_ind f)) as (p1 & -> & Hp1 & Hin1 & Hsame1).
  destruct (pts_index_spec p1 (r_ind l)) as (p2 & -> & Hp2 & Hin2 & Hsame2).
  exists p2. rewrite (padded_default pts p1 _ Hp1).
  split; [reflexivity |]. split; [eapply padded_trans; eauto |]. split.
  - intros e [He | He]; injection He as <-; [| exact Hin2].
    eapply padded_is_Some; eauto.
  - intros Hends. rewrite Hsame2, Hsame1; auto.
    rewrite Hsame1 by auto. auto.
Qed.

Lemma ends_in_padded a b strip : padded dflt a b -> ends_in a strip -> ends_in b strip.
Proof. intros H Ha e He. eapply padded_is_Some; eauto. Qed.

Lemma complete_strips_spec pts strips :
  exists pts',
    complete_strips dflt pts strips = (map (completed dflt pts) strips, pts')
    /\ padded dflt pts pts'
    /\ Forall (ends_in pts') strips
    /\ (Forall (ends_in pts) strips -> pts' = pts).
Proof.
  revert pts. induction strips as [| s strips IH]; intros pts; simpl.
  - exists pts. repeat split; [apply padded_refl | constructor].
  - destruct (complete_strip_spec pts s) as (p1 & -> & Hp1 & He1 & Hs1).
    destruct (IH p1) as (p2 & -> & Hp2 & He2 & Hs2).
    exists p2. split.
    { f_equal. f_equal. apply map_ext. intros x. apply completed_padded, Hp1. }
    split; [eapply padded_trans; eauto |]. split.
    + constructor; [eapply ends_in_padded; eauto | exact He2].
    + intros Hall. inversion Hall as [| ? ? Hs Hrest]; subst.
      rewrite (Hs1 Hs) in *. apply Hs2, Hrest.
Qed.

(** The two ways a strip is doubled. *)
Lemma doubled_front_mirrored (f : StripPtR) t : mirrored (rev t ++ f :: t).
Proof.
  unfold mirrored. rewrite rev_app_distr. simpl. rewrite rev_involutive, <- app_assoc.
  reflexivity.
Qed.

Lemma doubled_back_mirrored m (b : StripPtR) : mirrored ((m ++ [b]) ++ rev m).
Proof.
  unfold mirrored. rewrite !rev_app_distr, rev_involutive. simpl.
  rewrite <- app_assoc. reflexivity.
Qed.

Lemma rev_reverse {A} (l : list A) : rev l = reverse l.
Proof. unfold reverse. apply rev_alt. Qed.

Lemma mirrored_palindrome (strip : StripType) : mirrored strip -> palindrome strip.
Proof.
  unfold mirrored, palindrome, ind_at, StripType. intros H i Hi.
  rewrite <- H at 1. rewrite rev_reverse, reverse_lookup by lia.
  replace (length strip - S i)%nat with (length strip - 1 - i)%nat by lia.
  reflexivity.
Qed.

Lemma mirrored_ends (strip : list StripPtR) f b :
  mirrored strip -> head strip = Some f -> last strip = Some b -> f = b.
Proof.
  unfold mirrored. intros H Hf Hb. rewrite <- H, rev_reverse, head_reverse in Hf. congruence.
Qed.

(** What one round does to a strip: nothing, or it doubles a strip of at
    least two elements around one of its ends. *)
Lemma completed_cases pts (strip : list StripPtR) :
  completed dflt pts strip = strip
  \/ (2 <= length strip)%nat
     /\ mirrored (completed dflt pts strip)
     /\ length (completed dflt pts strip) = (2 * length strip - 1)%nat
     /\ (exists e, (head strip = Some e \/ last strip = Some e)
                   /\ head (completed dflt pts strip) = Some e
                   /\ last (completed dflt pts strip) = Some e).
Proof.
  unfold completed.
  destruct (head strip) as [f |] eqn:Hf; [| auto].
  destruct (last strip) as [b |] eqn:Hb; [| auto].
  simpl.
  destruct (sp_ind (default dflt (pts !! r_ind f)) =? sp_ind (default dflt (pts !! r_ind b)))
    eqn:Hind; simpl; [auto |].
  assert (Hlen : (2 <= length strip)%nat).
  { destruct strip as [| x [| y s]]; simpl in *; try lia; try discriminate.
    injection Hf as <-. injection Hb as <-. rewrite Z.eqb_refl in Hind. discriminate. }
  destruct (Capt_eqb (sp_capt (default dflt (pts !! r_ind f))) Capt_Not).
  - right. destruct strip as [| x t]; [discriminate |]. simpl tail.
    split; [exact Hlen |]. split; [apply doubled_front_mirrored |]. split.
    + rewrite length_app, length_rev. simpl. lia.
    + exists b. split; [right; reflexivity |].
      assert (Ht : last t = Some b) by (destruct t; [simpl in Hlen; lia | exact Hb]).
      split.
      * apply last_Some in Ht as [m ->]. rewrite rev_app_distr. reflexivity.
      * rewrite last_app. simpl. simpl in Hb. rewrite Hb. reflexivity.
  - destruct (Capt_eqb (sp_capt (default dflt (pts !! r_ind b))) Capt_Not); [| auto].
    right. apply last_Some in Hb as Hm. destruct Hm as [m ->].
    rewrite removelast_last. split; [exact Hlen |].
    split; [apply doubled_back_mirrored |]. split.
    + rewrite !length_app, length_rev. simpl. lia.
    + exists f. split; [left; reflexivity |].
      destruct m as [| x m]; [simpl in Hlen; lia |]. simpl in Hf. injection Hf as ->.
      split; [reflexivity |].
      simpl rev. rewrite !app_assoc, last_snoc. reflexivity.
Qed.

Lemma completed_idem pts (strip : list StripPtR) :
  completed dflt pts (completed dflt pts strip) = completed dflt pts strip.
Proof.
  destruct (completed_cases pts strip) as [H | (_ & _ & _ & e & _ & Hh & Hl)].
  - rewrite H. apply H.
  - unfold completed at 1. rewrite Hh, Hl. simpl. rewrite Z.eqb_refl. reflexivity.
Qed.

Lemma completed_ends pts (strip : list StripPtR) e :
  head (completed dflt pts strip) = Some e \/ last (completed dflt pts strip) = Some e ->
  head strip = Some e \/ last strip = Some e.
Proof.
  destruct (completed_cases pts strip) as [-> | (_ & _ & _ & e' & He' & Hh & Hl)]; [auto |].
  rewrite Hh, Hl. intros [H | H]; injection H as <-; exact He'.
Qed.

(** Closed after completion, for strips whose ends are stored under
    their own index. *)
Lemma completed_closed pts (strip : list StripPtR) f b :
  keyed pts -> ends_in pts strip ->
  head (completed dflt pts strip) = Some f ->
  last (completed dflt pts strip) = Some b ->
  capture_at pts f = Some Capt_Not \/ capture_at pts b = Some Capt_Not ->
  r_ind f = r_ind b.
Proof.
  intros Hk Hin Hf Hb Hfree.
  destruct (completed_cases pts strip) as [Hsame | (_ & Hm & _)].
  2: { rewrite (mirrored_ends _ f b Hm Hf Hb). reflexivity. }
  rewrite Hsame in Hf, Hb. revert Hsame. unfold completed. rewrite Hf, Hb.
  destruct (Hin f (or_introl Hf)) as [spF HspF].
  destruct (Hin b (or_intror Hb)) as [spB HspB].
  rewrite HspF, HspB. simpl.
  pose proof (Hk _ _ HspF) as HkF. pose proof (Hk _ _ HspB) as HkB.
  destruct (Z.eqb_spec (sp_ind spF) (sp_ind spB)) as [Heq | Hne]; simpl; [congruence |].
  unfold capture_at in Hfree. rewrite HspF, HspB in Hfree. simpl in Hfree.
  destruct (Capt_eqb (sp_capt spF) Capt_Not) eqn:HcF.
  { intros Hsame. exfalso.
    apply (f_equal (@length _)) in Hsame. rewrite length_app, length_rev in Hsame.
    destruct strip as [| x [| y s]]; simpl in *; try lia; try discriminate.
    congruence. }
  destruct (Capt_eqb (sp_capt spB) Capt_Not) eqn:HcB.
  { intros Hsame. exfalso.
    apply (f_equal (@length _)) in Hsame. rewrite length_app, length_rev in Hsame.
    destruct strip as [| x [| y s]]; simpl in *; try lia; try discriminate.
    congruence. }
  intros _. exfalso. destruct Hfree as [H | H]; injection H as H.
  - rewrite H in HcF. discriminate.
  - rewrite H in HcB. discriminate.
Qed.

End CompleteStripsFacts.

Lemma keyedb_keyed pts : keyedb pts = true -> keyed pts.
Proof.
  unfold keyedb, keyed. intros H k sp Hk.
  rewrite forallb_forall in H.
  apply elem_of_map_to_list, list_elem_of_In, H in Hk. simpl in Hk. lia.
Qed.

Lemma located_ends_in pts (strip : StripType) : located pts strip = true -> ends_in pts strip.
Proof.
  unfold located, ends_in. intros H e He.
  destruct (head strip) as [f |]; [| discriminate].
  destruct (last strip) as [b |]; [| discriminate].
  apply andb_true_iff in H as [Hf Hb].
  apply bool_decide_eq_true in Hf, Hb.
  destruct He as [He | He]; injection He as <-; assumption.
Qed.

Lemma strip_in_ends_in pts (strip : list StripPtR) : strip_in pts strip -> ends_in pts strip.
Proof.
  unfold strip_in, ends_in. intros H e He. rewrite List.Forall_forall in H. apply H.
  destruct He as [He | He].
  - destruct strip; [discriminate |]. injection He as ->. left. reflexivity.
  - apply last_Some in He as [m ->]. apply in_or_app. right. left. reflexivity.
Qed.

Lemma CompleteStrips_unfold dflt (pStrips : PStrips) :
  exists pts',
    CompleteStrips dflt pStrips
    = mkPStrips (ps_poly pStrips) pts'
                (map (completed dflt (ps_pts pStrips)) (ps_strips pStrips))
    /\ padded dflt (ps_pts pStrips) pts'
    /\ Forall (ends_in pts') (ps_strips pStrips)
    /\ (Forall (ends_in (ps_pts pStrips)) (ps_strips pStrips) -> pts' = ps_pts pStrips).
Proof.
  destruct (complete_strips_spec dflt (ps_pts pStrips) (ps_strips pStrips))
    as (pts' & E & H).
  exists pts'. unfold CompleteStrips. rewrite E. auto.
Qed.

Lemma CompleteStrips_closed dflt (pStrips : PStrips) strip f b :
  keyed (ps_pts pStrips) ->
  Forall (ends_in (ps_pts pStrips)) (ps_strips pStrips) ->
  In strip (ps_strips (CompleteStrips dflt pStrips)) ->
  head strip = Some f -> last strip = Some b ->
  capture_at (ps_pts pStrips) f = Some Capt_Not
  \/ capture_at (ps_pts pStrips) b = Some Capt_Not ->
  ps_pts (CompleteStrips dflt pStrips) = ps_pts pStrips /\ r_ind f = r_ind b.
Proof.
  intros Hk Hin Hs Hf Hb Hfree.
  destruct (CompleteStrips_unfold dflt pStrips) as (pts' & E & _ & _ & Hsame).
  rewrite E in *. simpl in *. split; [apply Hsame, Hin |].
  apply in_map_iff in Hs as (s & <- & Hs).
  rewrite List.Forall_forall in Hin.
  apply (completed_closed dflt (ps_pts pStrips) s f b); auto.
Qed.

(** X5. After [CompleteStrips] a strip with a free end is closed: when
    every strip point is stored under its own index and the ends of all
    strips have their strip point, a strip one of whose ends has capture
    [Not] begins and ends at the same contact point, and the strip points
    are left as they were. *)
Theorem CompleteStrips_free_ends_closed
  (dflt : StripPt) (pStrips : PStrips) (strip : StripType) (f b : StripPtR) :
  keyed (ps_pts pStrips) ->
  forallb (located (ps_pts pStrips)) (ps_strips pStrips) = true ->
  In strip (ps_strips (CompleteStrips dflt pStrips)) ->
  head strip = Some f -> last strip = Some b ->
  capture_at (ps_pts pStrips) f = Some Capt_Not
  \/ capture_at (ps_pts pStrips) b = Some Capt_Not ->
  ps_pts (CompleteStrips dflt pStrips) = ps_pts pStrips /\ r_ind f = r_ind b.
Proof.
  intros Hk Hloc. apply CompleteStrips_closed; [exact Hk |].
  apply List.Forall_forall. intros s Hs. apply located_ends_in.
  rewrite forallb_forall in Hloc. apply Hloc, Hs.
Qed.

Lemma CompleteStrips_free_ends_closed_witness :
  ps_pts (CompleteStrips (sample_pt 0 0 Capt_Not) sample_chain) = ps_pts sample_chain
  /\ r_ind (StripPtR_of 4 0) = r_ind (StripPtR_of 4 0).
Proof.
  apply (CompleteStrips_free_ends_closed (sample_pt 0 0 Capt_Not) sample_chain
           (strip_of 0 [4; 3; 4])).
  - apply keyedb_keyed. vm_compute. reflexivity.
  - vm_compute. reflexivity.
  - vm_compute. left. reflexivity.
  - reflexivity.
  - reflexivity.
  - left. vm_compute. reflexivity.
Defined.

(** X6. Whatever [CompleteStrips] changes becomes a doubled chain: strip
    by strip, the result is the strip itself, or the strip had at least
    two elements and the result has twice as many less one, reads the same
    in both directions and is found without area by [HasArea]. *)
Theorem CompleteStrips_doubles_into_palindromes (dflt : StripPt) (pStrips : PStrips) :
  Forall2 (fun strip strip' : StripType =>
             strip' = strip
             \/ (2 <= length strip)%nat
                /\ length strip' = (2 * length strip - 1)%nat
                /\ palindrome strip'
                /\ HasArea strip' = false)
          (ps_strips pStrips) (ps_strips (CompleteStrips dflt pStrips)).
Proof.
  destruct (CompleteStrips_unfold dflt pStrips) as (pts' & -> & _). simpl.
  induction (ps_strips pStrips) as [| s strips IH]; simpl; constructor; [| exact IH].
  destruct (completed_cases dflt (ps_pts pStrips) s) as [-> | (Hlen & Hm & Hn & _)];
    [left; reflexivity | right].
  pose proof (mirrored_palindrome _ Hm) as Hp.
  repeat split; auto.
  apply (palindrome_no_area _ (length s - 2)); [| exact Hp].
  unfold StripType in *. lia.
Qed.

(** X7. [CompleteStrips] is idempotent: a second pass changes neither the
    strips nor the strip points. *)
Theorem CompleteStrips_idempotent (dflt : StripPt) (pStrips : PStrips) :
  CompleteStrips dflt (CompleteStrips dflt pStrips) = CompleteStrips dflt pStrips.
Proof.
  destruct (CompleteStrips_unfold dflt pStrips) as (pts1 & -> & Hpad & Hin & _).
  destruct (CompleteStrips_unfold dflt
              (mkPStrips (ps_poly pStrips) pts1
                         (map (completed dflt (ps_pts pStrips)) (ps_strips pStrips))))
    as (pts2 & -> & _ & _ & Hsame).
  simpl in *. f_equal.
  - apply Hsame. apply List.Forall_forall. intros s' Hs'.
    apply in_map_iff in Hs' as (s & <- & Hs).
    rewrite List.Forall_forall in Hin. intros e He.
    apply (Hin s Hs), (completed_ends dflt (ps_pts pStrips)), He.
  - rewrite map_map. apply map_ext. intros s.
    rewrite (completed_padded dflt _ _ _ Hpad). apply completed_idem.
Qed.

(** X8. The strips [GetPolyStrips] leaves in a polygon: when every strip
    point is stored under its own index, a strip one of whose ends has
    capture [Not] begins and ends at the same contact point (it is a
    closed loop or a doubled chain), and building the strips leaves the
    strip points as they were. *)
Theorem BuildStrips_poly_free_ends_closed
  (dflt : StripPt) (cl : vtkPolyData) (lines : IdsType) (pStrips pStrips' : PStrips)
  (strip : StripType) (f b : StripPtR) :
  BuildStrips_poly dflt cl lines pStrips = Some pStrips' ->
  keyed (ps_pts pStrips) ->
  In strip (ps_strips pStrips') ->
  head strip = Some f -> last strip = Some b ->
  capture_at (ps_pts pStrips) f = Some Capt_Not
  \/ capture_at (ps_pts pStrips) b = Some Capt_Not ->
  ps_pts pStrips' = ps_pts pStrips /\ r_ind f = r_ind b.
Proof.
  unfold BuildStrips_poly. intros H Hk Hs Hf Hb Hfree.
  destruct (AssembleStrips cl (ps_pts pStrips) lines) as [strips |] eqn:E;
    simpl in H; [| discriminate].
  injection H as <-.
  unfold AssembleStrips in E.
  destruct (assemble_spec _ _ _ _ _ E (le_n _)) as (_ & _ & _ & Hin).
  apply (CompleteStrips_closed dflt
           (mkPStrips (ps_poly pStrips) (ps_pts pStrips) strips) strip f b); auto.
  simpl. eapply Forall_impl; [exact Hin |]. intros s. apply strip_in_ends_in.
Qed.

Lemma BuildStrips_poly_free_ends_closed_witness :
  ps_pts sample_chain_completed = ps_pts sample_chain_start
  /\ r_ind (StripPtR_of 4 0) = r_ind (StripPtR_of 4 0).
Proof.
  apply (BuildStrips_poly_free_ends_closed (sample_pt 0 0 Capt_Not) sample_ring [0; 1; 3]
           sample_chain_start sample_chain_completed (strip_of 0 [4; 3; 4])).
  - vm_compute. reflexivity.
  - apply keyedb_keyed. vm_compute. reflexivity.
  - left. reflexivity.
  - reflexivity.
  - reflexivity.
  - left. vm_compute. reflexivity.
Defined.

(** ** CleanPoly *)

Lemma sample_code_eqb_eq a b : sample_code_eqb a b = true <-> a = b.
Proof.
  destruct a as [[a1 a2] a3], b as [[b1 b2] b3]. unfold sample_code_eqb. simpl.
  rewrite !andb_true_iff, !Z.eqb_eq. split.
  - intros [[-> ->] ->]. reflexivity.
  - intros H. injection H as -> -> ->. auto.
Qed.

Lemma sample_same_spec p q :
  sample_same p q = true
  <-> sample_code (px p) = sample_code (px q)
      /\ sample_code (py p) = sample_code (py q)
      /\ sample_code (pz p) = sample_code (pz q).
Proof.
  unfold sample_same. rewrite !andb_true_iff, !sample_code_eqb_eq. tauto.
Qed.

Lemma sample_same_refl p : sample_same p p = true.
Proof. apply sample_same_spec. auto. Qed.

Lemma sample_same_sym p q : sample_same p q = sample_same q p.
Proof.
  apply eq_true_iff_eq. rewrite !sample_same_spec. intuition congruence.
Qed.

Lemma sample_same_trans p q r :
  sample_same p q = true -> sample_same q r = true -> sample_same p r = true.
Proof. rewrite !sample_same_spec. intuition congruence. Qed.

Section CleanPolyFacts.

Variable Point3d_eq : Point3d -> Point3d -> bool.
Variable pd : vtkPolyData.

Hypothesis eq_refl' : forall p, Point3d_eq p p = true.
Hypothesis eq_sym' : forall p q, Point3d_eq p q = Point3d_eq q p.
Hypothesis eq_trans' : forall p q r,
  Point3d_eq p q = true -> Point3d_eq q r = true -> Point3d_eq p r = true.

Let same (a b : vtkIdType) : Prop := Point3d_eq (GetPoint pd a) (GetPoint pd b) = true.

Lemma same_trans a b c : same a b -> same b c -> same a c.
Proof. unfold same. apply eq_trans'. Qed.

Lemma same_sym a b : same a b -> same b a.
Proof. unfold same. rewrite eq_sym'. auto. Qed.

(** The first vertex that is kept has the coordinates of the first
    vertex of the list. *)
Lemma CleanPoly_from_head first l a x r :
  CleanPoly_from Point3d_eq pd first l = x :: r -> head l = Some a -> same a x.
Proof.
  revert a. induction l as [| a' rest IH]; intros a H Ha; [discriminate |].
  injection Ha as ->. simpl in H.
  destruct (Point3d_eq (GetPoint pd a)
              (GetPoint pd match rest with [] => first | b :: _ => b end)) eqn:E.
  - destruct rest as [| b rest']; [discriminate |].
    apply (same_trans a b x); [exact E | apply IH; [exact H | reflexivity]].
  - injection H as <- _. apply eq_refl'.
Qed.

(** When nothing is kept, the first vertex of the list has the
    coordinates of [first]. *)
Lemma CleanPoly_from_nil first l a :
  CleanPoly_from Point3d_eq pd first l = [] -> head l = Some a -> same a first.
Proof.
  revert a. induction l as [| a' rest IH]; intros a H Ha; [discriminate |].
  injection Ha as ->. simpl in H.
  destruct (Point3d_eq (GetPoint pd a)
              (GetPoint pd match rest with [] => first | b :: _ => b end)) eqn:E;
    [| discriminate].
  destruct rest as [| b rest']; [exact E |].
  apply (same_trans a b first); [exact E | apply IH; [exact H | reflexivity]].
Qed.

Lemma CleanPoly_from_clean first l :
  no_equal_neighbours Point3d_eq pd first (CleanPoly_from Point3d_eq pd first l).
Proof.
  induction l as [| a rest IH]; [exact I |]. simpl.
  destruct (Point3d_eq (GetPoint pd a)
              (GetPoint pd match rest with [] => first | b :: _ => b end)) eqn:E;
    [exact IH |].
  simpl. split; [| exact IH].
  destruct rest as [| b rest']; [exact E |].
  destruct (CleanPoly_from Point3d_eq pd first (b :: rest')) as [| x r] eqn:Er.
  - apply not_true_is_false. intros Hs.
    assert (same a b); [| unfold same in *; congruence].
    apply (same_trans a first b); [exact Hs |].
    apply same_sym, (CleanPoly_from_nil first (b :: rest')); [exact Er | reflexivity].
  - apply not_true_is_false. intros Hs.
    assert (same a b); [| unfold same in *; congruence].
    apply (same_trans a x b); [exact Hs |].
    apply same_sym, (CleanPoly_from_head first (b :: rest') b x r); [exact Er | reflexivity].
Qed.

Lemma no_equal_neighbours_first first first' l :
  same first first' ->
  no_equal_neighbours Point3d_eq pd first l -> no_equal_neighbours Point3d_eq pd first' l.
Proof.
  intros Hf. induction l as [| a rest IH]; [auto |]. simpl. intros [Ha Hrest].
  split; [| apply IH, Hrest].
  destruct rest as [| b rest']; [| exact Ha].
  apply not_true_is_false. intros Hs.
  assert (same a first); [| unfold same in *; congruence].
  apply (same_trans a first' first); [exact Hs | apply same_sym, Hf].
Qed.

Lemma no_equal_neighbours_fixed first l :
  no_equal_neighbours Point3d_eq pd first l -> CleanPoly_from Point3d_eq pd first l = l.
Proof.
  induction l as [| a rest IH]; [reflexivity |]. simpl. intros [Ha Hrest].
  rewrite Ha, (IH Hrest). reflexivity.
Qed.

Lemma no_equal_neighbours_lookup first (l : list vtkIdType) (i : nat) a :
  no_equal_neighbours Point3d_eq pd first l -> l !! i = Some a ->
  Point3d_eq (GetPoint pd a) (GetPoint pd (default first (l !! S i))) = false.
Proof.
  revert i. induction l as [| x rest IH]; intros i H Hi; [discriminate |].
  destruct H as [Hx Hrest]. destruct i as [| i]; simpl in Hi.
  - injection Hi as <-. destruct rest; exact Hx.
  - apply (IH i Hrest Hi).
Qed.

(** The cleaned ring, seen from its own first vertex. *)
Lemma CleanPoly_clean poly first :
  head (CleanPoly Point3d_eq pd poly) = Some first ->
  no_equal_neighbours Point3d_eq pd first (CleanPoly Point3d_eq pd poly).
Proof.
  unfold CleanPoly. destruct poly as [| p0 rest]; [discriminate |]. intros Hh.
  apply (no_equal_neighbours_first p0); [| apply CleanPoly_from_clean].
  destruct (CleanPoly_from Point3d_eq pd p0 (p0 :: rest)) as [| x r] eqn:E; [discriminate |].
  injection Hh as ->.
  apply (CleanPoly_from_head p0 (p0 :: rest) p0 first r); [exact E | reflexivity].
Qed.

(** X9. [CleanPoly] leaves no vertex with the coordinates of its
    successor around the ring, provided [Point3d]'s equality is an
    equivalence: in the result the vertex at position i and the one at
    position i + 1, the first one after the last, are never equal. In
    particular no ring of a single vertex is left. *)
Theorem CleanPoly_no_equal_neighbours (poly : IdsType) (i : nat) (a b : vtkIdType) :
  let res := CleanPoly Point3d_eq pd poly in
  res !! i = Some a ->
  res !! (S i mod length res)%nat = Some b ->
  Point3d_eq (GetPoint pd a) (GetPoint pd b) = false /\ length res <> 1%nat.
Proof.
  intros res Ha Hb.
  destruct res as [| first r] eqn:Eres; [discriminate |].
  assert (Hclean : no_equal_neighbours Point3d_eq pd first (first :: r)).
  { rewrite <- Eres. apply CleanPoly_clean. subst res. rewrite Eres. reflexivity. }
  assert (Hab : Point3d_eq (GetPoint pd a) (GetPoint pd b) = false).
  { pose proof (no_equal_neighbours_lookup first (first :: r) i a Hclean Ha) as H.
    unfold IdsType in *.
    apply lookup_lt_Some in Ha as Hlt.
    destruct (decide (S i = length (first :: r))) as [Hend | Hmid].
    - rewrite Hend, Nat.Div0.mod_same in Hb. injection Hb as <-.
      rewrite (lookup_ge_None_2 (first :: r) (S i)) in H by lia. exact H.
    - rewrite Nat.mod_small in Hb by lia. rewrite Hb in H. exact H. }
  split; [exact Hab |].
  intros Hlen. destruct r; [| discriminate].
  destruct i as [| i]; [| discriminate]. simpl in Ha, Hb.
  injection Ha as <-. injection Hb as <-. rewrite eq_refl' in Hab. discriminate.
Qed.

(** X10. [CleanPoly] is idempotent when [Point3d]'s equality is an
    equivalence: cleaning a cleaned ring removes nothing more. *)
Theorem CleanPoly_idempotent (poly : IdsType) :
  CleanPoly Point3d_eq pd (CleanPoly Point3d_eq pd poly) = CleanPoly Point3d_eq pd poly.
Proof.
  destruct (CleanPoly Point3d_eq pd poly) as [| first r] eqn:E; [reflexivity |].
  unfold CleanPoly at 1. apply no_equal_neighbours_fixed.
  rewrite <- E. apply CleanPoly_clean. rewrite E. reflexivity.
Qed.

End CleanPolyFacts.

Lemma CleanPoly_no_equal_neighbours_witness :
  sample_same (GetPoint sample_square 3) (GetPoint sample_square 4) = false
  /\ length (CleanPoly sample_same sample_square [0; 1; 2; 3; 4; 5]) <> 1%nat.
Proof.
  apply (CleanPoly_no_equal_neighbours sample_same sample_square
           sample_same_refl sample_same_sym sample_same_trans [0; 1; 2; 3; 4; 5] 1).
  - vm_compute. reflexivity.
  - vm_compute. reflexivity.
Defined.

Lemma CleanPoly_idempotent_witness :
  CleanPoly sample_same sample_square (CleanPoly sample_same sample_square [0; 1; 2; 3; 4; 5])
  = CleanPoly sample_same sample_square [0; 1; 2; 3; 4; 5].
Proof.
  apply (CleanPoly_idempotent sample_same sample_square
           sample_same_refl sample_same_sym sample_same_trans).
Defined.

(** ** MergePoints only renames *)

Lemma length_replace_first old new l : length (replace_first old new l) = length l.
Proof.
  induction l as [| x l IH]; simpl; [reflexivity |].
  destruct (x =? old); simpl; congruence.
Qed.

Lemma In_replace_first old new l p :
  In p (replace_first old new l) -> In p l \/ p = new.
Proof.
  induction l as [| x l IH]; simpl; [tauto |].
  destruct (x =? old); simpl; intros [H | H]; auto.
  destruct (IH H); auto.
Qed.

Lemma same_cell_shape_refl c : same_cell_shape c c.
Proof. split; reflexivity. Qed.

Lemma Forall2_shape_refl (l : list Cell) : Forall2 same_cell_shape l l.
Proof. induction l; constructor; auto using same_cell_shape_refl. Qed.

Lemma Forall2_alter_shape (f : Cell -> Cell) (i : nat) (l : list Cell) :
  (forall c, same_cell_shape c (f c)) -> Forall2 same_cell_shape l (alter f i l).
Proof.
  intros Hf. revert i. induction l as [| c l IH]; intros i; [constructor |].
  destruct i as [| i]; simpl; constructor;
    auto using same_cell_shape_refl, Forall2_shape_refl.
  apply IH.
Qed.

Lemma Forall2_shape_trans (a b c : list Cell) :
  Forall2 same_cell_shape a b -> Forall2 same_cell_shape b c -> Forall2 same_cell_shape a c.
Proof.
  intros H. revert c. induction H as [| x y a b [H1 H2] _ IH]; intros c Hc;
    inversion Hc as [| ? z ? c' [H3 H4] Hrest]; subst; constructor; auto.
  split; congruence.
Qed.

Lemma In_alter_cell (f : Cell -> Cell) (i : nat) (l : list Cell) c :
  In c (alter f i l) -> In c l \/ exists c0, In c0 l /\ c = f c0.
Proof.
  revert i. induction l as [| x l IH]; intros i; [intros [] |].
  destruct i as [| i]; simpl.
  - intros [<- | H]; [right; exists x; auto | auto].
  - intros [<- | H]; [auto |].
    destruct (IH i H) as [H' | (c0 & H' & ->)]; [auto | right; exists c0; auto].
Qed.

Lemma renamed_refl pd : renamed pd pd.
Proof. repeat split; auto using Forall2_shape_refl. Qed.

Lemma renamed_trans a b c : renamed a b -> renamed b c -> renamed a c.
Proof.
  intros (H1 & H2 & H3 & H4) (H1' & H2' & H3' & H4').
  repeat split; try congruence; eauto using Forall2_shape_trans.
Qed.

(** One [ReplaceCellPoint] by a point that the base mesh refers to. *)
Lemma ReplaceCellPoint_renamed base pd cell old new :
  renamed base pd -> used base new -> renamed base (ReplaceCellPoint pd cell old new).
Proof.
  intros (H1 & H2 & H3 & H4) Hnew. unfold ReplaceCellPoint. repeat split; simpl; auto.
  - apply (Forall2_shape_trans _ (Cells pd)); [exact H3 |].
    destruct (0 <=? cell); [| apply Forall2_shape_refl].
    apply Forall2_alter_shape. intros c. split; simpl; [reflexivity |].
    apply length_replace_first.
  - intros p (c & Hc & Hp). simpl in Hc.
    destruct (0 <=? cell); [| apply H4; exists c; auto].
    apply In_alter_cell in Hc as [Hc | (c0 & Hc & ->)]; [apply H4; exists c; auto |].
    simpl in Hp. apply In_replace_first in Hp as [Hp | ->]; [| exact Hnew].
    apply H4. exists c0. auto.
Qed.

Lemma GetPointCells_used pd p x : In x (GetPointCells pd p) -> used pd p.
Proof.
  unfold GetPointCells. rewrite in_map_iff. intros ([i c] & _ & Hin).
  apply filter_In in Hin as [Hin Hu]. simpl in Hu.
  apply in_combine_r in Hin. exists c. split; [exact Hin | apply uses_point_In, Hu].
Qed.

Lemma first_linked_used linked m : first_linked linked m -> used linked m.2.
Proof.
  intros [rest H]. apply (GetPointCells_used linked m.2 m.1). rewrite H. left. reflexivity.
Qed.

Section MergePointsFacts.

Variable Point3d_lt : Point3d -> Point3d -> bool.
Variable FindPoints : list Point3d -> Point3d -> list vtkIdType.

Lemma pmap_modify_Forall (P : Pair -> Prop) (x : Pair) key (m : list (Point3d * list Pair)) :
  P x -> Forall (fun e => Forall P e.2) m ->
  Forall (fun e => Forall P e.2) (pmap_modify Point3d_lt [] (fun v => v ++ [x]) key m).
Proof.
  intros Hx. induction m as [| [k v] m IH]; intros Hm; simpl.
  - repeat constructor. exact Hx.
  - inversion Hm as [| ? ? Hv Hrest]; subst. simpl in Hv.
    destruct (Point3d_lt key k).
    + constructor; [repeat constructor; exact Hx | exact Hm].
    + destruct (Point3d_lt k key).
      * constructor; [exact Hv | apply IH, Hrest].
      * constructor; [| exact Hrest]. simpl. apply Forall_app. split; [exact Hv |].
        repeat constructor. exact Hx.
Qed.

Lemma file_pair_Forall (P : Pair -> Prop) pd inds polyId ind neigh pairs :
  P (polyId, ind) -> Forall (fun e => Forall P e.2) pairs ->
  Forall (fun e => Forall P e.2) (file_pair Point3d_lt pd inds polyId ind neigh pairs).
Proof.
  intros Hx Hp. unfold file_pair. destruct (bool_decide (neigh ∈ inds)); [exact Hp |].
  apply pmap_modify_Forall; assumption.
Qed.

Lemma file_pairs_first_linked linked pd inds found :
  Forall (fun e : Point3d * list Pair => Forall (first_linked linked) e.2)
         (file_pairs Point3d_lt linked pd inds found).
Proof.
  unfold file_pairs.
  assert (H : forall pairs,
             Forall (fun e : Point3d * list Pair => Forall (first_linked linked) e.2) pairs ->
             Forall (fun e : Point3d * list Pair => Forall (first_linked linked) e.2)
                    (fold_left
                       (fun pairs ind =>
                          match GetPointCells linked ind with
                          | [] => pairs
                          | polyId :: _ =>
                              let '(before, after) :=
                                ring_neighbours (GetCellPoints pd polyId) ind in
                              file_pair Point3d_lt pd inds polyId ind after
                                        (file_pair Point3d_lt pd inds polyId ind before pairs)
                          end) found pairs)).
  { induction found as [| ind found IH]; intros pairs Hp; simpl; [exact Hp |].
    apply IH. destruct (GetPointCells linked ind) as [| polyId rest] eqn:E; [exact Hp |].
    destruct (ring_neighbours (GetCellPoints pd polyId) ind) as [before after].
    assert (Hx : first_linked linked (polyId, ind)) by (exists rest; exact E).
    apply file_pair_Forall; [exact Hx |]. apply file_pair_Forall; assumption. }
  apply H. constructor.
Qed.

Lemma collapse_group_renamed linked pd group :
  renamed linked pd -> Forall (first_linked linked) group ->
  renamed linked (collapse_group pd group).
Proof.
  intros Hr Hg. destruct group as [| rep members]; [exact Hr |]. simpl.
  inversion Hg as [| ? ? Hrep _]; subst. apply first_linked_used in Hrep.
  clear Hg. revert pd Hr. induction members as [| m members IH]; intros pd Hr; simpl;
    [exact Hr |].
  apply IH, ReplaceCellPoint_renamed; assumption.
Qed.

Lemma MergeGroups_first_linked linked (pairs : list (Point3d * list Pair)) :
  Forall (fun e : Point3d * list Pair => Forall (first_linked linked) e.2) pairs ->
  Forall (Forall (first_linked linked)) (MergeGroups (two_pair_entries pairs)).
Proof.
  intros Hp. apply List.Forall_forall. intros g Hg.
  apply List.Forall_forall. intros m Hm.
  destruct (groups_of_spec (length (two_pair_entries pairs)) (two_pair_entries pairs) (le_n _))
    as [_ Hmem].
  destruct (Hmem g m Hg Hm) as ([a b] & Hin & Hab).
  apply In_two_pair_entries in Hin as [key Hin].
  rewrite List.Forall_forall in Hp. specialize (Hp _ Hin). simpl in Hp.
  inversion Hp as [| ? ? Ha Hp']; subst. inversion Hp' as [| ? ? Hb _]; subst.
  simpl in Hab. destruct Hab as [-> | ->]; assumption.
Qed.

Lemma MergePoints_at_renamed linked cl pd ind inds :
  renamed linked pd ->
  renamed linked (MergePoints_at Point3d_lt FindPoints linked cl pd ind inds).
Proof.
  intros Hr. unfold MergePoints_at.
  pose proof (MergeGroups_first_linked linked _
                (file_pairs_first_linked linked pd inds
                   (FindPoints (Points pd) (GetPoint cl ind)))) as Hg.
  revert Hg. generalize (MergeGroups
    (two_pair_entries
       (file_pairs Point3d_lt linked pd inds (FindPoints (Points pd) (GetPoint cl ind))))).
  intros groups Hg. revert pd Hr.
  induction groups as [| g groups IH]; intros pd' Hr; simpl; [exact Hr |].
  inversion Hg as [| ? ? Hg1 Hg2]; subst.
  apply IH; [exact Hg2 |]. apply collapse_group_renamed; assumption.
Qed.

(** X11. [MergePoints] only renames point references: the points and
    the cell data stay as they are, every cell keeps its place, its type
    and its number of vertices, and afterwards no cell refers to a point
    that no cell referred to before. *)
Theorem MergePoints_only_renames (cl pd : vtkPolyData) (polyStrips : PolyStripsType) :
  renamed pd (MergePoints Point3d_lt FindPoints cl pd polyStrips).
Proof.
  unfold MergePoints.
  generalize (entries (neighPts_of FindPoints pd polyStrips)). intros l.
  assert (H : forall pd', renamed pd pd' ->
            renamed pd (fold_left
                          (fun pd'' (e : Z * gset Z) =>
                             MergePoints_at Point3d_lt FindPoints pd cl pd'' e.1 e.2) l pd')).
  { induction l as [| e l IH]; intros pd' Hr; simpl; [exact Hr |].
    apply IH, MergePoints_at_renamed, Hr. }
  apply H, renamed_refl.
Qed.

End MergePointsFacts.

(** ** What CleanStrips leaves of the strips *)

Lemma touches_spec inds strip :
  touches inds strip = true <-> exists p, In p (map r_ind strip) /\ p ∈ inds.
Proof.
  unfold touches. rewrite existsb_exists. split.
  - intros (x & Hx & Hd). apply bool_decide_eq_true in Hd.
    exists (r_ind x). split; [apply in_map, Hx | exact Hd].
  - intros (p & Hp & Hin). apply in_map_iff in Hp as (x & <- & Hx).
    exists x. split; [exact Hx | apply bool_decide_eq_true, Hin].
Qed.

Lemma cleaned_lookup f inds (polyStrips : PolyStripsType) poly :
  (forall p, p ∈ inds <-> on_hole (polyStripsA f) p \/ on_hole (polyStripsB f) p) ->
  (forall pStrips strip, polyStrips !! poly = Some pStrips ->
     In strip (ps_strips pStrips) -> is_Some (is_hole (ps_pts pStrips) strip)) ->
  option_Forall2 (cleaned_bundle f)
                 (polyStrips !! poly)
                 (CleanOther inds (without_holes <$> polyStrips) !! poly).
Proof.
  intros Hinds Hsome. unfold CleanOther. rewrite !lookup_fmap.
  destruct (polyStrips !! poly) as [ps |] eqn:E; simpl; constructor.
  split; [reflexivity |]. split; [reflexivity |]. simpl.
  intros strip. rewrite !filter_In, !negb_true_iff. unfold holeb.
  split.
  - intros [[Hin Hh] Ht]. split; [exact Hin |]. split.
    + intros Hhole. rewrite Hhole in Hh. discriminate.
    + intros p Hp Hon. apply Hinds in Hon.
      assert (touches inds strip = true) by (apply touches_spec; eauto). congruence.
  - intros (Hin & Hh & Hfree). split; [split; [exact Hin |] |].
    + destruct (Hsome ps strip eq_refl Hin) as [[|] Hb]; [contradiction |].
      rewrite Hb. reflexivity.
    + apply not_true_is_false. intros Ht. apply touches_spec in Ht as (p & Hp & Hpi).
      apply (Hfree p Hp), Hinds, Hpi.
Qed.

Lemma FindHoles_strips_Some pts strips inds r :
  FindHoles_strips pts strips inds = Some r ->
  forall strip, In strip strips -> is_Some (is_hole pts strip).
Proof.
  revert inds r. induction strips as [| s strips IH]; intros inds r H strip Hin;
    [destruct Hin |].
  simpl in H. destruct (is_hole pts s) as [hole |] eqn:E; simpl in H; [| discriminate].
  destruct Hin as [<- | Hin]; [rewrite E; eauto |].
  destruct hole.
  - eapply IH; eauto.
  - destruct (FindHoles_strips pts strips inds) as [r' |] eqn:E'; simpl in H; [| discriminate].
    eapply IH; eauto.
Qed.

Lemma FindHoles_polys_Some polys inds r :
  FindHoles_polys polys inds = Some r ->
  forall id pStrips strip, In (id, pStrips) polys -> In strip (ps_strips pStrips) ->
    is_Some (is_hole (ps_pts pStrips) strip).
Proof.
  revert inds r. induction polys as [| [id0 ps0] polys IH]; intros inds r H id ps strip Hin Hs;
    [destruct Hin |].
  simpl in H.
  destruct (FindHoles_strips (ps_pts ps0) (ps_strips ps0) inds) as [r0 |] eqn:E0;
    simpl in H; [| discriminate].
  destruct (FindHoles_polys polys r0.2) as [r1 |] eqn:E1; simpl in H; [| discriminate].
  destruct Hin as [Heq | Hin].
  - injection Heq as <- <-. eapply FindHoles_strips_Some; eauto.
  - eapply IH; eauto.
Qed.

Lemma FindHoles_Some (polyStrips : PolyStripsType) inds r poly pStrips strip :
  FindHoles polyStrips inds = Some r ->
  polyStrips !! poly = Some pStrips -> In strip (ps_strips pStrips) ->
  is_Some (is_hole (ps_pts pStrips) strip).
Proof.
  unfold FindHoles. intros H Hp Hs.
  destruct (FindHoles_polys (entries polyStrips) inds) as [r' |] eqn:E; simpl in H;
    [| discriminate].
  apply (FindHoles_polys_Some _ _ _ E poly pStrips strip); [| exact Hs].
  apply list_elem_of_In, elem_of_entries, Hp.
Qed.

(** X12. What [CleanStrips] leaves of the strips: in both meshes every
    contacted polygon keeps its entry, its ring and its strip points, and
    a strip of it stays exactly when it is no hole and passes through no
    contact point of a hole of either mesh. The two meshes and the
    operator are not touched. *)
Theorem CleanStrips_survivors (f f' : Filter) (b : bool) (poly : vtkIdType) :
  CleanStrips f = Some (b, f') ->
  option_Forall2 (cleaned_bundle f) (polyStripsA f !! poly) (polyStripsA f' !! poly)
  /\ option_Forall2 (cleaned_bundle f) (polyStripsB f !! poly) (polyStripsB f' !! poly)
  /\ modPdA f' = modPdA f /\ modPdB f' = modPdB f /\ OperMode f' = OperMode f.
Proof.
  intros H.
  destruct (CleanStrips_unfold f b f' H) as (inds & Hd & -> & _). simpl.
  pose proof (dropped_inds_spec f inds Hd) as Hi.
  assert (Hinds : forall p, p ∈ inds
                    <-> on_hole (polyStripsA f) p \/ on_hole (polyStripsB f) p).
  { intros p. rewrite Hi, elem_of_union, !elem_of_poly_hole_inds. reflexivity. }
  unfold dropped_inds in Hd.
  destruct (FindHoles (polyStripsA f) ∅) as [rA |] eqn:EA; simpl in Hd; [| discriminate].
  destruct (FindHoles (polyStripsB f) rA.2) as [rB |] eqn:EB; simpl in Hd; [| discriminate].
  repeat split.
  - apply cleaned_lookup; [exact Hinds |].
    intros ps strip Hp Hs. apply (FindHoles_Some _ _ _ poly ps strip EA Hp Hs).
  - apply cleaned_lookup; [exact Hinds |].
    intros ps strip Hp Hs. apply (FindHoles_Some _ _ _ poly ps strip EB Hp Hs).
Qed.

Lemma CleanStrips_survivors_witness :
  option_Forall2 (cleaned_bundle sample_dangling)
                 (polyStripsA sample_dangling !! 10)
                 (polyStripsA sample_dangling_cleaned !! 10)
  /\ option_Forall2 (cleaned_bundle sample_dangling)
                    (polyStripsB sample_dangling !! 10)
                    (polyStripsB sample_dangling_cleaned !! 10)
  /\ modPdA sample_dangling_cleaned = modPdA sample_dangling
  /\ modPdB sample_dangling_cleaned = modPdB sample_dangling
  /\ OperMode sample_dangling_cleaned = OperMode sample_dangling.
Proof.
  apply (CleanStrips_survivors sample_dangling sample_dangling_cleaned false 10).
  vm_compute. reflexivity.
Defined.

(** ** polyLines *)

Lemma polyLines_add_lookup (m : gmap Z IdsType) (i : nat) (q p : vtkIdType) :
  default [] (polyLines_add m (i, q) !! p)
  = default [] (m !! p) ++ (if q =? p then [Z.of_nat i] else []).
Proof.
  unfold polyLines_add. simpl. destruct (Z.eqb_spec q p) as [-> | Hne].
  - rewrite lookup_insert_eq. reflexivity.
  - rewrite lookup_insert_ne by exact Hne. rewrite app_nil_r. reflexivity.
Qed.

Lemma polyLines_fold (l : list (nat * vtkIdType)) (m : gmap Z IdsType) (p : vtkIdType) :
  default [] (fold_left polyLines_add l m !! p)
  = default [] (m !! p)
    ++ map (fun ip : nat * vtkIdType => Z.of_nat ip.1)
           (List.filter (fun ip : nat * vtkIdType => ip.2 =? p) l).
Proof.
  revert m. induction l as [| [i q] l IH]; intros m; simpl.
  - rewrite app_nil_r. reflexivity.
  - rewrite IH, polyLines_add_lookup, <- app_assoc. f_equal.
    destruct (q =? p); reflexivity.
Qed.

Lemma polyLines_fold_dom (l : list (nat * vtkIdType)) (m : gmap Z IdsType) (p : vtkIdType) :
  is_Some (fold_left polyLines_add l m !! p) <-> is_Some (m !! p) \/ In p (map snd l).
Proof.
  revert m. induction l as [| [i q] l IH]; intros m; simpl; [tauto |].
  rewrite IH. unfold polyLines_add at 1. simpl.
  destruct (Z.eq_dec q p) as [-> | Hne].
  - rewrite lookup_insert_eq. split; [auto | intros _; left; eauto].
  - rewrite lookup_insert_ne by exact Hne. tauto.
Qed.

(** X13. [polyLines] sorts the contact lines by polygon: the list stored
    for a polygon holds the positions of that polygon in the array, each
    once and in increasing order, and a polygon has an entry exactly when
    it occurs in the array. *)
Theorem polyLines_by_polygon (conts : list vtkIdType) (p : vtkIdType) :
  default [] (polyLines conts !! p) = lines_of conts p
  /\ (is_Some (polyLines conts !! p) <-> In p conts).
Proof.
  unfold polyLines, lines_of. split.
  - rewrite polyLines_fold, lookup_empty. reflexivity.
  - rewrite polyLines_fold_dom, lookup_empty.
    change (map snd (combine ?a ?b)) with ((zip a b).*2).
    rewrite snd_zip by (rewrite length_seq; lia).
    split; [intros [[x Hx] | H]; [discriminate | exact H] | auto].
Qed.

(** ** RemoveDuplicates, once more *)

Lemma keep_first_fixed cl seen lines :
  NoDup (map (ends_key cl) lines) ->
  (forall id, In id lines -> existsb (same_ends cl id) seen = false) ->
  keep_first cl seen lines = lines.
Proof.
  revert seen. induction lines as [| x rest IH]; intros seen Hnd Hseen; simpl; [reflexivity |].
  rewrite (Hseen x) by (left; reflexivity). f_equal.
  simpl in Hnd. apply NoDup_cons in Hnd as [Hx Hnd].
  apply IH; [exact Hnd |]. intros id Hid.
  rewrite existsb_app, (Hseen id) by (right; exact Hid). simpl.
  rewrite orb_false_r. apply not_true_is_false. intros Hs.
  apply same_ends_key in Hs. apply Hx. rewrite <- Hs.
  apply list_elem_of_In, in_map, Hid.
Qed.

(** X14. [RemoveDuplicates] is idempotent, and the lists it leaves alone
    are those in which no two lines join the same two points. *)
Theorem RemoveDuplicates_idempotent (cl : vtkPolyData) (lines : IdsType) :
  RemoveDuplicates cl (RemoveDuplicates cl lines) = RemoveDuplicates cl lines
  /\ (RemoveDuplicates cl lines = lines <-> NoDup (map (ends_key cl) lines)).
Proof.
  rewrite !RemoveDuplicates_keep_first. split.
  - apply keep_first_fixed; [apply keep_first_distinct | reflexivity].
  - split.
    + intros H. rewrite <- H. apply keep_first_distinct.
    + intros H. apply keep_first_fixed; [exact H | reflexivity].
Qed.

(** ** HasArea, in full *)

(** X15. [HasArea] decides by one pair of elements only: on a strip of
    even length or of a single element it answers [true], and on a strip
    of odd length from three on it answers whether the two neighbours of
    the middle element are different contact points. *)
Theorem HasArea_middle_neighbours (strip : StripType) :
  let n := length strip in
  HasArea strip
  = if (n mod 2 =? 1)%nat && (3 <=? n)%nat
    then negb (ind_at strip (n / 2 - 1) =? ind_at strip (n / 2 + 1))
    else true.
Proof.
  intros n. subst n.
  pose proof (Nat.div_mod_eq (length strip) 2) as Hdm.
  pose proof (Nat.mod_upper_bound (length strip) 2 ltac:(lia)) as Hlt.
  destruct (Nat.eqb_spec (length strip mod 2) 1) as [Hodd | Heven];
    destruct (Nat.leb_spec 3 (length strip)) as [H3 | H3]; cbn [andb].
  - rewrite (HasArea_odd strip (length strip / 2 - 1)) by lia.
    replace (length strip / 2 - 1 + 2)%nat with (length strip / 2 + 1)%nat by lia.
    reflexivity.
  - destruct strip as [| p [| q [| r s]]]; simpl in H3; try lia; try discriminate.
    reflexivity.
  - apply (HasArea_even strip (length strip / 2)). lia.
  - apply (HasArea_even strip (length strip / 2)). lia.
Qed.

(** ** HasArea on the strips it receives *)

Lemma ind_at_map (strip : StripType) i :
  ind_at strip i = default NOTSET (map r_ind strip !! i).
Proof.
  unfold ind_at, StripType in *. change (map ?f ?l) with (f <$> l).
  rewrite list_lookup_fmap. destruct (strip !! i); reflexivity.
Qed.

(** The first three elements around position [k] of a strip give two
    consecutive lines; if the outer two are the same point, the two lines
    join the same two points. *)
Lemma segments_lookup (strip : StripType) (k : nat) :
  (S k < length strip)%nat ->
  segments strip !! k = Some (ind_at strip k, ind_at strip (S k)).
Proof.
  intros Hk. unfold segments. rewrite !ind_at_map.
  change (combine ?a ?b) with (zip a b).
  apply lookup_zip_with_Some.
  assert (Hlen : length (map r_ind strip) = length strip) by apply length_map.
  destruct (lookup_lt_is_Some_2 (map r_ind strip) k ltac:(lia)) as [a Ha].
  destruct (lookup_lt_is_Some_2 (map r_ind strip) (S k) ltac:(lia)) as [b Hb].
  exists a, b. rewrite Ha, Hb. simpl. split; [reflexivity |].
  split; [reflexivity |]. rewrite lookup_tail. exact Hb.
Qed.

Lemma no_return_in_fresh_lines (strip : StripType) (k : nat) :
  NoDup (map unordered (segments strip)) ->
  (k + 2 < length strip)%nat ->
  ind_at strip k <> ind_at strip (k + 2).
Proof.
  intros Hnd Hk Heq.
  pose proof (segments_lookup strip k ltac:(lia)) as H1.
  pose proof (segments_lookup strip (S k) ltac:(lia)) as H2.
  replace (S (S k)) with (k + 2)%nat in H2 by lia. rewrite <- Heq in H2.
  assert (E : (k = S k)%nat).
  { apply (NoDup_lookup _ k (S k) (unordered (ind_at strip k, ind_at strip (S k))) Hnd).
    - change (map ?f ?l) with (f <$> l). rewrite list_lookup_fmap.
      apply fmap_Some. eexists. split; [exact H1 | reflexivity].
    - change (map ?f ?l) with (f <$> l). rewrite list_lookup_fmap.
      apply fmap_Some. eexists. split; [exact H2 | apply unordered_swap]. }
  lia.
Qed.

(** A strip whose lines are all different has area and is no palindrome
    when it is odd (it has at least two elements). *)
Lemma fresh_lines_area (strip : StripType) :
  NoDup (map unordered (segments strip)) ->
  (2 <= length strip)%nat ->
  (length strip mod 2 = 1)%nat ->
  HasArea strip = true /\ ~ palindrome strip.
Proof.
  intros Hnd Hlen Hodd.
  assert (Hn : length strip = (2 * (length strip / 2 - 1) + 3)%nat).
  { pose proof (Nat.div_mod_eq (length strip) 2). unfold StripType in *.
    destruct (length strip / 2)%nat eqn:E; lia. }
  set (k := (length strip / 2 - 1)%nat) in *.
  pose proof (no_return_in_fresh_lines strip k Hnd ltac:(lia)) as Hne.
  split.
  - rewrite (HasArea_odd strip k Hn). apply Z.eqb_neq in Hne. rewrite Hne. reflexivity.
  - intros Hp. apply Hne. rewrite (Hp k) by lia. f_equal. lia.
Qed.

(** [HasArea] and the palindrome reading look at the index sequence
    only, and both read a strip backwards as they read it forwards. *)
Lemma same_inds_same_reading (strip built : StripType) :
  map r_ind strip = map r_ind built \/ map r_ind strip = rev (map r_ind built) ->
  length strip = length built
  /\ HasArea strip = HasArea built
  /\ (palindrome strip <-> palindrome built).
Proof.
  intros H.
  assert (Hlen : length strip = length built).
  { destruct H as [H | H]; apply (f_equal (@length _)) in H;
      rewrite ?length_rev, !length_map in H; exact H. }
  assert (Hind : (forall i, ind_at strip i = ind_at built i)
                 \/ (forall i, (i < length built)%nat ->
                       ind_at strip i = ind_at built (length built - 1 - i))).
  { destruct H as [H | H]; [left | right]; intros i; rewrite !ind_at_map, H.
    - reflexivity.
    - intros Hi. rewrite rev_reverse, reverse_lookup by (rewrite length_map; exact Hi).
      rewrite length_map. f_equal. f_equal. lia. }
  split; [exact Hlen |]. split.
  - destruct (Nat.Even_or_Odd (length built)) as [[h Hh] | [h Hh]].
    + rewrite (HasArea_even built h Hh), (HasArea_even strip h); [reflexivity | lia].
    + destruct h as [| k].
      * unfold HasArea. rewrite Hlen, Hh. reflexivity.
      * rewrite (HasArea_odd built k), (HasArea_odd strip k) by lia.
        destruct Hind as [Hind | Hind].
        -- rewrite !Hind. reflexivity.
        -- rewrite !Hind by lia.
           replace (length built - 1 - k)%nat with (k + 2)%nat by lia.
           replace (length built - 1 - (k + 2))%nat with k by lia.
           rewrite Z.eqb_sym. reflexivity.
  - unfold palindrome. rewrite Hlen. destruct Hind as [Hind | Hind].
    + split; intros Hp i Hi; [rewrite <- !Hind | rewrite !Hind]; apply Hp, Hi.
    + split; intros Hp i Hi.
      * specialize (Hp (length built - 1 - i)%nat ltac:(lia)).
        rewrite !Hind in Hp by lia.
        replace (length built - 1 - (length built - 1 - i))%nat with i in Hp by lia.
        replace (length built - 1 - (length built - 1 - (length built - 1 - i)))%nat
          with (length built - 1 - i)%nat in Hp by lia.
        exact Hp.
      * rewrite !Hind by lia.
        replace (length built - 1 - (length built - 1 - i))%nat with i by lia.
        symmetry. apply Hp. exact Hi.
Qed.

(** What strip assembly and [CompleteStrips] leave for a polygon whose
    lines went through [RemoveDuplicates]: a strip is a doubled chain, or
    no two of its lines join the same two points. *)
Lemma built_strip_cases (dflt : StripPt) (cl : vtkPolyData) (lines : IdsType)
      (pStrips pStrips' : PStrips) (built : StripType) :
  BuildStrips_poly dflt cl (RemoveDuplicates cl lines) pStrips = Some pStrips' ->
  In built (ps_strips pStrips') ->
  (palindrome built /\ HasArea built = false)
  \/ (NoDup (map unordered (segments built)) /\ (2 <= length built)%nat).
Proof.
  unfold BuildStrips_poly. intros H Hin.
  destruct (AssembleStrips cl (ps_pts pStrips) (RemoveDuplicates cl lines))
    as [strips |] eqn:Ha; [| discriminate].
  simpl in H. injection H as <-.
  destruct (CompleteStrips_unfold dflt (mkPStrips (ps_poly pStrips) (ps_pts pStrips) strips))
    as (pts' & Hc & _).
  rewrite Hc in Hin. simpl in Hin. apply in_map_iff in Hin as (s & <- & Hs).
  destruct (completed_cases dflt (ps_pts pStrips) s) as [-> | (Hlen & Hm & Hn & _)].
  - right. unfold AssembleStrips in Ha.
    destruct (assemble_spec _ _ _ _ _ Ha (le_n _)) as (Hperm & Hshape & _).
    apply list_elem_of_In, list_elem_of_lookup in Hs as [k Hk].
    split; [| apply (Hshape k s Hk)].
    assert (Hnd : NoDup (concat (map (fun s => map unordered (segments s)) strips))).
    { rewrite Hperm. rewrite RemoveDuplicates_keep_first.
      unfold assembly_lines. rewrite map_map.
      apply (keep_first_distinct cl [] lines). }
    clear - Hnd Hk. revert k Hk. induction strips as [| t strips IH]; intros k Hk.
    + rewrite lookup_nil in Hk. discriminate.
    + simpl in Hnd. apply NoDup_app in Hnd as (Ht & _ & Hrest).
      destruct k as [| k]; simpl in Hk.
      * injection Hk as <-. exact Ht.
      * apply (IH Hrest k Hk).
  - left. pose proof (mirrored_palindrome _ Hm) as Hp. split; [exact Hp |].
    apply (palindrome_no_area _ (length s - 2)); [| exact Hp].
    unfold StripType in *. lia.
Qed.

(** C2. On every strip that [HasArea] is asked about, and that has an odd
    number of elements, it answers [false] exactly when the index
    sequence is a palindrome. Such a strip is one that [GetPolyStrips]
    built for a polygon: assembled from the polygon's lines after
    [RemoveDuplicates] and passed through [CompleteStrips]; before
    [HasArea] sees it, it may have been turned round and its members
    other than [ind] set, which changes neither answer. *)
Theorem HasArea_false_iff_palindrome
        (dflt : StripPt) (cl : vtkPolyData) (lines : IdsType)
        (pStrips pStrips' : PStrips) (built strip : StripType) :
  BuildStrips_poly dflt cl (RemoveDuplicates cl lines) pStrips = Some pStrips' ->
  In built (ps_strips pStrips') ->
  map r_ind strip = map r_ind built \/ map r_ind strip = rev (map r_ind built) ->
  (length strip mod 2 = 1)%nat ->
  (HasArea strip = false <-> palindrome strip).
Proof.
  intros Hb Hin Hsame Hodd.
  destruct (same_inds_same_reading strip built Hsame) as (Hlen & -> & ->).
  rewrite Hlen in Hodd.
  destruct (built_strip_cases dflt cl lines pStrips pStrips' built Hb Hin)
    as [[Hp Ha] | [Hnd Hl]].
  - tauto.
  - destruct (fresh_lines_area built Hnd Hl Hodd) as [Ha Hnp].
    rewrite Ha. split; [discriminate | contradiction].
Qed.

(** The polygon of [sample_chain]: the loose line from 3 to 4 is doubled
    into 4, 3, 4, which reads the same both ways and has no area. *)
Lemma HasArea_false_iff_palindrome_witness :
  HasArea (strip_of 0 [4; 3; 4]) = false <-> palindrome (strip_of 0 [4; 3; 4]).
Proof.
  apply (HasArea_false_iff_palindrome (sample_pt 0 0 Capt_Not) sample_ring [0; 1; 3]
           sample_chain_start sample_chain_completed
           (strip_of 0 [4; 3; 4]) (strip_of 0 [4; 3; 4])).
  - vm_compute. reflexivity.
  - left. reflexivity.
  - left. reflexivity.
  - reflexivity.
Defined.

(** ** GetStripPoints *)

Lemma emplace_lookup {V} (k : Z) (v : V) (m : gmap Z V) (j : Z) :
  emplace k v m !! j
  = match m !! j with
    | Some x => Some x
    | None => if decide (j = k) then Some v else None
    end.
Proof.
  unfold emplace. destruct (m !! k) as [x |] eqn:E.
  - destruct (m !! j) as [y |] eqn:Ej; [reflexivity |].
    destruct (decide (j = k)) as [-> | Hne]; [congruence | reflexivity].
  - destruct (decide (j = k)) as [-> | Hne].
    + rewrite lookup_insert_eq, E. reflexivity.
    + rewrite lookup_insert_ne by congruence. destruct (m !! j); reflexivity.
Qed.

Lemma fold_emplace_lookup {V W} (f : Z -> W -> V) (l : list (Z * W)) (m : gmap Z V) (j : Z) :
  fold_left (fun (m : gmap Z V) (e : Z * W) => emplace e.1 (f e.1 e.2) m) l m !! j
  = match m !! j with
    | Some x => Some x
    | None => f j <$> (list_to_map l : gmap Z W) !! j
    end.
Proof.
  revert m. induction l as [| [k w] l IH]; intros m; simpl.
  - rewrite lookup_empty. destruct (m !! j); reflexivity.
  - rewrite IH, emplace_lookup. destruct (m !! j) as [x |]; [reflexivity |].
    destruct (decide (j = k)) as [-> | Hne].
    + rewrite lookup_insert_eq. reflexivity.
    + rewrite lookup_insert_ne by congruence. reflexivity.
Qed.

Lemma count_up_lookup (k : Z) (links : gmap Z Z) (j : Z) :
  default 0 (count_up k links !! j)
  = default 0 (links !! j) + (if decide (k = j) then 1 else 0).
Proof.
  unfold count_up. destruct (decide (k = j)) as [-> | Hne].
  - rewrite lookup_insert_eq. reflexivity.
  - rewrite lookup_insert_ne by exact Hne. lia.
Qed.

Section GetStripPointsFacts.

Variable StripPt_new : StripPt.
Variable cl : vtkPolyData.

Lemma collect_ends_spec sources lines :
  forall (acc : gmap Z vtkIdType * gmap Z Z) (k : Z),
    let r := fold_left
               (fun (acc : gmap Z vtkIdType * gmap Z Z) lineId =>
                  let a := lineA cl lineId in
                  let b := lineB cl lineId in
                  let src := GetTypedComponent sources lineId in
                  (emplace b src.2 (emplace a src.1 acc.1), count_up b (count_up a acc.2)))
               lines acc in
    (is_Some (r.1 !! k) <-> is_Some (acc.1 !! k) \/ In k (line_ends cl lines))
    /\ default 0 (r.2 !! k)
       = default 0 (acc.2 !! k) + Z.of_nat (count_occ Z.eq_dec (line_ends cl lines) k).
Proof.
  induction lines as [| i lines IH]; intros acc k; simpl.
  - split; [tauto | lia].
  - destruct (IH (emplace (lineB cl i) (GetTypedComponent sources i).2
                          (emplace (lineA cl i) (GetTypedComponent sources i).1 acc.1),
                  count_up (lineB cl i) (count_up (lineA cl i) acc.2)) k) as [H1 H2].
    simpl in H1, H2. split.
    + rewrite H1, !emplace_lookup.
      destruct (acc.1 !! k) as [x |]; [split; eauto |].
      destruct (decide (k = lineA cl i)) as [-> | Ha].
      { split; [auto | eauto]. }
      destruct (decide (k = lineB cl i)) as [-> | Hb].
      { split; [auto | eauto]. }
      split; intros [[x Hx] | H]; try discriminate; auto.
      destruct H as [H | [H | H]]; [congruence | congruence | auto].
    + rewrite H2, !count_up_lookup.
      repeat case_decide;
        destruct (Z.eq_dec (lineA cl i) k); destruct (Z.eq_dec (lineB cl i) k);
        try contradiction; lia.
Qed.

Lemma tag_of_is_Some sources lines k :
  is_Some (tag_of cl sources lines k) <-> In k (line_ends cl lines).
Proof.
  unfold tag_of, collect_ends.
  destruct (collect_ends_spec sources lines (∅, ∅) k) as [H _]. simpl in H.
  rewrite H, lookup_empty. split; [intros [[x Hx] | Hin]; [discriminate | exact Hin] | auto].
Qed.

Lemma links_count sources lines k :
  default 0 ((collect_ends cl sources lines).2 !! k) = ends_at_point cl lines k.
Proof.
  destruct (collect_ends_spec sources lines (∅, ∅) k) as [_ H]. simpl in H.
  rewrite lookup_empty in H. simpl in H. exact H.
Qed.

(** The inner loop. *)
Lemma try_edge_spec pd source sp e :
  try_edge pd source sp e
  = if hit pd source (sp_pt sp) e
    then try_edge pd source sp e
    else sp.
Proof.
  unfold hit, eligible, try_edge.
  destruct (source =? NOTSET); simpl; [destruct (accepts pd (sp_pt sp) e); reflexivity |].
  destruct (e.1 =? source); simpl; [destruct (accepts pd (sp_pt sp) e); reflexivity |].
  reflexivity.
Qed.

Lemma try_edge_hit pd source sp e :
  hit pd source (sp_pt sp) e = true ->
  exists t captPt capt,
    try_edge pd source sp e = captured sp e t captPt capt
    /\ Capt_Boundary capt = true.
Proof.
  unfold hit, eligible, try_edge. intros H.
  apply andb_true_iff in H as [He Ha]. rewrite Ha.
  replace (negb (source =? NOTSET) && negb (e.1 =? source)) with false
    by (destruct (source =? NOTSET), (e.1 =? source); simpl in *; congruence).
  destruct (Norm (Subtract (GetPoint pd e.1) (sp_pt sp)) <? tol)%float; [eauto 10 |].
  destruct (Norm (Subtract (GetPoint pd e.2) (sp_pt sp)) <? tol)%float; eauto 10.
Qed.

(** The strip point a loop over some edges leaves: the members that no
    edge writes are as before; if no edge is hit nothing has changed,
    otherwise the edge stored is one that is hit and the capture is on
    the boundary. *)
Lemma try_edges_spec pd source edges : forall sp,
  let r := fold_left (try_edge pd source) edges sp in
  sp_ind r = sp_ind sp /\ sp_polyId r = sp_polyId sp /\ sp_pt r = sp_pt sp
  /\ sp_cutPt r = sp_cutPt sp /\ sp_catched r = sp_catched sp
  /\ (existsb (hit pd source (sp_pt sp)) edges = false /\ r = sp
      \/ exists e, In e edges /\ hit pd source (sp_pt sp) e = true
                   /\ sp_edge r = e /\ Capt_Boundary (sp_capt r) = true).
Proof.
  induction edges as [| e edges IH]; intros sp; simpl.
  - repeat split; auto.
  - destruct (IH (try_edge pd source sp e)) as (H1 & H2 & H3 & H4 & H5 & H6).
    assert (Hkeep : sp_ind (try_edge pd source sp e) = sp_ind sp
                    /\ sp_polyId (try_edge pd source sp e) = sp_polyId sp
                    /\ sp_pt (try_edge pd source sp e) = sp_pt sp
                    /\ sp_cutPt (try_edge pd source sp e) = sp_cutPt sp
                    /\ sp_catched (try_edge pd source sp e) = sp_catched sp).
    { rewrite try_edge_spec. destruct (hit pd source (sp_pt sp) e) eqn:Hh; [| auto].
      destruct (try_edge_hit pd source sp e Hh) as (t & c & k & -> & _). auto. }
    destruct Hkeep as (K1 & K2 & K3 & K4 & K5).
    rewrite K3 in H6.
    split; [congruence |]. split; [congruence |]. split; [congruence |].
    split; [congruence |]. split; [congruence |].
    destruct H6 as [[Hnone Hr] | (e' & Hin & Hh & Hedge & Hb)].
    + destruct (hit pd source (sp_pt sp) e) eqn:Hh; simpl.
      * right. exists e. split; [left; reflexivity |]. split; [exact Hh |].
        rewrite Hr. destruct (try_edge_hit pd source sp e Hh) as (t & c & k & -> & Hk).
        auto.
      * left. split; [exact Hnone |]. rewrite Hr, try_edge_spec, Hh. reflexivity.
    + right. exists e'. auto.
Qed.

(** The strip point stored for a contact point. *)
Lemma GetStripPoints_lookup pd sources (pStrips : PStrips) lines k :
  ps_pts (GetStripPoints StripPt_new cl pd sources pStrips lines) !! k
  = snap (ps_poly pStrips)
    <$> match ps_pts pStrips !! k with
        | Some sp => Some sp
        | None =>
            locate StripPt_new cl pd (ps_poly pStrips) (collect_ends cl sources lines).2 k
            <$> tag_of cl sources lines k
        end.
Proof.
  unfold GetStripPoints, tag_of.
  destruct (collect_ends cl sources lines) as [allPts links]. simpl.
  rewrite lookup_fmap. f_equal.
  rewrite (fold_emplace_lookup (locate StripPt_new cl pd (ps_poly pStrips) links)).
  rewrite list_to_map_entries. reflexivity.
Qed.

Lemma GetStripPoints_frame pd sources (pStrips : PStrips) lines :
  ps_poly (GetStripPoints StripPt_new cl pd sources pStrips lines) = ps_poly pStrips
  /\ ps_strips (GetStripPoints StripPt_new cl pd sources pStrips lines) = ps_strips pStrips.
Proof.
  unfold GetStripPoints. destruct (collect_ends cl sources lines). auto.
Qed.

Lemma snap_keeps poly sp :
  sp_ind (snap poly sp) = sp_ind sp /\ sp_pt (snap poly sp) = sp_pt sp
  /\ sp_polyId (snap poly sp) = sp_polyId sp /\ sp_catched (snap poly sp) = sp_catched sp
  /\ sp_captPt (snap poly sp) = sp_captPt sp.
Proof.
  unfold snap. destruct (Capt_Boundary (sp_capt sp)); [| auto].
  destruct (Capt_eqb (sp_capt sp) Capt_B); auto.
Qed.

Lemma snap_capt poly sp :
  sp_capt (snap poly sp) = if Capt_eqb (sp_capt sp) Capt_B then Capt_A else sp_capt sp.
Proof. destruct sp as [i pid p cp cutp t c e ca]. destruct c; reflexivity. Qed.

Lemma snap_cutPt poly sp :
  sp_cutPt (snap poly sp)
  = if Capt_Boundary (sp_capt (snap poly sp)) then sp_captPt (snap poly sp)
    else sp_pt (snap poly sp).
Proof. destruct sp as [i pid p cp cutp t c e ca]. destruct c; reflexivity. Qed.

Lemma snap_edge poly sp :
  sp_edge (snap poly sp)
  = if Capt_eqb (sp_capt sp) Capt_B
    then ((sp_edge sp).2, next_in_ring poly (sp_edge sp).2)
    else sp_edge sp.
Proof. destruct sp as [i pid p cp cutp t c e ca]. destruct c; reflexivity. Qed.

(** One round of the loop over [allPts]. *)
Lemma locate_spec pd poly links ind source :
  let sp := locate StripPt_new cl pd poly links ind source in
  sp_ind sp = ind /\ sp_pt sp = GetPoint cl ind
  /\ (existsb (hit pd source (GetPoint cl ind)) (ring_edges poly) = false
      /\ sp_edge sp = sp_edge StripPt_new
      /\ sp_capt sp = (if Capt_eqb (sp_capt StripPt_new) Capt_Not
                          && (2 <? default 0 (links !! ind))
                       then Capt_Branched else sp_capt StripPt_new)
      /\ sp_catched sp = (if negb (source =? NOTSET) && ((sp_edge StripPt_new).1 =? NOTSET)
                          then false else sp_catched StripPt_new)
      \/ exists e, In e (ring_edges poly) /\ hit pd source (GetPoint cl ind) e = true
                   /\ sp_edge sp = e /\ Capt_Boundary (sp_capt sp) = true
                   /\ sp_catched sp = (if negb (source =? NOTSET) && (e.1 =? NOTSET)
                                       then false else sp_catched StripPt_new)).
Proof.
  unfold locate.
  set (sp0 := mkStripPt ind (sp_polyId StripPt_new) (GetPoint cl ind)
                        (sp_captPt StripPt_new) (sp_cutPt StripPt_new) (sp_t StripPt_new)
                        (sp_capt StripPt_new) (sp_edge StripPt_new) (sp_catched StripPt_new)).
  destruct (try_edges_spec pd source (ring_edges poly) sp0) as (H1 & _ & H3 & _ & H5 & H6).
  set (sp1 := fold_left (try_edge pd source) (ring_edges poly) sp0) in *.
  simpl in H1, H3, H5, H6.
  set (sp2 := if negb (source =? NOTSET) && ((sp_edge sp1).1 =? NOTSET)
              then set_catched sp1 false else sp1).
  assert (K : sp_ind sp2 = ind /\ sp_pt sp2 = GetPoint cl ind /\ sp_edge sp2 = sp_edge sp1
              /\ sp_capt sp2 = sp_capt sp1
              /\ sp_catched sp2 = (if negb (source =? NOTSET) && ((sp_edge sp1).1 =? NOTSET)
                                   then false else sp_catched StripPt_new)).
  { unfold sp2. destruct (negb (source =? NOTSET) && ((sp_edge sp1).1 =? NOTSET)); simpl; auto. }
  destruct K as (K1 & K2 & K3 & K4 & K5).
  cbv zeta.
  assert (L : forall sp3,
             sp3 = (if Capt_eqb (sp_capt sp2) Capt_Not && (2 <? default 0 (links !! ind))
                    then set_capt sp2 Capt_Branched else sp2) ->
             sp_ind sp3 = ind /\ sp_pt sp3 = GetPoint cl ind /\ sp_edge sp3 = sp_edge sp1
             /\ sp_catched sp3 = sp_catched sp2
             /\ sp_capt sp3 = (if Capt_eqb (sp_capt sp1) Capt_Not
                                  && (2 <? default 0 (links !! ind))
                               then Capt_Branched else sp_capt sp1)).
  { intros sp3 ->. rewrite <- K4.
    destruct (Capt_eqb (sp_capt sp2) Capt_Not && (2 <? default 0 (links !! ind))); simpl; auto. }
  destruct (L _ eq_refl) as (L1 & L2 & L3 & L4 & L5).
  split; [exact L1 |]. split; [exact L2 |].
  destruct H6 as [[Hnone Hr] | (e & Hin & Hh & Hedge & Hb)].
  - left. split; [exact Hnone |]. rewrite L3, L4, L5, K5, Hr. simpl. auto.
  - right. exists e. split; [exact Hin |]. split; [exact Hh |].
    rewrite L3, L4, L5, K5, Hedge. split; [reflexivity |]. split; [| reflexivity].
    destruct (sp_capt sp1); simpl in *; try discriminate; reflexivity.
Qed.

(** The ring edge that starts at a vertex. *)
Lemma index_of_In (x : vtkIdType) (poly : list vtkIdType) :
  In x poly -> (index_of x poly < length poly)%nat /\ poly !! index_of x poly = Some x.
Proof.
  induction poly as [| y poly IH]; intros H; [destruct H |]. simpl.
  destruct (Z.eqb_spec y x) as [-> | Hne]; [split; [lia | reflexivity] |].
  destruct H as [H | H]; [contradiction |].
  destruct (IH H) as [H1 H2]. split; [lia | exact H2].
Qed.

Lemma ring_edges_next (poly : list vtkIdType) x :
  In x poly -> In (x, next_in_ring poly x) (ring_edges poly).
Proof.
  intros Hx. destruct (index_of_In x poly Hx) as [Hlt Hj].
  unfold next_in_ring, ring_edges, GetId.
  destruct poly as [| first rest]; [destruct Hx |].
  set (j := index_of x (first :: rest)) in *.
  apply list_elem_of_In, list_elem_of_lookup. exists j.
  change (combine ?a ?b) with (zip a b).
  apply lookup_zip_with_Some. exists x.
  eexists. split; [reflexivity |]. split; [exact Hj |].
  rewrite nth_lookup. simpl in Hlt.
  destruct (Nat.eqb_spec (j + 1) (length (first :: rest))) as [Hend | Hmid].
  - simpl in Hend. rewrite lookup_app_r by lia.
    replace (j - length rest)%nat with 0%nat by lia. reflexivity.
  - simpl in Hmid. rewrite lookup_app_l by lia.
    replace (j + 1)%nat with (S j) by lia. simpl.
    destruct (rest !! j) eqn:E; [reflexivity |].
    apply lookup_ge_None in E. lia.
Qed.

Lemma ring_edges_In (poly : list vtkIdType) e :
  In e (ring_edges poly) -> In e.1 poly /\ In e.2 poly.
Proof.
  unfold ring_edges. destruct poly as [| first rest]; [intros [] |]. intros H.
  destruct e as [a b]. split.
  - apply (in_combine_l _ _ _ _ H).
  - apply in_combine_r in H. apply in_app_iff in H as [H | [<- | []]];
      [right; exact H | left; reflexivity].
Qed.

Lemma GetStripPoints_dom pd sources (pStrips : PStrips) lines k :
  is_Some (ps_pts (GetStripPoints StripPt_new cl pd sources pStrips lines) !! k)
  <-> is_Some (ps_pts pStrips !! k) \/ In k (line_ends cl lines).
Proof.
  rewrite GetStripPoints_lookup, <- (tag_of_is_Some sources lines k).
  destruct (ps_pts pStrips !! k) as [sp |]; simpl.
  - split; eauto.
  - destruct (tag_of cl sources lines k); simpl.
    + split; eauto.
    + split; [intros [x Hx]; discriminate | intros [[x Hx] | [x Hx]]; discriminate].
Qed.

Lemma GetStripPoints_own pd sources (pStrips : PStrips) lines k sp :
  ps_pts (GetStripPoints StripPt_new cl pd sources pStrips lines) !! k = Some sp ->
  ps_pts pStrips !! k = None ->
  sp_ind sp = k /\ sp_pt sp = GetPoint cl k.
Proof.
  intros Hsp Hnone. rewrite GetStripPoints_lookup, Hnone in Hsp.
  destruct (tag_of cl sources lines k) as [src |]; simpl in Hsp; [| discriminate].
  injection Hsp as <-.
  destruct (snap_keeps (ps_poly pStrips)
              (locate StripPt_new cl pd (ps_poly pStrips)
                      (collect_ends cl sources lines).2 k src)) as (-> & -> & _).
  destruct (locate_spec pd (ps_poly pStrips) (collect_ends cl sources lines).2 k src)
    as (H1 & H2 & _).
  auto.
Qed.

Lemma GetStripPoints_keyed pd sources (pStrips : PStrips) lines :
  keyed (ps_pts pStrips) ->
  keyed (ps_pts (GetStripPoints StripPt_new cl pd sources pStrips lines)).
Proof.
  intros Hk k sp Hsp.
  destruct (ps_pts pStrips !! k) as [sp0 |] eqn:E.
  - rewrite GetStripPoints_lookup, E in Hsp. simpl in Hsp. injection Hsp as <-.
    destruct (snap_keeps (ps_poly pStrips) sp0) as (-> & _). apply (Hk k sp0 E).
  - apply (GetStripPoints_own pd sources pStrips lines k sp Hsp E).
Qed.

(** X16. [GetStripPoints] adds a strip point for every end of the given
    lines and for nothing else: the ring and the strips of the bundle are
    as before, a contact point has a strip point afterwards exactly when
    it had one or is an end of a line, and a strip point made here is
    stored under its own index with the coordinates of its contact
    point. *)
Theorem GetStripPoints_keys
  (pd : vtkPolyData) (sources : list (vtkIdType * vtkIdType)) (pStrips : PStrips)
  (lines : IdsType) :
  let pStrips' := GetStripPoints StripPt_new cl pd sources pStrips lines in
  ps_poly pStrips' = ps_poly pStrips
  /\ ps_strips pStrips' = ps_strips pStrips
  /\ (forall k, is_Some (ps_pts pStrips' !! k)
                <-> is_Some (ps_pts pStrips !! k) \/ In k (line_ends cl lines))
  /\ (forall k sp, ps_pts pStrips' !! k = Some sp -> ps_pts pStrips !! k = None ->
         sp_ind sp = k /\ sp_pt sp = GetPoint cl k).
Proof.
  intros pStrips'. subst pStrips'.
  destruct (GetStripPoints_frame pd sources pStrips lines) as [-> ->].
  split; [reflexivity |]. split; [reflexivity |]. split.
  - apply GetStripPoints_dom.
  - apply GetStripPoints_own.
Qed.

(** X18. How [GetStripPoints] classifies a new contact point: its
    capture lies on the boundary exactly when one of the edges tried for
    its tag accepts it; otherwise it is [Branched] when more than two
    line ends meet at the point and [Not] when at most two do. No capture
    is left as [B], and [cutPt] is [captPt] for a boundary capture and
    [pt] otherwise. (The default constructor is taken to set the capture
    [Not].) *)
Theorem GetStripPoints_classification
  (pd : vtkPolyData) (sources : list (vtkIdType * vtkIdType)) (pStrips : PStrips)
  (lines : IdsType) (k src : vtkIdType) (sp : StripPt) :
  sp_capt StripPt_new = Capt_Not ->
  ps_pts pStrips !! k = None ->
  tag_of cl sources lines k = Some src ->
  ps_pts (GetStripPoints StripPt_new cl pd sources pStrips lines) !! k = Some sp ->
  let caught := existsb (hit pd src (GetPoint cl k)) (ring_edges (ps_poly pStrips)) in
  Capt_Boundary (sp_capt sp) = caught
  /\ (sp_capt sp = Capt_Branched <-> caught = false /\ 2 < ends_at_point cl lines k)
  /\ (sp_capt sp = Capt_Not <-> caught = false /\ ends_at_point cl lines k <= 2)
  /\ sp_capt sp <> Capt_B
  /\ sp_cutPt sp = (if Capt_Boundary (sp_capt sp) then sp_captPt sp else sp_pt sp).
Proof.
  intros Hnew Hnone Htag Hsp caught.
  rewrite GetStripPoints_lookup, Hnone, Htag in Hsp. simpl in Hsp. injection Hsp as <-.
  set (lsp := locate StripPt_new cl pd (ps_poly pStrips) (collect_ends cl sources lines).2 k src).
  rewrite snap_cutPt, snap_capt.
  destruct (locate_spec pd (ps_poly pStrips) (collect_ends cl sources lines).2 k src)
    as (_ & _ & [(Hnone' & _ & Hc & _) | (e & Hin & Hh & _ & Hb & _)]);
    fold lsp in Hc || fold lsp in Hb.
  - fold caught in Hnone'. rewrite Hnone'.
    rewrite Hnew, links_count in Hc. simpl in Hc. rewrite Hc.
    destruct (Z.ltb_spec 2 (ends_at_point cl lines k)); simpl;
      repeat split; try discriminate; try reflexivity; try lia;
      intros; try discriminate; try lia; tauto.
  - assert (Hcaught : caught = true).
    { apply existsb_exists. exists e. auto. }
    rewrite Hcaught.
    destruct (sp_capt lsp); simpl in *; try discriminate;
      repeat split; try discriminate; try reflexivity; intros H; try discriminate;
      destruct H; discriminate.
Qed.

(** X19. The edge of a boundary capture is an edge of the ring: for a
    new contact point that [GetStripPoints] captures on the boundary, the
    stored edge runs from a vertex of the ring to the vertex after it.
    (The default constructor is taken to set the capture [Not].) *)
Theorem GetStripPoints_edge_on_ring
  (pd : vtkPolyData) (sources : list (vtkIdType * vtkIdType)) (pStrips : PStrips)
  (lines : IdsType) (k : vtkIdType) (sp : StripPt) :
  sp_capt StripPt_new = Capt_Not ->
  ps_pts pStrips !! k = None ->
  ps_pts (GetStripPoints StripPt_new cl pd sources pStrips lines) !! k = Some sp ->
  Capt_Boundary (sp_capt sp) = true ->
  In (sp_edge sp) (ring_edges (ps_poly pStrips)).
Proof.
  intros Hnew Hnone Hsp Hb.
  rewrite GetStripPoints_lookup, Hnone in Hsp.
  destruct (tag_of cl sources lines k) as [src |]; simpl in Hsp; [| discriminate].
  injection Hsp as <-.
  set (lsp := locate StripPt_new cl pd (ps_poly pStrips) (collect_ends cl sources lines).2 k src)
    in *.
  rewrite snap_capt in Hb. rewrite snap_edge.
  destruct (locate_spec pd (ps_poly pStrips) (collect_ends cl sources lines).2 k src)
    as (_ & _ & [(_ & _ & Hc & _) | (e & Hin & _ & He & _)]); fold lsp in Hc || fold lsp in He.
  - rewrite Hnew in Hc. simpl in Hc. rewrite Hc in Hb.
    destruct (2 <? default 0 ((collect_ends cl sources lines).2 !! k)); discriminate.
  - rewrite He. destruct (Capt_eqb (sp_capt lsp) Capt_B); [| exact Hin].
    apply ring_edges_next, (ring_edges_In _ e Hin).
Qed.

(** X20. When a new contact point is left as not caught: exactly when it
    carries a tag and none of the edges tried for the tag accepts it.
    (The default constructor is taken to set [catched] and to leave the
    edge at [NOTSET]; no vertex of the ring is [NOTSET].) *)
Theorem GetStripPoints_catched
  (pd : vtkPolyData) (sources : list (vtkIdType * vtkIdType)) (pStrips : PStrips)
  (lines : IdsType) (k src : vtkIdType) (sp : StripPt) :
  sp_edge StripPt_new = (NOTSET, NOTSET) ->
  sp_catched StripPt_new = true ->
  Forall (fun v => v <> NOTSET) (ps_poly pStrips) ->
  ps_pts pStrips !! k = None ->
  tag_of cl sources lines k = Some src ->
  ps_pts (GetStripPoints StripPt_new cl pd sources pStrips lines) !! k = Some sp ->
  (sp_catched sp = false
   <-> src <> NOTSET
       /\ existsb (hit pd src (GetPoint cl k)) (ring_edges (ps_poly pStrips)) = false).
Proof.
  intros Hedge Hcatched Hpoly Hnone Htag Hsp.
  rewrite GetStripPoints_lookup, Hnone, Htag in Hsp. simpl in Hsp. injection Hsp as <-.
  set (lsp := locate StripPt_new cl pd (ps_poly pStrips) (collect_ends cl sources lines).2 k src).
  destruct (snap_keeps (ps_poly pStrips) lsp) as (_ & _ & _ & -> & _).
  destruct (locate_spec pd (ps_poly pStrips) (collect_ends cl sources lines).2 k src)
    as (_ & _ & [(Hno & _ & _ & Hc) | (e & Hin & Hh & _ & _ & Hc)]); fold lsp in Hc.
  - rewrite Hno, Hc, Hedge, Hcatched. simpl.
    destruct (Z.eqb_spec src NOTSET) as [Heq | Hne]; simpl.
    + split; [discriminate | intros [H _]; contradiction].
    + split; [intros _; split; [exact Hne | reflexivity] | reflexivity].
  - assert (Hcaught : existsb (hit pd src (GetPoint cl k)) (ring_edges (ps_poly pStrips)) = true).
    { apply existsb_exists. exists e. auto. }
    rewrite Hcaught, Hc, Hcatched.
    assert (He : (e.1 =? NOTSET) = false).
    { apply Z.eqb_neq. rewrite List.Forall_forall in Hpoly. apply Hpoly.
      apply (ring_edges_In _ e Hin). }
    rewrite He, andb_false_r. split; [discriminate | intros [_ H]; discriminate].
Qed.

End GetStripPointsFacts.

Lemma In_line_ends cl lines i :
  In i lines -> In (lineA cl i) (line_ends cl lines) /\ In (lineB cl i) (line_ends cl lines).
Proof.
  intros H. unfold line_ends. split; apply in_flat_map; exists i; simpl; auto.
Qed.

(** X17. One polygon through [GetPolyStrips]: on a bundle whose strip
    points are stored under their own index (none, as a rule),
    [GetStripPoints] followed by strip assembly and [CompleteStrips] never
    throws; the strip points are those of [GetStripPoints], still stored
    under their own index, and every strip with an end of capture [Not]
    begins and ends at the same contact point. *)
Theorem GetPolyStrips_poly_builds
  (StripPt_new : StripPt) (cl pd : vtkPolyData) (sources : list (vtkIdType * vtkIdType))
  (pStrips : PStrips) (lines : IdsType) :
  keyed (ps_pts pStrips) ->
  let located := GetStripPoints StripPt_new cl pd sources pStrips lines in
  exists pStrips',
    BuildStrips_poly StripPt_new cl lines located = Some pStrips'
    /\ ps_pts pStrips' = ps_pts located
    /\ keyed (ps_pts pStrips')
    /\ forall strip f b,
         In strip (ps_strips pStrips') -> head strip = Some f -> last strip = Some b ->
         capture_at (ps_pts pStrips') f = Some Capt_Not
         \/ capture_at (ps_pts pStrips') b = Some Capt_Not ->
         r_ind f = r_ind b.
Proof.
  intros Hk located.
  pose proof (GetStripPoints_keyed StripPt_new cl pd sources pStrips lines Hk) as Hk'.
  fold located in Hk'.
  assert (Hin : lines_in (ps_pts located) (assembly_lines cl lines)).
  { apply List.Forall_forall. intros l Hl. unfold assembly_lines in Hl.
    apply in_map_iff in Hl as (i & <- & Hi). simpl.
    destruct (In_line_ends cl lines i Hi) as [Ha Hb].
    split; apply GetStripPoints_dom; auto. }
  destruct (assemble_total (ps_pts located) (length (assembly_lines cl lines))
                           (assembly_lines cl lines) 0 Hin) as [strips Hs].
  unfold BuildStrips_poly, AssembleStrips. rewrite Hs. simpl.
  destruct (assemble_spec _ _ _ _ _ Hs (le_n _)) as (_ & _ & _ & Hall).
  set (assembled := mkPStrips (ps_poly located) (ps_pts located) strips).
  assert (Hends : Forall (ends_in (ps_pts assembled)) (ps_strips assembled)).
  { simpl. eapply Forall_impl; [exact Hall |]. intros s. apply strip_in_ends_in. }
  destruct (CompleteStrips_unfold StripPt_new assembled) as (pts' & E & _ & _ & Hsame).
  specialize (Hsame Hends). subst pts'.
  exists (CompleteStrips StripPt_new assembled).
  split; [reflexivity |]. rewrite E. simpl.
  split; [reflexivity |]. split; [exact Hk' |].
  intros strip f b Hstrip Hf Hb Hfree.
  apply in_map_iff in Hstrip as (s & <- & Hs').
  rewrite List.Forall_forall in Hends.
  apply (completed_closed StripPt_new (ps_pts located) s f b); auto.
Qed.

Lemma GetPolyStrips_poly_builds_witness :
  exists pStrips',
    BuildStrips_poly sample_new sample_contact [0] sample_located = Some pStrips'
    /\ ps_pts pStrips' = ps_pts sample_located
    /\ keyed (ps_pts pStrips')
    /\ forall strip f b,
         In strip (ps_strips pStrips') -> head strip = Some f -> last strip = Some b ->
         capture_at (ps_pts pStrips') f = Some Capt_Not
         \/ capture_at (ps_pts pStrips') b = Some Capt_Not ->
         r_ind f = r_ind b.
Proof.
  apply (GetPolyStrips_poly_builds sample_new sample_contact sample_triangle
           [(NOTSET, NOTSET)] sample_fresh [0]).
  apply keyedb_keyed. vm_compute. reflexivity.
Defined.

Lemma GetStripPoints_classification_witness :
  exists sp,
    ps_pts sample_located !! 0 = Some sp
    /\ Capt_Boundary (sp_capt sp) = true
    /\ sp_capt sp <> Capt_B
    /\ sp_cutPt sp = sp_captPt sp.
Proof.
  exists (mkStripPt 0 NOTSET sample_C sample_C sample_C 0 Capt_A (0, 1) true).
  assert (Hsp : ps_pts sample_located !! 0
                = Some (mkStripPt 0 NOTSET sample_C sample_C sample_C 0 Capt_A (0, 1) true))
    by (vm_compute; reflexivity).
  split; [exact Hsp |].
  destruct (GetStripPoints_classification sample_new sample_contact sample_triangle
              [(NOTSET, NOTSET)] sample_fresh [0] 0 NOTSET _
              eq_refl eq_refl ltac:(vm_compute; reflexivity) Hsp)
    as (H1 & _ & _ & H4 & H5).
  split; [reflexivity |]. split; [exact H4 | exact H5].
Defined.

Lemma GetStripPoints_edge_on_ring_witness :
  In (0, 1) (ring_edges (ps_poly sample_fresh)).
Proof.
  apply (GetStripPoints_edge_on_ring sample_new sample_contact sample_triangle
           [(NOTSET, NOTSET)] sample_fresh [0] 0
           (mkStripPt 0 NOTSET sample_C sample_C sample_C 0 Capt_A (0, 1) true)).
  - reflexivity.
  - reflexivity.
  - vm_compute. reflexivity.
  - reflexivity.
Defined.

(** The first end of the contact line carries the tag 1, so that only
    the edge from vertex 1 to vertex 2 is tried; the point lies at vertex
    0, the edge does not accept it, and the point is left as not caught. *)
Lemma GetStripPoints_catched_witness :
  ps_pts (GetStripPoints sample_new sample_contact sample_triangle [(1, NOTSET)]
                         sample_fresh [0]) !! 0
  = Some sample_missed
  /\ sp_catched sample_missed = false
  /\ 1 <> NOTSET
  /\ existsb (hit sample_triangle 1 (GetPoint sample_contact 0))
             (ring_edges (ps_poly sample_fresh)) = false.
Proof.
  assert (Hsp : ps_pts (GetStripPoints sample_new sample_contact sample_triangle
                                       [(1, NOTSET)] sample_fresh [0]) !! 0
                = Some sample_missed) by (vm_compute; reflexivity).
  split; [exact Hsp |].
  assert (Hiff := GetStripPoints_catched sample_new sample_contact sample_triangle
                    [(1, NOTSET)] sample_fresh [0] 0 1 sample_missed
                    eq_refl eq_refl).
  assert (Hring : Forall (fun v => v <> NOTSET) (ps_poly sample_fresh))
    by (repeat constructor; discriminate).
  specialize (Hiff Hring eq_refl).
  assert (Htag : tag_of sample_contact [(1, NOTSET)] [0] 0 = Some 1)
    by (vm_compute; reflexivity).
  specialize (Hiff Htag Hsp).
  assert (Hright : 1 <> NOTSET
                   /\ existsb (hit sample_triangle 1 (GetPoint sample_contact 0))
                              (ring_edges (ps_poly sample_fresh)) = false).
  { split; [discriminate | vm_compute; reflexivity]. }
  split; [apply Hiff; exact Hright | exact Hright].
Defined.

(** ** DisjoinPolys *)

Lemma refs_replace_first (p id v : vtkIdType) (l : list vtkIdType) :
  p <> id ->
  count_occ Z.eq_dec (replace_first p id l) v
  = if decide (p ∈ l)
    then if decide (v = p) then (count_occ Z.eq_dec l v - 1)%nat
         else if decide (v = id) then S (count_occ Z.eq_dec l v)
              else count_occ Z.eq_dec l v
    else count_occ Z.eq_dec l v.
Proof.
  intros Hne. induction l as [| x l IH]; simpl.
  - destruct (decide (p ∈ [])) as [H | _]; [| reflexivity].
    apply not_elem_of_nil in H. contradiction.
  - destruct (Z.eqb_spec x p) as [-> | Hx].
    + destruct (decide (p ∈ p :: l)) as [_ | Hn];
        [| exfalso; apply Hn, elem_of_cons; left; reflexivity].
      simpl. destruct (Z.eq_dec id v) as [Hiv | Hiv]; destruct (Z.eq_dec p v) as [Hpv | Hpv];
        repeat case_decide; try congruence; try lia.
    + simpl. rewrite IH.
      destruct (decide (p ∈ l)) as [Hin | Hnin];
        destruct (decide (p ∈ x :: l)) as [Hor | Hnor];
        try (exfalso; apply Hnor, elem_of_cons; right; exact Hin);
        try (exfalso; apply elem_of_cons in Hor as [Hor | Hor]; congruence).
      * destruct (Z.eq_dec x v) as [Hxv | Hxv]; repeat case_decide; try congruence; try lia.
      * reflexivity.
Qed.

Lemma Cells_disjoin_cell p pt pd cell (i : nat) :
  Cells (disjoin_cell p pt pd cell) !! i
  = (fun c => if decide (0 <= cell /\ i = Z.to_nat cell)
              then mkCell (cellType c) (replace_first p (GetNumberOfPoints pd) (cellPts c))
              else c)
    <$> Cells pd !! i.
Proof.
  unfold disjoin_cell, InsertNextPoint, ReplaceCellPoint. simpl.
  destruct (Z.leb_spec 0 cell) as [Hc | Hc].
  - destruct (decide (i = Z.to_nat cell)) as [-> | Hne].
    + rewrite list_lookup_alter_eq.
      destruct (Cells pd !! Z.to_nat cell); simpl; [| reflexivity].
      destruct (decide (0 <= cell /\ Z.to_nat cell = Z.to_nat cell)); [reflexivity | tauto].
    + rewrite list_lookup_alter_ne by congruence.
      destruct (Cells pd !! i); simpl; [| reflexivity].
      destruct (decide (0 <= cell /\ i = Z.to_nat cell)); [tauto | reflexivity].
  - destruct (Cells pd !! i); simpl; [| reflexivity].
    destruct (decide (0 <= cell /\ i = Z.to_nat cell)); [lia | reflexivity].
Qed.

Lemma Points_disjoin_cell p pt pd cell :
  Points (disjoin_cell p pt pd cell) = Points pd ++ [pt]
  /\ OrigCellIds (disjoin_cell p pt pd cell) = OrigCellIds pd.
Proof. split; reflexivity. Qed.

(** What one [disjoin_cell] does to the references of every cell. *)
Lemma disjoin_cell_refs p pt pd cell (i : nat) c :
  p <> GetNumberOfPoints pd ->
  Cells pd !! i = Some c ->
  exists c',
    Cells (disjoin_cell p pt pd cell) !! i = Some c'
    /\ same_cell_shape c c'
    /\ (forall v, v <> p -> v <> GetNumberOfPoints pd -> refs c' v = refs c v)
    /\ (refs c' p <= refs c p)%nat
    /\ (refs c' (GetNumberOfPoints pd) <= refs c (GetNumberOfPoints pd) + 1)%nat
    /\ (i <> Z.to_nat cell -> c' = c)
    /\ (Z.of_nat i = cell -> refs c' p = (refs c p - 1)%nat).
Proof.
  intros Hne Hc. rewrite Cells_disjoin_cell, Hc. simpl. eexists. split; [reflexivity |].
  destruct (decide (0 <= cell /\ i = Z.to_nat cell)) as [[H0 Hi] | Hn].
  - unfold same_cell_shape, refs. simpl. rewrite length_replace_first.
    split; [auto |]. split.
    { intros v Hv1 Hv2. rewrite refs_replace_first by exact Hne.
      repeat case_decide; congruence. }
    split.
    { rewrite refs_replace_first by exact Hne. repeat case_decide; try congruence; lia. }
    split.
    { rewrite refs_replace_first by exact Hne. repeat case_decide; try congruence; lia. }
    split; [intros; contradiction |].
    intros _. rewrite refs_replace_first by exact Hne.
    pose proof (count_occ_not_In Z.eq_dec (cellPts c) p) as Hcnt.
    rewrite <- list_elem_of_In in Hcnt.
    repeat case_decide; try congruence.
    match goal with H : ~ _ ∈ _ |- _ => apply Hcnt in H end. lia.
  - split; [apply same_cell_shape_refl |]. repeat split; auto; try lia.
Qed.

Lemma Forall2_compose {A B C} (R : A -> B -> Prop) (S : B -> C -> Prop) (T : A -> C -> Prop)
      (a : list A) (b : list B) (c : list C) :
  (forall x y z, R x y -> S y z -> T x z) ->
  Forall2 R a b -> Forall2 S b c -> Forall2 T a c.
Proof.
  intros H Hab. revert c. induction Hab as [| x y a b Hxy _ IH]; intros c Hbc;
    inversion Hbc; subst; constructor; eauto.
Qed.

Lemma Forall2_Forall_step {A} (R : A -> A -> Prop) (P Q : A -> Prop) (a b : list A) :
  (forall x y, R x y -> P x -> Q y) -> Forall2 R a b -> Forall P a -> Forall Q b.
Proof.
  intros H Hab. induction Hab as [| x y a b Hxy _ IH]; intros Ha; [constructor |].
  inversion Ha; subst. constructor; eauto.
Qed.

Lemma disjoin_cell_step p pt pd cell :
  p <> GetNumberOfPoints pd ->
  Forall2 (disjoin_step p (GetNumberOfPoints pd)) (Cells pd) (Cells (disjoin_cell p pt pd cell)).
Proof.
  intros Hne. apply Forall2_same_length_lookup_2.
  - unfold disjoin_cell, InsertNextPoint, ReplaceCellPoint. simpl.
    destruct (0 <=? cell); [rewrite length_alter |]; reflexivity.
  - intros i c c' Hc Hc'.
    destruct (disjoin_cell_refs p pt pd cell i c Hne Hc) as (c1 & Hc1 & H1 & H2 & H3 & H4 & _).
    rewrite Hc1 in Hc'. injection Hc' as <-. repeat split; auto; apply H1.
Qed.

Lemma private_step p id (pd pd1 : vtkPolyData) v :
  Forall2 (disjoin_step p id) (Cells pd) (Cells pd1) ->
  v <> p -> v <> id -> private pd v -> private pd1 v.
Proof.
  intros Hstep Hp Hid [i Hi]. exists i. intros j c1 Hc1.
  destruct (Forall2_lookup_r _ _ _ _ _ Hstep Hc1) as (c & Hc & (_ & Hsame & _)).
  rewrite (Hsame v Hp Hid). apply (Hi j c Hc).
Qed.

Lemma unused_step p id (pd pd1 : vtkPolyData) v :
  Forall2 (disjoin_step p id) (Cells pd) (Cells pd1) ->
  v <> id -> unused pd v -> unused pd1 v.
Proof.
  intros Hstep Hid Hu. unfold unused in *.
  eapply Forall2_Forall_step; [| exact Hstep | exact Hu].
  intros c c1 H Hc. simpl in *.
  destruct H as (_ & Hsame & Hle & _).
  destruct (decide (v = p)) as [-> | Hp]; [lia |].
  rewrite (Hsame v Hp Hid). exact Hc.
Qed.

Lemma kept_refs_step p id (pd0 pd pd1 : vtkPolyData) v :
  Forall2 (disjoin_step p id) (Cells pd) (Cells pd1) ->
  v <> p -> v <> id -> kept_refs pd0 pd v -> kept_refs pd0 pd1 v.
Proof.
  intros Hstep Hp Hid Hk. unfold kept_refs in *.
  eapply Forall2_compose; [| exact Hk | exact Hstep].
  intros c0 c c1 H0 H1. simpl in *.
  destruct H1 as (_ & Hsame & _). rewrite (Hsame v Hp Hid). exact H0.
Qed.

Section DisjoinPolysFacts.

Variable Q : Point3d -> Prop.
Variable pd0 : vtkPolyData.
Hypothesis Hwf : well_formed pd0.

Let n0 := GetNumberOfPoints pd0.

Lemma disjoin_inv_points pd : disjoin_inv Q pd0 pd -> n0 <= GetNumberOfPoints pd.
Proof.
  intros ((extra & E & _) & _). unfold n0, GetNumberOfPoints. rewrite E, length_app. lia.
Qed.

Lemma disjoin_inv_start : disjoin_inv Q pd0 pd0.
Proof.
  split; [exists []; rewrite app_nil_r; auto |]. split; [reflexivity |]. split.
  { clear. induction (Cells pd0); constructor; auto.
    split; [apply same_cell_shape_refl | intros; lia]. }
  assert (Hout : forall v, GetNumberOfPoints pd0 <= v -> unused pd0 v).
  { intros v Hv. unfold unused. eapply Forall_impl; [exact Hwf |].
    intros c [_ Hc]. simpl in Hc. apply count_occ_not_In. intros Hin.
    rewrite List.Forall_forall in Hc. specialize (Hc v Hin). lia. }
  split; [| exact Hout].
  intros v Hv. exists 0%nat. intros j c Hc.
  specialize (Hout v Hv). unfold unused in Hout. rewrite List.Forall_forall in Hout.
  rewrite (Hout c) by (apply list_elem_of_In, list_elem_of_lookup; eauto). auto.
Qed.

(** One [disjoin_cell] for an old point. *)
Lemma disjoin_inv_step pd p pt cell :
  0 <= p < n0 -> Q pt ->
  disjoin_inv Q pd0 pd -> disjoin_inv Q pd0 (disjoin_cell p pt pd cell).
Proof.
  intros Hp HQ Hinv. pose proof (disjoin_inv_points pd Hinv) as Hn.
  assert (Hne : p <> GetNumberOfPoints pd) by lia.
  pose proof (disjoin_cell_step p pt pd cell Hne) as Hstep.
  destruct Hinv as ((extra & E & HQs) & HO & HL & HF & HU).
  destruct (Points_disjoin_cell p pt pd cell) as [EP EO].
  split; [| split; [| split; [| split]]].
  - exists (extra ++ [pt]). rewrite EP, E, app_assoc. split; [reflexivity |].
    apply Forall_app. split; [exact HQs | repeat constructor; exact HQ].
  - rewrite EO. exact HO.
  - eapply Forall2_compose; [| exact HL | exact Hstep].
    intros c0 c c1 H0 H1. simpl in *.
    destruct H0 as [[Ht Hl] Hle], H1 as ([Ht' Hl'] & Hsame & Hlep & _).
    split; [split; congruence |]. intros v Hv.
    destruct (decide (v = p)) as [-> | Hvp]; [specialize (Hle p Hv); lia |].
    rewrite (Hsame v Hvp) by (fold n0 in Hv; lia). apply Hle, Hv.
  - intros v Hv. fold n0 in Hv.
    destruct (decide (v = GetNumberOfPoints pd)) as [-> | Hvid].
    + exists (Z.to_nat cell). intros j c1 Hc1.
      destruct (Forall2_lookup_r _ _ _ _ _ Hstep Hc1) as (c & Hc & (_ & _ & _ & Hid)).
      assert (Hz : refs c (GetNumberOfPoints pd) = 0%nat).
      { specialize (HU (GetNumberOfPoints pd) ltac:(lia)). unfold unused in HU.
        rewrite List.Forall_forall in HU. apply HU, list_elem_of_In, list_elem_of_lookup. eauto. }
      split; [lia |]. intros Hj.
      destruct (disjoin_cell_refs p pt pd cell j c Hne Hc) as (c1' & Hc1' & _ & _ & _ & _ & Heq & _).
      rewrite Hc1 in Hc1'. injection Hc1' as <-. rewrite (Heq Hj). exact Hz.
    + apply (private_step p (GetNumberOfPoints pd) pd);
        [exact Hstep | lia | exact Hvid | apply HF; fold n0; lia].
  - intros v Hv. unfold GetNumberOfPoints in Hv. rewrite EP, length_app in Hv. simpl in Hv.
    apply (unused_step p (GetNumberOfPoints pd) pd);
      [exact Hstep | unfold GetNumberOfPoints; lia | apply HU; unfold GetNumberOfPoints; lia].
Qed.

Lemma refs_le_1 (i : nat) c0 v : Cells pd0 !! i = Some c0 -> (refs c0 v <= 1)%nat.
Proof.
  intros Hc. pose proof Hwf as Hall. unfold well_formed in Hall.
  rewrite List.Forall_forall in Hall.
  destruct (Hall c0) as [Hnd _]; [apply list_elem_of_In, list_elem_of_lookup; eauto |].
  apply NoDup_ListNoDup in Hnd.
  apply (proj1 (NoDup_count_occ Z.eq_dec (cellPts c0)) Hnd).
Qed.

(** The loop over the cells linked to an old point. *)
Lemma disjoin_cells_inv p pt : 0 <= p < n0 -> Q pt ->
  forall todo pd,
    disjoin_inv Q pd0 pd ->
    all_or_nothing pd0 pd (fun v => v = p) ->
    (forall (i : nat) c, Cells pd !! i = Some c -> Z.of_nat i ∉ todo -> refs c p = 0%nat) ->
    disjoin_inv Q pd0 (fold_left (disjoin_cell p pt) todo pd)
    /\ all_or_nothing pd0 (fold_left (disjoin_cell p pt) todo pd) (fun v => v = p)
    /\ unused (fold_left (disjoin_cell p pt) todo pd) p.
Proof.
  intros Hp HQ. induction todo as [| cell todo IH]; intros pd Hinv Haon Hdone; simpl.
  - split; [exact Hinv |]. split; [exact Haon |].
    apply Forall_lookup. intros i c Hc. apply (Hdone i c Hc), not_elem_of_nil.
  - pose proof (disjoin_inv_points pd Hinv) as Hn.
    assert (Hne : p <> GetNumberOfPoints pd) by lia.
    pose proof (disjoin_cell_step p pt pd cell Hne) as Hstep.
    apply IH.
    + apply disjoin_inv_step; assumption.
    + intros v Hv Hvp. fold n0 in Hv.
      destruct (Haon v Hv Hvp) as [Hk | Hu]; [left | right].
      * apply (kept_refs_step p (GetNumberOfPoints pd) pd0 pd); auto. lia.
      * apply (unused_step p (GetNumberOfPoints pd) pd); auto. lia.
    + intros i c1 Hc1 Hi.
      destruct (Forall2_lookup_r _ _ _ _ _ Hstep Hc1) as (c & Hc & (_ & _ & Hle & _)).
      destruct (decide (Z.of_nat i = cell)) as [Hcell | Hcell].
      * destruct (disjoin_cell_refs p pt pd cell i c Hne Hc)
          as (c1' & Hc1' & _ & _ & _ & _ & _ & Hdec).
        rewrite Hc1 in Hc1'. injection Hc1' as <-. rewrite (Hdec Hcell).
        destruct Hinv as (_ & _ & HL & _).
        destruct (Forall2_lookup_r _ _ _ _ _ HL Hc) as (c0 & Hc0 & (_ & Hle0)).
        pose proof (refs_le_1 i c0 p Hc0). specialize (Hle0 p Hp). lia.
      * assert (refs c p = 0%nat); [| lia].
        apply (Hdone i c Hc). intros Hin. apply elem_of_cons in Hin as [Hin | Hin]; auto.
Qed.

Lemma disjoin_point_inv pt pd p :
  Q pt -> disjoin_inv Q pd0 pd -> all_or_nothing pd0 pd (fun _ => False) ->
  disjoin_inv Q pd0 (disjoin_point pd0 pt pd p)
  /\ all_or_nothing pd0 (disjoin_point pd0 pt pd p) (fun _ => False).
Proof.
  intros HQ Hinv Haon. unfold disjoin_point.
  destruct (1 <? length (GetPointCells pd0 p))%nat eqn:Hlen; [| auto].
  apply Nat.ltb_lt in Hlen.
  assert (Hp : 0 <= p < n0).
  { destruct (GetPointCells pd0 p) as [| x rest] eqn:E; [simpl in Hlen; lia |].
    destruct (GetPointCells_used pd0 p x) as (c & Hc & Hin); [rewrite E; left; reflexivity |].
    pose proof Hwf as Hall. unfold well_formed in Hall. rewrite List.Forall_forall in Hall.
    destruct (Hall c Hc) as [_ Hr]. rewrite List.Forall_forall in Hr. apply (Hr p Hin). }
  destruct (disjoin_cells_inv p pt Hp HQ (GetPointCells pd0 p) pd Hinv) as (H1 & H2 & H3).
  - intros v Hv _. apply Haon; auto.
  - intros i c Hc Hi.
    destruct Hinv as (_ & _ & HL & _).
    destruct (Forall2_lookup_r _ _ _ _ _ HL Hc) as (c0 & Hc0 & (_ & Hle0)).
    assert (refs c0 p = 0%nat); [| specialize (Hle0 p Hp); lia].
    apply count_occ_not_In. intros Hin. apply Hi.
    apply (elem_of_GetPointCells pd0 p i c0 Hc0), uses_point_In, Hin.
  - split; [exact H1 |]. intros v Hv _.
    destruct (decide (v = p)) as [-> | Hvp]; [right; exact H3 | apply H2; auto].
Qed.

Lemma disjoin_points_inv pt found : Q pt -> forall pd,
  disjoin_inv Q pd0 pd -> all_or_nothing pd0 pd (fun _ => False) ->
  disjoin_inv Q pd0 (fold_left (disjoin_point pd0 pt) found pd)
  /\ all_or_nothing pd0 (fold_left (disjoin_point pd0 pt) found pd) (fun _ => False).
Proof.
  intros HQ. induction found as [| p found IH]; intros pd Hinv Haon; simpl; [auto |].
  destruct (disjoin_point_inv pt pd p HQ Hinv Haon) as [H1 H2]. apply IH; assumption.
Qed.

End DisjoinPolysFacts.

Lemma fold_emplace_if_In {V} (test : V -> bool) (key : V -> Z) (l : list V) :
  forall (m : gmap Z V) k v,
    fold_left (fun (m : gmap Z V) x => if test x then emplace (key x) x m else m) l m !! k
    = Some v ->
    m !! k = Some v \/ (In v l /\ test v = true).
Proof.
  induction l as [| x l IH]; intros m k v H; simpl in H; [auto |].
  apply IH in H as [H | [H1 H2]]; [| right; split; [right; exact H1 | exact H2]].
  destruct (test x) eqn:Ht; [| auto].
  rewrite emplace_lookup in H. destruct (m !! k) as [y |]; [auto |].
  destruct (decide (k = key x)); [| discriminate].
  injection H as <-. right. split; [left; reflexivity | exact Ht].
Qed.

Lemma disjoin_ends_In polyStrips sp :
  In sp (disjoin_ends polyStrips) -> end_coordinate polyStrips (sp_pt sp).
Proof.
  unfold disjoin_ends. intros H. apply in_map_iff in H as ([k v] & <- & Hin).
  apply list_elem_of_In, elem_of_entries in Hin.
  apply fold_emplace_if_In in Hin as [Hin | [Hin Ht]].
  - rewrite lookup_empty in Hin. discriminate.
  - exists v. split; [exact Hin |]. split; [apply Capt_eqb_eq, Ht | reflexivity].
Qed.

(** X21. [DisjoinPolys] on a mesh whose cells refer to points of the mesh
    only, and to none twice: the points and the cell data stay, every
    point added has the coordinates of a strip point of capture [A], and
    every cell keeps its place, type and length. An old point is
    afterwards referred to by the cells exactly as before or by no cell
    at all, and a new point by at most one cell, once: the cells that
    shared a point no longer share one. *)
Theorem DisjoinPolys_separates
  (FindPoints : list Point3d -> list Point3d -> Point3d -> list vtkIdType)
  (pd : vtkPolyData) (polyStrips : PolyStripsType) :
  well_formed pd ->
  let pd' := DisjoinPolys FindPoints pd polyStrips in
  (exists extra, Points pd' = Points pd ++ extra
                 /\ Forall (end_coordinate polyStrips) extra)
  /\ OrigCellIds pd' = OrigCellIds pd
  /\ Forall2 same_cell_shape (Cells pd) (Cells pd')
  /\ (forall v, 0 <= v < GetNumberOfPoints pd -> kept_refs pd pd' v \/ unused pd' v)
  /\ (forall v, GetNumberOfPoints pd <= v -> private pd' v).
Proof.
  intros Hwf pd'.
  assert (H : forall ends pd1,
             (forall sp, In sp ends -> end_coordinate polyStrips (sp_pt sp)) ->
             disjoin_inv (end_coordinate polyStrips) pd pd1 ->
             all_or_nothing pd pd1 (fun _ => False) ->
             disjoin_inv (end_coordinate polyStrips) pd
               (fold_left
                  (fun pd2 sp =>
                     fold_left (disjoin_point pd (sp_pt sp))
                               (FindPoints (Points pd) (Points pd2) (sp_pt sp)) pd2)
                  ends pd1)
             /\ all_or_nothing pd
                  (fold_left
                     (fun pd2 sp =>
                        fold_left (disjoin_point pd (sp_pt sp))
                                  (FindPoints (Points pd) (Points pd2) (sp_pt sp)) pd2)
                     ends pd1)
                  (fun _ => False)).
  { induction ends as [| sp ends IH]; intros pd1 Hends Hinv Haon; simpl; [auto |].
    destruct (disjoin_points_inv (end_coordinate polyStrips) pd Hwf (sp_pt sp)
                (FindPoints (Points pd) (Points pd1) (sp_pt sp))
                (Hends sp (or_introl eq_refl)) pd1 Hinv Haon) as [H1 H2].
    apply IH; auto. intros sp' Hsp'. apply Hends. right. exact Hsp'. }
  destruct (H (disjoin_ends polyStrips) pd) as [(HP & HO & HL & HF & _) Haon].
  - apply disjoin_ends_In.
  - apply disjoin_inv_start, Hwf.
  - intros v _ _. left. unfold kept_refs. clear. induction (Cells pd); constructor; auto.
  - fold pd' in HP, HO, HL, HF, Haon.
    split; [exact HP |]. split; [exact HO |]. split.
    + eapply Forall2_impl; [exact HL |]. intros c c' [Hs _]. exact Hs.
    + split; [| exact HF]. intros v Hv. apply Haon; auto.
Qed.

Lemma DisjoinPolys_separates_witness :
  Cells (DisjoinPolys sample_find_start sample_shared sample_shared_strips)
  = [mkCell VTK_POLYGON [4; 1; 2]; mkCell VTK_POLYGON [5; 2; 3]]
  /\ private (DisjoinPolys sample_find_start sample_shared sample_shared_strips) 4.
Proof.
  split; [vm_compute; reflexivity |].
  assert (Hwf : well_formed sample_shared).
  { unfold well_formed. apply (bool_decide_unpack _). vm_compute. exact I. }
  destruct (DisjoinPolys_separates sample_find_start sample_shared sample_shared_strips Hwf)
    as (_ & _ & _ & _ & Hnew).
  apply Hnew. vm_compute. discriminate.
Defined.

(** ** RestoreOrigPoints *)

Lemma moved_refl Q pd : moved Q pd pd.
Proof.
  repeat split. induction (Points pd); constructor; auto.
Qed.

Lemma SetPoint_moved (Q : Point3d -> Prop) pd0 pd id q :
  Q q -> moved Q pd0 pd -> moved Q pd0 (SetPoint pd id q).
Proof.
  intros HQ (HC & HO & HP). unfold SetPoint. repeat split; simpl; auto.
  destruct (0 <=? id); [| exact HP].
  apply Forall2_same_length_lookup_2.
  - rewrite length_insert. apply (Forall2_length _ _ _ HP).
  - intros i x y Hx Hy.
    destruct (decide (i = Z.to_nat id)) as [-> | Hne].
    + apply list_lookup_insert_Some in Hy as [(_ & <- & _) | [Hcontra _]]; [auto | congruence].
    + rewrite list_lookup_insert_ne in Hy by congruence.
      apply (Forall2_lookup_lr _ _ _ _ _ _ HP Hx Hy).
Qed.

(** X22. [RestoreOrigPoints] moves points and does nothing else: the
    cells and the cell data are as before, no point is added or removed,
    and every point either keeps its coordinates or gets the [pt] of a
    strip point that is captured on the boundary. *)
Theorem RestoreOrigPoints_only_moves
  (FindPoints : list Point3d -> list Point3d -> Point3d -> list vtkIdType)
  (pd : vtkPolyData) (polyStrips : PolyStripsType) :
  moved (contact_coordinate polyStrips) pd (RestoreOrigPoints FindPoints pd polyStrips).
Proof.
  unfold RestoreOrigPoints.
  assert (H : forall sps pd1,
             (forall sp, In sp sps -> In sp (all_strip_points polyStrips)) ->
             moved (contact_coordinate polyStrips) pd pd1 ->
             moved (contact_coordinate polyStrips) pd
                   (fold_left (restore_at FindPoints (Points pd)) sps pd1)).
  { induction sps as [| sp sps IH]; intros pd1 Hsub Hm; simpl; [exact Hm |].
    apply IH; [intros sp' Hsp'; apply Hsub; right; exact Hsp' |].
    unfold restore_at. destruct (Capt_Boundary (sp_capt sp)) eqn:Hb; [| exact Hm].
    assert (HQ : contact_coordinate polyStrips (sp_pt sp)).
    { exists sp. split; [apply Hsub; left; reflexivity | auto]. }
    revert Hm. generalize (FindPoints (Points pd) (Points pd1) (sp_cutPt sp)).
    intros found. revert pd1. induction found as [| id found IHf]; intros pd1 Hm; simpl;
      [exact Hm |].
    apply IHf, SetPoint_moved; assumption. }
  apply H; [auto | apply moved_refl].
Qed.

(** ** GetEdgePolys *)

Lemma pEdges_of_In (p : list Pair) : forall (m : gmap Z IdsType) cell pts pt,
  fold_left (fun (m : gmap Z IdsType) (pr : Pair) =>
               <[ pr.2 := default [] (m !! pr.2) ++ [pr.1] ]> m) p m !! cell = Some pts ->
  In pt pts ->
  (exists pts0, m !! cell = Some pts0 /\ In pt pts0) \/ In (pt, cell) p.
Proof.
  induction p as [| [f g] p IH]; intros m cell pts pt H Hin; simpl in H; [eauto |].
  destruct (IH _ _ _ _ H Hin) as [(pts0 & H0 & Hin0) | Hp]; [| right; right; exact Hp].
  simpl in H0. destruct (decide (g = cell)) as [-> | Hne].
  - rewrite lookup_insert_eq in H0. injection H0 as <-.
    apply in_app_iff in Hin0 as [Hin0 | [<- | []]]; [| right; left; reflexivity].
    destruct (m !! cell) as [l |] eqn:E; simpl in Hin0; [eauto | destruct Hin0].
  - rewrite lookup_insert_ne in H0 by exact Hne. eauto.
Qed.

Lemma In_point_cells pd pts pt cell :
  In (pt, cell) (point_cells pd pts) <-> In pt pts /\ In cell (GetPointCells pd pt).
Proof.
  unfold point_cells. rewrite in_flat_map. split.
  - intros (x & Hx & Hin). apply in_map_iff in Hin as (c & Heq & Hc).
    injection Heq as -> ->. auto.
  - intros [Hpt Hc]. exists pt. split; [exact Hpt |]. apply in_map_iff. eauto.
Qed.

Section GetEdgePolysFacts.

Variable ComputeNormal_poly : vtkPolyData -> list vtkIdType -> Point3d.

Lemma In_opp pd ptsA ptsB x :
  In x (flat_map (fun e : Z * IdsType => edges_between ComputeNormal_poly pd e.1 e.2)
                 (entries (pEdges_of (point_cells pd ptsA ++ point_cells pd ptsB)))) ->
  edge_between pd (ptsA ++ ptsB) x.
Proof.
  intros H. apply in_flat_map in H as ([cell pts] & He & Hx).
  apply list_elem_of_In, elem_of_entries in He. simpl in Hx.
  unfold edges_between in Hx.
  destruct (1 <? length pts)%nat; [| destruct Hx].
  apply in_flat_map in Hx as ([a b] & Hedge & Hx). simpl in Hx.
  destruct (existsb (Z.eqb a) pts) eqn:Ha; [| destruct Hx].
  destruct (existsb (Z.eqb b) pts) eqn:Hb; [| destruct Hx].
  destruct Hx as [<- | []]. unfold edge_between. simpl.
  assert (Hmem : forall v, existsb (Z.eqb v) pts = true ->
                   In v (ptsA ++ ptsB) /\ In cell (GetPointCells pd v)).
  { intros v Hv. apply existsb_exists in Hv as (y & Hy & Heq). apply Z.eqb_eq in Heq. subst y.
    destruct (pEdges_of_In _ _ _ _ _ He Hy) as [(pts0 & H0 & _) | Hin].
    - rewrite lookup_empty in H0. discriminate.
    - apply in_app_iff in Hin as [Hin | Hin]; apply In_point_cells in Hin as [H1 H2];
        split; auto; apply in_app_iff; auto. }
  destruct (Hmem a Ha) as [Ha1 Ha2]. destruct (Hmem b Hb) as [Hb1 Hb2]. auto 10.
Qed.

End GetEdgePolysFacts.

Lemma NoDup_flat_map {A B} (f : A -> list B) (l : list A) :
  NoDup l -> (forall x, In x l -> NoDup (f x)) ->
  (forall x y z, In x l -> In y l -> In z (f x) -> In z (f y) -> x = y) ->
  NoDup (flat_map f l).
Proof.
  induction l as [| x l IH]; intros Hnd Hf Hinj; simpl; [constructor |].
  apply NoDup_cons in Hnd as [Hx Hnd].
  apply NoDup_app. split; [apply Hf; left; reflexivity |]. split.
  - intros z Hz Hz'. apply list_elem_of_In, in_flat_map in Hz' as (y & Hy & Hzy).
    apply Hx. apply list_elem_of_In.
    rewrite (Hinj x y z); auto; [left; reflexivity | right; exact Hy | apply list_elem_of_In, Hz].
  - apply IH; [exact Hnd | intros; apply Hf; right; assumption |].
    intros a b z Ha Hb. apply Hinj; right; assumption.
Qed.

Lemma pEdges_of_fold (p : list Pair) : forall (m : gmap Z IdsType) cell,
  fold_left (fun (m : gmap Z IdsType) (pr : Pair) =>
               <[ pr.2 := default [] (m !! pr.2) ++ [pr.1] ]> m) p m !! cell
  = match List.filter (fun pr : Pair => pr.2 =? cell) p with
    | [] => m !! cell
    | l => Some (default [] (m !! cell) ++ map fst l)
    end.
Proof.
  induction p as [| [f g] p IH]; intros m cell; simpl; [reflexivity |].
  rewrite IH. destruct (Z.eqb_spec g cell) as [-> | Hne].
  - rewrite lookup_insert_eq. simpl.
    destruct (List.filter (fun pr : Pair => pr.2 =? cell) p) as [| q l]; simpl.
    + reflexivity.
    + rewrite <- app_assoc. reflexivity.
  - rewrite lookup_insert_ne by exact Hne. reflexivity.
Qed.

(** The given points linked to a cell, as [pEdges] lists them. *)
Lemma pEdges_of_lookup (p : list Pair) cell pts :
  pEdges_of p !! cell = Some pts <->
  pts = map fst (List.filter (fun pr : Pair => pr.2 =? cell) p) /\ pts <> [].
Proof.
  unfold pEdges_of. rewrite pEdges_of_fold, lookup_empty.
  destruct (List.filter (fun pr : Pair => pr.2 =? cell) p) as [| q l]; simpl.
  - split; [discriminate | intros [-> H]; contradiction].
  - split; [intros H; injection H as <-; split; [reflexivity | discriminate]
           | intros [-> _]; reflexivity].
Qed.

Lemma In_pts_of (p : list Pair) cell pt :
  In pt (map fst (List.filter (fun pr : Pair => pr.2 =? cell) p)) <-> In (pt, cell) p.
Proof.
  rewrite in_map_iff. split.
  - intros ([a b] & <- & Hin). apply filter_In in Hin as [Hin Heq]. simpl in *.
    apply Z.eqb_eq in Heq. subst b. exact Hin.
  - intros Hin. exists (pt, cell). split; [reflexivity |].
    apply filter_In. split; [exact Hin | simpl; apply Z.eqb_refl].
Qed.

Lemma In_GetPointCells pd pt cell :
  In cell (GetPointCells pd pt) -> 0 <= cell /\ In pt (GetCellPoints pd cell).
Proof.
  unfold GetPointCells. rewrite in_map_iff. intros ([i c] & <- & Hin). simpl.
  apply filter_In in Hin as [Hin Hu]. simpl in Hu.
  split; [lia |].
  apply list_elem_of_In, list_elem_of_lookup in Hin as [k Hk].
  change (combine ?a ?b) with (zip a b) in Hk.
  apply lookup_zip_with_Some in Hk as (x & y & Hxy & Hx & Hy).
  injection Hxy as <- <-.
  apply lookup_seq in Hx as [-> _]. simpl in Hy.
  unfold GetCellPoints, GetCell. rewrite Nat2Z.id, nth_lookup. simpl. rewrite Hy. simpl.
  unfold uses_point in Hu. apply existsb_exists in Hu as (v & Hv & Heq).
  apply Z.eqb_eq in Heq. subst v. exact Hv.
Qed.

Lemma NoDup_GetPointCells pd pt : NoDup (GetPointCells pd pt).
Proof.
  unfold GetPointCells.
  change (map ?f ?l) with (f <$> l).
  apply NoDup_fmap_2_strong.
  - intros [i c] [j d] Hi Hj Heq. simpl in Heq. apply Nat2Z.inj in Heq. subst j.
    apply list_elem_of_In, filter_In in Hi as [Hi _].
    apply list_elem_of_In, filter_In in Hj as [Hj _].
    apply list_elem_of_In, list_elem_of_lookup in Hi as [k Hk].
    apply list_elem_of_In, list_elem_of_lookup in Hj as [k' Hk'].
    change (combine ?a ?b) with (zip a b) in Hk, Hk'.
    apply lookup_zip_with_Some in Hk as (x & y & Hxy & Hx & Hy).
    apply lookup_zip_with_Some in Hk' as (x' & y' & Hxy' & Hx' & Hy').
    injection Hxy as <- <-. injection Hxy' as <- <-.
    apply lookup_seq in Hx as [-> _]. apply lookup_seq in Hx' as [Hx' _].
    simpl in *. subst. congruence.
  - apply NoDup_ListNoDup, List.NoDup_filter, NoDup_ListNoDup.
    apply (NoDup_fmap_1 fst). change (fst <$> ?l) with (map fst l).
    change (combine ?a ?b) with (zip a b).
    change (map fst (zip ?a ?b)) with ((zip a b).*1).
    rewrite fst_zip by (rewrite length_seq; lia).
    apply NoDup_seq.
Qed.

Lemma NoDup_point_cells pd pts : NoDup pts -> NoDup (point_cells pd pts).
Proof.
  intros Hnd. unfold point_cells. apply NoDup_flat_map; [exact Hnd | |].
  - intros pt _. change (map ?f ?l) with (f <$> l).
    apply NoDup_fmap_2; [| apply NoDup_GetPointCells].
    intros a b H. injection H as ->. reflexivity.
  - intros x y [a b] _ _ Hx Hy.
    apply in_map_iff in Hx as (? & Hx & _). apply in_map_iff in Hy as (? & Hy & _).
    congruence.
Qed.

Lemma NoDup_pts_of (p : list Pair) cell :
  NoDup p -> NoDup (map fst (List.filter (fun pr : Pair => pr.2 =? cell) p)).
Proof.
  intros Hnd. change (map ?f ?l) with (f <$> l).
  apply NoDup_fmap_2_strong.
  - intros [a b] [c d] Ha Hc Heq. simpl in Heq. subst c.
    apply list_elem_of_In, filter_In in Ha as [_ Ha].
    apply list_elem_of_In, filter_In in Hc as [_ Hc]. simpl in *.
    apply Z.eqb_eq in Ha, Hc. congruence.
  - apply NoDup_ListNoDup, List.NoDup_filter, NoDup_ListNoDup, Hnd.
Qed.

Lemma point_cells_app pd a b :
  point_cells pd a ++ point_cells pd b = point_cells pd (a ++ b).
Proof. unfold point_cells. rewrite flat_map_app. reflexivity. Qed.

Lemma fst_ring_edges (poly : list vtkIdType) : map fst (ring_edges poly) = poly.
Proof.
  unfold ring_edges. destruct poly as [| first rest]; [reflexivity |].
  change (map fst (combine ?a ?b)) with ((zip a b).*1).
  apply fst_zip. rewrite length_app. simpl. lia.
Qed.

Lemma NoDup_ring_edges (poly : list vtkIdType) : NoDup poly -> NoDup (ring_edges poly).
Proof.
  intros H. apply (NoDup_fmap_1 fst). change (fst <$> ?l) with (map fst l).
  rewrite fst_ring_edges. exact H.
Qed.

(** An edge of a ring without repeated vertices runs between two
    different vertices, unless the ring has one vertex only. *)
Lemma ring_edges_loop (poly : list vtkIdType) a :
  NoDup poly -> In (a, a) (ring_edges poly) -> poly = [a].
Proof.
  intros Hnd Hin. unfold ring_edges in Hin.
  destruct poly as [| first rest]; [destruct Hin |].
  apply list_elem_of_In, list_elem_of_lookup in Hin as [i Hi].
  change (combine ?x ?y) with (zip x y) in Hi.
  apply lookup_zip_with_Some in Hi as (x & y & Hxy & Hx & Hy).
  injection Hxy as <- <-.
  destruct (decide (i < length rest)%nat) as [Hlt | Hge].
  - rewrite lookup_app_l in Hy by exact Hlt.
    assert (Hy' : (first :: rest) !! S i = Some a) by exact Hy.
    pose proof (NoDup_lookup _ _ _ _ Hnd Hx Hy'). lia.
  - assert (Hi : i = length rest).
    { apply lookup_lt_Some in Hx. simpl in Hx. lia. }
    subst i. rewrite lookup_app_r, Nat.sub_diag in Hy by lia. simpl in Hy.
    injection Hy as ->.
    assert (H0 : (a :: rest) !! 0%nat = Some a) by reflexivity.
    pose proof (NoDup_lookup _ _ _ _ Hnd Hx H0) as Hz.
    destruct rest; [reflexivity | discriminate].
Qed.

Section GetEdgePolysExact.

Variable CN : vtkPolyData -> list vtkIdType -> Point3d.

Lemma In_edges_between pd cell pts x :
  In x (edges_between CN pd cell pts) <->
  (1 < length pts)%nat
  /\ exists a b, In (a, b) (ring_edges (GetCellPoints pd cell))
                 /\ In a pts /\ In b pts /\ x = PolyAtEdge_new CN pd cell a b.
Proof.
  unfold edges_between. destruct (Nat.ltb_spec 1 (length pts)) as [Hl | Hl].
  - rewrite in_flat_map. split.
    + intros ([a b] & Hin & Hx). simpl in Hx.
      destruct (existsb (Z.eqb a) pts) eqn:Ha; [| destruct Hx].
      destruct (existsb (Z.eqb b) pts) eqn:Hb; [| destruct Hx].
      destruct Hx as [<- | []].
      apply existsb_exists in Ha as (a' & Ha & Ea). apply Z.eqb_eq in Ea. subst a'.
      apply existsb_exists in Hb as (b' & Hb & Eb). apply Z.eqb_eq in Eb. subst b'.
      split; [exact Hl |]. exists a, b. auto.
    + intros (_ & a & b & Hin & Ha & Hb & ->). exists (a, b). split; [exact Hin |]. simpl.
      replace (existsb (Z.eqb a) pts) with true
        by (symmetry; apply existsb_exists; exists a; split; [exact Ha | apply Z.eqb_refl]).
      replace (existsb (Z.eqb b) pts) with true
        by (symmetry; apply existsb_exists; exists b; split; [exact Hb | apply Z.eqb_refl]).
      left. reflexivity.
  - split; [intros [] | intros [H _]; lia].
Qed.

Lemma NoDup_edges_between pd cell pts :
  NoDup (GetCellPoints pd cell) -> NoDup (edges_between CN pd cell pts).
Proof.
  intros Hnd. unfold edges_between. destruct (1 <? length pts)%nat; [| constructor].
  apply NoDup_flat_map; [apply NoDup_ring_edges, Hnd | |].
  - intros [a b] _. simpl. destruct (_ && _); [| constructor].
    apply NoDup_singleton.
  - intros [a b] [c d] z _ _ Hz1 Hz2. simpl in *.
    destruct (existsb (Z.eqb a) pts && existsb (Z.eqb b) pts); [| destruct Hz1].
    destruct (existsb (Z.eqb c) pts && existsb (Z.eqb d) pts); [| destruct Hz2].
    destruct Hz1 as [<- | []]. destruct Hz2 as [Hz | []].
    pose proof (f_equal ptIdA Hz) as E1. pose proof (f_equal ptIdB Hz) as E2.
    simpl in E1, E2. congruence.
Qed.

Lemma NoDup_GetCellPoints pd cell :
  Forall (fun c => NoDup (cellPts c)) (Cells pd) -> NoDup (GetCellPoints pd cell).
Proof.
  intros H. unfold GetCellPoints, GetCell. rewrite nth_lookup.
  destruct (Cells pd !! Z.to_nat cell) as [c |] eqn:Hc; simpl; [| constructor].
  rewrite Forall_lookup in H. apply (H _ _ Hc).
Qed.

Lemma NoDup_opp pd ptsA ptsB :
  Forall (fun c => NoDup (cellPts c)) (Cells pd) -> NoDup (opp_of CN pd ptsA ptsB).
Proof.
  intros Hcells. unfold opp_of. apply NoDup_flat_map.
  - apply (NoDup_fmap_1 fst), NoDup_fst_entries.
  - intros [cell pts] _. apply NoDup_edges_between, NoDup_GetCellPoints, Hcells.
  - intros [c1 p1] [c2 p2] z H1 H2 Hz1 Hz2. simpl in *.
    apply In_edges_between in Hz1 as (_ & a & b & _ & _ & _ & ->).
    apply In_edges_between in Hz2 as (_ & a' & b' & _ & _ & _ & Hz).
    pose proof (f_equal polyId Hz) as E. simpl in E. subst c2.
    apply list_elem_of_In, elem_of_entries in H1, H2. congruence.
Qed.

Lemma In_opp_iff pd ptsA ptsB x :
  NoDup (ptsA ++ ptsB) ->
  Forall (fun c => NoDup (cellPts c)) (Cells pd) ->
  In x (opp_of CN pd ptsA ptsB) <-> contact_edge CN pd (ptsA ++ ptsB) x.
Proof.
  intros Hpts Hcells. unfold opp_of. rewrite point_cells_app, in_flat_map.
  set (p := point_cells pd (ptsA ++ ptsB)).
  assert (Hp : forall pt cell, In (pt, cell) p <->
                 In pt (ptsA ++ ptsB) /\ In cell (GetPointCells pd pt)).
  { intros. apply In_point_cells. }
  split.
  - intros ([cell pts] & He & Hx). simpl in Hx.
    apply list_elem_of_In, elem_of_entries, pEdges_of_lookup in He as [Hpts' _].
    apply In_edges_between in Hx as (Hlen & a & b & Hedge & Ha & Hb & ->).
    rewrite Hpts' in Ha, Hb. apply In_pts_of, Hp in Ha as [Ha Hca].
    apply In_pts_of, Hp in Hb as [Hb Hcb].
    unfold contact_edge, edge_between. simpl.
    split; [reflexivity |]. split; [| auto 10].
    intros <-.
    apply ring_edges_loop in Hedge; [| apply NoDup_GetCellPoints, Hcells].
    assert (Hnd : NoDup pts).
    { rewrite Hpts'. apply NoDup_pts_of, NoDup_point_cells, Hpts. }
    assert (Hincl : forall v, In v pts -> In v [a]).
    { intros v Hv. rewrite Hpts' in Hv. apply In_pts_of, Hp in Hv as [_ Hv].
      apply In_GetPointCells in Hv as [_ Hv]. rewrite Hedge in Hv. exact Hv. }
    apply NoDup_ListNoDup in Hnd.
    pose proof (NoDup_incl_length Hnd Hincl) as Hle. simpl in Hle. lia.
  - intros (Hx & Hne & Hedge & Ha & Hb & Hca & Hcb & _).
    set (cell := polyId x) in *. set (a := ptIdA x) in *. set (b := ptIdB x) in *.
    set (pts := map fst (List.filter (fun pr : Pair => pr.2 =? cell) p)).
    assert (Hina : In a pts) by (apply In_pts_of, Hp; auto).
    assert (Hinb : In b pts) by (apply In_pts_of, Hp; auto).
    exists (cell, pts). split.
    + apply list_elem_of_In, elem_of_entries, pEdges_of_lookup.
      split; [reflexivity |]. intros E. rewrite E in Hina. destruct Hina.
    + simpl. apply In_edges_between. split.
      * destruct pts as [| u [| v pts']]; simpl in *; [tauto | | lia].
        destruct Hina as [<- | []]. destruct Hinb as [<- | []]. contradiction.
      * exists a, b. auto.
Qed.

End GetEdgePolysExact.

(** X23. What [GetEdgePolys] returns. Each of the two polygons of the
    pair has an edge of its ring that runs between two of the given
    points, both linked to the polygon, and starts without a location.
    When no point is given twice and no cell repeats a vertex, there is a
    pair exactly when two such edges exist and no third: the two of the
    pair differ, and every edge of a ring between two different given
    points linked to the polygon is one of them. *)
Theorem GetEdgePolys_edges (CN : vtkPolyData -> list vtkIdType -> Point3d)
        (pd : vtkPolyData) (ptsA ptsB : list vtkIdType) :
  (forall pp, GetEdgePolys CN pd ptsA ptsB = Some pp ->
     edge_between pd (ptsA ++ ptsB) (pA pp) /\ edge_between pd (ptsA ++ ptsB) (pB pp))
  /\ (NoDup (ptsA ++ ptsB) ->
      Forall (fun c => NoDup (cellPts c)) (Cells pd) ->
      (forall pp, GetEdgePolys CN pd ptsA ptsB = Some pp ->
         pA pp <> pB pp
         /\ forall x, contact_edge CN pd (ptsA ++ ptsB) x <-> x = pA pp \/ x = pB pp)
      /\ ((exists x y, x <> y
                       /\ forall z, contact_edge CN pd (ptsA ++ ptsB) z <-> z = x \/ z = y) ->
          exists pp, GetEdgePolys CN pd ptsA ptsB = Some pp)).
Proof.
  split.
  { unfold GetEdgePolys. intros pp H.
    pose proof (In_opp CN pd ptsA ptsB) as Hin.
    destruct (flat_map (fun e : Z * IdsType => edges_between CN pd e.1 e.2)
                       (entries (pEdges_of (point_cells pd ptsA ++ point_cells pd ptsB))))
      as [| a [| b [| c l]]]; try discriminate.
    injection H as <-. simpl. split; apply Hin; simpl; auto. }
  intros Hpts Hcells.
  pose proof (NoDup_opp CN pd ptsA ptsB Hcells) as Hnd.
  pose proof (fun x => In_opp_iff CN pd ptsA ptsB x Hpts Hcells) as Hiff.
  unfold GetEdgePolys. fold (opp_of CN pd ptsA ptsB).
  split.
  - intros pp H.
    destruct (opp_of CN pd ptsA ptsB) as [| a [| b [| c l]]]; try discriminate.
    injection H as <-. simpl. split.
    + apply NoDup_cons in Hnd as [Ha _]. intros E. apply Ha. rewrite E. left.
    + intros x. rewrite <- Hiff. simpl. intuition.
  - intros (x & y & Hxy & Hz).
    assert (Hperm : opp_of CN pd ptsA ptsB ≡ₚ [x; y]).
    { apply NoDup_Permutation; [exact Hnd | |].
      - apply NoDup_cons. split; [| apply NoDup_singleton].
        rewrite list_elem_of_singleton. exact Hxy.
      - intros z. rewrite list_elem_of_In, Hiff, Hz.
        rewrite elem_of_cons, list_elem_of_singleton. reflexivity. }
    apply Permutation_length in Hperm. simpl in Hperm.
    destruct (opp_of CN pd ptsA ptsB) as [| a [| b [| c l]]]; try discriminate.
    eexists. reflexivity.
Qed.

Lemma GetEdgePolys_edges_witness :
  let pp := mkPolyPair (PolyAtEdge_new sample_up sample_shared 0 2 0)
                       (PolyAtEdge_new sample_up sample_shared 1 0 2) in
  GetEdgePolys sample_up sample_shared [0] [2] = Some pp
  /\ edge_between sample_shared ([0] ++ [2]) (pA pp)
  /\ edge_between sample_shared ([0] ++ [2]) (pB pp)
  /\ pA pp <> pB pp
  /\ forall x, contact_edge sample_up sample_shared ([0] ++ [2]) x <-> x = pA pp \/ x = pB pp.
Proof.
  intros pp.
  assert (Hpp : GetEdgePolys sample_up sample_shared [0] [2] = Some pp)
    by (vm_compute; reflexivity).
  destruct (GetEdgePolys_edges sample_up sample_shared [0] [2]) as [Hedges Hexact].
  destruct Hexact as [Htwo _].
  - apply (bool_decide_unpack _). vm_compute. reflexivity.
  - repeat constructor; apply (bool_decide_unpack _); vm_compute; reflexivity.
  - destruct (Hedges pp Hpp) as [HA HB]. destruct (Htwo pp Hpp) as [Hne Hall].
    auto.
Defined.

(** ** CombineRegions: definite labels *)

Section LocateRegionsFacts.

Variable GetAngle : Point3d -> Point3d -> Point3d -> float.

Lemma GetLoc_definite (pp : PolyPair) (pT : PolyAtEdge) (mode : OperModeType) :
  mode = OPER_UNION \/ mode = OPER_INTERSECTION ->
  definite (loc (GetLoc GetAngle pp pT mode).2)
  /\ (definite (loc (pA pp)) -> definite (loc (pA (GetLoc GetAngle pp pT mode).1)))
  /\ (definite (loc (pB pp)) -> definite (loc (pB (GetLoc GetAngle pp pT mode).1))).
Proof.
  unfold GetLoc, definite. intros [-> | ->];
    destruct (IsCongruent (pA pp) pT), (IsCongruent (pB pp) pT); simpl;
    try destruct (GetAngle (pr (pA pp)) (pr (pB pp)) (pe (pA pp))
                  <? GetAngle (pr (pA pp)) (pr pT) (pe (pA pp)))%float;
    simpl; auto.
Qed.

Lemma locate_pairs_definite (ppA ppB : PolyPair) (mode : OperModeType) :
  mode = OPER_UNION \/ mode = OPER_INTERSECTION ->
  definite (loc (pA (locate_pairs GetAngle ppA ppB mode).1))
  /\ definite (loc (pB (locate_pairs GetAngle ppA ppB mode).1))
  /\ definite (loc (pA (locate_pairs GetAngle ppA ppB mode).2))
  /\ definite (loc (pB (locate_pairs GetAngle ppA ppB mode).2)).
Proof.
  intros Hm. unfold locate_pairs.
  destruct (GetLoc_definite ppB (pA ppA) mode Hm) as (Ha1 & _).
  destruct (GetLoc GetAngle ppB (pA ppA) mode) as [ppB1 a1]. simpl in Ha1.
  destruct (GetLoc_definite ppB1 (pB ppA) mode Hm) as (Ha2 & _).
  destruct (GetLoc GetAngle ppB1 (pB ppA) mode) as [ppB2 a2]. simpl in Ha2.
  destruct (GetLoc_definite (mkPolyPair a1 a2) (pA ppB2) mode Hm) as (Hb1 & HA1 & HB1).
  destruct (GetLoc GetAngle (mkPolyPair a1 a2) (pA ppB2) mode) as [ppA2 b1].
  simpl in Hb1, HA1, HB1.
  destruct (GetLoc_definite ppA2 (pB (mkPolyPair b1 (pB ppB2))) mode Hm) as (Hb2 & HA2 & HB2).
  destruct (GetLoc GetAngle ppA2 (pB (mkPolyPair b1 (pB ppB2))) mode) as [ppA3 b2].
  simpl in *. auto.
Qed.

Variable ComputeNormal_poly : vtkPolyData -> list vtkIdType -> Point3d.
Variable FindPoints : list Point3d -> Point3d -> list vtkIdType.
Variable pdA pdB : vtkPolyData.
Variable scalarsA scalarsB : list vtkIdType.

Lemma emplace_definite (k : Z) (l : Loc) (m : gmap Z Loc) :
  definite l -> map_Forall (fun _ x => definite x) m ->
  map_Forall (fun _ x => definite x) (emplace k l m).
Proof.
  intros Hl Hm j x Hx. rewrite emplace_lookup in Hx.
  destruct (m !! j) as [y |] eqn:E.
  - injection Hx as <-. apply (Hm j y E).
  - destruct (decide (j = k)); [injection Hx as <-; exact Hl | discriminate].
Qed.

Lemma locate_line_definite contLines mode (st : Labels) i :
  mode = OPER_UNION \/ mode = OPER_INTERSECTION ->
  map_Forall (fun _ x => definite x) st.1.1 /\ map_Forall (fun _ x => definite x) st.1.2 ->
  map_Forall (fun _ x => definite x)
             (locate_line GetAngle ComputeNormal_poly FindPoints pdA pdB scalarsA scalarsB
                          contLines mode st i).1.1
  /\ map_Forall (fun _ x => definite x)
                (locate_line GetAngle ComputeNormal_poly FindPoints pdA pdB scalarsA scalarsB
                             contLines mode st i).1.2.
Proof.
  intros Hm [HA HB]. destruct st as [[locsA locsB] failed]. simpl in HA, HB.
  unfold locate_line.
  destruct (is_empty_cell (GetCell contLines i)); [auto |].
  destruct (all_known scalarsA locsA _ && all_known scalarsB locsB _); [auto |].
  destruct (GetEdgePolys ComputeNormal_poly pdA _ _) as [ppA |]; [| auto].
  destruct (GetEdgePolys ComputeNormal_poly pdB _ _) as [ppB |]; [| auto].
  destruct (locate_pairs_definite ppA ppB mode Hm) as (H1 & H2 & H3 & H4).
  destruct (locate_pairs GetAngle ppA ppB mode) as [ppA' ppB']. simpl in *.
  split; apply emplace_definite; auto; apply emplace_definite; auto.
Qed.

(** X24. Under the operators union and intersection every region that
    the loop over the contact lines labels is labelled inside or outside:
    no entry of [locsA] or [locsB] is left without a location. *)
Theorem locate_regions_definite (contLines : vtkPolyData) (mode : OperModeType)
        (region : vtkIdType) (l : Loc) :
  mode = OPER_UNION \/ mode = OPER_INTERSECTION ->
  let labels := locate_regions GetAngle ComputeNormal_poly FindPoints pdA pdB
                               scalarsA scalarsB contLines mode in
  labels.1.1 !! region = Some l \/ labels.1.2 !! region = Some l ->
  definite l.
Proof.
  intros Hm labels. subst labels. unfold locate_regions.
  assert (H : forall lines (st : Labels),
             map_Forall (fun _ x => definite x) st.1.1
             /\ map_Forall (fun _ x => definite x) st.1.2 ->
             map_Forall (fun _ x => definite x)
               (fold_left (locate_line GetAngle ComputeNormal_poly FindPoints pdA pdB
                                       scalarsA scalarsB contLines mode) lines st).1.1
             /\ map_Forall (fun _ x => definite x)
                  (fold_left (locate_line GetAngle ComputeNormal_poly FindPoints pdA pdB
                                          scalarsA scalarsB contLines mode) lines st).1.2).
  { induction lines as [| i lines IH]; intros st Hst; simpl; [exact Hst |].
    apply IH, locate_line_definite; assumption. }
  destruct (H (seqZ 0 (GetNumberOfCells contLines)) (∅, ∅, [])) as [HA HB].
  { split; apply map_Forall_empty. }
  intros [Hl | Hl]; [apply (HA region l Hl) | apply (HB region l Hl)].
Qed.

End LocateRegionsFacts.

Lemma locate_regions_definite_witness :
  (sample_labels OPER_UNION).1.1 !! 0 = Some Loc_Inside /\ definite Loc_Inside.
Proof.
  split; [vm_compute; reflexivity |].
  apply (locate_regions_definite sample_angle sample_up sample_find sample_shared sample_wings
           [0; 0; 0; 0] [0; 0; 0; 0] sample_contact OPER_UNION 0 Loc_Inside).
  - left. reflexivity.
  - left. vm_compute. reflexivity.
Defined.

(** ** The fall-back for strip points that are not caught *)

Lemma rescued_by_spec ring sp corr :
  rescued_by ring sp corr = sp \/ rescued ring sp (rescued_by ring sp corr).
Proof.
  unfold rescued_by, rescued. destruct (Capt_eqb (sp_capt corr) Capt_A); [right | left];
    simpl; auto 10.
Qed.

Lemma rescued_chain ring sp sp' sp'' :
  rescued ring sp sp' -> sp'' = sp' \/ rescued ring sp' sp'' -> rescued ring sp sp''.
Proof.
  intros H [-> | H']; [exact H |].
  destruct H as (H1 & H2 & H3 & _), H' as (H1' & H2' & H3' & H'). unfold rescued.
  repeat split; try congruence; apply H'.
Qed.

Lemma rescue_sp_spec (polyStrips : PolyStripsType) pid ring sp :
  rescue_sp polyStrips pid ring sp = sp \/ rescued ring sp (rescue_sp polyStrips pid ring sp).
Proof.
  unfold rescue_sp. generalize (entries polyStrips). intros l.
  assert (H : forall sp1, sp1 = sp \/ rescued ring sp sp1 ->
            let r := fold_left
                       (fun sp' (e : Z * PStrips) =>
                          if e.1 =? pid then sp'
                          else match ps_pts e.2 !! sp_ind sp' with
                               | Some corr => rescued_by ring sp' corr
                               | None => sp'
                               end) l sp1 in
            r = sp \/ rescued ring sp r).
  { induction l as [| e l IH]; intros sp1 H1; simpl; [exact H1 |].
    apply IH. destruct (e.1 =? pid); [exact H1 |].
    destruct (ps_pts e.2 !! sp_ind sp1) as [corr |]; [| exact H1].
    destruct H1 as [-> | H1].
    - apply rescued_by_spec.
    - right. apply (rescued_chain ring sp sp1); [exact H1 | apply rescued_by_spec]. }
  apply H. left. reflexivity.
Qed.

Lemma In_not_catched (polyStrips : PolyStripsType) pid ind :
  In (pid, ind) (not_catched polyStrips) ->
  exists pStrips sp,
    polyStrips !! pid = Some pStrips /\ ps_pts pStrips !! ind = Some sp
    /\ sp_catched sp = false.
Proof.
  unfold not_catched. intros H. apply in_flat_map in H as ([q ps] & Hq & H).
  apply in_map_iff in H as ([k sp] & Heq & H). simpl in Heq. injection Heq as -> ->.
  apply filter_In in H as [H Hc]. simpl in Hc.
  apply list_elem_of_In, elem_of_entries in Hq, H.
  exists ps, sp. split; [exact Hq |]. split; [exact H |].
  destruct (sp_catched sp); [discriminate | reflexivity].
Qed.

Lemma kept_or_rescued_step ring sp0 sp sp' :
  sp_catched sp0 = false ->
  kept_or_rescued ring sp0 sp -> sp' = sp \/ rescued ring sp sp' ->
  kept_or_rescued ring sp0 sp'.
Proof.
  intros Hc [-> | [_ H]] H'.
  - destruct H' as [-> | H']; [left; reflexivity | right; auto].
  - right. split; [exact Hc |]. apply (rescued_chain ring sp0 sp); assumption.
Qed.

Lemma rescue_keeps (a b : PolyStripsType) (key : vtkIdType * vtkIdType) :
  (forall pStrips sp, a !! key.1 = Some pStrips -> ps_pts pStrips !! key.2 = Some sp ->
     sp_catched sp = false) ->
  (forall pid, option_Forall2 bundle_rescued (a !! pid) (b !! pid)) ->
  forall pid, option_Forall2 bundle_rescued (a !! pid) (rescue b key !! pid).
Proof.
  intros Hkey Hrel pid. unfold rescue. unfold vtkIdType in *.
  destruct (b !! key.1) as [psb |] eqn:Eb; [| apply Hrel].
  destruct (ps_pts psb !! key.2) as [spb |] eqn:Esp; [| apply Hrel].
  destruct (decide (pid = key.1)) as [-> | Hne].
  2: { rewrite lookup_insert_ne by congruence. apply Hrel. }
  rewrite lookup_insert_eq.
  pose proof (Hrel key.1) as Hk. rewrite Eb in Hk.
  inversion Hk as [psa ? (Hpoly & Hstrips & Hpts) Ea |]; subst.
  constructor. split; [exact Hpoly |]. split; [exact Hstrips |]. simpl.
  intros ind. destruct (decide (ind = key.2)) as [-> | Hi].
  2: { rewrite lookup_insert_ne by congruence. apply Hpts. }
  rewrite lookup_insert_eq.
  pose proof (Hpts key.2) as Hs. rewrite Esp in Hs.
  inversion Hs as [spa ? Hkr Espa |]; subst. constructor.
  apply (kept_or_rescued_step _ spa spb); [| exact Hkr |].
  - apply (Hkey psa spa); [symmetry; assumption | symmetry; assumption].
  - rewrite Hpoly. apply rescue_sp_spec.
Qed.

Lemma rescue_all_spec (polyStrips : PolyStripsType) (pid : vtkIdType) :
  option_Forall2 bundle_rescued (polyStrips !! pid) (rescue_all polyStrips !! pid).
Proof.
  unfold rescue_all.
  assert (H : forall keys b,
             (forall key, In key keys -> In key (not_catched polyStrips)) ->
             (forall q, option_Forall2 bundle_rescued (polyStrips !! q) (b !! q)) ->
             forall q, option_Forall2 bundle_rescued (polyStrips !! q)
                                      (fold_left rescue keys b !! q)).
  { induction keys as [| key keys IH]; intros b Hsub Hrel; simpl; [exact Hrel |].
    apply IH; [intros k Hk; apply Hsub; right; exact Hk |].
    apply rescue_keeps; [| exact Hrel].
    intros psa spa Ha Hsp.
    destruct key as [kp ki]. simpl in *.
    destruct (In_not_catched polyStrips kp ki (Hsub _ (or_introl eq_refl)))
      as (ps & sp & Hps & Hsp' & Hc).
    congruence. }
  apply H; [auto |].
  intros q. destruct (polyStrips !! q) as [ps |]; constructor.
  split; [reflexivity |]. split; [reflexivity |].
  intros ind. destruct (ps_pts ps !! ind); constructor. left. reflexivity.
Qed.

(** X25. The fall-back of [GetPolyStrips] only rescues: every polygon
    keeps its entry, its ring and its strips, and every strip point is
    either left exactly as it was, or it was not caught and is now caught
    with capture [A], its index, polygon and contact coordinates
    unchanged, [cutPt] equal to [captPt], and an edge that ends at the
    vertex after its start in the ring of its own polygon. *)
Theorem rescue_all_only_rescues (polyStrips : PolyStripsType) (pid : vtkIdType) :
  option_Forall2 bundle_rescued (polyStrips !! pid) (rescue_all polyStrips !! pid).
Proof. apply rescue_all_spec. Qed.

(** ** The tag of a contact point *)

Lemma collect_ends_tags cl sources lines :
  forall (acc : gmap Z vtkIdType * gmap Z Z) (k : Z),
    (fold_left
       (fun (acc : gmap Z vtkIdType * gmap Z Z) lineId =>
          let a := lineA cl lineId in
          let b := lineB cl lineId in
          let src := GetTypedComponent sources lineId in
          (emplace b src.2 (emplace a src.1 acc.1), count_up b (count_up a acc.2)))
       lines acc).1 !! k
    = match acc.1 !! k with
      | Some v => Some v
      | None => snd <$> List.find (fun e : Z * Z => e.1 =? k) (end_tags cl sources lines)
      end.
Proof.
  induction lines as [| i lines IH]; intros acc k; simpl.
  - destruct (acc.1 !! k); reflexivity.
  - rewrite IH. simpl. rewrite !emplace_lookup. unfold vtkIdType in *.
    destruct (acc.1 !! k) as [v |]; [reflexivity |].
    destruct (Z.eqb_spec (lineA cl i) k) as [Ha | Ha].
    + destruct (decide (k = lineA cl i)); [reflexivity | congruence].
    + destruct (decide (k = lineA cl i)); [congruence |].
      destruct (Z.eqb_spec (lineB cl i) k) as [Hb | Hb];
        destruct (decide (k = lineB cl i)); try congruence; reflexivity.
Qed.

(** X26. Where lines with different tags end at one contact point, the
    tag of the first end counts: the tag under which [GetStripPoints]
    locates a contact point is the one that the first line end at that
    point carries, in the order of the lines and with the first end of a
    line before its second. *)
Theorem tag_of_first_end (cl : vtkPolyData) (sources : list (vtkIdType * vtkIdType))
        (lines : IdsType) (k : vtkIdType) :
  tag_of cl sources lines k
  = snd <$> List.find (fun e : Z * Z => e.1 =? k) (end_tags cl sources lines).
Proof.
  unfold tag_of, collect_ends. rewrite collect_ends_tags. simpl.
  rewrite lookup_empty. reflexivity.
Qed.

(** ** The strip points of all polygons *)

Lemma kept_or_rescued_fields ring sp sp' :
  kept_or_rescued ring sp sp' ->
  sp_ind sp' = sp_ind sp /\ sp_polyId sp' = sp_polyId sp /\ sp_pt sp' = sp_pt sp.
Proof.
  intros [-> | [_ (H1 & H2 & H3 & _)]]; auto.
Qed.

Lemma BuildStripPoints_all_spec
  (StripPt_new : StripPt) (cl pd : vtkPolyData) (sources : list (vtkIdType * vtkIdType))
  (lines : gmap Z IdsType) (poly : vtkIdType) :
  option_Forall2
    (fun (l : IdsType) (pStrips : PStrips) =>
       ps_poly pStrips = GetCellPoints pd poly
       /\ ps_strips pStrips = []
       /\ (forall k, is_Some (ps_pts pStrips !! k) <-> In k (line_ends cl l))
       /\ (forall k sp, ps_pts pStrips !! k = Some sp ->
             sp_ind sp = k /\ sp_polyId sp = poly /\ sp_pt sp = GetPoint cl k))
    (lines !! poly)
    (BuildStripPoints_all StripPt_new cl pd sources lines !! poly).
Proof.
  unfold BuildStripPoints_all.
  set (stage := map_imap (fun poly l => Some (locate_poly StripPt_new cl pd sources poly l))
                         lines).
  pose proof (rescue_all_spec stage poly) as Hres.
  assert (Hstage : stage !! poly = locate_poly StripPt_new cl pd sources poly <$> lines !! poly).
  { unfold stage. rewrite map_lookup_imap. destruct (lines !! poly); reflexivity. }
  rewrite Hstage in Hres.
  destruct (lines !! poly) as [l |]; simpl in Hres;
    inversion Hres as [ps0 ps (Hpoly & Hstrips & Hpts) E0 E |]; subst; constructor.
  unfold locate_poly in Hpoly, Hstrips, Hpts. simpl in Hpoly, Hstrips, Hpts.
  destruct (GetStripPoints_frame StripPt_new cl pd sources (PStrips_new pd poly) l) as [Hf1 Hf2].
  pose proof (GetStripPoints_dom StripPt_new cl pd sources (PStrips_new pd poly) l) as Hdom.
  pose proof (GetStripPoints_own StripPt_new cl pd sources (PStrips_new pd poly) l) as Hown.
  set (gs := GetStripPoints StripPt_new cl pd sources (PStrips_new pd poly) l) in *.
  rewrite Hf1 in Hpoly. rewrite Hf2 in Hstrips. simpl in Hpoly, Hstrips.
  split; [exact Hpoly |]. split; [exact Hstrips |].
  assert (Hlk : forall k : Z,
             option_Forall2
               (fun sp0 sp => sp_ind sp = k /\ sp_polyId sp = poly /\ sp_pt sp = GetPoint cl k)
               (ps_pts gs !! k) (ps_pts ps !! k)).
  { intros k. specialize (Hpts k). rewrite lookup_fmap in Hpts. unfold vtkIdType in *.
    specialize (Hown k).
    destruct (ps_pts gs !! k) as [sp0 |]; simpl in Hpts;
      inversion Hpts as [? sp Hkr |]; subst; constructor.
    destruct (kept_or_rescued_fields _ _ _ Hkr) as (H1 & H2 & H3). simpl in H1, H2, H3.
    destruct (Hown sp0 eq_refl) as [Hi Hp]; [apply lookup_empty |].
    repeat split; congruence. }
  split.
  - intros k. specialize (Hlk k). specialize (Hdom k). simpl in Hdom.
    rewrite lookup_empty in Hdom. unfold vtkIdType in *.
    assert (Hiff : is_Some (ps_pts ps !! k) <-> is_Some (ps_pts gs !! k)).
    { inversion Hlk; split; intros [z Hz]; eauto; discriminate. }
    rewrite Hiff, Hdom. split; [intros [[x Hx] | H]; [discriminate | exact H] | auto].
  - intros k sp Hsp. specialize (Hlk k). unfold vtkIdType in *. rewrite Hsp in Hlk.
    inversion Hlk; subst. assumption.
Qed.

(** X27. The strip points [GetPolyStrips] hands to strip assembly: a
    polygon has a bundle exactly when it has lines; the bundle holds the
    ring of the polygon, no strips yet, and a strip point for exactly the
    ends of the polygon's lines, each stored under its own index, with the
    coordinates of its contact point and the id of the polygon. *)
Theorem BuildStripPoints_all_keys
  (StripPt_new : StripPt) (cl pd : vtkPolyData) (sources : list (vtkIdType * vtkIdType))
  (lines : gmap Z IdsType) (poly : vtkIdType) :
  option_Forall2
    (fun (l : IdsType) (pStrips : PStrips) =>
       ps_poly pStrips = GetCellPoints pd poly
       /\ ps_strips pStrips = []
       /\ (forall k, is_Some (ps_pts pStrips !! k) <-> In k (line_ends cl l))
       /\ (forall k sp, ps_pts pStrips !! k = Some sp ->
             sp_ind sp = k /\ sp_polyId sp = poly /\ sp_pt sp = GetPoint cl k))
    (lines !! poly)
    (BuildStripPoints_all StripPt_new cl pd sources lines !! poly).
Proof. apply BuildStripPoints_all_spec. Qed.

(** X28. Every polygon gets its strips: for a polygon with lines,
    strip assembly and [CompleteStrips] on the bundle that the first part
    of [GetPolyStrips] has prepared never throw; they leave the strip
    points alone, and every strip with an end of capture [Not] begins and
    ends at the same contact point. *)
Theorem GetPolyStrips_strips_of_every_polygon
  (StripPt_new : StripPt) (cl pd : vtkPolyData) (sources : list (vtkIdType * vtkIdType))
  (lines : gmap Z IdsType) (poly : vtkIdType) (l : IdsType) (pStrips : PStrips) :
  lines !! poly = Some l ->
  BuildStripPoints_all StripPt_new cl pd sources lines !! poly = Some pStrips ->
  exists pStrips',
    BuildStrips_poly StripPt_new cl l pStrips = Some pStrips'
    /\ ps_pts pStrips' = ps_pts pStrips
    /\ forall strip f b,
         In strip (ps_strips pStrips') -> head strip = Some f -> last strip = Some b ->
         capture_at (ps_pts pStrips) f = Some Capt_Not
         \/ capture_at (ps_pts pStrips) b = Some Capt_Not ->
         r_ind f = r_ind b.
Proof.
  intros Hl Hps.
  pose proof (BuildStripPoints_all_spec StripPt_new cl pd sources lines poly) as H.
  rewrite Hl, Hps in H. inversion H as [? ? (_ & _ & Hdom & Hown) |]; subst.
  assert (Hk : keyed (ps_pts pStrips)).
  { intros k sp Hsp. apply (Hown k sp Hsp). }
  assert (Hin : lines_in (ps_pts pStrips) (assembly_lines cl l)).
  { apply List.Forall_forall. intros e He. unfold assembly_lines in He.
    apply in_map_iff in He as (i & <- & Hi). simpl.
    destruct (In_line_ends cl l i Hi) as [Ha Hb]. split; apply Hdom; assumption. }
  destruct (assemble_total (ps_pts pStrips) (length (assembly_lines cl l))
                           (assembly_lines cl l) 0 Hin) as [strips Hs].
  unfold BuildStrips_poly, AssembleStrips. rewrite Hs. simpl.
  destruct (assemble_spec _ _ _ _ _ Hs (le_n _)) as (_ & _ & _ & Hall).
  set (assembled := mkPStrips (ps_poly pStrips) (ps_pts pStrips) strips).
  assert (Hends : Forall (ends_in (ps_pts assembled)) (ps_strips assembled)).
  { simpl. eapply Forall_impl; [exact Hall |]. intros s. apply strip_in_ends_in. }
  destruct (CompleteStrips_unfold StripPt_new assembled) as (pts' & E & _ & _ & Hsame).
  specialize (Hsame Hends). subst pts'.
  exists (CompleteStrips StripPt_new assembled).
  split; [reflexivity |]. rewrite E. simpl. split; [reflexivity |].
  intros strip f b Hstrip Hf Hb Hfree.
  apply in_map_iff in Hstrip as (s & <- & Hs').
  rewrite List.Forall_forall in Hends.
  apply (completed_closed StripPt_new (ps_pts pStrips) s f b); auto.
Qed.

Lemma GetPolyStrips_strips_of_every_polygon_witness :
  exists pStrips',
    BuildStrips_poly sample_new sample_contact [0] sample_prepared = Some pStrips'
    /\ ps_pts pStrips' = ps_pts sample_prepared
    /\ forall strip f b,
         In strip (ps_strips pStrips') -> head strip = Some f -> last strip = Some b ->
         capture_at (ps_pts sample_prepared) f = Some Capt_Not
         \/ capture_at (ps_pts sample_prepared) b = Some Capt_Not ->
         r_ind f = r_ind b.
Proof.
  apply (GetPolyStrips_strips_of_every_polygon sample_new sample_contact sample_triangle
           [(NOTSET, NOTSET)] {[ 0 := [0] ]} 0 [0] sample_prepared).
  - vm_compute. reflexivity.
  - vm_compute. reflexivity.
Defined.
